(** * slang: source locations, type relations and constant evaluation

    A shallow embedding of parts of the slang SystemVerilog front end:
    - [Source]: SourceLocation.h and SourceManager.cpp (buffer entries,
      line directives, ordering of locations in a compilation unit);
    - later modules: Type.cpp (matching and equivalence of types), the
      four-state evaluator and out-of-block method elaboration.

    Machine integers are [Z] with the wrap-around of their C++ type written
    out; vectors are lists; the [SmallMap] used while comparing locations is
    a [gmap]. *)

From Stdlib Require Import ZArith List Lia Bool String Ascii Sorted.
From stdpp Require Import base gmap.
Import ListNotations.
Open Scope Z_scope.

(** ** Outcomes of code that can fail an ASSERT or throw *)

Inductive Failure : Type :=
| AssertionFailed
| BadVariantAccess
| OutOfFuel.

Inductive result (A : Type) : Type :=
| Ok (a : A)
| Err (e : Failure).
Arguments Ok {A} a.
Arguments Err {A} e.

Definition rbind {A B : Type} (r : result A) (k : A -> result B) : result B :=
  match r with
  | Ok a => k a
  | Err e => Err e
  end.

Notation "'doR' x <- r 'in' k" := (rbind r (fun x => k))
  (at level 10, x name, r at level 100, k at level 200).

Definition ASSERT (b : bool) : result unit :=
  if b then Ok tt else Err AssertionFailed.

Notation "'ASSERT!' b 'in' k" := (rbind (ASSERT b) (fun _ => k))
  (at level 10, b at level 100, k at level 200).

Module Source.

(** *** SourceLocation.h *)

Definition uint32_t (z : Z) : Z := z mod 2 ^ 32.
Definition size_t (z : Z) : Z := z mod 2 ^ 64.

(** [struct BufferID { uint32_t id; }] *)
Definition BufferID : Type := Z.

Definition mkBufferID (value : Z) : BufferID := uint32_t value.

Definition BufferID_valid (b : BufferID) : bool := negb (b =? 0).

(** [class SourceLocation { uint64_t bufferID : 28; uint64_t charOffset : 36; }] *)
Record SourceLocation : Type := RawLocation {
  bufferID : Z;
  charOffset : Z
}.

(** The two-argument constructor stores into the bit fields, which keeps
    the low 28 and 36 bits. *)
Definition mkSourceLocation (buffer : BufferID) (offset : Z) : SourceLocation :=
  {| bufferID := buffer mod 2 ^ 28; charOffset := offset mod 2 ^ 36 |}.

(** The default constructor. *)
Definition SourceLocation_default : SourceLocation :=
  {| bufferID := 0; charOffset := 0 |}.

(** [buffer()] widens the 28-bit field to a [uint32_t]; nothing is cut. *)
Definition buffer (l : SourceLocation) : BufferID := bufferID l.
Definition offset (l : SourceLocation) : Z := charOffset l.
Definition valid (l : SourceLocation) : bool := BufferID_valid (buffer l).

Definition SourceLocation_eqb (a b : SourceLocation) : bool :=
  (bufferID a =? bufferID b) && (charOffset a =? charOffset b).

Definition NoLocation : SourceLocation :=
  mkSourceLocation (mkBufferID (2 ^ 28 - 1)) (2 ^ 36 - 1).

(** [operator+(T delta)] at [T = size_t], the instance that
    [getOriginalLoc] calls; the template itself is [SourceLocation_plus]
    below. *)
Definition SourceLocation_add (l : SourceLocation) (delta : Z) : SourceLocation :=
  mkSourceLocation (buffer l) (size_t (charOffset l + delta)).

Record SourceRange : Type := mkSourceRange {
  startLoc : SourceLocation;
  endLoc : SourceLocation
}.

Record SourceBuffer : Type := mkSourceBuffer {
  sb_data : list ascii;
  sb_id : BufferID
}.

(** A location as the bit fields can hold it. *)
Definition wf_loc (l : SourceLocation) : Prop :=
  0 <= bufferID l < 2 ^ 28 /\ 0 <= charOffset l < 2 ^ 36.

(** *** SourceManager.cpp: the data *)

Record LineDirectiveInfo : Type := mkLineDirectiveInfo {
  name : string;
  lineInFile : Z;
  lineOfDirective : Z;
  level : Z
}.

(** [FileData]: the line offsets of the C++ struct are a cache filled on
    the first request with [computeLineOffsets mem]; the embedding
    recomputes them from [mem]. *)
Record FileData : Type := mkFileData {
  fd_name : string;
  mem : list ascii
}.

Record FileInfo : Type := mkFileInfo {
  data : option FileData;
  includedFrom : SourceLocation;
  lineDirectives : list LineDirectiveInfo
}.

Record ExpansionInfo : Type := mkExpansionInfo {
  originalLoc : SourceLocation;
  expansionRange : SourceRange;
  isMacroArg : bool;
  macroName : string
}.

(** [std::variant<FileInfo, ExpansionInfo>] *)
Inductive BufferEntry : Type :=
| FileEntry (f : FileInfo)
| ExpansionEntry (e : ExpansionInfo).

Record SourceManager : Type := mkSourceManager {
  bufferEntries : list BufferEntry;
  userFileBuffers : list FileData;
  unnamedBufferCount : Z
}.

(** The constructor adds a dummy entry so that buffer 0 is never a real
    buffer. *)
Definition SourceManager_new : SourceManager :=
  {| bufferEntries := [FileEntry (mkFileInfo None SourceLocation_default [])];
     userFileBuffers := [];
     unnamedBufferCount := 0 |}.

Definition entries_size (sm : SourceManager) : Z :=
  Z.of_nat (length (bufferEntries sm)).

Definition entry_at (sm : SourceManager) (id : Z) : option BufferEntry :=
  nth_error (bufferEntries sm) (Z.to_nat id).

(** *** Creating buffers *)

Definition createBufferEntry (sm : SourceManager) (fd : FileData)
    (includedFrom : SourceLocation) : SourceManager * SourceBuffer :=
  let entries := bufferEntries sm ++ [FileEntry (mkFileInfo (Some fd) includedFrom [])] in
  ({| bufferEntries := entries;
      userFileBuffers := userFileBuffers sm;
      unnamedBufferCount := unnamedBufferCount sm |},
   mkSourceBuffer (mem fd) (mkBufferID (Z.of_nat (length entries) - 1))).

Definition createExpansionLoc (sm : SourceManager) (originalLoc : SourceLocation)
    (expansionRange : SourceRange) (isMacroArg : bool) : SourceManager * SourceLocation :=
  let entries := bufferEntries sm ++
                 [ExpansionEntry (mkExpansionInfo originalLoc expansionRange isMacroArg EmptyString)] in
  ({| bufferEntries := entries;
      userFileBuffers := userFileBuffers sm;
      unnamedBufferCount := unnamedBufferCount sm |},
   mkSourceLocation (mkBufferID (Z.of_nat (length entries) - 1)) 0).

Definition createExpansionLoc_named (sm : SourceManager) (originalLoc : SourceLocation)
    (expansionRange : SourceRange) (macroName : string) : SourceManager * SourceLocation :=
  let entries := bufferEntries sm ++
                 [ExpansionEntry (mkExpansionInfo originalLoc expansionRange false macroName)] in
  ({| bufferEntries := entries;
      userFileBuffers := userFileBuffers sm;
      unnamedBufferCount := unnamedBufferCount sm |},
   mkSourceLocation (mkBufferID (Z.of_nat (length entries) - 1)) 0).

Definition NUL : ascii := "000"%char.

Definition assignBuffer (sm : SourceManager) (path : string) (buf : list ascii)
    (includedFrom : SourceLocation) : SourceManager * SourceBuffer :=
  let fd := mkFileData path buf in
  let sm1 := {| bufferEntries := bufferEntries sm;
                userFileBuffers := userFileBuffers sm ++ [fd];
                unnamedBufferCount := unnamedBufferCount sm |} in
  createBufferEntry sm1 fd includedFrom.

Definition terminate (text : list ascii) : list ascii :=
  match rev text with
  | [] => text ++ [NUL]
  | c :: _ => if Ascii.eqb c NUL then text else text ++ [NUL]
  end.

(** [assignText(path, text, includedFrom)] for a named buffer; an empty
    path takes the synthetic name made from [unnamedBufferCount]. *)
Definition assignText (sm : SourceManager) (path : string) (unnamed : Z -> string)
    (text : list ascii) (includedFrom : SourceLocation) : SourceManager * SourceBuffer :=
  let '(sm1, path1) :=
    if String.eqb path EmptyString then
      ({| bufferEntries := bufferEntries sm;
          userFileBuffers := userFileBuffers sm;
          unnamedBufferCount := unnamedBufferCount sm + 1 |},
       unnamed (unnamedBufferCount sm))
    else (sm, path) in
  assignBuffer sm1 path1 (terminate text) includedFrom.

(** *** Queries on buffers *)

(** The [const] overload: a null pointer for an invalid or unknown buffer. *)
Definition getFileInfo (sm : SourceManager) (buf : BufferID) : option FileInfo :=
  if negb (BufferID_valid buf) then None
  else if entries_size sm <=? buf then None
  else match entry_at sm buf with
       | Some (FileEntry f) => Some f
       | _ => None
       end.

(** The overload used on a mutable manager asserts that the id is known. *)
Definition getFileInfo_mut (sm : SourceManager) (buf : BufferID) : result (option FileInfo) :=
  if negb (BufferID_valid buf) then Ok None
  else
    ASSERT! (buf <? entries_size sm) in
    match entry_at sm buf with
    | Some (FileEntry f) => Ok (Some f)
    | _ => Ok None
    end.

(** [std::get<ExpansionInfo>(bufferEntries[id])] after the ASSERT on the id. *)
Definition getExpansionInfo (sm : SourceManager) (buf : BufferID) : result ExpansionInfo :=
  ASSERT! (buf <? entries_size sm) in
  match entry_at sm buf with
  | Some (ExpansionEntry e) => Ok e
  | _ => Err BadVariantAccess
  end.

Definition isFileLoc (sm : SourceManager) (location : SourceLocation) : bool :=
  if SourceLocation_eqb location NoLocation then false
  else match getFileInfo sm (buffer location) with
       | Some _ => true
       | None => false
       end.

Definition isMacroLoc (sm : SourceManager) (location : SourceLocation) : result bool :=
  if SourceLocation_eqb location NoLocation then Ok false
  else if negb (BufferID_valid (buffer location)) then Ok false
  else
    ASSERT! (buffer location <? entries_size sm) in
    match entry_at sm (buffer location) with
    | Some (ExpansionEntry _) => Ok true
    | _ => Ok false
    end.

Definition isMacroArgLoc (sm : SourceManager) (location : SourceLocation) : result bool :=
  if SourceLocation_eqb location NoLocation then Ok false
  else if negb (BufferID_valid (buffer location)) then Ok false
  else
    ASSERT! (buffer location <? entries_size sm) in
    match entry_at sm (buffer location) with
    | Some (ExpansionEntry e) => Ok (isMacroArg e)
    | _ => Ok false
    end.

Definition getIncludedFrom (sm : SourceManager) (buf : BufferID) : SourceLocation :=
  match getFileInfo sm buf with
  | None => SourceLocation_default
  | Some info => includedFrom info
  end.

Definition isIncludedFileLoc (sm : SourceManager) (location : SourceLocation) : bool :=
  valid (getIncludedFrom sm (buffer location)).

Definition getExpansionLoc (sm : SourceManager) (location : SourceLocation)
    : result SourceLocation :=
  if negb (BufferID_valid (buffer location)) then Ok SourceLocation_default
  else
    doR info <- getExpansionInfo sm (buffer location) in
    Ok (startLoc (expansionRange info)).

Definition getOriginalLoc (sm : SourceManager) (location : SourceLocation)
    : result SourceLocation :=
  if negb (BufferID_valid (buffer location)) then Ok SourceLocation_default
  else
    doR info <- getExpansionInfo sm (buffer location) in
    Ok (SourceLocation_add (originalLoc info) (offset location)).

(** [while (isMacroLoc(location)) ...]: one unit of fuel per iteration. *)
Fixpoint getFullyExpandedLoc_loop (fuel : nat) (sm : SourceManager)
    (location : SourceLocation) : result SourceLocation :=
  doR macro <- isMacroLoc sm location in
  if macro then
    match fuel with
    | O => Err OutOfFuel
    | S fuel' =>
      doR arg <- isMacroArgLoc sm location in
      doR next <- (if arg then getOriginalLoc sm location
                   else getExpansionLoc sm location) in
      getFullyExpandedLoc_loop fuel' sm next
    end
  else Ok location.

Definition getFullyExpandedLoc (sm : SourceManager) (location : SourceLocation)
    : result SourceLocation :=
  getFullyExpandedLoc_loop (length (bufferEntries sm)) sm location.

(** *** Line numbers *)

Definition isNewline (c : ascii) : bool :=
  Ascii.eqb c "010"%char || Ascii.eqb c "013"%char.

(** [computeLineOffsets]: [pos] is [ptr - buffer.data()]. The buffer ends in
    a NUL, so [ptr[1]] is read inside it. *)
Fixpoint computeLineOffsets_from (pos : Z) (buf : list ascii) : list Z :=
  match buf with
  | [] => []
  | c0 :: rest =>
    if isNewline c0 then
      match rest with
      | c1 :: rest' =>
        if isNewline c1 && negb (Ascii.eqb c0 c1)
        then (pos + 2) :: computeLineOffsets_from (pos + 2) rest'
        else (pos + 1) :: computeLineOffsets_from (pos + 1) rest
      | [] => [pos + 1]
      end
    else computeLineOffsets_from (pos + 1) rest
  end.

Definition computeLineOffsets (buf : list ascii) : list Z :=
  0 :: computeLineOffsets_from 0 buf.

(** [std::lower_bound] over a vector: the binary search of the standard
    library, with [comp x] for [comp(x, value)]. Iterators are indices. *)
Section LowerBound.
Context {A : Type} (comp : A -> bool).

Fixpoint lower_bound_loop (fuel : nat) (l : list A) (first len : nat) : nat :=
  match fuel with
  | O => first
  | S fuel' =>
    if (len =? 0)%nat then first
    else
      let half := (len / 2)%nat in
      let middle := (first + half)%nat in
      match nth_error l middle with
      | Some x =>
        if comp x
        then lower_bound_loop fuel' l (middle + 1)%nat (len - half - 1)%nat
        else lower_bound_loop fuel' l first half
      | None => first
      end
  end.

Definition lower_bound (l : list A) : nat :=
  lower_bound_loop (length l) l 0%nat (length l).

(** The precondition of [std::lower_bound]: the vector is partitioned by
    [comp], once [comp] fails it fails for every later element. *)
Definition partitioned (l : list A) : Prop :=
  forall i j x y, (i <= j)%nat ->
    nth_error l i = Some x -> nth_error l j = Some y ->
    comp y = true -> comp x = true.

(** What [std::lower_bound] promises of the index [r] it returns. *)
Definition bound_at (l : list A) (r : nat) : Prop :=
  (r <= length l)%nat /\
  (forall i x, (i < r)%nat -> nth_error l i = Some x -> comp x = true) /\
  (forall i x, (r <= i)%nat -> nth_error l i = Some x -> comp x = false).
End LowerBound.

Definition getRawLineNumber (sm : SourceManager) (location : SourceLocation) : Z :=
  match getFileInfo sm (buffer location) with
  | None => 0
  | Some info =>
    match data info with
    | None => 0
    | Some fd =>
      let lineOffsets := computeLineOffsets (mem fd) in
      let it := lower_bound (fun x => x <? offset location) lineOffsets in
      let line := Z.of_nat it in
      match nth_error lineOffsets it with
      | Some x => if x =? offset location then size_t (line + 1) else line
      | None => line
      end
    end
  end.

(** [vector::back()] *)
Definition back {A : Type} (l : list A) : option A :=
  nth_error l (length l - 1).

(** [FileInfo::getPreviousLineDirective] *)
Definition getPreviousLineDirective (lineDirectives : list LineDirectiveInfo)
    (rawLineNumber : Z) : option LineDirectiveInfo :=
  let it := lower_bound (fun a => lineInFile a <? rawLineNumber) lineDirectives in
  if negb (it =? 0)%nat then
    if (it =? length lineDirectives)%nat
       && match back lineDirectives with
          | Some b => rawLineNumber <=? lineInFile b
          | None => false
          end
    then None
    else nth_error lineDirectives (it - 1)
  else None.

Definition getLineNumber (sm : SourceManager) (location : SourceLocation) : result Z :=
  doR fileLocation <- getFullyExpandedLoc sm location in
  let rawLineNumber := getRawLineNumber sm fileLocation in
  if rawLineNumber =? 0 then Ok 0
  else
    match getFileInfo sm (buffer fileLocation) with
    | None => Err AssertionFailed
    | Some info =>
      match getPreviousLineDirective (lineDirectives info) rawLineNumber with
      | None => Ok rawLineNumber
      | Some lineDirective =>
        Ok (size_t (size_t (lineOfDirective lineDirective
                            + size_t (rawLineNumber - lineInFile lineDirective)) - 1))
      end
    end.

(** [addLineDirective]: [full] is the path the directive's name resolves
    to; the new directive goes to the back of the buffer's vector. *)
Definition addLineDirective (sm : SourceManager) (location : SourceLocation)
    (lineNum : Z) (full : string) (level : Z) : result SourceManager :=
  doR fileLocation <- getFullyExpandedLoc sm location in
  doR info <- getFileInfo_mut sm (buffer fileLocation) in
  match info with
  | None => Ok sm
  | Some info =>
    match data info with
    | None => Ok sm
    | Some _ =>
      let sourceLineNum := getRawLineNumber sm fileLocation in
      let info' :=
        {| data := data info;
           includedFrom := includedFrom info;
           lineDirectives := lineDirectives info ++
             [mkLineDirectiveInfo full sourceLineNum (size_t lineNum) (level mod 2 ^ 8)] |} in
      Ok {| bufferEntries :=
              <[Z.to_nat (buffer fileLocation) := FileEntry info']> (bufferEntries sm);
            userFileBuffers := userFileBuffers sm;
            unnamedBufferCount := unnamedBufferCount sm |}
    end
  end.

(** *** Ordering locations inside a compilation unit *)

(** The lambda [moveUp]: the flag is its return value ([true]: there is no
    parent and [sl] is left as it is), the location is [sl] afterwards. *)
Definition moveUp (sm : SourceManager) (sl : SourceLocation)
    : result (bool * SourceLocation) :=
  if valid sl && negb (isFileLoc sm sl) then
    doR expansion <- getExpansionLoc sm sl in
    Ok (false, expansion)
  else
    let included := getIncludedFrom sm (buffer sl) in
    if negb (valid included) then Ok (true, sl) else Ok (false, included).

(** [SmallMap::emplace]: an existing key keeps its value. *)
Definition emplace (m : gmap Z Z) (k v : Z) : gmap Z Z :=
  match m !! k with
  | Some _ => m
  | None => <[k := v]> m
  end.

(** [do { leftChain.emplace(...); } while (left.buffer() != right.buffer()
    && !moveUp(left));] *)
Fixpoint leftChain_loop (fuel : nat) (sm : SourceManager) (right left : SourceLocation)
    (leftChain : gmap Z Z) : result (gmap Z Z * SourceLocation) :=
  let leftChain := emplace leftChain (buffer left) (offset left) in
  if negb (buffer left =? buffer right) then
    doR up <- moveUp sm left in
    if fst up then Ok (leftChain, snd up)
    else match fuel with
         | O => Err OutOfFuel
         | S fuel' => leftChain_loop fuel' sm right (snd up) leftChain
         end
  else Ok (leftChain, left).

(** [while ((it = leftChain.find(right.buffer())) == leftChain.end())
    { if (moveUp(right)) break; }] *)
Fixpoint rightChain_loop (fuel : nat) (sm : SourceManager) (leftChain : gmap Z Z)
    (right : SourceLocation) : result (option (Z * Z) * SourceLocation) :=
  match leftChain !! buffer right with
  | Some off => Ok (Some (buffer right, off), right)
  | None =>
    doR up <- moveUp sm right in
    if fst up then Ok (None, snd up)
    else match fuel with
         | O => Err OutOfFuel
         | S fuel' => rightChain_loop fuel' sm leftChain (snd up)
         end
  end.

Definition isBeforeInCompilationUnit (sm : SourceManager) (left right : SourceLocation)
    : result bool :=
  if buffer left =? buffer right then Ok (offset left <? offset right)
  else
    let fuel := length (bufferEntries sm) in
    doR lc <- leftChain_loop fuel sm right left ∅ in
    doR rc <- rightChain_loop fuel sm (fst lc) right in
    let left' :=
      match fst rc with
      | Some (b, off) => mkSourceLocation b off
      | None => snd lc
      end in
    ASSERT! (buffer left' =? buffer (snd rc)) in
    Ok (offset left' <? offset (snd rc)).

(** *** Reference notions used to state the facts below *)

(** The directive nearest before a raw line, by a scan of the whole
    vector: the last entry whose in-file line is below [rawLineNumber]. *)
Fixpoint nearestPreceding (l : list LineDirectiveInfo) (rawLineNumber : Z)
    : option LineDirectiveInfo :=
  match l with
  | [] => None
  | d :: rest =>
    match nearestPreceding rest rawLineNumber with
    | Some d' => Some d'
    | None => if lineInFile d <? rawLineNumber then Some d else None
    end
  end.

Definition sortedByLineInFile (l : list LineDirectiveInfo) : Prop :=
  StronglySorted (fun a b => lineInFile a <= lineInFile b) l.

(** The location one step up from a buffer: where the file was included
    from, or where the macro was expanded. A file that was not included has
    none. *)
Definition parentLoc (sm : SourceManager) (b : BufferID) : option SourceLocation :=
  match entry_at sm b with
  | Some (FileEntry f) => if valid (includedFrom f) then Some (includedFrom f) else None
  | Some (ExpansionEntry e) => Some (startLoc (expansionRange e))
  | None => None
  end.

Fixpoint ancestors (fuel : nat) (sm : SourceManager) (b : BufferID) : list SourceLocation :=
  match fuel with
  | O => []
  | S fuel' =>
    match parentLoc sm b with
    | Some p => p :: ancestors fuel' sm (buffer p)
    | None => []
    end
  end.

(** The include and expansion chain of a location, the location first. *)
Definition chain (sm : SourceManager) (loc : SourceLocation) : list SourceLocation :=
  loc :: ancestors (Z.to_nat (buffer loc)) sm (buffer loc).

(** The buffer a chain ends in. *)
Definition rootOf (sm : SourceManager) (loc : SourceLocation) : BufferID :=
  buffer (List.last (chain sm loc) loc).

(** The offset at which a chain passes through buffer [B]. *)
Fixpoint offsetIn (c : list SourceLocation) (B : BufferID) : option Z :=
  match c with
  | [] => None
  | l :: rest => if buffer l =? B then Some (offset l) else offsetIn rest B
  end.

(** The first location of [cb] whose buffer [ca] passes through, with the
    two offsets in that buffer. *)
Fixpoint firstCommon (ca cb : list SourceLocation) : option (BufferID * Z * Z) :=
  match cb with
  | [] => None
  | r :: rest =>
    match offsetIn ca (buffer r) with
    | Some x => Some (buffer r, x, offset r)
    | None => firstCommon ca rest
    end
  end.

Definition in_range (sm : SourceManager) (loc : SourceLocation) : Prop :=
  wf_loc loc /\ buffer loc < entries_size sm.

(** Buffers are created after the locations they are included from or
    expanded at, and their ids fit the 28-bit field below [NoLocation]'s. *)
Definition wf_manager (sm : SourceManager) : Prop :=
  entries_size sm < 2 ^ 28
  /\ forall b p, parentLoc sm b = Some p -> wf_loc p /\ buffer p < b.

(** The part of a chain that [leftChain_loop] records: up to the first
    location in the buffer of [right]. *)
Fixpoint leftPrefix (rb : BufferID) (c : list SourceLocation) : list SourceLocation :=
  match c with
  | [] => []
  | l :: rest => if buffer l =? rb then [l] else l :: leftPrefix rb rest
  end.

Definition emplaceAll (m : gmap Z Z) (c : list SourceLocation) : gmap Z Z :=
  fold_left (fun m l => emplace m (buffer l) (offset l)) c m.

(** A file with a macro used at offset 10, and the buffer of its expansion. *)
Definition expanded : SourceManager :=
  {| bufferEntries :=
       [FileEntry (mkFileInfo None SourceLocation_default []);
        FileEntry (mkFileInfo (Some (mkFileData "a.sv" [NUL])) SourceLocation_default []);
        ExpansionEntry
          (mkExpansionInfo (RawLocation 1 0)
             (mkSourceRange (RawLocation 1 10) (RawLocation 1 14)) false "FOO")];
     userFileBuffers := [];
     unnamedBufferCount := 0 |}.

(** A manager with one file of three lines and a directive on its first
    line that renumbers the following line as line 100. *)
Definition remapped : SourceManager :=
  {| bufferEntries :=
       [FileEntry (mkFileInfo None SourceLocation_default []);
        FileEntry
          (mkFileInfo
             (Some (mkFileData "a.sv"
                      ["a"; "010"; "b"; "010"; "c"; "010"; "000"]%char))
             SourceLocation_default
             [mkLineDirectiveInfo "x.sv" 1 100 0])];
     userFileBuffers := [];
     unnamedBufferCount := 0 |}.

(** The operations that add a buffer, and the id each hands back. *)
Inductive CreateOp : Type :=
| OpBufferEntry (fd : FileData) (includedFrom : SourceLocation)
| OpAssignBuffer (path : string) (buf : list ascii) (includedFrom : SourceLocation)
| OpExpansion (originalLoc : SourceLocation) (expansionRange : SourceRange) (isMacroArg : bool)
| OpExpansionNamed (originalLoc : SourceLocation) (expansionRange : SourceRange)
    (macroName : string).

Definition create (sm : SourceManager) (op : CreateOp) : SourceManager * BufferID :=
  match op with
  | OpBufferEntry fd inc =>
    let r := createBufferEntry sm fd inc in (fst r, sb_id (snd r))
  | OpAssignBuffer path buf inc =>
    let r := assignBuffer sm path buf inc in (fst r, sb_id (snd r))
  | OpExpansion o range arg =>
    let r := createExpansionLoc sm o range arg in (fst r, buffer (snd r))
  | OpExpansionNamed o range nm =>
    let r := createExpansionLoc_named sm o range nm in (fst r, buffer (snd r))
  end.

Fixpoint createAll (sm : SourceManager) (ops : list CreateOp)
    : SourceManager * list BufferID :=
  match ops with
  | [] => (sm, [])
  | op :: rest =>
    let r := create sm op in
    let r' := createAll (fst r) rest in
    (fst r', snd r :: snd r')
  end.

(** The number of ids a [SourceLocation] can tell apart. *)
Definition BUFFER_ID_LIMIT : Z := Eval cbv in 2 ^ 28.

(** A manager that already holds [BUFFER_ID_LIMIT] entries. *)
Definition crowded : SourceManager :=
  {| bufferEntries :=
       repeat (FileEntry (mkFileInfo None SourceLocation_default []))
              (Z.to_nat BUFFER_ID_LIMIT);
     userFileBuffers := [];
     unnamedBufferCount := 0 |}.

(** *** SourceLocation.h: the remaining operators *)

(** [operator<]: by buffer id, then by offset. *)
Definition SourceLocation_ltb (a b : SourceLocation) : bool :=
  if negb (bufferID a =? bufferID b) then bufferID a <? bufferID b
  else charOffset a <? charOffset b.

(** [operator>=] *)
Definition SourceLocation_geb (a b : SourceLocation) : bool :=
  negb (SourceLocation_ltb a b).

(** [operator-(T delta)] at [T = size_t]; the template itself is
    [SourceLocation_minus] below. *)
Definition SourceLocation_sub (l : SourceLocation) (delta : Z) : SourceLocation :=
  mkSourceLocation (buffer l) (size_t (charOffset l - delta)).

(** [ptrdiff_t operator-(SourceLocation loc)]: both offsets are below
    [2^36], the difference of the two [ptrdiff_t] does not wrap. *)
Definition SourceLocation_diff (l loc : SourceLocation) : result Z :=
  ASSERT! (buffer loc =? buffer l) in
  Ok (charOffset l - charOffset loc).

(** *** SourceLocation.h: the template operators

    [operator+(T delta)] and [operator-(T delta)] are templates over an
    integral type [T]: the offset is cast to [T], the sum or difference is
    computed in [T] (in [int] for a narrower [T], by the integral
    promotions), and the result is converted to [size_t] and stored in the
    36-bit field. *)

(** An integer type by its width and signedness: [int] is 32 bits and
    signed, [size_t] 64 bits and unsigned. The conversion to a signed type
    of a value that does not fit is taken modulo [2^bits], as the compilers
    of the project do; [bool], whose conversion is not modular, is not one
    of these types. *)
Record IntegerType : Type := mkIntegerType {
  it_bits : Z;
  it_signed : bool
}.

Definition T_int : IntegerType := mkIntegerType 32 true.
Definition T_unsigned : IntegerType := mkIntegerType 32 false.
Definition T_ptrdiff_t : IntegerType := mkIntegerType 64 true.
Definition T_size_t : IntegerType := mkIntegerType 64 false.

(** A value of the type. *)
Definition inRange (T : IntegerType) (z : Z) : bool :=
  if it_signed T then (- 2 ^ (it_bits T - 1) <=? z) && (z <? 2 ^ (it_bits T - 1))
  else (0 <=? z) && (z <? 2 ^ it_bits T).

(** [(T)z]: the value modulo [2^bits], read as a signed number for a
    signed type. *)
Definition castTo (T : IntegerType) (z : Z) : Z :=
  let r := z mod 2 ^ it_bits T in
  if it_signed T && (2 ^ (it_bits T - 1) <=? r) then r - 2 ^ it_bits T else r.

(** The integral promotions: a type narrower than [int] becomes [int]. *)
Definition promoted (T : IntegerType) : IntegerType :=
  if it_bits T <? 32 then T_int else T.

(** The result of an addition or subtraction whose exact value is [z]:
    unsigned arithmetic wraps, signed overflow is undefined ([None]). *)
Definition arithmetic (T : IntegerType) (z : Z) : option Z :=
  let P := promoted T in
  if it_signed P then (if inRange P z then Some z else None)
  else Some (z mod 2 ^ it_bits P).

(** [operator+(T delta)] *)
Definition SourceLocation_plus (T : IntegerType) (l : SourceLocation) (delta : Z)
    : option SourceLocation :=
  match arithmetic T (castTo T (charOffset l) + delta) with
  | Some s => Some (mkSourceLocation (buffer l) (size_t s))
  | None => None
  end.

(** [operator-(T delta)] *)
Definition SourceLocation_minus (T : IntegerType) (l : SourceLocation) (delta : Z)
    : option SourceLocation :=
  match arithmetic T (castTo T (charOffset l) - delta) with
  | Some s => Some (mkSourceLocation (buffer l) (size_t s))
  | None => None
  end.

(** *** SourceManager.cpp: columns, names and text *)

(** [while (lineStart > 0 && fd->mem[lineStart - 1] != '\n' &&
    fd->mem[lineStart - 1] != '\r') lineStart--;] The index is inside the
    buffer after the ASSERT of [getColumnNumber]. *)
Fixpoint lineStart_loop (fuel : nat) (mem : list ascii) (lineStart : Z) : Z :=
  match fuel with
  | O => lineStart
  | S fuel' =>
    if 0 <? lineStart then
      match nth_error mem (Z.to_nat (lineStart - 1)) with
      | Some c =>
        if isNewline c then lineStart
        else lineStart_loop fuel' mem (lineStart - 1)
      | None => lineStart
      end
    else lineStart
  end.

Definition getColumnNumber (sm : SourceManager) (location : SourceLocation) : result Z :=
  match getFileInfo sm (buffer location) with
  | None => Ok 0
  | Some info =>
    match data info with
    | None => Ok 0
    | Some fd =>
      ASSERT! (offset location <? Z.of_nat (length (mem fd))) in
      let lineStart :=
        lineStart_loop (Z.to_nat (offset location)) (mem fd) (offset location) in
      Ok (size_t (size_t (offset location - lineStart) + 1))
    end
  end.

Definition getFileName (sm : SourceManager) (location : SourceLocation) : result string :=
  doR fileLocation <- getFullyExpandedLoc sm location in
  match getFileInfo sm (buffer fileLocation) with
  | None => Ok EmptyString
  | Some info =>
    match data info with
    | None => Ok EmptyString
    | Some fd =>
      if (length (lineDirectives info) =? 0)%nat then Ok (fd_name fd)
      else
        let rawLine := getRawLineNumber sm fileLocation in
        match getPreviousLineDirective (lineDirectives info) rawLine with
        | None => Ok (fd_name fd)
        | Some lineDirective => Ok (name lineDirective)
        end
    end
  end.

Definition getRawFileName (sm : SourceManager) (buf : BufferID) : string :=
  match getFileInfo sm buf with
  | None => EmptyString
  | Some info =>
    match data info with
    | None => EmptyString
    | Some fd => fd_name fd
    end
  end.

Definition getSourceText (sm : SourceManager) (buf : BufferID) : list ascii :=
  match getFileInfo sm buf with
  | None => []
  | Some info =>
    match data info with
    | None => []
    | Some fd => mem fd
    end
  end.

(** [while (isMacroArgLoc(location)) location = getExpansionLoc(location);] *)
Fixpoint getMacroName_loop (fuel : nat) (sm : SourceManager) (location : SourceLocation)
    : result SourceLocation :=
  doR arg <- isMacroArgLoc sm location in
  if arg then
    match fuel with
    | O => Err OutOfFuel
    | S fuel' =>
      doR next <- getExpansionLoc sm location in
      getMacroName_loop fuel' sm next
    end
  else Ok location.

Definition getMacroName (sm : SourceManager) (location : SourceLocation) : result string :=
  doR location <- getMacroName_loop (length (bufferEntries sm)) sm location in
  if negb (BufferID_valid (buffer location)) then Ok EmptyString
  else
    ASSERT! (buffer location <? entries_size sm) in
    match entry_at sm (buffer location) with
    | Some (ExpansionEntry info) => Ok (macroName info)
    | _ => Ok EmptyString
    end.

Definition getExpansionRange (sm : SourceManager) (location : SourceLocation)
    : result SourceRange :=
  if negb (BufferID_valid (buffer location))
  then Ok (mkSourceRange SourceLocation_default SourceLocation_default)
  else
    doR info <- getExpansionInfo sm (buffer location) in
    Ok (expansionRange info).

(** [while (isMacroLoc(location)) location = getOriginalLoc(location);] *)
Fixpoint getFullyOriginalLoc_loop (fuel : nat) (sm : SourceManager)
    (location : SourceLocation) : result SourceLocation :=
  doR macro <- isMacroLoc sm location in
  if macro then
    match fuel with
    | O => Err OutOfFuel
    | S fuel' =>
      doR next <- getOriginalLoc sm location in
      getFullyOriginalLoc_loop fuel' sm next
    end
  else Ok location.

Definition getFullyOriginalLoc (sm : SourceManager) (location : SourceLocation)
    : result SourceLocation :=
  getFullyOriginalLoc_loop (length (bufferEntries sm)) sm location.

Definition isPreprocessedLoc (sm : SourceManager) (location : SourceLocation)
    : result bool :=
  doR macro <- isMacroLoc sm location in
  if macro then Ok true else Ok (isIncludedFileLoc sm location).

(** *** Diagnostic directives *)

Record DiagnosticDirectiveInfo : Type := mkDiagnosticDirectiveInfo {
  dd_name : string;
  dd_offset : Z;
  dd_severity : Z
}.

(** [std::upper_bound] over a vector, with [comp x] for [comp(value, x)]. *)
Section UpperBound.
Context {A : Type} (comp : A -> bool).

Fixpoint upper_bound_loop (fuel : nat) (l : list A) (first len : nat) : nat :=
  match fuel with
  | O => first
  | S fuel' =>
    if (len =? 0)%nat then first
    else
      let half := (len / 2)%nat in
      let middle := (first + half)%nat in
      match nth_error l middle with
      | Some x =>
        if comp x
        then upper_bound_loop fuel' l first half
        else upper_bound_loop fuel' l (middle + 1)%nat (len - half - 1)%nat
      | None => first
      end
  end.

Definition upper_bound (l : list A) : nat :=
  upper_bound_loop (length l) l 0%nat (length l).
End UpperBound.

(** [vector::emplace(pos, ...)]: the new element goes before [pos]. *)
Definition emplace_at {A : Type} (l : list A) (pos : nat) (x : A) : list A :=
  firstn pos l ++ x :: skipn pos l.

(** [addDiagnosticDirective]: the member [diagDirectives] (a map from buffer
    to the vector of its directives) is threaded beside the manager;
    [operator[]] makes an empty vector for a buffer that has none. *)
Definition addDiagnosticDirective (sm : SourceManager)
    (diagDirectives : gmap Z (list DiagnosticDirectiveInfo))
    (location : SourceLocation) (directive : string) (severity : Z)
    : result (gmap Z (list DiagnosticDirectiveInfo)) :=
  doR fileLocation <- getFullyExpandedLoc sm location in
  let off := offset fileLocation in
  let vec :=
    match diagDirectives !! buffer fileLocation with
    | Some v => v
    | None => []
    end in
  let added := mkDiagnosticDirectiveInfo directive off severity in
  let vec' :=
    match back vec with
    | None => vec ++ [added]
    | Some last =>
      if dd_offset last <=? off then vec ++ [added]
      else emplace_at vec (upper_bound (fun diag => off <? dd_offset diag) vec) added
    end in
  Ok (<[buffer fileLocation := vec']> diagDirectives).

(** *** Well-formed expansions and example managers *)

(** Every expansion buffer was created after the buffers of its original
    location and of its expansion range. *)
Definition wf_expansions (sm : SourceManager) : Prop :=
  entries_size sm < 2 ^ 28
  /\ forall b e, entry_at sm b = Some (ExpansionEntry e) ->
       wf_loc (originalLoc e) /\ buffer (originalLoc e) < b
       /\ wf_loc (startLoc (expansionRange e)) /\ buffer (startLoc (expansionRange e)) < b.

(** Two files that do not include each other. *)
Definition twoFiles : SourceManager :=
  {| bufferEntries :=
       [FileEntry (mkFileInfo None SourceLocation_default []);
        FileEntry (mkFileInfo (Some (mkFileData "a.sv" [NUL])) SourceLocation_default []);
        FileEntry (mkFileInfo (Some (mkFileData "b.sv" [NUL])) SourceLocation_default [])];
     userFileBuffers := [];
     unnamedBufferCount := 0 |}.

(** One file of three lines, [a], [b] and [c], with no line directive. *)
Definition threeLines : SourceManager :=
  {| bufferEntries :=
       [FileEntry (mkFileInfo None SourceLocation_default []);
        FileEntry
          (mkFileInfo
             (Some (mkFileData "a.sv"
                      ["a"; "010"; "b"; "010"; "c"; "010"; "000"]%char))
             SourceLocation_default [])];
     userFileBuffers := [];
     unnamedBufferCount := 0 |}.

End Source.

(** * Four-state integers *)

Module Numeric.

(** Modelled from the spec: SVInt.h and SVInt.cpp are not among the
    sources. Section 3.7 gives the representation: a bit width, a
    signedness flag, and two words, the value bits and the unknown bits; a
    bit is [X] when its value bit is 0 and its unknown bit is 1, [Z] when
    both are 1. *)
Record SVInt : Type := mkSVInt {
  bitWidth : Z;
  signFlag : bool;
  val : Z;
  unknown : Z
}.

Inductive logic_t : Type := L0 | L1 | LX | LZ.

Definition mask (w : Z) : Z := 2 ^ w - 1.

(** The invariant of section 3.7: no bit is set above the width. *)
Definition SVInt_wf (v : SVInt) : Prop :=
  0 < bitWidth v /\ 0 <= val v < 2 ^ bitWidth v /\ 0 <= unknown v < 2 ^ bitWidth v.

Definition hasUnknown (v : SVInt) : bool := negb (unknown v =? 0).

Definition bit (v : SVInt) (i : Z) : logic_t :=
  match Z.testbit (unknown v) i, Z.testbit (val v) i with
  | false, false => L0
  | false, true => L1
  | true, false => LX
  | true, true => LZ
  end.

Definition allX (w : Z) (sgn : bool) : SVInt :=
  {| bitWidth := w; signFlag := sgn; val := 0; unknown := mask w |}.

(** Modelled from the spec: section 4.6, "if any operand bit is X/Z,
    arithmetic, relational and logical results propagate X". The operands
    have one width. *)
Definition SVInt_ne (a b : SVInt) : logic_t :=
  if hasUnknown a || hasUnknown b then LX
  else if val a =? val b then L0 else L1.

(** Modelled from the spec: a [logic_t] used as a condition is true when
    it is a known 1. *)
Definition logic_bool (l : logic_t) : bool :=
  match l with
  | L1 => true
  | _ => false
  end.

(** Modelled from the spec: the constant evaluator (ConstantValue, SVInt
    arithmetic, the evaluation of bound expressions) is not among the
    sources, which hold only its tests (EvalTests.cpp). The operators
    follow the sentences of section 4.6. *)

Definition toSigned (v : SVInt) : Z :=
  if signFlag v && Z.testbit (val v) (bitWidth v - 1)
  then val v - 2 ^ bitWidth v
  else val v.

(** "Division or modulo by zero yields all-X of the result width with no
    exception"; unknown operand bits propagate X. *)
Definition divide (a b : SVInt) : SVInt :=
  let sgn := signFlag a && signFlag b in
  if hasUnknown a || hasUnknown b then allX (bitWidth a) sgn
  else if val b =? 0 then allX (bitWidth a) sgn
  else {| bitWidth := bitWidth a; signFlag := sgn;
          val := (if sgn then Z.quot (toSigned a) (toSigned b)
                  else Z.quot (val a) (val b)) mod 2 ^ bitWidth a;
          unknown := 0 |}.

(** "Operands laid out MSB-first", the width the sum of the widths. *)
Definition concat2 (hi lo : SVInt) : SVInt :=
  {| bitWidth := bitWidth hi + bitWidth lo; signFlag := false;
     val := Z.lor (Z.shiftl (val hi) (bitWidth lo)) (val lo);
     unknown := Z.lor (Z.shiftl (unknown hi) (bitWidth lo)) (unknown lo) |}.

Definition concatenate (ops : list SVInt) : SVInt :=
  fold_right concat2 (mkSVInt 0 false 0 0) ops.

(** The truth of a condition: a known 1 bit makes it true, else an unknown
    bit makes it unknown. *)
Definition reductionOr (c : SVInt) : logic_t :=
  if negb (Z.land (val c) (Z.lnot (unknown c)) =? 0) then L1
  else if hasUnknown c then LX
  else L0.

(** "The bitwise merge of t and f (bits that agree keep their value; bits
    that disagree become X)". *)
Definition merge (t f : SVInt) : SVInt :=
  let differ := Z.lor (Z.lxor (val t) (val f)) (Z.lxor (unknown t) (unknown f)) in
  {| bitWidth := bitWidth t; signFlag := signFlag t && signFlag f;
     val := Z.land (val t) (Z.lnot differ);
     unknown := Z.lor (unknown t) differ |}.

Definition conditional (c t f : SVInt) : SVInt :=
  match reductionOr c with
  | L1 => t
  | L0 => f
  | _ => merge t f
  end.

(** Modelled from the spec and from the test: SVInt's [wildcardEqual] is
    not among the sources. "Bits in the right operand that are X or Z
    compare as don't care; all other bit positions must match."
    EvalTests.cpp expects the known value 1 for
    [{1'b1 / 1'b0, 4'b1001} ==? 5'b11001], whose left operand has an X as
    its top bit opposite a known 1: an X or Z bit of the left operand does
    not make the result X, the position is left out of the comparison as
    well. *)
Definition wildcardEqual (a b : SVInt) : logic_t :=
  let known := Z.lnot (Z.lor (unknown a) (unknown b)) in
  if Z.land (val a) known =? Z.land (val b) known then L1 else L0.

(** The operator as the two sentences of section 4.6 word it, for the
    comparison with the test: "Bits in the right operand that are X or Z
    compare as don't care; all other bit positions must match. An X/Z in
    the left operand propagates X to the result." *)
Definition wildcardEqual_spec (a b : SVInt) : logic_t :=
  if hasUnknown a then LX
  else if Z.land (val a) (Z.lnot (unknown b)) =? Z.land (val b) (Z.lnot (unknown b))
       then L1 else L0.

Definition ofLogic (l : logic_t) : SVInt :=
  match l with
  | L0 => mkSVInt 1 false 0 0
  | L1 => mkSVInt 1 false 1 0
  | LX => mkSVInt 1 false 0 1
  | LZ => mkSVInt 1 false 1 1
  end.

(** The bound expressions the scenarios use. *)
Inductive Expression : Type :=
| IntegerLiteral (v : SVInt)
| Divide (l r : Expression)
| ConditionalOp (c t f : Expression)
| Concatenation (l r : Expression)
| WildcardEquality (l r : Expression).

Fixpoint eval (e : Expression) : SVInt :=
  match e with
  | IntegerLiteral v => v
  | Divide l r => divide (eval l) (eval r)
  | ConditionalOp c t f => conditional (eval c) (eval t) (eval f)
  | Concatenation l r => concat2 (eval l) (eval r)
  | WildcardEquality l r => ofLogic (wildcardEqual (eval l) (eval r))
  end.

(** An unsized decimal literal is a 32-bit signed [int]. *)
Definition int_literal (n : Z) : Expression :=
  IntegerLiteral (mkSVInt 32 true (n mod 2 ^ 32) 0).

(** [w'b...] for a two-state binary literal of value [n]. *)
Definition sized_literal (w n : Z) : Expression :=
  IntegerLiteral (mkSVInt w false (n mod 2 ^ w) 0).

(** [(1 / 0) ? 128'b101 : 128'b110] *)
Definition conditionalU2 : Expression :=
  ConditionalOp (Divide (int_literal 1) (int_literal 0))
                (sized_literal 128 5) (sized_literal 128 6).

(** [{22'b0, 43'b100, 1'b1 / 1'b0}] *)
Definition concatenation2 : Expression :=
  Concatenation (sized_literal 22 0)
    (Concatenation (sized_literal 43 4)
                   (Divide (sized_literal 1 1) (sized_literal 1 0))).

(** [{1'b1 / 1'b0, 4'b1001}] and [5'b11001], the operands of the test
    [wildcardEq]. *)
Definition wildcardEq_lhs : Expression :=
  Concatenation (Divide (sized_literal 1 1) (sized_literal 1 0)) (sized_literal 4 9).

Definition wildcardEq_rhs : Expression := sized_literal 5 25.

(** [{1'b1 / 1'b0, 4'b1001} ==? 5'b11001] *)
Definition wildcardEq : Expression := WildcardEquality wildcardEq_lhs wildcardEq_rhs.

(** Modelled from the spec: [SVInt::operator==(uint64_t)] is a relational
    operator, an unknown bit of the value makes the comparison X. *)
Definition SVInt_eq (a : SVInt) (n : Z) : logic_t :=
  if hasUnknown a then LX
  else if val a =? n then L1 else L0.

(** EvalTests.cpp, [CHECK(value == result)] of [EVAL_TEST]: the check
    passes when the comparison is a known 1. *)
Definition CHECK_eq (value : SVInt) (result : Z) : bool :=
  logic_bool (SVInt_eq value result).

(** EvalTests.cpp, [EVAL_TEST(descr, expr, result)]:
    [auto value = session.eval(expr).integer(); CHECK(value == result);] *)
Definition EVAL_TEST (expr : Expression) (result : Z) : bool :=
  CHECK_eq (eval expr) result.

Definition logic_eqb (a b : logic_t) : bool :=
  match a, b with
  | L0, L0 | L1, L1 | LX, LX | LZ, LZ => true
  | _, _ => false
  end.

End Numeric.

(** * Types *)

Module Types.
Import Numeric.

#[local] Set Warnings "-register-all".

Inductive SymbolKind : Type :=
| PredefinedIntegerType | ScalarType | FloatingType | EnumType
| PackedArrayType | FixedSizeUnpackedArrayType | DynamicArrayType
| AssociativeArrayType | QueueType
| PackedStructType | UnpackedStructType | PackedUnionType | UnpackedUnionType
| ClassType | VoidType | NullType | CHandleType | StringType | EventType
| UnboundedType | TypeRefType | UntypedType | SequenceType | PropertyType
| VirtualInterfaceType | TypeAlias | ErrorType
| CompilationUnit | Package | InstanceBody | Modport | OtherSymbol.

Definition SymbolKind_eqb (a b : SymbolKind) : bool :=
  match a, b with
  | PredefinedIntegerType, PredefinedIntegerType | ScalarType, ScalarType
  | FloatingType, FloatingType | EnumType, EnumType
  | PackedArrayType, PackedArrayType
  | FixedSizeUnpackedArrayType, FixedSizeUnpackedArrayType
  | DynamicArrayType, DynamicArrayType
  | AssociativeArrayType, AssociativeArrayType | QueueType, QueueType
  | PackedStructType, PackedStructType | UnpackedStructType, UnpackedStructType
  | PackedUnionType, PackedUnionType | UnpackedUnionType, UnpackedUnionType
  | ClassType, ClassType | VoidType, VoidType | NullType, NullType
  | CHandleType, CHandleType | StringType, StringType | EventType, EventType
  | UnboundedType, UnboundedType | TypeRefType, TypeRefType
  | UntypedType, UntypedType | SequenceType, SequenceType
  | PropertyType, PropertyType | VirtualInterfaceType, VirtualInterfaceType
  | TypeAlias, TypeAlias | ErrorType, ErrorType
  | CompilationUnit, CompilationUnit | Package, Package
  | InstanceBody, InstanceBody | Modport, Modport
  | OtherSymbol, OtherSymbol => true
  | _, _ => false
  end.

Inductive ScalarKind : Type := Bit | Logic | Reg.
Inductive IntegerKind : Type := ShortInt | Int | LongInt | Byte | Integer | Time.
Inductive FloatKind : Type := Real | ShortReal | RealTime.

Definition FloatKind_eqb (a b : FloatKind) : bool :=
  match a, b with
  | Real, Real | ShortReal, ShortReal | RealTime, RealTime => true
  | _, _ => false
  end.

(** [ConstantRange { int32_t left; int32_t right; }] *)
Record ConstantRange : Type := mkRange {
  left : Z;
  right : Z
}.

Definition ConstantRange_eqb (a b : ConstantRange) : bool :=
  (left a =? left b) && (right a =? right b).

(** [width()]: the number of elements, a [bitwidth_t]. *)
Definition width (r : ConstantRange) : Z :=
  (Z.abs (left r - right r) + 1) mod 2 ^ 32.

(** What every type has as a symbol: the address of the object (two
    references are the same type object when the addresses are equal), the
    syntax node it was made from (if any) and the kind of the symbol that
    owns its parent scope (if it has one). *)
Record Symbol : Type := mkSymbol {
  addr : Z;
  syntax : option Z;
  parentScope : option SymbolKind
}.

(** The fields of the [IntegralType] base class. *)
Record IntegralInfo : Type := mkIntegral {
  bitWidth : Z;
  isSigned : bool;
  isFourState : bool
}.

Inductive SingletonKind : Type :=
| SVoid | SNull | SCHandle | SString | SEvent | SUnbounded | STypeRef
| SUntyped | SSequence | SProperty | SError.

(** An enum member: its name and its value, [None] when the value is
    [bad()]. *)
Record EnumValue : Type := mkEnumValue {
  ev_name : string;
  ev_value : option SVInt
}.

(** The closed sum of type objects. [Type] is a keyword, so the class is
    [Ty] here. *)
Inductive Ty : Type :=
| Scalar (sym : Symbol) (it : IntegralInfo) (scalarKind : ScalarKind)
| PredefinedInteger (sym : Symbol) (it : IntegralInfo) (integerKind : IntegerKind)
| Floating (sym : Symbol) (floatKind : FloatKind)
| Enum (sym : Symbol) (it : IntegralInfo) (baseType : Ty) (values : list EnumValue)
| PackedArray (sym : Symbol) (it : IntegralInfo) (elementType : Ty) (range : ConstantRange)
| FixedSizeUnpackedArray (sym : Symbol) (elementType : Ty) (range : ConstantRange)
| DynamicArray (sym : Symbol) (elementType : Ty)
| AssociativeArray (sym : Symbol) (elementType : Ty) (indexType : option Ty)
| Queue (sym : Symbol) (elementType : Ty) (maxBound : Z)
| PackedStruct (sym : Symbol) (it : IntegralInfo)
| PackedUnion (sym : Symbol) (it : IntegralInfo) (isTagged : bool)
| UnpackedStruct (sym : Symbol)
| UnpackedUnion (sym : Symbol) (isTagged : bool)
| Class (sym : Symbol)
| Singleton (sym : Symbol) (which : SingletonKind)
| VirtualInterface (sym : Symbol) (iface : Z) (modport : option Z)
| Alias (sym : Symbol) (targetType : Ty).

Definition symbol (t : Ty) : Symbol :=
  match t with
  | Scalar s _ _ | PredefinedInteger s _ _ | Floating s _ | Enum s _ _ _
  | PackedArray s _ _ _ | FixedSizeUnpackedArray s _ _ | DynamicArray s _
  | AssociativeArray s _ _ | Queue s _ _ | PackedStruct s _ | PackedUnion s _ _
  | UnpackedStruct s | UnpackedUnion s _ | Class s | Singleton s _
  | VirtualInterface s _ _ | Alias s _ => s
  end.

Definition kind (t : Ty) : SymbolKind :=
  match t with
  | Scalar _ _ _ => ScalarType
  | PredefinedInteger _ _ _ => PredefinedIntegerType
  | Floating _ _ => FloatingType
  | Enum _ _ _ _ => EnumType
  | PackedArray _ _ _ _ => PackedArrayType
  | FixedSizeUnpackedArray _ _ _ => FixedSizeUnpackedArrayType
  | DynamicArray _ _ => DynamicArrayType
  | AssociativeArray _ _ _ => AssociativeArrayType
  | Queue _ _ _ => QueueType
  | PackedStruct _ _ => PackedStructType
  | PackedUnion _ _ _ => PackedUnionType
  | UnpackedStruct _ => UnpackedStructType
  | UnpackedUnion _ _ => UnpackedUnionType
  | Class _ => ClassType
  | Singleton _ SVoid => VoidType
  | Singleton _ SNull => NullType
  | Singleton _ SCHandle => CHandleType
  | Singleton _ SString => StringType
  | Singleton _ SEvent => EventType
  | Singleton _ SUnbounded => UnboundedType
  | Singleton _ STypeRef => TypeRefType
  | Singleton _ SUntyped => UntypedType
  | Singleton _ SSequence => SequenceType
  | Singleton _ SProperty => PropertyType
  | Singleton _ SError => ErrorType
  | VirtualInterface _ _ _ => VirtualInterfaceType
  | Alias _ _ => TypeAlias
  end.

(** [resolveCanonical]: follow the aliases to the first type that is not
    one. *)
Fixpoint getCanonicalType (t : Ty) : Ty :=
  match t with
  | Alias _ target => getCanonicalType target
  | _ => t
  end.

(** [as<IntegralType>()] *)
Definition asIntegral (t : Ty) : option IntegralInfo :=
  match t with
  | Scalar _ it _ | PredefinedInteger _ it _ | Enum _ it _ _
  | PackedArray _ it _ _ | PackedStruct _ it | PackedUnion _ it _ => Some it
  | _ => None
  end.

(** Modelled from the spec: [IntegralType::isKind] is declared in
    AllTypes.h, which is not among the sources. The integral types are the
    scalar and predefined integer types of section 3.4 and the packed types
    built from them: packed arrays, packed structs and unions, and enums
    (which carry a base integral type; [isEquivalent] and
    [isAssignmentCompatible] test [isIntegral() && !isEnum()]). *)
Definition IntegralType_isKind (k : SymbolKind) : bool :=
  match k with
  | PredefinedIntegerType | ScalarType | EnumType | PackedArrayType
  | PackedStructType | PackedUnionType => true
  | _ => false
  end.

Definition isIntegral (t : Ty) : bool :=
  IntegralType_isKind (kind (getCanonicalType t)).

Definition isSignedT (t : Ty) : bool :=
  match asIntegral (getCanonicalType t) with
  | Some it => isSigned it
  | None => false
  end.

Definition getBitWidth_integral (t : Ty) : Z :=
  match asIntegral (getCanonicalType t) with
  | Some it => bitWidth it
  | None => 0
  end.

Definition isFourState_integral (t : Ty) : bool :=
  match asIntegral (getCanonicalType t) with
  | Some it => isFourState it
  | None => false
  end.

(** The kind tests of Type.h, each on the canonical type. *)
Definition isKindOf (k : SymbolKind) (t : Ty) : bool :=
  SymbolKind_eqb (kind (getCanonicalType t)) k.

Definition isScalar := isKindOf ScalarType.
Definition isPredefinedInteger := isKindOf PredefinedIntegerType.
Definition isEnum := isKindOf EnumType.
Definition isFloating := isKindOf FloatingType.
Definition isPackedArray := isKindOf PackedArrayType.
Definition isVirtualInterface := isKindOf VirtualInterfaceType.
Definition isAlias (t : Ty) : bool := SymbolKind_eqb (kind t) TypeAlias.

Definition isSimpleBitVector (t : Ty) : bool :=
  let ct := getCanonicalType t in
  if isPredefinedInteger ct || isScalar ct then true
  else match ct with
       | PackedArray _ _ elementType _ => isScalar elementType
       | _ => false
       end.

Definition isArray (t : Ty) : bool :=
  match kind (getCanonicalType t) with
  | PackedArrayType | FixedSizeUnpackedArrayType | DynamicArrayType
  | AssociativeArrayType | QueueType => true
  | _ => false
  end.

Definition isUnpackedArray (t : Ty) : bool :=
  match kind (getCanonicalType t) with
  | FixedSizeUnpackedArrayType | DynamicArrayType
  | AssociativeArrayType | QueueType => true
  | _ => false
  end.

Definition getArrayElementType (t : Ty) : option Ty :=
  match getCanonicalType t with
  | PackedArray _ _ e _ | FixedSizeUnpackedArray _ e _ | DynamicArray _ e
  | AssociativeArray _ e _ | Queue _ e _ => Some e
  | _ => None
  end.

Definition getAssociativeIndexType (t : Ty) : option Ty :=
  match getCanonicalType t with
  | AssociativeArray _ _ indexType => indexType
  | _ => None
  end.

(** Modelled from the spec: [IntegralType::getBitVectorRange] is defined in
    AllTypes.cpp, which is not among the sources. A packed array has the
    range of section 3.4; any other integral type of width [w] is the vector
    [w-1:0]. *)
Definition getBitVectorRange (t : Ty) : ConstantRange :=
  match t with
  | PackedArray _ _ _ range => range
  | _ =>
    match asIntegral t with
    | Some it => mkRange (bitWidth it - 1) 0
    | None => mkRange 0 0
    end
  end.

Definition sameObject (l r : Ty) : bool := addr (symbol l) =? addr (symbol r).

(** [l->getSyntax() && l->getSyntax() == r->getSyntax()] *)
Definition sameSyntax (l r : Ty) : bool :=
  match syntax (symbol l), syntax (symbol r) with
  | Some sl, Some sr => sl =? sr
  | _, _ => false
  end.

Definition option_Z_eqb (a b : option Z) : bool :=
  match a, b with
  | Some x, Some y => x =? y
  | None, None => true
  | _, _ => false
  end.

(** The loop of [isSameEnum] over the two value lists. *)
Fixpoint sameEnumValues (lvs rvs : list EnumValue) : bool :=
  match lvs with
  | [] => match rvs with [] => true | _ => false end
  | value :: lrest =>
    match rvs with
    | [] => false
    | rit :: rrest =>
      if negb (String.eqb (ev_name value) (ev_name rit)) then false
      else match ev_value value, ev_value rit with
           | Some lv, Some rv =>
             if logic_bool (SVInt_ne lv rv) then false
             else sameEnumValues lrest rrest
           | _, _ => false
           end
    end
  end.

(** [isSameEnum]: [baseMatching] is [le.baseType.isMatching(re.baseType)]. *)
Definition isSameEnum (baseMatching : bool) (le re : Symbol)
    (lvalues rvalues : list EnumValue) : bool :=
  match parentScope le, parentScope re with
  | Some ls, Some rs =>
    if negb (SymbolKind_eqb ls CompilationUnit) then false
    else if negb (SymbolKind_eqb rs CompilationUnit) then false
    else if negb baseMatching then false
    else sameEnumValues lvalues rvalues
  | _, _ => false
  end.

Definition isRealOrRealTime (k : FloatKind) : bool :=
  FloatKind_eqb k Real || FloatKind_eqb k RealTime.

(** [Type::isMatching] *)
Fixpoint isMatching (lhs rhs : Ty) {struct lhs} : bool :=
  let l := getCanonicalType lhs in
  let r := getCanonicalType rhs in
  if sameObject l r || sameSyntax l r then true
  else if isFloating l && isFloating r then
    match l, r with
    | Floating _ lf, Floating _ rf => isRealOrRealTime lf && isRealOrRealTime rf
    | _, _ => false
    end
  else if isSimpleBitVector l && isSimpleBitVector r
          && (negb (isPackedArray l) || negb (isPackedArray r)) then
    Bool.eqb (isSignedT l) (isSignedT r)
    && Bool.eqb (isFourState_integral l) (isFourState_integral r)
    && ConstantRange_eqb (getBitVectorRange l) (getBitVectorRange r)
  else if isArray l && isArray r then
    match l, r with
    | PackedArray _ _ le lrange, PackedArray _ _ re rrange =>
      isMatching le re && ConstantRange_eqb lrange rrange
    | FixedSizeUnpackedArray _ le lrange, FixedSizeUnpackedArray _ re rrange =>
      isMatching le re && ConstantRange_eqb lrange rrange
    | DynamicArray _ le, DynamicArray _ re => isMatching le re
    | AssociativeArray _ le li, AssociativeArray _ re ri =>
      isMatching le re
      && match li, ri with
         | Some li, Some ri => isMatching li ri
         | None, None => true
         | _, _ => false
         end
    | Queue _ le _, Queue _ re _ => isMatching le re
    | _, _ => false
    end
  else match l, r with
       | Enum lsym _ lbase lvalues, Enum rsym _ rbase rvalues =>
         isSameEnum (isMatching lbase rbase) lsym rsym lvalues rvalues
       | VirtualInterface _ liface lmodport, VirtualInterface _ riface rmodport =>
         (liface =? riface) && option_Z_eqb lmodport rmodport
       | _, _ => false
       end.

(** [Type::isEquivalent] *)
Fixpoint isEquivalent (lhs rhs : Ty) {struct lhs} : bool :=
  let l := getCanonicalType lhs in
  let r := getCanonicalType rhs in
  if isMatching l r then true
  else if isIntegral l && isIntegral r && negb (isEnum l) && negb (isEnum r) then
    Bool.eqb (isSignedT l) (isSignedT r)
    && Bool.eqb (isFourState_integral l) (isFourState_integral r)
    && (getBitWidth_integral l =? getBitWidth_integral r)
  else match l, r with
       | FixedSizeUnpackedArray _ le lrange, FixedSizeUnpackedArray _ re rrange =>
         (width lrange =? width rrange) && isEquivalent le re
       | DynamicArray _ le, DynamicArray _ re => isEquivalent le re
       | Queue _ le _, Queue _ re _ => isEquivalent le re
       | AssociativeArray _ le li, AssociativeArray _ re ri =>
         match li, ri with
         | Some li, Some ri => isEquivalent li ri
         | None, None => true
         | _, _ => false
         end
         && isEquivalent le re
       | _, _ => false
       end.

(** *** Reference notions used to state and prove the facts below *)

Fixpoint size (t : Ty) : nat :=
  match t with
  | Enum _ _ b _ => S (size b)
  | PackedArray _ _ e _ | FixedSizeUnpackedArray _ e _ | DynamicArray _ e
  | Queue _ e _ => S (size e)
  | AssociativeArray _ e ix =>
    S (size e + match ix with Some t => size t | None => 0 end)
  | Alias _ target => S (size target)
  | _ => 1%nat
  end.

(** One unfolding of [isMatching] on canonical types, the calls on the
    parts of the types going to [rec]. *)
Definition matching_step (rec : Ty -> Ty -> bool) (l r : Ty) : bool :=
  if sameObject l r || sameSyntax l r then true
  else if isFloating l && isFloating r then
    match l, r with
    | Floating _ lf, Floating _ rf => isRealOrRealTime lf && isRealOrRealTime rf
    | _, _ => false
    end
  else if isSimpleBitVector l && isSimpleBitVector r
          && (negb (isPackedArray l) || negb (isPackedArray r)) then
    Bool.eqb (isSignedT l) (isSignedT r)
    && Bool.eqb (isFourState_integral l) (isFourState_integral r)
    && ConstantRange_eqb (getBitVectorRange l) (getBitVectorRange r)
  else if isArray l && isArray r then
    match l, r with
    | PackedArray _ _ le lrange, PackedArray _ _ re rrange =>
      rec le re && ConstantRange_eqb lrange rrange
    | FixedSizeUnpackedArray _ le lrange, FixedSizeUnpackedArray _ re rrange =>
      rec le re && ConstantRange_eqb lrange rrange
    | DynamicArray _ le, DynamicArray _ re => rec le re
    | AssociativeArray _ le li, AssociativeArray _ re ri =>
      rec le re
      && match li, ri with
         | Some li, Some ri => rec li ri
         | None, None => true
         | _, _ => false
         end
    | Queue _ le _, Queue _ re _ => rec le re
    | _, _ => false
    end
  else match l, r with
       | Enum lsym _ lbase lvalues, Enum rsym _ rbase rvalues =>
         isSameEnum (rec lbase rbase) lsym rsym lvalues rvalues
       | VirtualInterface _ liface lmodport, VirtualInterface _ riface rmodport =>
         (liface =? riface) && option_Z_eqb lmodport rmodport
       | _, _ => false
       end.

(** Equivalence of two optional index types: both absent, or both present
    and equivalent. *)
Definition indexEquivalent (li ri : option Ty) : bool :=
  match li, ri with
  | Some li, Some ri => isEquivalent li ri
  | None, None => true
  | _, _ => false
  end.

(** *** Type objects for the examples *)

Definition intT : Ty :=
  PredefinedInteger (mkSymbol 10 None None) (mkIntegral 32 true false) Int.

(** [enum { A, B }] with base [int], declared in a compilation unit. *)
Definition enumAB : Ty :=
  Enum (mkSymbol 20 (Some 200) (Some CompilationUnit)) (mkIntegral 32 true false) intT
    [mkEnumValue "A" (Some (mkSVInt 32 true 0 0));
     mkEnumValue "B" (Some (mkSVInt 32 true 1 0))].

(** The same declaration seen from a second compilation unit. *)
Definition enumAB' : Ty :=
  Enum (mkSymbol 21 (Some 201) (Some CompilationUnit)) (mkIntegral 32 true false) intT
    [mkEnumValue "A" (Some (mkSVInt 32 true 0 0));
     mkEnumValue "B" (Some (mkSVInt 32 true 1 0))].

(** [int x[N]] of [module m #(parameter N)], elaborated with [N = 4] and
    with [N = 8]: two type objects made from one dimension syntax node. *)
Definition arrayN4 : Ty :=
  FixedSizeUnpackedArray (mkSymbol 30 (Some 300) (Some InstanceBody)) intT (mkRange 0 3).

Definition arrayN8 : Ty :=
  FixedSizeUnpackedArray (mkSymbol 31 (Some 300) (Some InstanceBody)) intT (mkRange 0 7).

(** [int y[8]], declared elsewhere. *)
Definition array8 : Ty :=
  FixedSizeUnpackedArray (mkSymbol 32 (Some 301) (Some InstanceBody)) intT (mkRange 0 7).

(** [bit signed], [bit signed [31:0]] and [bit signed [31:0][0:0]]. *)
Definition bitSigned : Ty :=
  Scalar (mkSymbol 11 None None) (mkIntegral 1 true false) Bit.

Definition vector32 : Ty :=
  PackedArray (mkSymbol 40 (Some 400) (Some CompilationUnit)) (mkIntegral 32 true false)
    bitSigned (mkRange 31 0).

Definition vector32by1 : Ty :=
  PackedArray (mkSymbol 42 (Some 402) (Some CompilationUnit)) (mkIntegral 32 true false)
    (PackedArray (mkSymbol 41 (Some 401) (Some CompilationUnit)) (mkIntegral 1 true false)
       bitSigned (mkRange 0 0))
    (mkRange 31 0).

(** *** Assignment and cast compatibility *)

Definition isNull := isKindOf NullType.
Definition isUnbounded := isKindOf UnboundedType.
Definition isClass := isKindOf ClassType.
Definition isCHandle := isKindOf CHandleType.
Definition isEvent := isKindOf EventType.
Definition isString := isKindOf StringType.
Definition isError := isKindOf ErrorType.

(** What [ClassType::getBaseClass()] and [getImplementedInterfaces()]
    return for a class; ClassSymbols.cpp is not among the sources, so the
    two are read from a table of the classes. *)
Record ClassInfo : Type := mkClassInfo {
  baseClass : option Ty;
  implementedInterfaces : list Ty
}.

Section Compatibility.
(** The classes of the design, [InstanceBodySymbol::getCacheKey()] of a
    virtual interface's instance, and a bound on the depth of the class
    hierarchy. *)
Variable classInfo : Symbol -> ClassInfo.
Variable getCacheKey : Z -> Z.
Variable depth : nat.

(** [while (d && d->isClass()) { d = d->as<ClassType>().getBaseClass();
    if (d == b) return true; }] and the test for an error type after it. *)
Fixpoint isDerivedFrom_loop (fuel : nat) (d : option Ty) (b : Ty) : result bool :=
  match d with
  | None => Ok false
  | Some dt =>
    if isClass dt then
      match fuel with
      | O => Err OutOfFuel
      | S fuel' =>
        match dt with
        | Class sym =>
          let d' := baseClass (classInfo sym) in
          if match d' with
             | Some x => sameObject x b
             | None => false
             end
          then Ok true
          else isDerivedFrom_loop fuel' d' b
        | _ => Err AssertionFailed
        end
      end
    else Ok (isError dt)
  end.

Definition isDerivedFrom (t base : Ty) : result bool :=
  let d := getCanonicalType t in
  let b := getCanonicalType base in
  if negb (isClass b) then Ok false
  else isDerivedFrom_loop depth (Some d) b.

Definition implements (t ifaceClass : Ty) : bool :=
  match getCanonicalType t with
  | Class sym =>
    existsb (fun iface => isMatching iface ifaceClass)
            (implementedInterfaces (classInfo sym))
  | _ => false
  end.

Definition isSome {A : Type} (o : option A) : bool :=
  match o with
  | Some _ => true
  | None => false
  end.

(** [Type::isAssignmentCompatible] *)
Definition isAssignmentCompatible (lhs rhs : Ty) : result bool :=
  let l := getCanonicalType lhs in
  let r := getCanonicalType rhs in
  if isEquivalent l r then Ok true
  else if (isIntegral l && negb (isEnum l)) || isFloating l then
    Ok (isIntegral r || isFloating r || isUnbounded r)
  else if isUnpackedArray l && isUnpackedArray r then
    if SymbolKind_eqb (kind l) AssociativeArrayType
       || SymbolKind_eqb (kind r) AssociativeArrayType
    then Ok false
    else if SymbolKind_eqb (kind l) (kind r)
            && SymbolKind_eqb (kind l) FixedSizeUnpackedArrayType
    then Ok false
    else match getArrayElementType l, getArrayElementType r with
         | Some le, Some re => Ok (isEquivalent le re)
         | _, _ => Err AssertionFailed
         end
  else
    doR classOk <-
      (if isClass l then
         if isNull r then Ok true
         else
           doR derived <- isDerivedFrom r l in
           if derived then Ok true else Ok (implements r l)
       else Ok false) in
    if classOk then Ok true
    else if isVirtualInterface l then
      if isNull r then Ok true
      else if negb (isVirtualInterface r) then Ok false
      else match l, r with
           | VirtualInterface _ liface lmodport, VirtualInterface _ riface rmodport =>
             if negb (liface =? riface)
                && negb (getCacheKey liface =? getCacheKey riface)
             then Ok false
             else Ok (option_Z_eqb lmodport rmodport
                      || (isSome lmodport && negb (isSome rmodport)))
           | _, _ => Err AssertionFailed
           end
    else if isCHandle l || isEvent l then Ok (isNull r)
    else Ok false.

(** [Type::isCastCompatible] *)
Definition isCastCompatible (lhs rhs : Ty) : result bool :=
  let l := getCanonicalType lhs in
  let r := getCanonicalType rhs in
  doR assignable <- isAssignmentCompatible l r in
  if assignable then Ok true
  else if isEnum l then Ok (isIntegral r || isFloating r)
  else if isString l then Ok (isIntegral r)
  else if isString r then Ok (isIntegral l)
  else Ok false.

End Compatibility.

(** *** Widths and ranges *)

(** [Type::getBitWidth] *)
Definition getBitWidth (t : Ty) : Z :=
  let ct := getCanonicalType t in
  if isIntegral ct then getBitWidth_integral ct
  else match ct with
       | Floating _ Real => 64
       | Floating _ RealTime => 64
       | Floating _ ShortReal => 32
       | _ => 0
       end.

(** [Type::getFixedRange] *)
Definition getFixedRange (t : Ty) : ConstantRange :=
  let ct := getCanonicalType t in
  if isIntegral ct then getBitVectorRange ct
  else match ct with
       | FixedSizeUnpackedArray _ _ range => range
       | _ => mkRange 0 0
       end.

(** The string type, an event and the null type, for the examples. *)
Definition stringT : Ty := Singleton (mkSymbol 12 None None) SString.
Definition nullT : Ty := Singleton (mkSymbol 13 None None) SNull.

(** [b] is reached from the class [d] by following base classes, in at
    most the given number of steps. *)
Inductive derivesIn (classInfo : Symbol -> ClassInfo) : nat -> Ty -> Ty -> Prop :=
| derives_direct (n : nat) (sym : Symbol) (base b : Ty) :
    baseClass (classInfo sym) = Some base ->
    sameObject base b = true ->
    derivesIn classInfo (S n) (Class sym) b
| derives_step (n : nat) (sym : Symbol) (base b : Ty) :
    baseClass (classInfo sym) = Some base ->
    derivesIn classInfo n base b ->
    derivesIn classInfo (S n) (Class sym) b.

(** [class Base; endclass] and [class Derived extends Base; endclass]. *)
Definition classBase : Ty := Class (mkSymbol 60 (Some 600) (Some CompilationUnit)).
Definition classDerived : Ty := Class (mkSymbol 61 (Some 601) (Some CompilationUnit)).

Definition exampleClasses (s : Symbol) : ClassInfo :=
  if addr s =? 61 then mkClassInfo (Some classBase) [] else mkClassInfo None [].

(** *** The common base of two classes *)

Section CommonBase.
Variable classInfo : Symbol -> ClassInfo.
(** A bound on the depth of the class hierarchy. *)
Variable depth : nat.

(** The first loop of [Type::getCommonBase]: it returns a type ([inl]) or
    is left by [break] with the set of the classes it went through
    ([inr]); the set holds the addresses of the type objects. *)
Fixpoint getCommonBase_left (fuel : nat) (l r : Ty) (parents : gset Z)
    : result (Ty + gset Z) :=
  match fuel with
  | O => Err OutOfFuel
  | S fuel' =>
    if sameObject l r then Ok (inl r)
    else
      let parents' := {[ addr (symbol l) ]} ∪ parents in
      match l with
      | Class sym =>
        match baseClass (classInfo sym) with
        | None => Ok (inr parents')
        | Some base =>
          if isError base then Ok (inl base)
          else getCommonBase_left fuel' (getCanonicalType base) r parents'
        end
      | _ => Err AssertionFailed
      end
  end.

(** The second loop; a null pointer is [None]. *)
Fixpoint getCommonBase_right (fuel : nat) (r : Ty) (parents : gset Z)
    : result (option Ty) :=
  match fuel with
  | O => Err OutOfFuel
  | S fuel' =>
    if bool_decide (addr (symbol r) ∈ parents) then Ok (Some r)
    else
      match r with
      | Class sym =>
        match baseClass (classInfo sym) with
        | None => Ok None
        | Some base =>
          if isError base then Ok (Some base)
          else getCommonBase_right fuel' (getCanonicalType base) parents
        end
      | _ => Err AssertionFailed
      end
  end.

(** [Type::getCommonBase] *)
Definition getCommonBase (left right : Ty) : result (option Ty) :=
  let l := getCanonicalType left in
  let r := getCanonicalType right in
  if negb (isClass l) || negb (isClass r) then Ok None
  else
    doR found <- getCommonBase_left depth l r ∅ in
    match found with
    | inl t => Ok (Some t)
    | inr parents => getCommonBase_right depth r parents
    end.

End CommonBase.

(** [c] is the class [t] itself or is reached from it in at most the given
    number of steps, each to the canonical type of a base class that is
    not an error type. *)
Inductive reachesIn (classInfo : Symbol -> ClassInfo) : nat -> Ty -> Ty -> Prop :=
| reaches_self (n : nat) (t c : Ty) :
    sameObject t c = true ->
    reachesIn classInfo n t c
| reaches_base (n : nat) (sym : Symbol) (base c : Ty) :
    baseClass (classInfo sym) = Some base ->
    isError base = false ->
    reachesIn classInfo n (getCanonicalType base) c ->
    reachesIn classInfo (S n) (Class sym) c.

(** [class Other extends Base; endclass], beside [Derived]. *)
Definition classOther : Ty := Class (mkSymbol 62 (Some 602) (Some CompilationUnit)).

Definition exampleFamily (s : Symbol) : ClassInfo :=
  if (addr s =? 61) || (addr s =? 62) then mkClassInfo (Some classBase) []
  else mkClassInfo None [].

End Types.

(** * Out-of-block methods *)

Module Subroutines.
Import Types.

#[local] Set Warnings "-register-all".

Inductive SubroutineKind : Type := SubFunction | SubTask.
Inductive Visibility : Type := VisPublic | VisProtected | VisLocal.
Inductive ArgumentDirection : Type := DirIn | DirOut | DirInOut | DirRef.
Inductive VariableLifetime : Type := LifeAutomatic | LifeStatic.

Definition SubroutineKind_eqb (a b : SubroutineKind) : bool :=
  match a, b with
  | SubFunction, SubFunction | SubTask, SubTask => true
  | _, _ => false
  end.

Definition ArgumentDirection_eqb (a b : ArgumentDirection) : bool :=
  match a, b with
  | DirIn, DirIn | DirOut, DirOut | DirInOut, DirInOut | DirRef, DirRef => true
  | _, _ => false
  end.

(** [bitmask<MethodFlags>], one boolean per flag. *)
Record MethodFlags : Type := mkFlags {
  Virtual : bool;
  Pure : bool;
  Static : bool;
  Constructor : bool;
  InterfaceImport : bool;
  DPIImport : bool
}.

Definition noFlags : MethodFlags := mkFlags false false false false false false.

(** [flags |= MethodFlags::Virtual] *)
Definition withVirtual (f : MethodFlags) : MethodFlags :=
  mkFlags true (Pure f) (Static f) (Constructor f) (InterfaceImport f) (DPIImport f).

Definition withConstructor (f : MethodFlags) : MethodFlags :=
  mkFlags (Virtual f) (Pure f) (Static f) true (InterfaceImport f) (DPIImport f).

Inductive DiagCode : Type :=
| MethodReturnTypeScoped | MethodKindMismatch | MethodReturnMismatch
| MethodArgCountMismatch | MethodArgNameMismatch | MethodArgTypeMismatch
| MethodArgDirectionMismatch | MethodArgNoDefault | MethodArgDefaultMismatch
| NoMemberImplFound | MemberDefinitionBeforeClass | BodyForPure | NotASubroutine
| MixingSubroutinePortKinds | RefArgAutomaticFunc.

Definition DiagCode_eqb (a b : DiagCode) : bool :=
  match a, b with
  | MethodReturnTypeScoped, MethodReturnTypeScoped
  | MethodKindMismatch, MethodKindMismatch
  | MethodReturnMismatch, MethodReturnMismatch
  | MethodArgCountMismatch, MethodArgCountMismatch
  | MethodArgNameMismatch, MethodArgNameMismatch
  | MethodArgTypeMismatch, MethodArgTypeMismatch
  | MethodArgDirectionMismatch, MethodArgDirectionMismatch
  | MethodArgNoDefault, MethodArgNoDefault
  | MethodArgDefaultMismatch, MethodArgDefaultMismatch
  | NoMemberImplFound, NoMemberImplFound
  | MemberDefinitionBeforeClass, MemberDefinitionBeforeClass
  | BodyForPure, BodyForPure | NotASubroutine, NotASubroutine
  | MixingSubroutinePortKinds, MixingSubroutinePortKinds
  | RefArgAutomaticFunc, RefArgAutomaticFunc => true
  | _, _ => false
  end.

(** A diagnostic: its code, the scope it was added to and its arguments. *)
Record Diagnostic : Type := mkDiag {
  code : DiagCode;
  diagScope : Z;
  diagArgs : list string
}.

(** *** Expression syntax, for the comparison of default values *)

Inductive SyntaxNode : Type :=
| Node (nodeKind : Z) (children : list SyntaxChild)
with SyntaxChild : Type :=
| ChildNode (n : SyntaxNode)
| ChildToken (tokenKind : Z) (valueText : string)
| ChildNull.

(** [isSameExpr]: the loop leaves with [!rt] at the first null token of
    [l]. *)
Fixpoint isSameExpr (l r : SyntaxNode) {struct l} : bool :=
  match l, r with
  | Node lkind lchildren, Node rkind rchildren =>
    if negb (lkind =? rkind) || negb (length lchildren =? length rchildren)%nat
    then false
    else
      (fix loop (ls rs : list SyntaxChild) {struct ls} : bool :=
         match ls, rs with
         | lc :: lrest, rc :: rrest =>
           match lc, rc with
           | ChildNode ln, ChildNode rn =>
             if negb (isSameExpr ln rn) then false else loop lrest rrest
           | ChildNode _, _ | _, ChildNode _ => false
           | ChildNull, ChildNull => true
           | ChildNull, ChildToken _ _ => false
           | ChildToken _ _, ChildNull => false
           | ChildToken lk lt, ChildToken rk rt =>
             if negb (lk =? rk) || negb (String.eqb lt rt) then false
             else loop lrest rrest
           end
         | _, _ => true
         end) lchildren rchildren
  end.

(** A bound initializer: its syntax (if it has one) and its source range. *)
Record Expression : Type := mkExpression {
  expr_syntax : option SyntaxNode;
  sourceRange : Z
}.

Record FormalArgumentSymbol : Type := mkArg {
  arg_name : string;
  arg_location : Z;
  arg_type : Ty;
  direction : ArgumentDirection;
  initializer : option Expression
}.

Definition setInitializer (a : FormalArgumentSymbol) (e : Expression)
    : FormalArgumentSymbol :=
  mkArg (arg_name a) (arg_location a) (arg_type a) (direction a) (Some e).

Record SubroutineSymbol : Type := mkSubroutine {
  sub_name : string;
  sub_location : Z;
  sub_lifetime : VariableLifetime;
  subroutineKind : SubroutineKind;
  visibility : Visibility;
  flags : MethodFlags;
  returnType : Ty;
  (** the scope that declares the symbol of the return type *)
  returnTypeScope : option Z;
  arguments : list FormalArgumentSymbol;
  sub_parent : option Z;
  sub_index : Z;
  outOfBlockIndex : Z;
  hasThisVar : bool
}.

(** *** Scopes and lookup *)

Inductive MemberKind : Type :=
| MemberType (t : Ty)
| MemberSubroutine (s : SubroutineSymbol)
| MemberPrototype (resolved : option SubroutineSymbol)
| MemberOther.

Record Member : Type := mkMember {
  m_name : string;
  m_index : Z;
  m_location : Z;
  m_kind : MemberKind
}.

(** A scope with the symbol that owns it and its parent scope. *)
Inductive Scope : Type :=
| mkScope (scopeId : Z) (symKind : SymbolKind) (symName : string) (symIndex : Z)
    (symLocation : Z) (defaultLifetime : VariableLifetime)
    (members : list Member) (parent : option Scope).

Definition scopeId (s : Scope) : Z := match s with mkScope i _ _ _ _ _ _ _ => i end.
Definition symKind (s : Scope) : SymbolKind := match s with mkScope _ k _ _ _ _ _ _ => k end.
Definition symName (s : Scope) : string := match s with mkScope _ _ n _ _ _ _ _ => n end.
Definition symIndex (s : Scope) : Z := match s with mkScope _ _ _ i _ _ _ _ => i end.
Definition symLocation (s : Scope) : Z := match s with mkScope _ _ _ _ l _ _ _ => l end.
Definition members (s : Scope) : list Member := match s with mkScope _ _ _ _ _ _ m _ => m end.
Definition parentOf (s : Scope) : option Scope := match s with mkScope _ _ _ _ _ _ _ p => p end.

Definition findMember (name : string) (ms : list Member) : option Member :=
  List.find (fun m => String.eqb (m_name m) name) ms.

(** Modelled from the spec: Lookup.cpp is not among the sources. Section
    4.5: "unqualified resolves up the scope chain". The result is the
    member and the scope it was found in. *)
Fixpoint unqualified (scope : Scope) (name : string) : option (Member * Z) :=
  match scope with
  | mkScope id _ _ _ _ _ ms parent =>
    match findMember name ms with
    | Some m => Some (m, id)
    | None =>
      match parent with
      | Some p => unqualified p name
      | None => None
      end
    end
  end.

(** The lookup with [LookupFlags::NoParentScope]. *)
Definition unqualified_noParent (scope : Scope) (name : string) : option Member :=
  findMember name (members scope).

Inductive DataTypeSyntax : Type :=
| NamedTypeSyntax (name : string)
| KeywordTypeSyntax (t : Ty).

(** Modelled from the spec: SyntaxFacts.cpp is not among the sources. The
    simple name of a type syntax is the identifier of a named type and
    empty for any other. *)
Definition getSimpleTypeName (syntax : DataTypeSyntax) : string :=
  match syntax with
  | NamedTypeSyntax n => n
  | KeywordTypeSyntax _ => EmptyString
  end.

Definition voidType : Ty := Singleton (mkSymbol 1 None None) SVoid.
(** [Compilation::getLogicType()] *)
Definition logicType : Ty := Scalar (mkSymbol 3 None None) (mkIntegral 1 false true) Logic.
Definition errorType : Ty := Singleton (mkSymbol 2 None None) SError.

Definition isError (t : Ty) : bool :=
  SymbolKind_eqb (kind (getCanonicalType t)) ErrorType.

(** Modelled from the spec: the resolution of a declared type
    (DeclaredType.cpp, [Type::fromSyntax] with [Lookup::name]) from the
    scope that holds the subroutine: a named type is looked up
    unqualified, another syntax is its built-in type. The second component
    is the parent scope of the type found. *)
Definition resolveDeclaredType (scope : Scope) (syntax : DataTypeSyntax)
    : Ty * option Z :=
  match syntax with
  | KeywordTypeSyntax t => (t, None)
  | NamedTypeSyntax n =>
    match unqualified scope n with
    | Some (m, sid) =>
      match m_kind m with
      | MemberType t => (t, Some sid)
      | _ => (errorType, None)
      end
    | None => (errorType, None)
    end
  end.

(** *** SubroutineSymbol::buildArguments *)

(** A port of a port list: its direction keyword (already mapped by
    [SemanticFacts::getDirection]), the [const] keyword, its type syntax
    and the name, the location and the initializer of its declarator. *)
Record FunctionPortSyntax : Type := mkPort {
  port_direction : option ArgumentDirection;
  port_constKeyword : bool;
  port_dataType : option DataTypeSyntax;
  port_name : string;
  port_location : Z;
  port_initializer : option Expression
}.

(** The declared type of an argument as [buildArguments] leaves it: a type
    syntax to resolve ([setDeclaredType]) or the logic type ([setType]). *)
Inductive ArgumentType : Type :=
| DeclaredType (syntax : DataTypeSyntax)
| LogicType.

Record BuiltArgument : Type := mkBuilt {
  built_name : string;
  built_location : Z;
  built_direction : ArgumentDirection;
  built_lifetime : VariableLifetime;
  built_isConstant : bool;
  built_type : ArgumentType;
  (** what [setFromDeclarator] takes from the declarator *)
  built_initializer : option Expression
}.

Fixpoint buildArguments_loop (scope : Z) (defaultLifetime : VariableLifetime)
    (ports : list FunctionPortSyntax) (lastType : option DataTypeSyntax)
    (lastDirection : ArgumentDirection)
    : result (list Diagnostic * list BuiltArgument) :=
  match ports with
  | [] => Ok ([], [])
  | portSyntax :: rest =>
    let directionSpecified :=
      match port_direction portSyntax with
      | Some _ => true
      | None => false
      end in
    let direction :=
      match port_direction portSyntax with
      | Some d => d
      | None => lastDirection
      end in
    let diags :=
      match port_direction portSyntax, defaultLifetime with
      | Some DirRef, LifeStatic => [mkDiag RefArgAutomaticFunc scope []]
      | _, _ => []
      end in
    ASSERT! (negb (port_constKeyword portSyntax) || ArgumentDirection_eqb direction DirRef) in
    let typed :=
      match port_dataType portSyntax with
      | Some t => (DeclaredType t, Some t)
      | None =>
        match lastType with
        | Some t => if directionSpecified then (LogicType, None) else (DeclaredType t, lastType)
        | None => (LogicType, None)
        end
      end in
    let arg := mkBuilt (port_name portSyntax) (port_location portSyntax) direction
                 defaultLifetime (port_constKeyword portSyntax) (fst typed)
                 (port_initializer portSyntax) in
    doR built <- buildArguments_loop scope defaultLifetime rest (snd typed) direction in
    Ok (diags ++ fst built, arg :: snd built)
  end.

Definition buildArguments (scope : Z) (defaultLifetime : VariableLifetime)
    (ports : list FunctionPortSyntax) : result (list Diagnostic * list BuiltArgument) :=
  buildArguments_loop scope defaultLifetime ports None DirIn.

(** [function void f(output int a, b, input c, d);] *)
Definition examplePorts : list FunctionPortSyntax :=
  [mkPort (Some DirOut) false (Some (KeywordTypeSyntax intT)) "a" 1 None;
   mkPort None false None "b" 2 None;
   mkPort (Some DirIn) false None "c" 3 None;
   mkPort None false None "d" 4 None].

(** *** Declarations and prototypes *)

Inductive DeclarationKind : Type :=
| FunctionDeclaration | TaskDeclaration | OtherDeclaration.

(** What the factory reads of a declaration: its kind, the text and
    location of the name token, the lifetime keyword, the return type, the
    port list of the prototype (if any) and the arguments declared as port
    declarations in the body, which [setItems] makes. [decl_symbol] is the
    id the subroutine created for the declaration has as a scope. *)
Record FunctionDeclarationSyntax : Type := mkDeclaration {
  decl_kind : DeclarationKind;
  decl_name : string;
  decl_location : Z;
  decl_lifetime : option VariableLifetime;
  decl_returnType : DataTypeSyntax;
  decl_portList : option (list FunctionPortSyntax);
  decl_bodyArgs : list FormalArgumentSymbol;
  decl_symbol : Z
}.

Record MethodPrototypeSymbol : Type := mkPrototype {
  proto_name : string;
  proto_location : Z;
  proto_kind : SubroutineKind;
  proto_visibility : Visibility;
  proto_flags : MethodFlags;
  (** the value of [isVirtual()], declared in SubroutineSymbols.h *)
  proto_isVirtual : bool;
  proto_returnType : Ty;
  proto_hasTypeSyntax : bool;
  proto_arguments : list FormalArgumentSymbol;
  (** the cache [mutable optional<const SubroutineSymbol*> subroutine] *)
  proto_subroutine : option (option SubroutineSymbol)
}.

Definition setSubroutine (p : MethodPrototypeSymbol) (s : option SubroutineSymbol)
    : MethodPrototypeSymbol :=
  mkPrototype (proto_name p) (proto_location p) (proto_kind p) (proto_visibility p)
    (proto_flags p) (proto_isVirtual p) (proto_returnType p) (proto_hasTypeSyntax p)
    (proto_arguments p) (Some s).

(** The compilation: its diagnostics and its registry of out-of-block
    declarations. *)
Record OutOfBlockDecl : Type := mkOutOfBlock {
  oob_scope : Z;
  oob_class : string;
  oob_method : string;
  oob_syntax : FunctionDeclarationSyntax;
  oob_index : Z;
  oob_used : bool
}.

Record Compilation : Type := mkCompilation {
  diagnostics : list Diagnostic;
  outOfBlockDecls : list OutOfBlockDecl
}.

Definition addDiags (comp : Compilation) (ds : list Diagnostic) : Compilation :=
  mkCompilation (diagnostics comp ++ ds) (outOfBlockDecls comp).

Definition isDeclFor (scope : Z) (className name : string) (d : OutOfBlockDecl) : bool :=
  (oob_scope d =? scope) && String.eqb (oob_class d) className
  && String.eqb (oob_method d) name.

(** Modelled from the spec: Compilation.cpp is not among the sources.
    Section 4.4: the parser records the mapping from (class name, method
    name) to the syntax on the compilation. *)
Definition findOutOfBlockDecl (comp : Compilation) (scope : Z) (className name : string)
    : option OutOfBlockDecl :=
  List.find (isDeclFor scope className name) (outOfBlockDecls comp).

(** [*used = true] *)
Definition markUsed (comp : Compilation) (scope : Z) (className name : string)
    : Compilation :=
  mkCompilation (diagnostics comp)
    ((fix mark (ds : list OutOfBlockDecl) : list OutOfBlockDecl :=
        match ds with
        | [] => []
        | d :: rest =>
          if isDeclFor scope className name d
          then mkOutOfBlock (oob_scope d) (oob_class d) (oob_method d) (oob_syntax d)
                 (oob_index d) true :: rest
          else d :: mark rest
        end) (outOfBlockDecls comp)).

(** *** SubroutineSymbol::fromSyntax, called with [outOfBlock = true] *)

(** The default lifetime: that of the nearest instance, class or package. *)
Fixpoint defaultLifetimeOf (scope : Scope) : VariableLifetime :=
  match scope with
  | mkScope _ k _ _ _ life _ parent =>
    match k with
    | InstanceBody => life
    | ClassType => LifeAutomatic
    | Package => life
    | _ =>
      match parent with
      | Some p => defaultLifetimeOf p
      | None => LifeStatic
      end
    end
  end.

(** The arguments declared in the body, with the diagnostics they raise. *)
Fixpoint bodyArguments (parent : Z) (hasPortList : bool) (lifetime : VariableLifetime)
    (portListError : bool) (args : list FormalArgumentSymbol) : list Diagnostic :=
  match args with
  | [] => []
  | arg :: rest =>
    let mixing := negb portListError && hasPortList in
    (if mixing then [mkDiag MixingSubroutinePortKinds parent []] else [])
    ++ (match lifetime, direction arg with
        | LifeStatic, DirRef => [mkDiag RefArgAutomaticFunc parent []]
        | _, _ => []
        end)
    ++ bodyArguments parent hasPortList lifetime (portListError || mixing) rest
  end.

(** [lifetime]: the keyword of the declaration or the default. *)
Definition lifetimeOf (syntax : FunctionDeclarationSyntax) (parent : Scope)
    : VariableLifetime :=
  match decl_lifetime syntax with
  | Some l => l
  | None => defaultLifetimeOf parent
  end.

(** The call of [buildArguments] when the prototype has a port list: the
    arguments are built in the scope of the new subroutine, with its
    lifetime. *)
Definition portArguments (syntax : FunctionDeclarationSyntax) (parent : Scope)
    : result (list Diagnostic * list BuiltArgument) :=
  match decl_portList syntax with
  | Some ports => buildArguments (decl_symbol syntax) (lifetimeOf syntax parent) ports
  | None => Ok ([], [])
  end.

(** An argument of the port list as the later stages read it, with its
    declared type resolved like the return type. *)
Definition resolveArgument (parent : Scope) (a : BuiltArgument) : FormalArgumentSymbol :=
  mkArg (built_name a) (built_location a)
    (match built_type a with
     | DeclaredType syntax => fst (resolveDeclaredType parent syntax)
     | LogicType => logicType
     end)
    (built_direction a) (built_initializer a).

Definition fromSyntax (syntax : FunctionDeclarationSyntax) (parent : Scope)
    : result (list Diagnostic * SubroutineSymbol) :=
  let lifetime := lifetimeOf syntax parent in
  let subroutineKind :=
    match decl_kind syntax with
    | TaskDeclaration => SubTask
    | _ => SubFunction
    end in
  doR built <- portArguments syntax parent in
  let isNew := String.eqb (decl_name syntax) "new" in
  let declared :=
    if isNew then (voidType, None)
    else match subroutineKind with
         | SubFunction => resolveDeclaredType parent (decl_returnType syntax)
         | SubTask => (voidType, None)
         end in
  Ok (fst built
      ++ bodyArguments (scopeId parent) (isSome (decl_portList syntax)) lifetime false
           (decl_bodyArgs syntax),
      {| sub_name := decl_name syntax;
         sub_location := decl_location syntax;
         sub_lifetime := lifetime;
         subroutineKind := subroutineKind;
         visibility := VisPublic;
         flags := if isNew then withConstructor noFlags else noFlags;
         returnType := fst declared;
         returnTypeScope := snd declared;
         arguments := map (resolveArgument parent) (snd built) ++ decl_bodyArgs syntax;
         sub_parent := None;
         sub_index := 0;
         outOfBlockIndex := 0;
         hasThisVar := false |}).

(** *** MethodPrototypeSymbol::checkMethodMatch *)

Fixpoint checkArguments (scope : Z) (defArgs protoArgs : list FormalArgumentSymbol)
    : list Diagnostic * bool :=
  match defArgs, protoArgs with
  | da :: drest, pa :: prest =>
    if negb (String.eqb (arg_name da) (arg_name pa))
       && negb (String.eqb (arg_name da) EmptyString)
       && negb (String.eqb (arg_name pa) EmptyString)
    then ([mkDiag MethodArgNameMismatch scope [arg_name da; arg_name pa]], false)
    else if negb (isMatching (arg_type da) (arg_type pa))
            && negb (isError (arg_type da)) && negb (isError (arg_type pa))
    then ([mkDiag MethodArgTypeMismatch scope [arg_name da]], false)
    else if negb (ArgumentDirection_eqb (direction da) (direction pa))
    then ([mkDiag MethodArgDirectionMismatch scope [arg_name da]], false)
    else checkArguments scope drest prest
  | _, _ => ([], true)
  end.

Definition checkMethodMatch (proto : MethodPrototypeSymbol) (scope : Z)
    (method : SubroutineSymbol) : list Diagnostic * bool :=
  if negb (SubroutineKind_eqb (subroutineKind method) (proto_kind proto))
  then ([mkDiag MethodKindMismatch scope []], false)
  else
    let protoRetType := proto_returnType proto in
    let defRetType := returnType method in
    if negb (isMatching defRetType protoRetType)
       && negb (isError defRetType) && negb (isError protoRetType)
    then ([mkDiag MethodReturnMismatch scope [sub_name method]], false)
    else if negb (length (arguments method) =? length (proto_arguments proto))%nat
    then ([mkDiag MethodArgCountMismatch scope [proto_name proto]], false)
    else checkArguments scope (arguments method) (proto_arguments proto).

(** *** SubroutineSymbol::createOutOfBlock *)

(** The loop over the default values: the arguments as it leaves them, the
    diagnostic that stopped it, if any. *)
Fixpoint defaultValues (scope : Z) (defArgs protoArgs : list FormalArgumentSymbol)
    : list FormalArgumentSymbol * list Diagnostic :=
  match defArgs, protoArgs with
  | da :: drest, pa :: prest =>
    match initializer da, initializer pa with
    | Some de, None => (da :: drest, [mkDiag MethodArgNoDefault scope [arg_name da]])
    | Some de, Some pe =>
      match expr_syntax de, expr_syntax pe with
      | Some ds, Some ps =>
        if negb (isSameExpr ds ps)
        then (da :: drest, [mkDiag MethodArgDefaultMismatch scope [arg_name da]])
        else let r := defaultValues scope drest prest in (da :: fst r, snd r)
      | _, _ => let r := defaultValues scope drest prest in (da :: fst r, snd r)
      end
    | None, Some pe =>
      let r := defaultValues scope drest prest in (setInitializer da pe :: fst r, snd r)
    | None, None =>
      let r := defaultValues scope drest prest in (da :: fst r, snd r)
    end
  | _, _ => (defArgs, [])
  end.

Definition INT32_MAX : Z := 2147483647.

(** The symbol built from the syntax once its parent, index, visibility,
    flags and [this] variable are set from the prototype. *)
Definition adopt (built : SubroutineSymbol) (prototype : MethodPrototypeSymbol)
    (parent : Scope) (outOfBlockIndex : Z) : SubroutineSymbol :=
  let flags1 := proto_flags prototype in
  let flags2 := if proto_isVirtual prototype then withVirtual flags1 else flags1 in
  {| sub_name := sub_name built;
     sub_location := sub_location built;
     sub_lifetime := sub_lifetime built;
     subroutineKind := subroutineKind built;
     visibility := proto_visibility prototype;
     flags := flags2;
     returnType := returnType built;
     returnTypeScope := returnTypeScope built;
     arguments := arguments built;
     sub_parent := Some (scopeId parent);
     sub_index := INT32_MAX;
     outOfBlockIndex := outOfBlockIndex;
     hasThisVar := negb (Static flags2) |}.

Definition withArguments (s : SubroutineSymbol) (args : list FormalArgumentSymbol)
    : SubroutineSymbol :=
  {| sub_name := sub_name s;
     sub_location := sub_location s;
     sub_lifetime := sub_lifetime s;
     subroutineKind := subroutineKind s;
     visibility := visibility s;
     flags := flags s;
     returnType := returnType s;
     returnTypeScope := returnTypeScope s;
     arguments := args;
     sub_parent := sub_parent s;
     sub_index := sub_index s;
     outOfBlockIndex := outOfBlockIndex s;
     hasThisVar := hasThisVar s |}.

(** [!found || found->getIndex() > outOfBlockIndex || !found->isType() ||
    !found->as<Type>().isMatching(defRetType)] for the result of the
    lookup in the scope of the definition. *)
Definition lookupFails (found : option (Member * Z)) (outOfBlockIndex : Z)
    (defRetType : Ty) : bool :=
  match found with
  | None => true
  | Some (m, _) =>
    (outOfBlockIndex <? m_index m)
    || match m_kind m with
       | MemberType t => negb (isMatching t defRetType)
       | _ => true
       end
  end.

(** [fromSyntax] with [outOfBlock = true] never gives a null pointer, so
    [ASSERT(result)] holds when it returns. *)
Definition createOutOfBlock (syntax : FunctionDeclarationSyntax)
    (prototype : MethodPrototypeSymbol) (parent definitionScope : Scope)
    (outOfBlockIndex : Z) : result (list Diagnostic * SubroutineSymbol) :=
  doR built <- fromSyntax syntax parent in
  let result := adopt (snd built) prototype parent outOfBlockIndex in
  let matched := checkMethodMatch prototype (scopeId parent) result in
  if negb (snd matched) then Ok (fst built ++ fst matched, result)
  else
    let defRetType := returnType result in
    let retName := getSimpleTypeName (decl_returnType syntax) in
    if option_Z_eqb (returnTypeScope result) (Some (scopeId parent))
       && negb (String.eqb retName EmptyString)
       && lookupFails (unqualified definitionScope retName) outOfBlockIndex defRetType
    then Ok (fst built ++ fst matched
             ++ [mkDiag MethodReturnTypeScoped (scopeId parent)
                   [sub_name result; symName parent]],
             result)
    else
      let defaults := defaultValues (scopeId parent) (arguments result)
                        (proto_arguments prototype) in
      Ok (fst built ++ fst matched ++ snd defaults, withArguments result (fst defaults)).

(** [SubroutineSymbol::createFromPrototype] *)
Definition createFromPrototype (prototype : MethodPrototypeSymbol) (parent : Scope)
    : SubroutineSymbol :=
  {| sub_name := proto_name prototype;
     sub_location := proto_location prototype;
     sub_lifetime := LifeAutomatic;
     subroutineKind := proto_kind prototype;
     visibility := proto_visibility prototype;
     flags := proto_flags prototype;
     returnType := proto_returnType prototype;
     returnTypeScope := None;
     arguments := proto_arguments prototype;
     sub_parent := Some (scopeId parent);
     sub_index := INT32_MAX;
     outOfBlockIndex := 0;
     hasThisVar := false |}.

(** *** MethodPrototypeSymbol::getSubroutine *)

(** The compilation, the prototype with its cache filled, and the pointer
    returned. *)
Definition getSubroutine (comp : Compilation) (proto : MethodPrototypeSymbol)
    (nearScope : Scope)
    : result (Compilation * MethodPrototypeSymbol * option SubroutineSymbol) :=
  match proto_subroutine proto with
  | Some cached => Ok (comp, proto, cached)
  | None =>
    match parentOf nearScope with
    | None => Err AssertionFailed
    | Some outerScope =>
      let name := proto_name proto in
      let finish c s := Ok (c, setSubroutine proto s, s) in
      let importStub := finish comp (Some (createFromPrototype proto nearScope)) in
      if InterfaceImport (proto_flags proto) then
        if SymbolKind_eqb (symKind nearScope) Modport then
          match unqualified_noParent outerScope name with
          | Some found =>
            match m_kind found with
            | MemberSubroutine sub =>
              let checked := checkMethodMatch proto (scopeId nearScope) sub in
              finish (addDiags comp (fst checked))
                     (if snd checked then Some sub else None)
            | MemberPrototype (Some sub) =>
              let checked := checkMethodMatch proto (scopeId nearScope) sub in
              finish (addDiags comp (fst checked))
                     (if snd checked then Some sub else None)
            | MemberPrototype None => finish comp None
            | _ =>
              finish (addDiags comp [mkDiag NotASubroutine (scopeId outerScope)
                                       [m_name found]])
                     (Some (createFromPrototype proto nearScope))
            end
          | None => importStub
          end
        else importStub
      else
        let decl := findOutOfBlockDecl comp (scopeId outerScope) (symName nearScope) name in
        let syntax :=
          match decl with
          | Some d =>
            match decl_kind (oob_syntax d) with
            | FunctionDeclaration | TaskDeclaration => Some d
            | OtherDeclaration => None
            end
          | None => None
          end in
        let comp1 :=
          match syntax with
          | Some _ => markUsed comp (scopeId outerScope) (symName nearScope) name
          | None => comp
          end in
        if Pure (proto_flags proto) then
          match syntax with
          | Some _ =>
            finish (addDiags comp1 [mkDiag BodyForPure (scopeId outerScope) []]) None
          | None => finish comp1 (Some (createFromPrototype proto nearScope))
          end
        else
          match syntax with
          | None =>
            finish (addDiags comp1 [mkDiag NoMemberImplFound (scopeId outerScope) [name]])
                   None
          | Some d =>
            let comp2 :=
              if oob_index d <=? symIndex nearScope
              then addDiags comp1 [mkDiag MemberDefinitionBeforeClass (scopeId outerScope)
                                     [name; symName nearScope]]
              else comp1 in
            doR created <- createOutOfBlock (oob_syntax d) proto nearScope outerScope
                             (oob_index d) in
            finish (addDiags comp2 (fst created)) (Some (snd created))
          end
    end
  end.

(** *** A class with a typedef, a prototype and two definitions *)

(** [typedef int T;] inside [class C]. *)
Definition typedefT : Ty := Alias (mkSymbol 50 (Some 500) (Some ClassType)) intT.

Definition unitScope : Scope :=
  mkScope 1 CompilationUnit EmptyString 0 0 LifeStatic
    [mkMember "C" 1 10 MemberOther] None.

Definition classC : Scope :=
  mkScope 2 ClassType "C" 1 10 LifeAutomatic
    [mkMember "T" 1 11 (MemberType typedefT);
     mkMember "foo" 2 12 (MemberPrototype None)]
    (Some unitScope).

(** [extern protected function T foo();] *)
Definition protoFoo : MethodPrototypeSymbol :=
  mkPrototype "foo" 12 SubFunction VisProtected noFlags false typedefT true [] None.


(** [function T C::foo(); endfunction] *)
Definition defFoo : FunctionDeclarationSyntax :=
  mkDeclaration FunctionDeclaration "foo" 40 None (NamedTypeSyntax "T") (Some []) [] 3.


(** [function T C::foo(const int a); endfunction]: the parser keeps a
    [const] port that is not [ref]. *)
Definition defFooConst : FunctionDeclarationSyntax :=
  mkDeclaration FunctionDeclaration "foo" 40 None (NamedTypeSyntax "T")
    (Some [mkPort None true (Some (KeywordTypeSyntax intT)) "a" 41 None]) [] 3.

Definition hasCode (c : DiagCode) (ds : list Diagnostic) : bool :=
  existsb (fun d => DiagCode_eqb (code d) c) ds.

(** *** SubroutineSymbol::checkVirtualMethodMatch *)

(** The diag:: codes [checkVirtualMethodMatch] reports. *)
Inductive VirtualDiagCode : Type :=
| VirtualKindMismatch | VirtualReturnMismatch | VirtualArgCountMismatch
| VirtualArgNameMismatch | VirtualArgTypeMismatch | VirtualArgDirectionMismatch
| VirtualArgNoParentDefault | VirtualArgNoDerivedDefault.

Record VirtualDiagnostic : Type := mkVirtualDiag {
  vcode : VirtualDiagCode;
  vscope : Z;
  vargs : list string
}.

Fixpoint checkVirtualArguments (scope : Z)
    (derivedArgs parentArgs : list FormalArgumentSymbol) : list VirtualDiagnostic :=
  match derivedArgs, parentArgs with
  | da :: drest, pa :: prest =>
    if negb (String.eqb (arg_name da) (arg_name pa))
       && negb (String.eqb (arg_name da) EmptyString)
       && negb (String.eqb (arg_name pa) EmptyString)
    then [mkVirtualDiag VirtualArgNameMismatch scope [arg_name da; arg_name pa]]
    else if negb (isMatching (arg_type da) (arg_type pa))
            && negb (isError (arg_type da)) && negb (isError (arg_type pa))
    then [mkVirtualDiag VirtualArgTypeMismatch scope [arg_name da]]
    else if negb (ArgumentDirection_eqb (direction da) (direction pa))
    then [mkVirtualDiag VirtualArgDirectionMismatch scope [arg_name da]]
    else
      match initializer da, initializer pa with
      | Some _, None => [mkVirtualDiag VirtualArgNoParentDefault scope [arg_name da]]
      | None, Some _ => [mkVirtualDiag VirtualArgNoDerivedDefault scope [arg_name da]]
      | _, _ => checkVirtualArguments scope drest prest
      end
  | _, _ => []
  end.

Section VirtualMethods.
Variable classInfo : Symbol -> ClassInfo.
Variable getCacheKey : Z -> Z.
Variable depth : nat.

Definition checkVirtualMethodMatch (scope : Z) (parentMethod derivedMethod : SubroutineSymbol)
    (allowDerivedReturn : bool) : result (list VirtualDiagnostic) :=
  if negb (SubroutineKind_eqb (subroutineKind parentMethod) (subroutineKind derivedMethod))
  then Ok [mkVirtualDiag VirtualKindMismatch scope []]
  else
    let retType := returnType derivedMethod in
    let parentRetType := returnType parentMethod in
    if isError retType || isError parentRetType then Ok []
    else
      doR mismatch <-
        (if isMatching retType parentRetType then Ok false
         else if negb allowDerivedReturn || negb (isClass retType) then Ok true
         else
           doR compatible <-
             isAssignmentCompatible classInfo getCacheKey depth parentRetType retType in
           Ok (negb compatible)) in
      if mismatch
      then Ok [mkVirtualDiag VirtualReturnMismatch scope [sub_name derivedMethod]]
      else if negb (length (arguments derivedMethod) =? length (arguments parentMethod))%nat
      then Ok [mkVirtualDiag VirtualArgCountMismatch scope [sub_name derivedMethod]]
      else Ok (checkVirtualArguments scope (arguments derivedMethod)
                 (arguments parentMethod)).

End VirtualMethods.

(** [virtual function Base get();] of [Base] and its override
    [function Derived get();] in [Derived]. *)
Definition getOfBase : SubroutineSymbol :=
  {| sub_name := "get"; sub_location := 70; sub_lifetime := LifeAutomatic;
     subroutineKind := SubFunction; visibility := VisPublic;
     flags := withVirtual noFlags; returnType := classBase; returnTypeScope := None;
     arguments := []; sub_parent := Some 60; sub_index := 1; outOfBlockIndex := 0;
     hasThisVar := true |}.

Definition getOfDerived : SubroutineSymbol :=
  {| sub_name := "get"; sub_location := 80; sub_lifetime := LifeAutomatic;
     subroutineKind := SubFunction; visibility := VisPublic;
     flags := noFlags; returnType := classDerived; returnTypeScope := None;
     arguments := []; sub_parent := Some 61; sub_index := 1; outOfBlockIndex := 0;
     hasThisVar := true |}.

(** *** MethodPrototypeSymbol::fromSyntax for a class method prototype *)

(** The token kinds of the qualifiers of a class method. *)
Inductive QualifierKind : Type :=
| LocalKeyword | ProtectedKeyword | StaticKeyword | PureKeyword | VirtualKeyword
| ConstKeyword | ExternKeyword | RandKeyword
| OtherToken (k : Z).

(** [flags |= MethodFlags::Static] and [flags |= MethodFlags::Pure] *)
Definition withStatic (f : MethodFlags) : MethodFlags :=
  mkFlags (Virtual f) (Pure f) true (Constructor f) (InterfaceImport f) (DPIImport f).

Definition withPure (f : MethodFlags) : MethodFlags :=
  mkFlags (Virtual f) true (Static f) (Constructor f) (InterfaceImport f) (DPIImport f).

(** [for (Token qual : syntax.qualifiers) switch (qual.kind) ...]; [None]
    when the switch reaches [THROW_UNREACHABLE]. *)
Fixpoint applyQualifiers (qualifiers : list QualifierKind) (visibility : Visibility)
    (flags : MethodFlags) : option (Visibility * MethodFlags) :=
  match qualifiers with
  | [] => Some (visibility, flags)
  | qual :: rest =>
    match qual with
    | LocalKeyword => applyQualifiers rest VisLocal flags
    | ProtectedKeyword => applyQualifiers rest VisProtected flags
    | StaticKeyword => applyQualifiers rest visibility (withStatic flags)
    | PureKeyword => applyQualifiers rest visibility (withPure flags)
    | VirtualKeyword => applyQualifiers rest visibility (withVirtual flags)
    | ConstKeyword | ExternKeyword | RandKeyword => applyQualifiers rest visibility flags
    | OtherToken _ => None
    end
  end.

(** A declared return type as the factory leaves it: a type syntax to
    resolve ([setTypeSyntax]) or a type ([setType]). *)
Inductive DeclaredReturnType : Type :=
| ReturnTypeSyntax (syntax : DataTypeSyntax)
| ReturnTypeSet (t : Ty).

(** What the factory reads of a [ClassMethodPrototypeSyntax]: the
    qualifiers, whether the keyword is [task], the text and location of the
    name token, the return type and the port list (if any). *)
Record ClassMethodPrototypeSyntax : Type := mkPrototypeSyntax {
  cmp_qualifiers : list QualifierKind;
  cmp_isTask : bool;
  cmp_name : string;
  cmp_location : Z;
  cmp_returnType : DataTypeSyntax;
  cmp_portList : option (list FunctionPortSyntax)
}.

(** The scope the prototype is declared in: its id, the kind of its symbol
    and, for a class, [isAbstract] and [isInterface]. *)
Record DeclaringScope : Type := mkDeclaringScope {
  ds_id : Z;
  ds_kind : SymbolKind;
  ds_isAbstract : bool;
  ds_isInterface : bool
}.

(** The prototype as the factory builds it, before any type is resolved. *)
Record BuiltPrototype : Type := mkBuiltPrototype {
  bp_name : string;
  bp_location : Z;
  bp_kind : SubroutineKind;
  bp_visibility : Visibility;
  bp_flags : MethodFlags;
  bp_returnType : DeclaredReturnType;
  bp_arguments : list BuiltArgument
}.

(** [diag::PureInAbstract], added to the declaring scope at the name
    token. *)
Record PureInAbstractDiag : Type := mkPureInAbstract {
  pia_scope : Z;
  pia_at : Z
}.

(** [MethodPrototypeSymbol::fromSyntax(const Scope&, const
    ClassMethodPrototypeSyntax&)]. The prototype is created with the flags
    the qualifiers gave; [flags &= ~MethodFlags::Pure] after the diagnostic
    changes the local variable only. The arguments are built in the scope
    of the new prototype, [protoScope]. The result is [None] when the
    qualifier switch throws. *)
Definition prototypeFromSyntax (scope : DeclaringScope) (protoScope : Z)
    (syntax : ClassMethodPrototypeSyntax)
    : option (result (list PureInAbstractDiag * list Diagnostic * BuiltPrototype)) :=
  let subroutineKind := if cmp_isTask syntax then SubTask else SubFunction in
  match applyQualifiers (cmp_qualifiers syntax) VisPublic noFlags with
  | None => None
  | Some (visibility, flags0) =>
    let flags := if String.eqb (cmp_name syntax) "new" then withConstructor flags0
                 else flags0 in
    let declaredReturnType :=
      match subroutineKind with
      | SubFunction =>
        if negb (Constructor flags) then ReturnTypeSyntax (cmp_returnType syntax)
        else ReturnTypeSet voidType
      | SubTask => ReturnTypeSet voidType
      end in
    Some
      (doR pureDiags <-
         (if Pure flags then
            ASSERT! (SymbolKind_eqb (ds_kind scope) ClassType) in
            if negb (ds_isAbstract scope) && negb (ds_isInterface scope)
            then Ok [mkPureInAbstract (ds_id scope) (cmp_location syntax)]
            else Ok []
          else Ok []) in
       doR built <-
         (match cmp_portList syntax with
          | Some ports => buildArguments protoScope LifeAutomatic ports
          | None => Ok ([], [])
          end) in
       Ok (pureDiags, fst built,
           {| bp_name := cmp_name syntax;
              bp_location := cmp_location syntax;
              bp_kind := subroutineKind;
              bp_visibility := visibility;
              bp_flags := flags;
              bp_returnType := declaredReturnType;
              bp_arguments := snd built |}))
  end.

(** The visibility the last [local] or [protected] of a list of qualifiers
    gives, [public] when there is none. *)
Definition isVisibilityQualifier (q : QualifierKind) : bool :=
  match q with
  | LocalKeyword | ProtectedKeyword => true
  | _ => false
  end.

Definition lastVisibility (qualifiers : list QualifierKind) : Visibility :=
  match List.find isVisibilityQualifier (rev qualifiers) with
  | Some LocalKeyword => VisLocal
  | Some ProtectedKeyword => VisProtected
  | _ => VisPublic
  end.

(** [pure virtual protected function int size(ref int n);] *)
Definition examplePrototypeSyntax : ClassMethodPrototypeSyntax :=
  {| cmp_qualifiers := [PureKeyword; VirtualKeyword; ProtectedKeyword];
     cmp_isTask := false;
     cmp_name := "size";
     cmp_location := 90;
     cmp_returnType := KeywordTypeSyntax intT;
     cmp_portList := Some [mkPort (Some DirRef) false (Some (KeywordTypeSyntax intT)) "n" 91 None] |}.

(** *** SubroutineSymbol::fromSyntax for a DPI import *)

(** [syntax.property.kind] *)
Inductive DPIProperty : Type :=
| PropertyPure
| PropertyContext
| PropertyNone.

Record DPIImportSyntax : Type := mkDPIImportSyntax {
  dpi_isTask : bool;
  dpi_name : string;
  dpi_location : Z;
  dpi_returnType : DataTypeSyntax;
  dpi_property : DPIProperty;
  dpi_specString : string;
  dpi_portList : option (list FunctionPortSyntax)
}.

Inductive DPIDiagCode : Type :=
| DPISpecDisallowed
| DPIRefArg
| DPIPureArg.

(** A diagnostic of the import: its code, the scope it was added to and
    the location it points at. *)
Record DPIDiagnostic : Type := mkDPIDiag {
  dpi_code : DPIDiagCode;
  dpi_scope : Z;
  dpi_at : Z
}.

(** The subroutine of the import; [imp_context] is
    [MethodFlags::DPIContext]. The flags [DPIReturnType] and [DPIArg] that
    the factory adds to the declared types belong to DeclaredType.h and
    are not held here. *)
Record DPISubroutine : Type := mkDPISubroutine {
  imp_name : string;
  imp_location : Z;
  imp_lifetime : VariableLifetime;
  imp_kind : SubroutineKind;
  imp_flags : MethodFlags;
  imp_context : bool;
  imp_returnType : DeclaredReturnType;
  imp_arguments : list BuiltArgument
}.

(** The loop that checks the arguments of the import, with its
    [pureError] flag. *)
Fixpoint checkDPIArguments (parent : Z) (isPure pureError : bool)
    (args : list BuiltArgument) : list DPIDiagnostic :=
  match args with
  | [] => []
  | arg :: rest =>
    match built_direction arg with
    | DirRef =>
      mkDPIDiag DPIRefArg parent (built_location arg)
      :: checkDPIArguments parent isPure pureError rest
    | DirOut | DirInOut =>
      if isPure && negb pureError
      then mkDPIDiag DPIPureArg parent (built_location arg)
           :: checkDPIArguments parent isPure true rest
      else checkDPIArguments parent isPure pureError rest
    | DirIn => checkDPIArguments parent isPure pureError rest
    end
  end.

(** [SubroutineSymbol::fromSyntax(Compilation&, const DPIImportSyntax&,
    const Scope&)]; [specRange] is the range of the spec string and
    [subScope] the scope of the new subroutine, in which the arguments are
    built. *)
Definition dpiFromSyntax (parent : Z) (subScope : Z) (specRange : Z)
    (syntax : DPIImportSyntax)
    : result (list DPIDiagnostic * list Diagnostic * DPISubroutine) :=
  let subroutineKind := if dpi_isTask syntax then SubTask else SubFunction in
  let flags0 := mkFlags false false false false false true in
  let declaredReturnType :=
    match subroutineKind with
    | SubFunction => ReturnTypeSyntax (dpi_returnType syntax)
    | SubTask => ReturnTypeSet intT
    end in
  let isPure :=
    match dpi_property syntax with
    | PropertyPure => true
    | _ => false
    end in
  let flags :=
    match dpi_property syntax with
    | PropertyPure => withPure flags0
    | _ => flags0
    end in
  let context :=
    match dpi_property syntax with
    | PropertyContext => true
    | _ => false
    end in
  let specDiags :=
    if String.eqb (dpi_specString syntax) "DPI"
    then [mkDPIDiag DPISpecDisallowed parent specRange]
    else [] in
  doR built <-
    (match dpi_portList syntax with
     | Some ports => buildArguments subScope LifeAutomatic ports
     | None => Ok ([], [])
     end) in
  Ok (specDiags ++ checkDPIArguments parent isPure false (snd built), fst built,
      {| imp_name := dpi_name syntax;
         imp_location := dpi_location syntax;
         imp_lifetime := LifeAutomatic;
         imp_kind := subroutineKind;
         imp_flags := flags;
         imp_context := context;
         imp_returnType := declaredReturnType;
         imp_arguments := snd built |}).

(** The diagnostics of a list that have the given code. *)
Definition DPIDiagCode_eqb (a b : DPIDiagCode) : bool :=
  match a, b with
  | DPISpecDisallowed, DPISpecDisallowed => true
  | DPIRefArg, DPIRefArg => true
  | DPIPureArg, DPIPureArg => true
  | _, _ => false
  end.

Definition withCode (c : DPIDiagCode) (diags : list DPIDiagnostic) : list DPIDiagnostic :=
  List.filter (fun d => DPIDiagCode_eqb (dpi_code d) c) diags.

Definition isRef (a : BuiltArgument) : bool :=
  ArgumentDirection_eqb (built_direction a) DirRef.

Definition isOutput (a : BuiltArgument) : bool :=
  ArgumentDirection_eqb (built_direction a) DirOut
  || ArgumentDirection_eqb (built_direction a) DirInOut.

(** [import "DPI-C" pure function int f(input int a, output int b, inout
    int c, ref int d);] *)
Definition exampleImport : DPIImportSyntax :=
  {| dpi_isTask := false;
     dpi_name := "f";
     dpi_location := 100;
     dpi_returnType := KeywordTypeSyntax intT;
     dpi_property := PropertyPure;
     dpi_specString := "DPI-C";
     dpi_portList :=
       Some [mkPort (Some DirIn) false (Some (KeywordTypeSyntax intT)) "a" 101 None;
             mkPort (Some DirOut) false (Some (KeywordTypeSyntax intT)) "b" 102 None;
             mkPort (Some DirInOut) false (Some (KeywordTypeSyntax intT)) "c" 103 None;
             mkPort (Some DirRef) false (Some (KeywordTypeSyntax intT)) "d" 104 None] |}.

End Subroutines.

(** * Printing syntax (SyntaxPrinter.cpp) *)

Module Printer.
Import Source.

(** ** Tokens, trivia and syntax nodes

    Token.h, Trivia and SyntaxNode.h are not among the sources; the types
    hold what the printer reads from them. *)

(** The kinds of trivia that carry raw text. *)
Inductive TextKind : Type :=
| Unknown
| Whitespace
| EndOfLine
| LineComment
| BlockComment
| DisabledText.

(** The kinds of syntax node the printer tells apart. *)
Inductive SyntaxKind : Type :=
| CompilationUnit
| MacroUsage
| IncludeDirective
| OtherSyntax (k : Z).

Definition SyntaxKind_eqb (a b : SyntaxKind) : bool :=
  match a, b with
  | CompilationUnit, CompilationUnit => true
  | MacroUsage, MacroUsage => true
  | IncludeDirective, IncludeDirective => true
  | OtherSyntax x, OtherSyntax y => x =? y
  | _, _ => false
  end.

(** A token has a location, its raw text, the missing flag and its leading
    trivia. A trivia is raw text of some kind, a directive or skipped
    syntax node, or a run of skipped tokens; the last field of each is what
    [Trivia::getExplicitLocation()] returns. A child of a node is a node, a
    token, or neither (a null pointer or a token that is not valid). *)
Inductive Token : Type :=
| mkToken (tokenLocation : SourceLocation) (tokenText : list ascii) (missing : bool)
    (leading : list Trivia)
with Trivia : Type :=
| TextTrivia (textKind : TextKind) (raw : list ascii) (explicit : option SourceLocation)
| DirectiveTrivia (node : SyntaxNode) (explicit : option SourceLocation)
| SkippedSyntaxTrivia (node : SyntaxNode) (explicit : option SourceLocation)
| SkippedTokensTrivia (tokens : list Token) (explicit : option SourceLocation)
with SyntaxNode : Type :=
| mkNode (nodeKind : SyntaxKind) (nodeChildren : list SyntaxChild)
with SyntaxChild : Type :=
| ChildNode (n : SyntaxNode)
| ChildToken (t : Token)
| ChildNull.

Definition location (t : Token) : SourceLocation :=
  match t with
  | mkToken l _ _ _ => l
  end.

Definition rawText (t : Token) : list ascii :=
  match t with
  | mkToken _ s _ _ => s
  end.

Definition isMissing (t : Token) : bool :=
  match t with
  | mkToken _ _ m _ => m
  end.

Definition trivia (t : Token) : list Trivia :=
  match t with
  | mkToken _ _ _ tr => tr
  end.

Definition getExplicitLocation (t : Trivia) : option SourceLocation :=
  match t with
  | TextTrivia _ _ l => l
  | DirectiveTrivia _ l => l
  | SkippedSyntaxTrivia _ l => l
  | SkippedTokensTrivia _ l => l
  end.

Definition kind (n : SyntaxNode) : SyntaxKind :=
  match n with
  | mkNode k _ => k
  end.

Definition children (n : SyntaxNode) : list SyntaxChild :=
  match n with
  | mkNode _ cs => cs
  end.

(** [trivia.kind] is [Directive], [SkippedSyntax] or [SkippedTokens]. *)
Definition isSyntaxOrSkipped (t : Trivia) : bool :=
  match t with
  | TextTrivia _ _ _ => false
  | _ => true
  end.

(** [SyntaxTree]: the root, [getMetadata().eofToken] (none when the token
    is not valid) and the source manager. *)
Record SyntaxTree : Type := mkSyntaxTree {
  root : SyntaxNode;
  eofToken : option Token;
  tree_sourceManager : SourceManager
}.

(** ** The printer *)

(** [class SyntaxPrinter]: the text printed so far, the source manager
    (null for the default constructor) and the flags. *)
Record SyntaxPrinter : Type := mkSyntaxPrinter {
  buffer : list ascii;
  sourceManager : option SourceManager;
  includeTrivia : bool;
  includeMissing : bool;
  includeSkipped : bool;
  includeDirectives : bool;
  includeComments : bool;
  expandMacros : bool;
  expandIncludes : bool;
  squashNewlines : bool
}.

Definition setBuffer (p : SyntaxPrinter) (b : list ascii) : SyntaxPrinter :=
  {| buffer := b; sourceManager := sourceManager p; includeTrivia := includeTrivia p;
     includeMissing := includeMissing p; includeSkipped := includeSkipped p;
     includeDirectives := includeDirectives p; includeComments := includeComments p;
     expandMacros := expandMacros p; expandIncludes := expandIncludes p;
     squashNewlines := squashNewlines p |}.

Definition setSourceManager (p : SyntaxPrinter) (sm : SourceManager) : SyntaxPrinter :=
  {| buffer := buffer p; sourceManager := Some sm; includeTrivia := includeTrivia p;
     includeMissing := includeMissing p; includeSkipped := includeSkipped p;
     includeDirectives := includeDirectives p; includeComments := includeComments p;
     expandMacros := expandMacros p; expandIncludes := expandIncludes p;
     squashNewlines := squashNewlines p |}.

Definition setIncludeDirectives (p : SyntaxPrinter) (include : bool) : SyntaxPrinter :=
  {| buffer := buffer p; sourceManager := sourceManager p; includeTrivia := includeTrivia p;
     includeMissing := includeMissing p; includeSkipped := includeSkipped p;
     includeDirectives := include; includeComments := includeComments p;
     expandMacros := expandMacros p; expandIncludes := expandIncludes p;
     squashNewlines := squashNewlines p |}.

Definition setIncludeSkipped (p : SyntaxPrinter) (include : bool) : SyntaxPrinter :=
  {| buffer := buffer p; sourceManager := sourceManager p; includeTrivia := includeTrivia p;
     includeMissing := includeMissing p; includeSkipped := include;
     includeDirectives := includeDirectives p; includeComments := includeComments p;
     expandMacros := expandMacros p; expandIncludes := expandIncludes p;
     squashNewlines := squashNewlines p |}.

Definition setIncludeTrivia (p : SyntaxPrinter) (include : bool) : SyntaxPrinter :=
  {| buffer := buffer p; sourceManager := sourceManager p; includeTrivia := include;
     includeMissing := includeMissing p; includeSkipped := includeSkipped p;
     includeDirectives := includeDirectives p; includeComments := includeComments p;
     expandMacros := expandMacros p; expandIncludes := expandIncludes p;
     squashNewlines := squashNewlines p |}.

Definition setSquashNewlines (p : SyntaxPrinter) (squash : bool) : SyntaxPrinter :=
  {| buffer := buffer p; sourceManager := sourceManager p; includeTrivia := includeTrivia p;
     includeMissing := includeMissing p; includeSkipped := includeSkipped p;
     includeDirectives := includeDirectives p; includeComments := includeComments p;
     expandMacros := expandMacros p; expandIncludes := expandIncludes p;
     squashNewlines := squash |}.

(** What a step of the printer can end in besides its new state: a failure
    of the source manager, [std::out_of_range] thrown by
    [string_view::substr], or the recursion bound of the embedding. *)
Inductive Thrown : Type :=
| FromSourceManager (e : Failure)
| StdOutOfRange
| DepthExceeded.

Inductive printed (A : Type) : Type :=
| Printed (a : A)
| Threw (e : Thrown).
Arguments Printed {A} a.
Arguments Threw {A} e.

Definition pbind {A B : Type} (r : printed A) (k : A -> printed B) : printed B :=
  match r with
  | Printed a => k a
  | Threw e => Threw e
  end.

Notation "'doP' x <- r 'in' k" := (pbind r (fun x => k))
  (at level 10, x name, r at level 100, k at level 200).

Definition fromSource {A : Type} (r : result A) : printed A :=
  match r with
  | Ok a => Printed a
  | Err e => Threw (FromSourceManager e)
  end.

(** *** append *)

Definition CR : ascii := "013"%char.
Definition LF : ascii := "010"%char.

Definition isCRorLF (c : ascii) : bool := Ascii.eqb c CR || Ascii.eqb c LF.

(** [for (; i < text.length(); i++) { if (text[i] == '\r' || text[i] == '\n') i++; }]
    gives the final [i]; [i] grows in every round, so [text.length()] rounds
    are enough. *)
Fixpoint skip_loop (rounds : nat) (text : list ascii) (i : nat) : nat :=
  match rounds with
  | O => i
  | S rounds' =>
    if (i <? length text)%nat then
      let i1 := if isCRorLF (nth i text zero) then S i else i in
      skip_loop rounds' text (S i1)
    else i
  end.

(** [buffer.empty() || buffer.back() != '\n'] *)
Definition mayStartLine (b : list ascii) : bool :=
  match b with
  | [] => true
  | _ :: _ => negb (Ascii.eqb (List.last b zero) LF)
  end.

(** [SyntaxPrinter::append]; [text.substr(i)] throws when [i] is past the
    end of the text. *)
Definition append (p : SyntaxPrinter) (text : list ascii) : printed SyntaxPrinter :=
  if negb (squashNewlines p) then Printed (setBuffer p (buffer p ++ text))
  else
    doP squashed <-
      (match text with
       | c :: _ =>
         if isCRorLF c then
           let carriage := Ascii.eqb c CR in
           let i := if carriage then 1%nat else 0%nat in
           let newline := (i <? length text)%nat && Ascii.eqb (nth i text zero) LF in
           let i := if newline then S i else i in
           let i := skip_loop (length text) text i in
           if (length text <? i)%nat then Threw StdOutOfRange
           else Printed (carriage, newline, skipn i text)
         else Printed (false, false, text)
       | [] => Printed (false, false, text)
       end) in
    let '(carriage, newline, text') := squashed in
    let b := buffer p in
    let b1 := if mayStartLine b
              then (b ++ (if carriage then [CR] else [])) ++ (if newline then [LF] else [])
              else b in
    Printed (setBuffer p (b1 ++ text')).

(** *** shouldPrint *)

(** [SyntaxPrinter::shouldPrint(SourceLocation)] *)
Definition shouldPrint (p : SyntaxPrinter) (loc : SourceLocation) : result bool :=
  match sourceManager p with
  | None => Ok true
  | Some sm =>
    doR macro <- isMacroLoc sm loc in
    if macro then
      if negb (expandMacros p) then Ok false
      else if expandIncludes p then Ok true
      else Ok (negb (isIncludedFileLoc sm loc))
    else if isIncludedFileLoc sm loc then Ok (expandIncludes p)
    else Ok true
  end.

Section Printing.
(** [SyntaxNode::getFirstToken()], of SyntaxNode.cpp. *)
Variable getFirstToken : SyntaxNode -> Token.

(** [SyntaxPrinter::shouldPrint(const SyntaxNode&)] *)
Definition shouldPrintSyntax (p : SyntaxPrinter) (syntax : SyntaxNode) : bool :=
  match sourceManager p with
  | None => includeDirectives p
  | Some sm =>
    match kind syntax with
    | MacroUsage =>
      if negb (expandMacros p) then true
      else if expandIncludes p then false
      else isIncludedFileLoc sm (location (getFirstToken syntax))
    | IncludeDirective => negb (expandIncludes p)
    | _ => includeDirectives p
    end
  end.

(** *** print

    The three overloads of [print] call each other; the embedding has one
    function on what is printed and bounds the depth of the calls. *)
Inductive Printable : Type :=
| PTrivia (t : Trivia)
| PToken (t : Token)
| PNode (n : SyntaxNode).

Definition printer : Type := SyntaxPrinter -> Printable -> printed SyntaxPrinter.

(** [for (auto t : items) print(t);] *)
Fixpoint printEach (print1 : printer) (items : list Printable) (p : SyntaxPrinter)
    : printed SyntaxPrinter :=
  match items with
  | [] => Printed p
  | item :: rest =>
    doP p' <- print1 p item in
    printEach print1 rest p'
  end.

(** [SyntaxPrinter::print(Trivia)] *)
Definition print_trivia (print1 : printer) (p : SyntaxPrinter) (t : Trivia)
    : printed SyntaxPrinter :=
  match t with
  | DirectiveTrivia syntax _ =>
    if shouldPrintSyntax p syntax then print1 p (PNode syntax)
    else printEach print1 (map PTrivia (trivia (getFirstToken syntax))) p
  | SkippedSyntaxTrivia syntax _ =>
    if includeSkipped p then print1 p (PNode syntax) else Printed p
  | SkippedTokensTrivia tokens _ =>
    if includeSkipped p then printEach print1 (map PToken tokens) p else Printed p
  | TextTrivia DisabledText text _ =>
    if includeSkipped p then append p text else Printed p
  | TextTrivia LineComment text _ =>
    if negb (includeComments p) then Printed p else append p text
  | TextTrivia BlockComment text _ =>
    if negb (includeComments p) then Printed p else append p text
  | TextTrivia _ text _ => append p text
  end.

(** The loop over the trivia of a token when there is a source manager:
    the state is the printer and the [pending] vector. *)
Fixpoint print_pending (print1 : printer) (p : SyntaxPrinter) (trivias pending : list Trivia)
    : printed (SyntaxPrinter * list Trivia) :=
  match trivias with
  | [] => Printed (p, pending)
  | t :: rest =>
    let pending1 := pending ++ [t] in
    match getExplicitLocation t with
    | Some loc =>
      doP ok <- fromSource (shouldPrint p loc) in
      doP p' <-
        (if ok then printEach print1 (map PTrivia pending1) p
         else if isSyntaxOrSkipped t then print1 p (PTrivia t)
         else Printed p) in
      print_pending print1 p' rest []
    | None => print_pending print1 p rest pending1
    end
  end.

(** [SyntaxPrinter::print(Token)] *)
Definition print_token (print1 : printer) (p : SyntaxPrinter) (token : Token)
    : printed SyntaxPrinter :=
  doP ok <- fromSource (shouldPrint p (location token)) in
  let excluded := negb ok in
  doP p1 <-
    (if includeTrivia p then
       match sourceManager p with
       | None => printEach print1 (map PTrivia (trivia token)) p
       | Some _ =>
         doP st <- print_pending print1 p (trivia token) [] in
         if negb excluded then printEach print1 (map PTrivia (snd st)) (fst st)
         else Printed (fst st)
       end
     else Printed p) in
  if negb excluded && (includeMissing p1 || negb (isMissing token))
  then append p1 (rawText token)
  else Printed p1.

Definition printableChildren (cs : list SyntaxChild) : list Printable :=
  flat_map (fun c => match c with
                     | ChildNode n => [PNode n]
                     | ChildToken t => [PToken t]
                     | ChildNull => []
                     end) cs.

(** [SyntaxPrinter::print(const SyntaxNode&)] *)
Definition print_node (print1 : printer) (p : SyntaxPrinter) (node : SyntaxNode)
    : printed SyntaxPrinter :=
  printEach print1 (printableChildren (children node)) p.

Fixpoint print (depth : nat) (p : SyntaxPrinter) (item : Printable)
    : printed SyntaxPrinter :=
  match depth with
  | O => Threw DepthExceeded
  | S depth' =>
    match item with
    | PTrivia t => print_trivia (print depth') p t
    | PToken t => print_token (print depth') p t
    | PNode n => print_node (print depth') p n
    end
  end.

(** [SyntaxPrinter::print(const SyntaxTree&)] *)
Definition print_tree (depth : nat) (p : SyntaxPrinter) (tree : SyntaxTree)
    : printed SyntaxPrinter :=
  doP p1 <- print depth p (PNode (root tree)) in
  match eofToken tree with
  | Some eof =>
    if negb (SyntaxKind_eqb (kind (root tree)) CompilationUnit)
    then print depth p1 (PToken eof)
    else Printed p1
  | None => Printed p1
  end.

(** [SyntaxPrinter::printFile]; [fresh] is the printer as its default
    member initializers leave it, to which the constructor adds the source
    manager of the tree. *)
Definition printFile (depth : nat) (fresh : SyntaxPrinter) (tree : SyntaxTree)
    : printed (list ascii) :=
  let p := setSquashNewlines
             (setIncludeTrivia
                (setIncludeSkipped
                   (setIncludeDirectives
                      (setSourceManager fresh (tree_sourceManager tree)) true)
                   true)
                true)
             false in
  doP p' <- print_tree depth p tree in
  Printed (buffer p').

End Printing.

(** ** What the statements about the printer refer to *)

(** The text of a token, a trivia or a node: the raw text of everything in
    it in document order; a missing token gives its raw text only when
    [includeMissing] says so. *)
Fixpoint textOfToken (includeMissing : bool) (t : Token) : list ascii :=
  match t with
  | mkToken _ text missing leading =>
    List.concat (map (textOfTrivia includeMissing) leading)
    ++ (if includeMissing || negb missing then text else [])
  end
with textOfTrivia (includeMissing : bool) (t : Trivia) : list ascii :=
  match t with
  | TextTrivia _ text _ => text
  | DirectiveTrivia n _ => textOfNode includeMissing n
  | SkippedSyntaxTrivia n _ => textOfNode includeMissing n
  | SkippedTokensTrivia ts _ => List.concat (map (textOfToken includeMissing) ts)
  end
with textOfNode (includeMissing : bool) (n : SyntaxNode) : list ascii :=
  match n with
  | mkNode _ cs =>
    List.concat (map (fun c => match c with
                               | ChildNode m => textOfNode includeMissing m
                               | ChildToken t => textOfToken includeMissing t
                               | ChildNull => []
                               end) cs)
  end.

Definition textOf (includeMissing : bool) (item : Printable) : list ascii :=
  match item with
  | PTrivia t => textOfTrivia includeMissing t
  | PToken t => textOfToken includeMissing t
  | PNode n => textOfNode includeMissing n
  end.

(** How deep the overloads of [print] nest on a token, a trivia or a node. *)
Fixpoint depthOfToken (t : Token) : nat :=
  match t with
  | mkToken _ _ _ leading => S (list_max (map depthOfTrivia leading))
  end
with depthOfTrivia (t : Trivia) : nat :=
  match t with
  | TextTrivia _ _ _ => 1%nat
  | DirectiveTrivia n _ => S (depthOfNode n)
  | SkippedSyntaxTrivia n _ => S (depthOfNode n)
  | SkippedTokensTrivia ts _ => S (list_max (map depthOfToken ts))
  end
with depthOfNode (n : SyntaxNode) : nat :=
  match n with
  | mkNode _ cs =>
    S (list_max (map (fun c => match c with
                               | ChildNode m => depthOfNode m
                               | ChildToken t => depthOfToken t
                               | ChildNull => O
                               end) cs))
  end.

Definition depthOf (item : Printable) : nat :=
  match item with
  | PTrivia t => depthOfTrivia t
  | PToken t => depthOfToken t
  | PNode n => depthOfNode n
  end.

(** Every location the printer asks [shouldPrint] about: the locations of
    the tokens and the explicit locations of the trivia. *)
Fixpoint locationsOfToken (t : Token) : list SourceLocation :=
  match t with
  | mkToken l _ _ leading => l :: List.concat (map locationsOfTrivia leading)
  end
with locationsOfTrivia (t : Trivia) : list SourceLocation :=
  match t with
  | TextTrivia _ _ l => match l with Some x => [x] | None => [] end
  | DirectiveTrivia n l =>
    match l with Some x => [x] | None => [] end ++ locationsOfNode n
  | SkippedSyntaxTrivia n l =>
    match l with Some x => [x] | None => [] end ++ locationsOfNode n
  | SkippedTokensTrivia ts l =>
    match l with Some x => [x] | None => [] end
    ++ List.concat (map locationsOfToken ts)
  end
with locationsOfNode (n : SyntaxNode) : list SourceLocation :=
  match n with
  | mkNode _ cs =>
    List.concat (map (fun c => match c with
                               | ChildNode m => locationsOfNode m
                               | ChildToken t => locationsOfToken t
                               | ChildNull => []
                               end) cs)
  end.

Definition locationsOf (item : Printable) : list SourceLocation :=
  match item with
  | PTrivia t => locationsOfTrivia t
  | PToken t => locationsOfToken t
  | PNode n => locationsOfNode n
  end.

(** The tokens of a node that are not inside trivia, in document order. *)
Fixpoint tokensOf (n : SyntaxNode) : list Token :=
  match n with
  | mkNode _ cs =>
    List.concat (map (fun c => match c with
                               | ChildNode m => tokensOf m
                               | ChildToken t => [t]
                               | ChildNull => []
                               end) cs)
  end.

(** The line break a text starts with: [CR LF], [CR], [LF] or nothing. *)
Definition leadingBreak (text : list ascii) : list ascii :=
  match text with
  | c :: rest =>
    if Ascii.eqb c CR then
      match rest with
      | c' :: _ => if Ascii.eqb c' LF then [CR; LF] else [CR]
      | [] => [CR]
      end
    else if Ascii.eqb c LF then [LF]
    else []
  | [] => []
  end.

(** The flags with which the printer leaves nothing out and changes
    nothing: those [printFile] sets, comments kept, no expansion of macros
    or includes. *)
Definition printsEverything (p : SyntaxPrinter) : Prop :=
  squashNewlines p = false /\ includeTrivia p = true /\ includeSkipped p = true
  /\ includeDirectives p = true /\ includeComments p = true
  /\ expandMacros p = false /\ expandIncludes p = false.

(** The text, the depth and the locations of a tree: those of its root,
    and those of the end-of-file token when the root is not a compilation
    unit (whose last child is that token). *)
Definition eofOf (tree : SyntaxTree) : list Printable :=
  match eofToken tree with
  | Some eof =>
    if negb (SyntaxKind_eqb (kind (root tree)) CompilationUnit) then [PToken eof] else []
  | None => []
  end.

Definition textOfTree (includeMissing : bool) (tree : SyntaxTree) : list ascii :=
  List.concat (map (textOf includeMissing) (PNode (root tree) :: eofOf tree)).

Definition depthOfTree (tree : SyntaxTree) : nat :=
  list_max (map depthOf (PNode (root tree) :: eofOf tree)).

Definition locationsOfTree (tree : SyntaxTree) : list SourceLocation :=
  List.concat (map locationsOf (PNode (root tree) :: eofOf tree)).

(** The first token of a node in document order, for the examples. *)
Fixpoint firstTokenOf (n : SyntaxNode) : option Token :=
  match n with
  | mkNode _ cs =>
    (fix first (cs : list SyntaxChild) : option Token :=
       match cs with
       | [] => None
       | ChildToken t :: _ => Some t
       | ChildNode m :: rest =>
         match firstTokenOf m with
         | Some t => Some t
         | None => first rest
         end
       | ChildNull :: rest => first rest
       end) cs
  end.

Definition firstTokenOrEmpty (n : SyntaxNode) : Token :=
  match firstTokenOf n with
  | Some t => t
  | None => mkToken SourceLocation_default [] false []
  end.

(** [module m;] and [endmodule] on two lines of the file [a.sv] of
    [twoFiles], with a comment before [endmodule], as a compilation unit
    that ends in the end-of-file token. *)
Definition exampleEof : Token :=
  mkToken (mkSourceLocation 1 29) [] false [TextTrivia EndOfLine [LF] None].

Definition exampleModule : SyntaxNode :=
  mkNode (OtherSyntax 1)
    [ChildToken (mkToken (mkSourceLocation 1 0) (list_ascii_of_string "module") false []);
     ChildToken (mkToken (mkSourceLocation 1 7) (list_ascii_of_string "m") false
                   [TextTrivia Whitespace (list_ascii_of_string " ") None]);
     ChildToken (mkToken (mkSourceLocation 1 8) (list_ascii_of_string ";") false []);
     ChildNull;
     ChildToken (mkToken (mkSourceLocation 1 20) (list_ascii_of_string "endmodule") false
                   [TextTrivia EndOfLine [LF] None;
                    TextTrivia LineComment (list_ascii_of_string "// empty") None;
                    TextTrivia EndOfLine [LF] None])].

Definition exampleTree : SyntaxTree :=
  {| root := mkNode CompilationUnit [ChildNode exampleModule; ChildToken exampleEof];
     eofToken := Some exampleEof;
     tree_sourceManager := twoFiles |}.

(** A printer as the default constructor could leave it. *)
Definition examplePrinter : SyntaxPrinter :=
  {| buffer := []; sourceManager := None; includeTrivia := true; includeMissing := false;
     includeSkipped := false; includeDirectives := false; includeComments := true;
     expandMacros := false; expandIncludes := false; squashNewlines := true |}.

(** The two tokens the macro [FOO] of [expanded] stands for, [1] and [+],
    in the buffer of the expansion, followed by a token of the file. *)
Definition exampleExpansion : SyntaxNode :=
  mkNode (OtherSyntax 2)
    [ChildToken (mkToken (RawLocation 2 0) (list_ascii_of_string "1") false []);
     ChildNode
       (mkNode (OtherSyntax 3)
          [ChildToken (mkToken (RawLocation 2 2) (list_ascii_of_string "+") false
                         [TextTrivia Whitespace (list_ascii_of_string " ") None])])].

Definition exampleUse : SyntaxNode :=
  mkNode (OtherSyntax 4)
    [ChildNode exampleExpansion;
     ChildToken (mkToken (RawLocation 1 15) (list_ascii_of_string "x") false
                   [TextTrivia Whitespace (list_ascii_of_string " ") None])].

End Printer.

(** * Facts about the source manager *)

Module SourceFacts.
Import Source.

(** ** Binary search *)

Section LowerBoundFacts.
Context {A : Type} (comp : A -> bool) (l : list A).

Lemma lower_bound_loop_bound (Hpart : partitioned comp l) :
  forall fuel first len,
    (len <= fuel)%nat -> (first + len <= length l)%nat ->
    (forall i x, (i < first)%nat -> nth_error l i = Some x -> comp x = true) ->
    (forall i x, (first + len <= i)%nat -> nth_error l i = Some x -> comp x = false) ->
    bound_at comp l (lower_bound_loop comp fuel l first len).
Proof.
  induction fuel as [|fuel IH]; intros first len Hfuel Hlen Hlo Hhi;
    cbn [lower_bound_loop].
  - assert (len = 0)%nat by lia. subst len.
    repeat split; [lia | exact Hlo | intros; apply (Hhi i); [lia | assumption]].
  - destruct (Nat.eqb_spec len 0) as [->|Hne].
    + repeat split; [lia | exact Hlo | intros; apply (Hhi i); [lia | assumption]].
    + assert (Hhalf : (len / 2 < len)%nat) by (apply Nat.div_lt; lia).
      destruct (nth_error l (first + len / 2)) as [x|] eqn:Hmid.
      * destruct (comp x) eqn:Hx.
        -- apply IH; try lia.
           ++ intros i y Hi Hy.
              apply (Hpart i (first + len / 2)%nat y x); [lia | assumption | assumption | assumption].
           ++ intros i y Hi Hy. apply (Hhi i); [lia | assumption].
        -- apply IH; try lia.
           ++ exact Hlo.
           ++ intros i y Hi Hy.
              destruct (comp y) eqn:Hcy; [|reflexivity].
              rewrite <- Hx. symmetry.
              apply (Hpart (first + len / 2)%nat i x y); [lia | assumption | assumption | assumption].
      * apply nth_error_None in Hmid. lia.
Qed.

Lemma lower_bound_bound (Hpart : partitioned comp l) :
  bound_at comp l (lower_bound comp l).
Proof.
  unfold lower_bound. apply lower_bound_loop_bound; try assumption; try lia.
  intros i x Hi Hx. simpl in Hi.
  assert (nth_error l i = None) by (apply nth_error_None; lia). congruence.
Qed.
End LowerBoundFacts.

(** ** Line directives *)

Lemma sorted_nth_le (l : list LineDirectiveInfo) :
  sortedByLineInFile l ->
  forall i j x y, (i <= j)%nat ->
    nth_error l i = Some x -> nth_error l j = Some y ->
    lineInFile x <= lineInFile y.
Proof.
  induction 1 as [|a l Hsorted IH Hall]; intros i j x y Hij Hx Hy.
  - destruct i; discriminate.
  - destruct i as [|i], j as [|j]; simpl in Hx, Hy.
    + injection Hx as <-. injection Hy as <-. lia.
    + injection Hx as <-. apply nth_error_In in Hy.
      rewrite List.Forall_forall in Hall. exact (Hall y Hy).
    + lia.
    + apply (IH i j); [lia | assumption | assumption].
Qed.

Lemma sorted_partitioned (l : list LineDirectiveInfo) (raw : Z) :
  sortedByLineInFile l ->
  partitioned (fun a => lineInFile a <? raw) l.
Proof.
  intros Hsorted i j x y Hij Hx Hy Hlt.
  pose proof (sorted_nth_le l Hsorted i j x y Hij Hx Hy).
  apply Z.ltb_lt in Hlt. apply Z.ltb_lt. lia.
Qed.

Lemma nearestPreceding_bound (raw : Z) :
  forall (l : list LineDirectiveInfo) (r : nat),
    bound_at (fun a => lineInFile a <? raw) l r ->
    nearestPreceding l raw = if (r =? 0)%nat then None else nth_error l (r - 1).
Proof.
  induction l as [|d rest IH]; intros r (Hlen & Hlo & Hhi).
  - simpl in Hlen. assert (r = 0)%nat by lia. subst r. reflexivity.
  - destruct r as [|r].
    + cbn [nearestPreceding]. rewrite (IH 0%nat).
      * cbn. rewrite (Hhi 0%nat d); [reflexivity | lia | reflexivity].
      * repeat split; [lia | intros; lia |].
        intros i x _ Hx. apply (Hhi (S i)); [lia | exact Hx].
    + cbn [nearestPreceding]. rewrite (IH r).
      * replace (S r - 1)%nat with r by lia. cbn [Nat.eqb].
        destruct r as [|r].
        -- cbn. rewrite (Hlo 0%nat d); [reflexivity | lia | reflexivity].
        -- cbn [Nat.eqb]. replace (S r - 1)%nat with r by lia.
           cbn [nth_error].
           destruct (nth_error rest r) eqn:Hr; [reflexivity|].
           apply nth_error_None in Hr. simpl in Hlen. lia.
      * repeat split.
        -- simpl in Hlen. lia.
        -- intros i x Hi Hx. apply (Hlo (S i)); [lia | exact Hx].
        -- intros i x Hi Hx. apply (Hhi (S i)); [lia | exact Hx].
Qed.

Lemma getPreviousLineDirective_nearest (l : list LineDirectiveInfo) (raw : Z) :
  sortedByLineInFile l ->
  getPreviousLineDirective l raw = nearestPreceding l raw.
Proof.
  intros Hsorted.
  pose proof (lower_bound_bound _ l (sorted_partitioned l raw Hsorted)) as Hb.
  rewrite (nearestPreceding_bound raw l _ Hb).
  unfold getPreviousLineDirective.
  set (it := lower_bound (fun a => lineInFile a <? raw) l) in *.
  destruct Hb as (Hlen & Hlo & Hhi).
  destruct (Nat.eqb_spec it 0) as [->|Hne]; [reflexivity|].
  cbn [negb].
  destruct (Nat.eqb_spec it (length l)) as [Hend|Hmid]; [|reflexivity].
  unfold back. rewrite <- Hend.
  destruct (nth_error l (it - 1)) as [b|] eqn:Hb; [|reflexivity].
  assert (Hcomp : (lineInFile b <? raw) = true) by (apply (Hlo (it - 1)%nat); [lia | exact Hb]).
  apply Z.ltb_lt in Hcomp.
  destruct (Z.leb_spec raw (lineInFile b)); [lia | reflexivity].
Qed.

Lemma nearestPreceding_None (l : list LineDirectiveInfo) (raw : Z) :
  nearestPreceding l raw = None ->
  forall d, In d l -> raw <= lineInFile d.
Proof.
  induction l as [|a rest IH]; intros Hnone d Hin; [contradiction|].
  cbn [nearestPreceding] in Hnone.
  destruct (nearestPreceding rest raw) eqn:Hrest; [discriminate|].
  destruct (Z.ltb_spec (lineInFile a) raw); [discriminate|].
  destruct Hin as [<-|Hin]; [assumption | apply IH; [reflexivity | assumption]].
Qed.

Lemma nearestPreceding_Some (l : list LineDirectiveInfo) (raw : Z) (d : LineDirectiveInfo) :
  nearestPreceding l raw = Some d ->
  In d l /\ lineInFile d < raw.
Proof.
  induction l as [|a rest IH]; intros Hsome; [discriminate|].
  cbn [nearestPreceding] in Hsome.
  destruct (nearestPreceding rest raw) eqn:Hrest.
  - injection Hsome as ->. destruct (IH eq_refl). split; [right|]; assumption.
  - destruct (Z.ltb_spec (lineInFile a) raw); [|discriminate].
    injection Hsome as ->. split; [left; reflexivity | assumption].
Qed.

Lemma nearestPreceding_greatest (l : list LineDirectiveInfo) (raw : Z) (d : LineDirectiveInfo) :
  sortedByLineInFile l ->
  nearestPreceding l raw = Some d ->
  forall d', In d' l -> lineInFile d' < raw -> lineInFile d' <= lineInFile d.
Proof.
  induction 1 as [|a rest Hsorted IH Hall]; intros Hsome d' Hin Hlt; [contradiction|].
  cbn [nearestPreceding] in Hsome.
  rewrite List.Forall_forall in Hall.
  destruct (nearestPreceding rest raw) eqn:Hrest.
  - injection Hsome as ->.
    destruct Hin as [<-|Hin].
    + apply Hall. apply (nearestPreceding_Some rest raw d Hrest).
    + apply IH; [reflexivity | assumption | assumption].
  - destruct (Z.ltb_spec (lineInFile a) raw); [|discriminate].
    injection Hsome as ->.
    destruct Hin as [<-|Hin]; [lia|].
    pose proof (nearestPreceding_None rest raw Hrest d' Hin). lia.
Qed.

Lemma size_t_line_formula (a r b : Z) :
  size_t (size_t (a + size_t (r - b)) - 1) = size_t (a + (r - b) - 1).
Proof.
  unfold size_t.
  rewrite Zminus_mod_idemp_l.
  replace (a + (r - b) mod 2 ^ 64 - 1) with ((a - 1) + (r - b) mod 2 ^ 64) by lia.
  rewrite Zplus_mod_idemp_r. f_equal. lia.
Qed.

Lemma getFullyExpandedLoc_file (sm : SourceManager) (L : SourceLocation) :
  isFileLoc sm L = true ->
  getFullyExpandedLoc sm L = Ok L.
Proof.
  unfold isFileLoc, getFullyExpandedLoc. intros Hfile.
  assert (HisMacro : isMacroLoc sm L = Ok false).
  { unfold isMacroLoc.
    destruct (SourceLocation_eqb L NoLocation); [discriminate|].
    unfold getFileInfo in Hfile.
    destruct (negb (BufferID_valid (buffer L))); [discriminate|].
    destruct (Z.leb_spec (entries_size sm) (buffer L)); [discriminate|].
    unfold ASSERT.
    destruct (Z.ltb_spec (buffer L) (entries_size sm)); [|lia].
    cbn [rbind].
    destruct (entry_at sm (buffer L)) as [[f|e]|]; try discriminate; reflexivity. }
  destruct (length (bufferEntries sm)); cbn [getFullyExpandedLoc_loop];
    rewrite HisMacro; reflexivity.
Qed.

Lemma append_keeps_sorted (l : list LineDirectiveInfo) (d : LineDirectiveInfo) :
  sortedByLineInFile l ->
  Forall (fun a => lineInFile a <= lineInFile d) l ->
  sortedByLineInFile (l ++ [d]).
Proof.
  induction 1 as [|a rest Hsorted IH Hall]; intros Hle; simpl.
  - constructor; constructor.
  - inversion Hle as [|? ? Ha Hrest]; subst.
    constructor; [apply IH; assumption|].
    apply Forall_app. split; [assumption | constructor; [assumption | constructor]].
Qed.

(** C4. For a file location whose buffer keeps its line directives sorted
    by in-file line, the binary search of [getPreviousLineDirective] finds
    the directive nearest before the raw line (the one with the greatest
    in-file line below it), and [getLineNumber] returns
    [lineOfDirective + (raw - lineInFile) - 1] in [size_t] arithmetic; when
    no directive precedes the raw line it returns the raw line itself. *)
Theorem line_number_from_nearest_directive
    (sm : SourceManager) (L : SourceLocation) (info : FileInfo) :
  isFileLoc sm L = true ->
  getFileInfo sm (buffer L) = Some info ->
  sortedByLineInFile (lineDirectives info) ->
  Forall (fun d => 0 <= lineInFile d) (lineDirectives info) ->
  getPreviousLineDirective (lineDirectives info) (getRawLineNumber sm L)
    = nearestPreceding (lineDirectives info) (getRawLineNumber sm L)
  /\ match nearestPreceding (lineDirectives info) (getRawLineNumber sm L) with
     | Some d =>
       In d (lineDirectives info)
       /\ lineInFile d < getRawLineNumber sm L
       /\ (forall d', In d' (lineDirectives info) ->
             lineInFile d' < getRawLineNumber sm L -> lineInFile d' <= lineInFile d)
       /\ getLineNumber sm L
          = Ok (size_t (lineOfDirective d + (getRawLineNumber sm L - lineInFile d) - 1))
     | None =>
       (forall d', In d' (lineDirectives info) -> getRawLineNumber sm L <= lineInFile d')
       /\ getLineNumber sm L = Ok (getRawLineNumber sm L)
     end.
Proof.
  intros Hfile Hinfo Hsorted Hnonneg.
  split; [apply getPreviousLineDirective_nearest; assumption|].
  unfold getLineNumber. rewrite (getFullyExpandedLoc_file sm L Hfile). cbn [rbind].
  set (raw := getRawLineNumber sm L).
  rewrite Hinfo, (getPreviousLineDirective_nearest _ raw Hsorted).
  destruct (nearestPreceding (lineDirectives info) raw) as [d|] eqn:Hnear.
  - destruct (nearestPreceding_Some _ _ _ Hnear) as [Hin Hlt].
    repeat split; try assumption.
    + apply nearestPreceding_greatest; assumption.
    + rewrite List.Forall_forall in Hnonneg. specialize (Hnonneg d Hin). cbv beta in Hnonneg.
      destruct (Z.eqb_spec raw 0); [lia|].
      rewrite size_t_line_formula. reflexivity.
  - split; [apply nearestPreceding_None; assumption|].
    destruct (Z.eqb_spec raw 0) as [->|]; reflexivity.
Qed.

Lemma line_number_witness :
  getLineNumber remapped (RawLocation 1 4) = Ok 101.
Proof.
  pose proof (line_number_from_nearest_directive remapped (RawLocation 1 4)
    (mkFileInfo
       (Some (mkFileData "a.sv" ["a"; "010"; "b"; "010"; "c"; "010"; "000"]%char))
       SourceLocation_default
       [mkLineDirectiveInfo "x.sv" 1 100 0])
    eq_refl eq_refl
    ltac:(repeat constructor)
    ltac:(repeat constructor; discriminate)) as H.
  vm_compute in H.
  exact (proj2 (proj2 (proj2 (proj2 H)))).
Defined.

(** ** Order of locations *)

Lemma offsetIn_In (c : list SourceLocation) (B x : Z) :
  offsetIn c B = Some x -> exists r, In r c /\ buffer r = B /\ offset r = x.
Proof.
  induction c as [|l rest IH]; simpl; intros H; [discriminate|].
  destruct (Z.eqb_spec (buffer l) B).
  - injection H as <-. exists l. auto.
  - destruct (IH H) as (r & Hin & Hb & Ho). exists r. auto.
Qed.

Lemma offsetIn_leftPrefix_same (rb : Z) (c : list SourceLocation) :
  offsetIn (leftPrefix rb c) rb = offsetIn c rb.
Proof.
  induction c as [|l rest IH]; simpl; [reflexivity|].
  destruct (Z.eqb_spec (buffer l) rb) as [Heq|Hne]; simpl.
  - destruct (Z.eqb_spec (buffer l) rb); [reflexivity | contradiction].
  - destruct (Z.eqb_spec (buffer l) rb); [contradiction | exact IH].
Qed.

Lemma leftPrefix_id (rb : Z) (c : list SourceLocation) :
  offsetIn c rb = None -> leftPrefix rb c = c.
Proof.
  induction c as [|l rest IH]; simpl; intros H; [reflexivity|].
  destruct (Z.eqb_spec (buffer l) rb); [discriminate|].
  f_equal. exact (IH H).
Qed.

Lemma firstCommon_leftPrefix (ca rest : list SourceLocation) (r : SourceLocation) :
  firstCommon (leftPrefix (buffer r) ca) (r :: rest) = firstCommon ca (r :: rest).
Proof.
  cbn [firstCommon]. rewrite offsetIn_leftPrefix_same.
  destruct (offsetIn ca (buffer r)) eqn:Hr; [reflexivity|].
  rewrite (leftPrefix_id _ _ Hr). reflexivity.
Qed.

Lemma firstCommon_sound (ca cb : list SourceLocation) (B x y : Z) :
  firstCommon ca cb = Some (B, x, y) ->
  offsetIn ca B = Some x /\ offsetIn cb B = Some y.
Proof.
  induction cb as [|r rest IH]; cbn [firstCommon offsetIn]; intros H; [discriminate|].
  destruct (offsetIn ca (buffer r)) as [x0|] eqn:Hr.
  - injection H as <- <- <-. rewrite Z.eqb_refl. auto.
  - destruct (IH H) as [Hx Hy]. split; [assumption|].
    destruct (Z.eqb_spec (buffer r) B) as [Heq|]; [|assumption].
    rewrite Heq in Hr. congruence.
Qed.

Lemma firstCommon_greatest (ca cb : list SourceLocation) (B x y : Z) :
  StronglySorted (fun r1 r2 => buffer r2 < buffer r1) cb ->
  offsetIn cb B = Some y ->
  offsetIn ca B = Some x ->
  (forall D, B < D -> offsetIn cb D <> None -> offsetIn ca D = None) ->
  firstCommon ca cb = Some (B, x, y).
Proof.
  induction 1 as [|r rest Hsorted IH Hall]; cbn [firstCommon offsetIn];
    intros Hy Hx Hnone; [discriminate|].
  destruct (Z.eqb_spec (buffer r) B) as [Heq|Hne].
  - injection Hy as <-. rewrite Heq, Hx. reflexivity.
  - destruct (offsetIn_In _ _ _ Hy) as (r' & Hin & Hb & _).
    rewrite List.Forall_forall in Hall. specialize (Hall r' Hin). cbv beta in Hall.
    rewrite (Hnone (buffer r)).
    + apply IH; try assumption.
      intros D HD Hrest. apply Hnone; [assumption|].
      cbn [offsetIn]. destruct (buffer r =? D); [discriminate | assumption].
    + lia.
    + cbn [offsetIn]. rewrite Z.eqb_refl. discriminate.
Qed.

Lemma emplace_lookup (m : gmap Z Z) (k v B : Z) :
  emplace m k v !! B = match m !! B with
                       | Some w => Some w
                       | None => if k =? B then Some v else None
                       end.
Proof.
  unfold emplace.
  destruct (m !! k) as [w|] eqn:Hk.
  - destruct (m !! B) eqn:HB; [reflexivity|].
    destruct (Z.eqb_spec k B) as [Heq|]; [|reflexivity].
    rewrite Heq in Hk. congruence.
  - destruct (Z.eqb_spec k B) as [Heq|Hne].
    + rewrite <- Heq, lookup_insert_eq, Hk. reflexivity.
    + rewrite lookup_insert_ne by assumption.
      destruct (m !! B); reflexivity.
Qed.

Lemma emplaceAll_lookup (c : list SourceLocation) :
  forall (m : gmap Z Z) (B : Z),
    emplaceAll m c !! B = match m !! B with
                          | Some v => Some v
                          | None => offsetIn c B
                          end.
Proof.
  unfold emplaceAll.
  induction c as [|l rest IH]; intros m B; cbn [fold_left offsetIn].
  - destruct (m !! B); reflexivity.
  - rewrite IH, emplace_lookup.
    destruct (m !! B); [reflexivity|].
    destruct (buffer l =? B); reflexivity.
Qed.

Section Chains.
Variable sm : SourceManager.
Hypothesis Hwf : wf_manager sm.

Lemma parentLoc_lt b p : parentLoc sm b = Some p -> wf_loc p /\ buffer p < b.
Proof. exact (proj2 Hwf b p). Qed.

Lemma no_parent_of_zero b : b <= 0 -> parentLoc sm b = None.
Proof.
  intros Hb. destruct (parentLoc sm b) as [p|] eqn:Hp; [|reflexivity].
  destruct (parentLoc_lt b p Hp) as [[Hp0 _] Hlt]. unfold buffer in Hlt. lia.
Qed.

Lemma entry_at_in_range b :
  0 <= b < entries_size sm -> exists e, entry_at sm b = Some e.
Proof.
  unfold entries_size, entry_at. intros Hb.
  destruct (nth_error (bufferEntries sm) (Z.to_nat b)) as [e|] eqn:He; [eauto|].
  apply nth_error_None in He. lia.
Qed.

Lemma moveUp_parent loc :
  in_range sm loc ->
  moveUp sm loc = Ok (match parentLoc sm (buffer loc) with
                      | Some p => (false, p)
                      | None => (true, loc)
                      end).
Proof.
  intros [[Hb0 Hoff] Hlt]. destruct Hwf as [Hsize _].
  change (2 ^ 28) with 268435456 in *.
  unfold moveUp, valid, isFileLoc, getIncludedFrom, getExpansionLoc,
    getExpansionInfo, getFileInfo, BufferID_valid.
  fold (buffer loc) in Hb0.
  destruct (Z.eqb_spec (buffer loc) 0) as [Hz|Hnz]; cbn [negb andb].
  - rewrite no_parent_of_zero by lia. reflexivity.
  - assert (Hno : SourceLocation_eqb loc NoLocation = false).
    { unfold SourceLocation_eqb. apply andb_false_iff. left.
      apply Z.eqb_neq. change (bufferID NoLocation) with 268435455.
      unfold buffer in *. lia. }
    rewrite Hno.
    destruct (Z.leb_spec (entries_size sm) (buffer loc)); [lia|].
    unfold ASSERT.
    destruct (Z.ltb_spec (buffer loc) (entries_size sm)); [|lia].
    unfold parentLoc.
    destruct (entry_at_in_range (buffer loc)) as [e He]; [lia|].
    rewrite He. destruct e as [f|e]; cbn [negb rbind].
    + unfold valid, BufferID_valid.
      destruct (buffer (includedFrom f) =? 0); reflexivity.
    + reflexivity.
Qed.

Lemma ancestors_lt : forall fuel b r,
  In r (ancestors fuel sm b) -> wf_loc r /\ buffer r < b.
Proof.
  induction fuel as [|fuel IH]; intros b r; cbn [ancestors]; [contradiction|].
  destruct (parentLoc sm b) as [p|] eqn:Hp; [|contradiction].
  destruct (parentLoc_lt b p Hp) as [Hwfp Hlt].
  intros [<-|Hin]; [auto|].
  destruct (IH _ _ Hin). split; [assumption | lia].
Qed.

Lemma ancestors_fuel : forall fuel1 fuel2 b,
  (Z.to_nat b <= fuel1)%nat -> (Z.to_nat b <= fuel2)%nat ->
  ancestors fuel1 sm b = ancestors fuel2 sm b.
Proof.
  induction fuel1 as [|fuel1 IH]; intros fuel2 b H1 H2.
  - assert (Hb : b <= 0) by lia.
    destruct fuel2; cbn [ancestors]; [reflexivity|].
    rewrite no_parent_of_zero by assumption. reflexivity.
  - destruct fuel2 as [|fuel2]; cbn [ancestors].
    + rewrite no_parent_of_zero by lia. reflexivity.
    + destruct (parentLoc sm b) as [p|] eqn:Hp; [|reflexivity].
      destruct (parentLoc_lt b p Hp) as [[Hp0 _] Hlt]. fold (buffer p) in Hp0.
      f_equal. apply IH; lia.
Qed.

Lemma ancestors_sorted : forall fuel b,
  StronglySorted (fun r1 r2 => buffer r2 < buffer r1) (ancestors fuel sm b).
Proof.
  induction fuel as [|fuel IH]; intros b; cbn [ancestors]; [constructor|].
  destruct (parentLoc sm b) as [p|] eqn:Hp; [|constructor].
  constructor; [apply IH|].
  apply List.Forall_forall. intros r Hin. apply (ancestors_lt _ _ _ Hin).
Qed.

Lemma chain_sorted loc :
  StronglySorted (fun r1 r2 => buffer r2 < buffer r1) (chain sm loc).
Proof.
  unfold chain. constructor; [apply ancestors_sorted|].
  apply List.Forall_forall. intros r Hin. apply (ancestors_lt _ _ _ Hin).
Qed.

Lemma chain_wf loc r : wf_loc loc -> In r (chain sm loc) -> wf_loc r.
Proof.
  unfold chain. intros Hloc [<-|Hin]; [assumption|].
  apply (ancestors_lt _ _ _ Hin).
Qed.

Lemma offsetIn_ancestors_lt fuel b B :
  offsetIn (ancestors fuel sm b) B <> None -> B < b.
Proof.
  destruct (offsetIn (ancestors fuel sm b) B) as [x|] eqn:Hx; [|congruence].
  intros _. destruct (offsetIn_In _ _ _ Hx) as (r & Hin & <- & _).
  apply (ancestors_lt _ _ _ Hin).
Qed.

(** Below a buffer [D] that a chain passes through, the chain is the
    chain of [D]'s ancestors. *)
Lemma ancestors_through : forall fuel b D B,
  (Z.to_nat b <= fuel)%nat ->
  offsetIn (ancestors fuel sm b) D <> None -> B < D ->
  offsetIn (ancestors fuel sm b) B = offsetIn (ancestors (Z.to_nat D) sm D) B.
Proof.
  induction fuel as [|fuel IH]; intros b D B Hfuel HD HB; cbn [ancestors] in *.
  - contradiction.
  - destruct (parentLoc sm b) as [p|] eqn:Hp; [|contradiction].
    destruct (parentLoc_lt b p Hp) as [[Hp0 _] Hlt]. fold (buffer p) in Hp0.
    cbn [offsetIn] in *.
    destruct (Z.eqb_spec (buffer p) D) as [Heq|Hne].
    + destruct (Z.eqb_spec (buffer p) B); [lia|].
      rewrite Heq. f_equal. apply ancestors_fuel; lia.
    + pose proof (offsetIn_ancestors_lt _ _ _ HD).
      destruct (Z.eqb_spec (buffer p) B); [lia|].
      apply IH; [lia | assumption | assumption].
Qed.

Lemma chain_through loc D B :
  offsetIn (chain sm loc) D <> None -> B < D ->
  offsetIn (chain sm loc) B = offsetIn (ancestors (Z.to_nat D) sm D) B.
Proof.
  unfold chain. cbn [offsetIn]. intros HD HB.
  destruct (Z.eqb_spec (buffer loc) D) as [Heq|Hne].
  - destruct (Z.eqb_spec (buffer loc) B); [lia|]. rewrite Heq. reflexivity.
  - pose proof (offsetIn_ancestors_lt _ _ _ HD).
    destruct (Z.eqb_spec (buffer loc) B); [lia|].
    apply ancestors_through; [lia | assumption | assumption].
Qed.

(** Two chains that meet in a buffer agree in every lower buffer. *)
Lemma chains_agree_below a b D B :
  offsetIn (chain sm a) D <> None -> offsetIn (chain sm b) D <> None -> B < D ->
  offsetIn (chain sm a) B = offsetIn (chain sm b) B.
Proof.
  intros Ha Hb HB.
  rewrite (chain_through a D B Ha HB), (chain_through b D B Hb HB). reflexivity.
Qed.

(** *** The two loops of [isBeforeInCompilationUnit] *)

Lemma leftChain_loop_records (right : SourceLocation) :
  forall fuel left m,
    in_range sm left -> (Z.to_nat (buffer left) <= fuel)%nat ->
    exists final,
      leftChain_loop fuel sm right left m
      = Ok (emplaceAll m (leftPrefix (buffer right)
                            (left :: ancestors fuel sm (buffer left))),
            final).
Proof.
  induction fuel as [|fuel IH]; intros left m Hrange Hfuel;
    cbn [leftChain_loop ancestors leftPrefix];
    (destruct (Z.eqb_spec (buffer left) (buffer right)) as [Heq|Hne];
       cbn [negb]; [eexists; reflexivity|]);
    rewrite (moveUp_parent left Hrange); cbn [rbind].
  - destruct Hrange as [[Hb0 _] _]. fold (buffer left) in Hb0.
    rewrite no_parent_of_zero by lia. cbn [fst snd]. eexists; reflexivity.
  - destruct (parentLoc sm (buffer left)) as [p|] eqn:Hp; cbn [fst snd].
    + destruct (parentLoc_lt _ _ Hp) as [Hwfp Hlt].
      destruct (IH p (emplace m (buffer left) (offset left))) as [final Hfinal].
      * destruct Hrange as [_ Hsz]. split; [assumption | lia].
      * destruct Hwfp as [Hp0 _]. fold (buffer p) in Hp0. lia.
      * exists final. rewrite Hfinal. reflexivity.
    + eexists; reflexivity.
Qed.

Lemma rightChain_loop_finds (ca : list SourceLocation) (m : gmap Z Z) (B x y : Z) :
  (forall D, m !! D = offsetIn ca D) ->
  forall fuel right,
    in_range sm right -> (Z.to_nat (buffer right) <= fuel)%nat ->
    firstCommon ca (right :: ancestors fuel sm (buffer right)) = Some (B, x, y) ->
    exists r, rightChain_loop fuel sm m right = Ok (Some (B, x), r)
              /\ buffer r = B /\ offset r = y.
Proof.
  intros Hm.
  induction fuel as [|fuel IH]; intros right Hrange Hfuel;
    cbn [rightChain_loop ancestors firstCommon]; rewrite Hm;
    (destruct (offsetIn ca (buffer right)) as [x0|] eqn:Hx0;
       [intros [= <- <- <-]; exists right; auto|]);
    rewrite (moveUp_parent right Hrange); cbn [rbind].
  - discriminate.
  - destruct (parentLoc sm (buffer right)) as [p|] eqn:Hp; cbn [fst snd firstCommon];
      [|discriminate].
    destruct (parentLoc_lt _ _ Hp) as [Hwfp Hlt].
    apply IH.
    + destruct Hrange as [_ Hsz]. split; [assumption | lia].
    + destruct Hwfp as [Hp0 _]. fold (buffer p) in Hp0. lia.
Qed.

Lemma chain_entries (loc : SourceLocation) :
  in_range sm loc ->
  loc :: ancestors (length (bufferEntries sm)) sm (buffer loc) = chain sm loc.
Proof.
  intros [_ Hsz]. unfold chain, entries_size in *.
  f_equal. apply ancestors_fuel; lia.
Qed.

(** The function compares the offsets at the first buffer of [right]'s
    chain that [left]'s chain passes through. *)
Lemma isBefore_firstCommon (a b : SourceLocation) (B x y : Z) :
  in_range sm a -> in_range sm b ->
  firstCommon (chain sm a) (chain sm b) = Some (B, x, y) ->
  isBeforeInCompilationUnit sm a b = Ok (x <? y).
Proof.
  intros Ha Hb Hfc. unfold isBeforeInCompilationUnit.
  destruct (Z.eqb_spec (buffer a) (buffer b)) as [Heq|Hne].
  - unfold chain in Hfc. cbn [firstCommon offsetIn] in Hfc.
    rewrite Heq, Z.eqb_refl in Hfc. injection Hfc as <- <- <-. reflexivity.
  - destruct (leftChain_loop_records b (length (bufferEntries sm)) a ∅ Ha)
      as [final Hleft].
    { destruct Ha as [_ Hsz]. unfold entries_size in Hsz. lia. }
    rewrite Hleft, (chain_entries a Ha). cbn [rbind fst snd].
    destruct (rightChain_loop_finds (leftPrefix (buffer b) (chain sm a))
                (emplaceAll ∅ (leftPrefix (buffer b) (chain sm a))) B x y)
      with (fuel := length (bufferEntries sm)) (right := b)
      as (r & Hright & HrB & Hry).
    { intros D. rewrite emplaceAll_lookup, lookup_empty. reflexivity. }
    { assumption. }
    { destruct Hb as [_ Hsz]. unfold entries_size in Hsz. lia. }
    { rewrite (chain_entries b Hb). unfold chain at 2.
      rewrite firstCommon_leftPrefix. exact Hfc. }
    rewrite Hright. cbn [rbind fst snd].
    destruct (firstCommon_sound _ _ _ _ _ Hfc) as [Hx Hy].
    destruct (offsetIn_In _ _ _ Hx) as (ra & Hina & HraB & Hrax).
    destruct (offsetIn_In _ _ _ Hy) as (rb & Hinb & HrbB & _).
    destruct (chain_wf a ra (proj1 Ha) Hina) as [_ Hoff].
    destruct (chain_wf b rb (proj1 Hb) Hinb) as [Hbuf _].
    unfold buffer, offset in *. cbn [bufferID charOffset mkSourceLocation].
    rewrite !Z.mod_small by lia.
    rewrite HrB, Z.eqb_refl, Hry. reflexivity.
Qed.

(** *** The order *)

Lemma offsetIn_member (c : list SourceLocation) (r : SourceLocation) :
  In r c -> offsetIn c (buffer r) <> None.
Proof.
  induction c as [|l rest IH]; cbn [offsetIn]; [contradiction|].
  intros [->|Hin].
  - rewrite Z.eqb_refl. discriminate.
  - destruct (buffer l =? buffer r); [discriminate | auto].
Qed.

Lemma firstCommon_none (ca cb : list SourceLocation) (r : SourceLocation) :
  firstCommon ca cb = None -> In r cb -> offsetIn ca (buffer r) = None.
Proof.
  induction cb as [|l rest IH]; cbn [firstCommon]; [contradiction|].
  destruct (offsetIn ca (buffer l)) eqn:Hl; [discriminate|].
  intros Hnone [->|Hin]; auto.
Qed.

Lemma last_member (c : list SourceLocation) (l : SourceLocation) :
  In (List.last (l :: c) l) (l :: c).
Proof.
  generalize l at 1 3 as head. induction c as [|x rest IH]; intros head.
  - left. reflexivity.
  - right. exact (IH x).
Qed.

Lemma common_root_firstCommon (a b : SourceLocation) :
  rootOf sm a = rootOf sm b ->
  exists B x y, firstCommon (chain sm a) (chain sm b) = Some (B, x, y).
Proof.
  unfold rootOf. intros Hroot.
  destruct (firstCommon (chain sm a) (chain sm b)) as [[[B x] y]|] eqn:Hfc; [eauto|].
  exfalso.
  pose proof (firstCommon_none _ _ _ Hfc (last_member _ b)) as Hnone.
  fold (chain sm b) in Hnone. rewrite <- Hroot in Hnone.
  exact (offsetIn_member _ _ (last_member _ a) Hnone).
Qed.

(** A buffer where the two chains pass at different offsets is the first
    common one. *)
Lemma firstCommon_differ (a b : SourceLocation) (B x y : Z) :
  offsetIn (chain sm a) B = Some x -> offsetIn (chain sm b) B = Some y ->
  x <> y ->
  firstCommon (chain sm a) (chain sm b) = Some (B, x, y).
Proof.
  intros Hx Hy Hne.
  apply firstCommon_greatest; try assumption; [apply chain_sorted|].
  intros D HD HbD.
  destruct (offsetIn (chain sm a) D) eqn:HaD; [exfalso|reflexivity].
  assert (Hagree : offsetIn (chain sm a) B = offsetIn (chain sm b) B).
  { apply (chains_agree_below a b D B); [congruence | assumption | assumption]. }
  congruence.
Qed.

Lemma isBefore_differ (a b : SourceLocation) (B x y : Z) :
  in_range sm a -> in_range sm b ->
  offsetIn (chain sm a) B = Some x -> offsetIn (chain sm b) B = Some y ->
  x <> y ->
  isBeforeInCompilationUnit sm a b = Ok (x <? y).
Proof.
  intros Ha Hb Hx Hy Hne.
  apply (isBefore_firstCommon a b B); try assumption.
  apply firstCommon_differ; assumption.
Qed.

Lemma isBefore_true (a b : SourceLocation) :
  in_range sm a -> in_range sm b -> rootOf sm a = rootOf sm b ->
  isBeforeInCompilationUnit sm a b = Ok true ->
  exists B x y, offsetIn (chain sm a) B = Some x
                /\ offsetIn (chain sm b) B = Some y /\ x < y.
Proof.
  intros Ha Hb Hroot Hbefore.
  destruct (common_root_firstCommon a b Hroot) as (B & x & y & Hfc).
  rewrite (isBefore_firstCommon a b B x y Ha Hb Hfc) in Hbefore.
  injection Hbefore as Hlt. apply Z.ltb_lt in Hlt.
  destruct (firstCommon_sound _ _ _ _ _ Hfc). eauto 6.
Qed.

Lemma isBefore_transitive (a b c : SourceLocation) :
  in_range sm a -> in_range sm b -> in_range sm c ->
  rootOf sm a = rootOf sm b -> rootOf sm b = rootOf sm c ->
  isBeforeInCompilationUnit sm a b = Ok true ->
  isBeforeInCompilationUnit sm b c = Ok true ->
  isBeforeInCompilationUnit sm a c = Ok true.
Proof.
  intros Ha Hb Hc Hab Hbc Hbefore1 Hbefore2.
  destruct (isBefore_true a b Ha Hb Hab Hbefore1) as (B1 & x & y & Hx & Hy & Hxy).
  destruct (isBefore_true b c Hb Hc Hbc Hbefore2) as (B2 & y' & z & Hy' & Hz & Hyz).
  destruct (Z.lt_total B1 B2) as [Hlt|[Heq|Hgt]].
  - assert (Hcy : offsetIn (chain sm c) B1 = Some y).
    { rewrite <- Hy. apply (chains_agree_below c b B2 B1); congruence. }
    rewrite (isBefore_differ a c B1 x y) by (assumption || lia).
    f_equal. apply Z.ltb_lt. assumption.
  - subst B2. assert (y' = y) by congruence. subst y'.
    rewrite (isBefore_differ a c B1 x z) by (assumption || lia).
    f_equal. apply Z.ltb_lt. lia.
  - assert (Hay : offsetIn (chain sm a) B2 = Some y').
    { rewrite <- Hy'. apply (chains_agree_below a b B1 B2); congruence. }
    rewrite (isBefore_differ a c B2 y' z) by (assumption || lia).
    f_equal. apply Z.ltb_lt. assumption.
Qed.

Lemma isBefore_asymmetric (a b : SourceLocation) :
  in_range sm a -> in_range sm b -> rootOf sm a = rootOf sm b ->
  isBeforeInCompilationUnit sm a b = Ok true ->
  isBeforeInCompilationUnit sm b a = Ok false.
Proof.
  intros Ha Hb Hab Hbefore.
  destruct (isBefore_true a b Ha Hb Hab Hbefore) as (B & x & y & Hx & Hy & Hxy).
  rewrite (isBefore_differ b a B y x) by (assumption || lia).
  f_equal. apply Z.ltb_ge. lia.
Qed.
End Chains.

(** C5 (amended). In a manager whose buffers were created after the
    locations they hang from, [isBeforeInCompilationUnit] is a strict
    partial order on the locations whose chains end in a common root: it
    returns without failing its ASSERT, it is irreflexive, transitive and
    asymmetric. It compares the offsets at the first buffer common to the
    two chains, so two locations are ordered one way or the other exactly
    when their chains pass through a common buffer at different offsets (as
    two distinct locations of one buffer do). *)
Theorem isBefore_strict_partial_order (sm : SourceManager) :
  wf_manager sm ->
  (forall a, isBeforeInCompilationUnit sm a a = Ok false)
  /\ (forall a b, in_range sm a -> in_range sm b -> rootOf sm a = rootOf sm b ->
        exists B x y, firstCommon (chain sm a) (chain sm b) = Some (B, x, y)
                      /\ isBeforeInCompilationUnit sm a b = Ok (x <? y))
  /\ (forall a b c, in_range sm a -> in_range sm b -> in_range sm c ->
        rootOf sm a = rootOf sm b -> rootOf sm b = rootOf sm c ->
        isBeforeInCompilationUnit sm a b = Ok true ->
        isBeforeInCompilationUnit sm b c = Ok true ->
        isBeforeInCompilationUnit sm a c = Ok true)
  /\ (forall a b, in_range sm a -> in_range sm b -> rootOf sm a = rootOf sm b ->
        isBeforeInCompilationUnit sm a b = Ok true ->
        isBeforeInCompilationUnit sm b a = Ok false)
  /\ (forall a b B x y, in_range sm a -> in_range sm b ->
        offsetIn (chain sm a) B = Some x -> offsetIn (chain sm b) B = Some y ->
        x <> y ->
        isBeforeInCompilationUnit sm a b = Ok (x <? y)
        /\ isBeforeInCompilationUnit sm b a = Ok (y <? x))
  /\ (forall a b, buffer a = buffer b ->
        isBeforeInCompilationUnit sm a b = Ok (offset a <? offset b)).
Proof.
  intros Hwf. repeat split.
  - intros a. unfold isBeforeInCompilationUnit.
    rewrite Z.eqb_refl, Z.ltb_irrefl. reflexivity.
  - intros a b Ha Hb Hroot.
    destruct (common_root_firstCommon sm a b Hroot) as (B & x & y & Hfc).
    exists B, x, y. split; [assumption|].
    apply (isBefore_firstCommon sm Hwf a b B); assumption.
  - intros a b c. apply isBefore_transitive; assumption.
  - intros a b. apply isBefore_asymmetric; assumption.
  - apply (isBefore_differ sm Hwf a b B); assumption.
  - apply (isBefore_differ sm Hwf b a B); try assumption. congruence.
  - intros a b Heq. unfold isBeforeInCompilationUnit.
    rewrite Heq, Z.eqb_refl. reflexivity.
Qed.

Lemma expanded_wf : wf_manager expanded.
Proof.
  split; [reflexivity|].
  intros b p. unfold parentLoc, entry_at.
  assert (Hcases : b <= 0 \/ b = 1 \/ b = 2 \/ 3 <= b) by lia.
  destruct Hcases as [Hb|[->|[->|Hb]]].
  - replace (Z.to_nat b) with 0%nat by lia. discriminate.
  - discriminate.
  - intros [= <-]. vm_compute. repeat split; discriminate.
  - replace (nth_error (bufferEntries expanded) (Z.to_nat b)) with (@None BufferEntry);
      [discriminate|].
    symmetry. apply nth_error_None. cbn [expanded bufferEntries length]. lia.
Qed.

Lemma expanded_in_range (b o : Z) :
  (0 <=? b) && (b <? 3) && (0 <=? o) && (o <? 2 ^ 36) = true ->
  in_range expanded (RawLocation b o).
Proof.
  intros H. repeat (apply andb_true_iff in H; destruct H as [H ?]).
  unfold in_range, wf_loc, buffer, entries_size. cbn [bufferID charOffset].
  change (Z.of_nat (length (bufferEntries expanded))) with 3.
  change (2 ^ 28) with 268435456. lia.
Qed.

Lemma isBefore_order_witness :
  isBeforeInCompilationUnit expanded (RawLocation 1 3) (RawLocation 1 12) = Ok true.
Proof.
  exact (proj1 (proj2 (proj2 (isBefore_strict_partial_order expanded expanded_wf)))
           (RawLocation 1 3) (RawLocation 2 0) (RawLocation 1 12)
           (expanded_in_range 1 3 eq_refl) (expanded_in_range 2 0 eq_refl)
           (expanded_in_range 1 12 eq_refl)
           eq_refl eq_refl eq_refl eq_refl).
Defined.

(** C5 as stated fails: the location where a macro is used and a location
    inside its expansion are distinct, share their root, and neither is
    before the other. *)
Lemma usage_and_expansion_unordered :
  SourceLocation_eqb (RawLocation 1 10) (RawLocation 2 0) = false
  /\ rootOf expanded (RawLocation 1 10) = rootOf expanded (RawLocation 2 0)
  /\ isBeforeInCompilationUnit expanded (RawLocation 1 10) (RawLocation 2 0) = Ok false
  /\ isBeforeInCompilationUnit expanded (RawLocation 2 0) (RawLocation 1 10) = Ok false.
Proof. vm_compute. repeat split. Qed.

(** ** Buffer ids *)

Lemma create_size sm op :
  entries_size (fst (create sm op)) = entries_size sm + 1.
Proof.
  destruct op; unfold entries_size; simpl; rewrite length_app; simpl; lia.
Qed.

Lemma create_id sm op :
  entries_size sm < BUFFER_ID_LIMIT ->
  snd (create sm op) = entries_size sm.
Proof.
  unfold BUFFER_ID_LIMIT, entries_size. intros Hlt.
  assert (Hpos : 0 <= Z.of_nat (length (bufferEntries sm))) by lia.
  change (2 ^ 28) with 268435456 in *.
  destruct op; simpl; unfold buffer, mkBufferID, uint32_t; simpl;
    rewrite length_app, Nat2Z.inj_add; simpl length;
    change (Z.of_nat 1) with 1; rewrite Z.add_simpl_r;
    change (2 ^ 32) with 4294967296; change (2 ^ 28) with 268435456;
    rewrite ?(Z.mod_small _ 4294967296) by lia;
    rewrite ?(Z.mod_small _ 268435456) by lia; reflexivity.
Qed.

Lemma createAll_ids ops : forall sm,
  entries_size sm + Z.of_nat (length ops) <= BUFFER_ID_LIMIT ->
  snd (createAll sm ops)
  = map (fun k => entries_size sm + Z.of_nat k) (seq 0 (length ops))
  /\ entries_size (fst (createAll sm ops)) = entries_size sm + Z.of_nat (length ops).
Proof.
  induction ops as [|op ops IH]; intros sm Hle.
  - simpl. split; [reflexivity | lia].
  - cbn [createAll length seq map fst snd].
    cbn [length] in Hle.
    destruct (IH (fst (create sm op))) as [Hids Hsize].
    { rewrite create_size. lia. }
    rewrite Hids, Hsize, create_size, create_id by lia.
    split; [|lia].
    f_equal; [lia|].
    rewrite <- seq_shift, map_map.
    apply map_ext. intros k. lia.
Qed.

Lemma seq_offsets_NoDup base n :
  List.NoDup (map (fun k => base + Z.of_nat k) (seq 0 n)).
Proof.
  apply Finite.Injective_map_NoDup; [|apply seq_NoDup].
  intros a b Hab. lia.
Qed.

(** C8 (amended). While the manager holds at most [BUFFER_ID_LIMIT]
    entries after the creations, every creation (file buffer entry,
    assigned buffer, macro expansion) hands back the number of entries
    minus one: the ids of successive creations are consecutive and strictly
    increasing, no two of them are equal, and none is the id of an entry
    that existed before. *)
Theorem buffer_ids_dense_below_limit (sm : SourceManager) (ops : list CreateOp) :
  entries_size sm + Z.of_nat (length ops) <= BUFFER_ID_LIMIT ->
  snd (createAll sm ops)
    = map (fun k => entries_size sm + Z.of_nat k) (seq 0 (length ops))
  /\ List.NoDup (snd (createAll sm ops))
  /\ Forall (fun id => entries_size sm <= id) (snd (createAll sm ops))
  /\ entries_size (fst (createAll sm ops)) = entries_size sm + Z.of_nat (length ops)
  /\ (forall op, In op ops ->
        snd (create sm op) = entries_size (fst (create sm op)) - 1).
Proof.
  intros Hle.
  destruct (createAll_ids ops sm Hle) as [Hids Hsize].
  rewrite Hids. repeat split.
  - apply seq_offsets_NoDup.
  - apply List.Forall_forall. intros id Hin.
    apply in_map_iff in Hin. destruct Hin as [k [<- _]]. lia.
  - exact Hsize.
  - intros op Hin.
    assert (0 < length ops)%nat by (destruct ops; [contradiction | simpl; lia]).
    rewrite create_size, create_id by lia. lia.
Qed.

Lemma buffer_ids_dense_witness :
  snd (createAll SourceManager_new
         [OpAssignBuffer "a.sv" [NUL] SourceLocation_default;
          OpExpansion (RawLocation 1 0) (mkSourceRange (RawLocation 1 0) (RawLocation 1 3)) false])
  = [1; 2].
Proof.
  exact (proj1 (buffer_ids_dense_below_limit SourceManager_new
    [OpAssignBuffer "a.sv" [NUL] SourceLocation_default;
     OpExpansion (RawLocation 1 0) (mkSourceRange (RawLocation 1 0) (RawLocation 1 3)) false]
    ltac:(vm_compute; discriminate))).
Defined.

Lemma crowded_size : entries_size crowded = BUFFER_ID_LIMIT.
Proof.
  unfold entries_size, crowded. cbn [bufferEntries].
  rewrite repeat_length. apply Z2Nat.id. discriminate.
Qed.

Lemma createExpansionLoc_id sm o range arg :
  snd (create sm (OpExpansion o range arg))
  = (entries_size sm mod 2 ^ 32) mod 2 ^ 28
  /\ entries_size (fst (create sm (OpExpansion o range arg))) = entries_size sm + 1.
Proof.
  split; [|apply create_size].
  unfold create, createExpansionLoc, entries_size, buffer, mkSourceLocation,
    mkBufferID, uint32_t.
  cbn [fst snd bufferID]. rewrite length_app, Nat2Z.inj_add. cbn [length].
  change (Z.of_nat 1) with 1. rewrite Z.add_simpl_r. reflexivity.
Qed.

(** C8 as stated fails once the 28-bit buffer field is exhausted: in a
    manager with [BUFFER_ID_LIMIT] entries the next expansion buffer is entry
    number [BUFFER_ID_LIMIT], but the location handed back names buffer 0, the
    id of the dummy entry. *)
Lemma buffer_id_wraps_at_limit :
  snd (create crowded
         (OpExpansion SourceLocation_default
            (mkSourceRange SourceLocation_default SourceLocation_default) false)) = 0
  /\ entries_size (fst (create crowded
         (OpExpansion SourceLocation_default
            (mkSourceRange SourceLocation_default SourceLocation_default) false))) - 1
     = 268435456.
Proof.
  destruct (createExpansionLoc_id crowded SourceLocation_default
              (mkSourceRange SourceLocation_default SourceLocation_default) false)
    as [Hid Hsize].
  rewrite Hid, Hsize, crowded_size. split; reflexivity.
Qed.

End SourceFacts.

(** * Facts about the evaluator *)

Module EvalFacts.
Import Numeric.

Lemma divide_by_zero (a b : SVInt) :
  val b = 0 -> divide a b = allX (bitWidth a) (signFlag a && signFlag b).
Proof.
  intros Hb. unfold divide. rewrite Hb.
  destruct (hasUnknown a || hasUnknown b); reflexivity.
Qed.

Lemma merge_bit (t f : SVInt) (i : Z) :
  bit (merge t f) i = if logic_eqb (bit t i) (bit f i) then bit t i else LX.
Proof.
  unfold bit, merge. cbn [val unknown].
  destruct (Z.neg_nonneg_cases i) as [Hneg|Hpos].
  - rewrite !Z.testbit_neg_r by assumption. reflexivity.
  - rewrite Z.land_spec, !Z.lor_spec, Z.lnot_spec, Z.lor_spec, !Z.lxor_spec
      by assumption.
    destruct (Z.testbit (unknown t) i), (Z.testbit (val t) i),
      (Z.testbit (unknown f) i), (Z.testbit (val f) i); reflexivity.
Qed.

Lemma small_bits_above (v i : Z) :
  0 <= v -> Z.log2 v < i -> Z.testbit v i = false.
Proof. intros. apply Z.bits_above_log2; assumption. Qed.

(** C6. [(1/0) ? 128'b101 : 128'b110] evaluates to the 128-bit value
    [128'b1xx]: bits 2, 1, 0 are 1, X, X and every higher bit is 0. Division
    by zero gives the all-X value of the result width, and a conditional
    whose condition is unknown gives the bitwise merge of its branches:
    bits that agree keep their value, bits that disagree become X. *)
Theorem conditionalU2_is_1xx :
  eval conditionalU2 = mkSVInt 128 false 4 3
  /\ bit (eval conditionalU2) 2 = L1
  /\ bit (eval conditionalU2) 1 = LX
  /\ bit (eval conditionalU2) 0 = LX
  /\ (forall i, 3 <= i -> bit (eval conditionalU2) i = L0)
  /\ (forall a b, val b = 0 ->
        divide a b = allX (bitWidth a) (signFlag a && signFlag b))
  /\ (forall c t f i, reductionOr c = LX ->
        bit (conditional c t f) i
        = if logic_eqb (bit t i) (bit f i) then bit t i else LX).
Proof.
  assert (Hval : eval conditionalU2 = mkSVInt 128 false 4 3) by (vm_compute; reflexivity).
  rewrite Hval. repeat split.
  - intros i Hi. unfold bit. cbn [val unknown].
    rewrite (small_bits_above 3 i), (small_bits_above 4 i);
      try reflexivity; try lia; cbn; lia.
  - exact divide_by_zero.
  - intros c t f i Hc. unfold conditional. rewrite Hc. apply merge_bit.
Qed.

Lemma wildcard_mask_equal (x y u : Z) :
  Z.land x (Z.lnot u) = Z.land y (Z.lnot u)
  <-> (forall i, 0 <= i -> Z.testbit u i = false -> Z.testbit x i = Z.testbit y i).
Proof.
  split.
  - intros Heq i Hi Hu.
    assert (Hbit : Z.testbit (Z.land x (Z.lnot u)) i = Z.testbit (Z.land y (Z.lnot u)) i)
      by (rewrite Heq; reflexivity).
    rewrite !Z.land_spec, Z.lnot_spec, Hu, !andb_true_r in Hbit by assumption.
    exact Hbit.
  - intros Hbits. apply Z.bits_inj'. intros i Hi.
    rewrite !Z.land_spec, Z.lnot_spec by assumption.
    destruct (Z.testbit u i) eqn:Hu; cbn [negb].
    + rewrite !andb_false_r. reflexivity.
    + rewrite !andb_true_r. apply Hbits; assumption.
Qed.

(** C7 (amended). For wildcard equality [a ==? b], bit positions where the
    right operand is X or Z are don't-care: for a left operand without X or
    Z bits the result is 1 exactly when the operands agree in every other
    bit position, and 0 if not. [{1'b1 / 1'b0, 4'b1001} ==? 5'b11001]
    evaluates to the one-bit 1 that the test [EVAL_TEST wildcardEq] and the
    scenario table expect, although the top bit of its left operand is the
    X of the division by zero (as the test [concatenation2] has it): an X
    or Z in the left operand does not make the result X there, and with
    any operator under which it always did, the test's check fails. *)
Theorem wildcardEqual_rule :
  (forall a b, hasUnknown a = false ->
     (wildcardEqual a b = L1 <->
      forall i, 0 <= i -> Z.testbit (unknown b) i = false ->
                Z.testbit (val a) i = Z.testbit (val b) i)
     /\ (wildcardEqual a b = L1 \/ wildcardEqual a b = L0))
  /\ eval wildcardEq = mkSVInt 1 false 1 0
  /\ EVAL_TEST wildcardEq 1 = true
  /\ (hasUnknown (eval wildcardEq_lhs) = true
      /\ bit (eval wildcardEq_lhs) 4 = LX
      /\ bit (eval wildcardEq_rhs) 4 = L1
      /\ eval concatenation2 = mkSVInt 66 false 8 1)
  /\ (forall op : SVInt -> SVInt -> logic_t,
        (forall a b, hasUnknown a = true -> op a b = LX) ->
        CHECK_eq (ofLogic (op (eval wildcardEq_lhs) (eval wildcardEq_rhs))) 1 = false).
Proof.
  split; [|split; [|split; [|split]]].
  - intros a b Ha. unfold wildcardEqual.
    assert (Hu : unknown a = 0).
    { unfold hasUnknown in Ha. apply negb_false_iff in Ha.
      apply Z.eqb_eq in Ha. exact Ha. }
    rewrite Hu, Z.lor_0_l. cbv zeta.
    rewrite <- wildcard_mask_equal.
    destruct (Z.eqb_spec (Z.land (val a) (Z.lnot (unknown b)))
                         (Z.land (val b) (Z.lnot (unknown b)))) as [Heq|Hne].
    + split; [tauto | left; reflexivity].
    + split; [|right; reflexivity].
      split; [discriminate | contradiction].
  - vm_compute. reflexivity.
  - vm_compute. reflexivity.
  - vm_compute. repeat split.
  - intros op Hop. rewrite Hop by (vm_compute; reflexivity).
    vm_compute. reflexivity.
Qed.

(** C7 as stated fails: the operator of its two sentences gives a one-bit
    X for [{1'b1 / 1'b0, 4'b1001} ==? 5'b11001], since the left operand
    has an X, and the check [value == 1] of the test fails on it; the
    scenario is the one-bit 1 only because that X does not propagate. *)
Lemma wildcardEq_left_X_does_not_propagate :
  hasUnknown (eval wildcardEq_lhs) = true
  /\ wildcardEqual_spec (eval wildcardEq_lhs) (eval wildcardEq_rhs) = LX
  /\ CHECK_eq (ofLogic (wildcardEqual_spec (eval wildcardEq_lhs) (eval wildcardEq_rhs))) 1
     = false
  /\ wildcardEqual (eval wildcardEq_lhs) (eval wildcardEq_rhs) = L1
  /\ EVAL_TEST wildcardEq 1 = true.
Proof. vm_compute. repeat split. Qed.

End EvalFacts.

(** * Facts about out-of-block methods *)

Module SubroutineFacts.
Import Types Subroutines.















End SubroutineFacts.

(** * Facts about the type relations *)

Module TypeFacts.
Import Numeric Types.

Lemma isMatching_eq (l r : Ty) :
  isMatching l r = matching_step isMatching (getCanonicalType l) (getCanonicalType r).
Proof. destruct l; reflexivity. Qed.

Lemma canonical_idem (t : Ty) :
  getCanonicalType (getCanonicalType t) = getCanonicalType t.
Proof. induction t; try reflexivity. assumption. Qed.

Lemma canonical_size (t : Ty) : (size (getCanonicalType t) <= size t)%nat.
Proof. induction t; cbn [getCanonicalType size]; lia. Qed.

(** ** Symmetry of the tests [isMatching] is made of *)

Lemma sameObject_sym (l r : Ty) : sameObject l r = sameObject r l.
Proof. apply Z.eqb_sym. Qed.

Lemma sameSyntax_sym (l r : Ty) : sameSyntax l r = sameSyntax r l.
Proof.
  unfold sameSyntax.
  destruct (syntax (symbol l)), (syntax (symbol r)); try reflexivity.
  apply Z.eqb_sym.
Qed.

Lemma ConstantRange_eqb_sym (a b : ConstantRange) :
  ConstantRange_eqb a b = ConstantRange_eqb b a.
Proof.
  unfold ConstantRange_eqb.
  rewrite (Z.eqb_sym (left a)), (Z.eqb_sym (right a)). reflexivity.
Qed.

Lemma bool_eqb_sym (a b : bool) : Bool.eqb a b = Bool.eqb b a.
Proof. destruct a, b; reflexivity. Qed.

Lemma option_Z_eqb_sym (a b : option Z) : option_Z_eqb a b = option_Z_eqb b a.
Proof. destruct a, b; try reflexivity. apply Z.eqb_sym. Qed.

Lemma SVInt_ne_sym (a b : SVInt) : SVInt_ne a b = SVInt_ne b a.
Proof.
  unfold SVInt_ne. rewrite (orb_comm (hasUnknown a)), (Z.eqb_sym (val a)).
  reflexivity.
Qed.

Lemma sameEnumValues_sym (lvs : list EnumValue) :
  forall rvs, sameEnumValues lvs rvs = sameEnumValues rvs lvs.
Proof.
  induction lvs as [|l lrest IH]; intros [|r rrest]; cbn [sameEnumValues];
    try reflexivity.
  rewrite (String.eqb_sym (ev_name l)).
  destruct (negb (ev_name r =? ev_name l)%string); [reflexivity|].
  destruct (ev_value l) as [lv|], (ev_value r) as [rv|]; try reflexivity.
  rewrite (SVInt_ne_sym lv rv), IH. reflexivity.
Qed.

Lemma isSameEnum_sym (b : bool) (le re : Symbol) (lvs rvs : list EnumValue) :
  isSameEnum b le re lvs rvs = isSameEnum b re le rvs lvs.
Proof.
  unfold isSameEnum.
  destruct (parentScope le) as [ls|], (parentScope re) as [rs|]; try reflexivity.
  rewrite (sameEnumValues_sym lvs rvs).
  destruct (SymbolKind_eqb ls CompilationUnit), (SymbolKind_eqb rs CompilationUnit);
    reflexivity.
Qed.

Lemma matching_step_sym (rec : Ty -> Ty -> bool) (l r : Ty) :
  (forall le re, (size le < size l)%nat -> rec le re = rec re le) ->
  matching_step rec l r = matching_step rec r l.
Proof.
  intros Hrec. unfold matching_step.
  rewrite (sameObject_sym r l), (sameSyntax_sym r l),
    (andb_comm (isFloating r)), (andb_comm (isSimpleBitVector r)),
    (orb_comm (negb (isPackedArray r))), (andb_comm (isArray r)),
    (bool_eqb_sym (isSignedT r)), (bool_eqb_sym (isFourState_integral r)),
    (ConstantRange_eqb_sym (getBitVectorRange r)).
  destruct (sameObject l r || sameSyntax l r); [reflexivity|].
  destruct (isFloating l && isFloating r).
  { destruct l, r; try reflexivity. apply andb_comm. }
  destruct (isSimpleBitVector l && isSimpleBitVector r
            && (negb (isPackedArray l) || negb (isPackedArray r))); [reflexivity|].
  destruct (isArray l && isArray r).
  - destruct l, r; try reflexivity; cbn [size] in Hrec;
      rewrite ?(ConstantRange_eqb_sym range0 range);
      try (rewrite (Hrec l r) by lia; reflexivity).
    rewrite (Hrec l r) by lia. f_equal.
    destruct indexType as [li|], indexType0 as [ri|]; try reflexivity.
    apply Hrec. lia.
  - destruct l, r; try reflexivity.
    + cbn [size] in Hrec. rewrite (Hrec l r) by lia. apply isSameEnum_sym.
    + rewrite (Z.eqb_sym iface), (option_Z_eqb_sym modport). reflexivity.
Qed.

Lemma isMatching_sym_bounded (n : nat) :
  forall l r, (size l < n)%nat -> isMatching l r = isMatching r l.
Proof.
  induction n as [|n IH]; intros l r Hsize; [lia|].
  rewrite (isMatching_eq l r), (isMatching_eq r l).
  apply matching_step_sym. intros le re Hle.
  apply IH. pose proof (canonical_size l). lia.
Qed.

Lemma isMatching_refl (t : Ty) : isMatching t t = true.
Proof.
  rewrite isMatching_eq. unfold matching_step, sameObject.
  rewrite Z.eqb_refl. reflexivity.
Qed.

(** C3 (amended). [isMatching] is reflexive and symmetric. (It is not
    transitive: see [isMatching_not_transitive].) *)
Theorem isMatching_reflexive_symmetric :
  (forall t : Ty, isMatching t t = true)
  /\ (forall a b : Ty, isMatching a b = isMatching b a).
Proof.
  split; [exact isMatching_refl|].
  intros a b. apply (isMatching_sym_bounded (S (size a))). lia.
Qed.

(** C3 as stated fails: two types made from one syntax node always match,
    so the array types of [int x[N]] for [N = 4] and [N = 8] match each
    other, the second matches [int y[8]], and the first does not. Without
    any shared syntax, [int] matches [bit signed [31:0]] as a simple bit
    vector, which matches [bit signed [31:0][0:0]] as a packed array, and
    [int] does not match the latter. *)
Lemma isMatching_not_transitive :
  isMatching arrayN4 arrayN8 = true
  /\ isMatching arrayN8 array8 = true
  /\ isMatching arrayN4 array8 = false
  /\ isMatching intT vector32 = true
  /\ isMatching vector32 vector32by1 = true
  /\ isMatching intT vector32by1 = false.
Proof. vm_compute. repeat split. Qed.

(** ** Enums of separate compilation units *)

Lemma SVInt_ne_same (v : SVInt) : logic_bool (SVInt_ne v v) = false.
Proof.
  unfold SVInt_ne. rewrite orb_diag, Z.eqb_refl.
  destruct (hasUnknown v); reflexivity.
Qed.

Lemma sameEnumValues_identical (lvs rvs : list EnumValue) :
  Forall2 (fun l r => ev_name l = ev_name r
                      /\ exists v, ev_value l = Some v /\ ev_value r = Some v) lvs rvs ->
  sameEnumValues lvs rvs = true.
Proof.
  induction 1 as [|l r lrest rrest [Hname (v & Hl & Hr)] _ IH]; cbn [sameEnumValues];
    [reflexivity|].
  rewrite Hname, String.eqb_refl, Hl, Hr, SVInt_ne_same. exact IH.
Qed.

(** C10. Two enum types, however they are named through aliases and though
    they are separate objects, match when both are declared directly in a
    compilation unit, their base types match and their value lists have the
    same length with pairwise equal names and equal integer values. *)
Theorem isMatching_same_enum (a b : Ty)
    (lsym rsym : Symbol) (lit rit : IntegralInfo) (lbase rbase : Ty)
    (lvalues rvalues : list EnumValue) :
  getCanonicalType a = Enum lsym lit lbase lvalues ->
  getCanonicalType b = Enum rsym rit rbase rvalues ->
  parentScope lsym = Some CompilationUnit ->
  parentScope rsym = Some CompilationUnit ->
  isMatching lbase rbase = true ->
  Forall2 (fun l r => ev_name l = ev_name r
                      /\ exists v, ev_value l = Some v /\ ev_value r = Some v)
          lvalues rvalues ->
  isMatching a b = true.
Proof.
  intros Ha Hb Hls Hrs Hbase Hvalues.
  rewrite isMatching_eq, Ha, Hb. unfold matching_step.
  destruct (sameObject _ _ || sameSyntax _ _); [reflexivity|].
  cbn. unfold isSameEnum. rewrite Hls, Hrs, Hbase. cbn.
  apply sameEnumValues_identical. exact Hvalues.
Qed.

Lemma same_enum_witness : isMatching enumAB enumAB' = true.
Proof.
  apply (isMatching_same_enum enumAB enumAB'
           (mkSymbol 20 (Some 200) (Some CompilationUnit))
           (mkSymbol 21 (Some 201) (Some CompilationUnit))
           (mkIntegral 32 true false) (mkIntegral 32 true false) intT intT
           [mkEnumValue "A" (Some (mkSVInt 32 true 0 0));
            mkEnumValue "B" (Some (mkSVInt 32 true 1 0))]
           [mkEnumValue "A" (Some (mkSVInt 32 true 0 0));
            mkEnumValue "B" (Some (mkSVInt 32 true 1 0))]);
    try reflexivity.
  repeat constructor; eexists; split; reflexivity.
Defined.

(** ** Equivalence *)

Lemma isEquivalent_eq (lhs rhs : Ty) :
  isEquivalent lhs rhs =
  let l := getCanonicalType lhs in
  let r := getCanonicalType rhs in
  if isMatching l r then true
  else if isIntegral l && isIntegral r && negb (isEnum l) && negb (isEnum r) then
    Bool.eqb (isSignedT l) (isSignedT r)
    && Bool.eqb (isFourState_integral l) (isFourState_integral r)
    && (getBitWidth_integral l =? getBitWidth_integral r)
  else match l, r with
       | FixedSizeUnpackedArray _ le lrange, FixedSizeUnpackedArray _ re rrange =>
         (width lrange =? width rrange) && isEquivalent le re
       | DynamicArray _ le, DynamicArray _ re => isEquivalent le re
       | Queue _ le _, Queue _ re _ => isEquivalent le re
       | AssociativeArray _ le li, AssociativeArray _ re ri =>
         indexEquivalent li ri && isEquivalent le re
       | _, _ => false
       end.
Proof. destruct lhs; reflexivity. Qed.

Lemma isMatching_canonical (a b : Ty) :
  isMatching (getCanonicalType a) (getCanonicalType b) = isMatching a b.
Proof. rewrite (isMatching_eq a b), isMatching_eq, !canonical_idem. reflexivity. Qed.

(** C2 (amended). [isEquivalent a b] holds exactly when, for the canonical
    types of [a] and [b]: they are matching; or both are integral and
    neither is an enum, with the same signedness, four-stateness and bit
    width; or both are fixed-size unpacked arrays with equivalent element
    types and ranges of the same width; or both are dynamic arrays, both
    queues or both associative arrays with equivalent element types (and,
    for associative arrays, index types that are both absent or both
    present and equivalent). *)
Theorem isEquivalent_cases (a b : Ty) :
  isEquivalent a b = true <->
    isMatching a b = true
    \/ (isIntegral (getCanonicalType a) = true /\ isIntegral (getCanonicalType b) = true
        /\ isEnum (getCanonicalType a) = false /\ isEnum (getCanonicalType b) = false
        /\ isSignedT (getCanonicalType a) = isSignedT (getCanonicalType b)
        /\ isFourState_integral (getCanonicalType a)
           = isFourState_integral (getCanonicalType b)
        /\ getBitWidth_integral (getCanonicalType a)
           = getBitWidth_integral (getCanonicalType b))
    \/ (exists ls le lrange rs re rrange,
          getCanonicalType a = FixedSizeUnpackedArray ls le lrange
          /\ getCanonicalType b = FixedSizeUnpackedArray rs re rrange
          /\ width lrange = width rrange /\ isEquivalent le re = true)
    \/ (exists ls le rs re,
          getCanonicalType a = DynamicArray ls le
          /\ getCanonicalType b = DynamicArray rs re
          /\ isEquivalent le re = true)
    \/ (exists ls le lbound rs re rbound,
          getCanonicalType a = Queue ls le lbound
          /\ getCanonicalType b = Queue rs re rbound
          /\ isEquivalent le re = true)
    \/ (exists ls le li rs re ri,
          getCanonicalType a = AssociativeArray ls le li
          /\ getCanonicalType b = AssociativeArray rs re ri
          /\ isEquivalent le re = true /\ indexEquivalent li ri = true).
Proof.
  rewrite isEquivalent_eq. cbv zeta. rewrite isMatching_canonical.
  destruct (isMatching a b) eqn:Hmatch; [intuition auto|].
  set (l := getCanonicalType a). set (r := getCanonicalType b).
  destruct (isIntegral l && isIntegral r && negb (isEnum l) && negb (isEnum r))
    eqn:Hguard.
  - apply andb_true_iff in Hguard. destruct Hguard as [Hguard Her].
    apply andb_true_iff in Hguard. destruct Hguard as [Hguard Hel].
    apply andb_true_iff in Hguard. destruct Hguard as [Hil Hir].
    apply negb_true_iff in Hel, Her.
    split.
    + intros H. right. left.
      apply andb_true_iff in H. destruct H as [H Hw].
      apply andb_true_iff in H. destruct H as [Hs Hf].
      apply eqb_prop in Hs, Hf. apply Z.eqb_eq in Hw. auto 10.
    + intros [H|[H|[H|[H|[H|H]]]]].
      * discriminate.
      * destruct H as (_ & _ & _ & _ & Hs & Hf & Hw).
        rewrite Hs, Hf, Hw, !eqb_reflx, Z.eqb_refl. reflexivity.
      * destruct H as (? & ? & ? & ? & ? & ? & Hl & _). rewrite Hl in Hil. discriminate.
      * destruct H as (? & ? & ? & ? & Hl & _). rewrite Hl in Hil. discriminate.
      * destruct H as (? & ? & ? & ? & ? & ? & Hl & _). rewrite Hl in Hil. discriminate.
      * destruct H as (? & ? & ? & ? & ? & ? & Hl & _). rewrite Hl in Hil. discriminate.
  - split.
    + intros H. right. right.
      destruct l eqn:Hl; try discriminate; destruct r eqn:Hr; try discriminate.
      * apply andb_true_iff in H. destruct H as [Hw He]. apply Z.eqb_eq in Hw.
        left. eauto 12.
      * right. left. eauto 10.
      * apply andb_true_iff in H. destruct H as [Hi He].
        right. right. right. eauto 12.
      * right. right. left. eauto 12.
    + intros [H|[H|[H|[H|[H|H]]]]].
      * discriminate.
      * destruct H as (Hil & Hir & Hel & Her & _).
        rewrite Hil, Hir, Hel, Her in Hguard. discriminate.
      * destruct H as (? & ? & ? & ? & ? & ? & -> & -> & Hw & He).
        rewrite Hw, Z.eqb_refl, He. reflexivity.
      * destruct H as (? & ? & ? & ? & -> & -> & He). exact He.
      * destruct H as (? & ? & ? & ? & ? & ? & -> & -> & He). exact He.
      * destruct H as (ls & le & li & rs & re & ri & -> & -> & He & Hi).
        rewrite He, andb_true_r. exact Hi.
Qed.

(** C2 as stated fails for enums: an enum with base [int] and [int] itself
    are both integral with the same signedness, four-stateness and bit
    width, and they are not equivalent. *)
Lemma enum_not_equivalent_to_base :
  isEquivalent enumAB intT = false
  /\ isIntegral enumAB = true /\ isIntegral intT = true
  /\ isSignedT enumAB = isSignedT intT
  /\ isFourState_integral enumAB = isFourState_integral intT
  /\ getBitWidth_integral enumAB = getBitWidth_integral intT.
Proof. vm_compute. repeat split. Qed.

End TypeFacts.

(** * Facts about source locations, lines and columns *)

Module LocationFacts.
Import Source SourceFacts.

(** ** The operators of SourceLocation *)

Lemma mkSourceLocation_wf (l : SourceLocation) :
  wf_loc l -> mkSourceLocation (buffer l) (charOffset l) = l.
Proof.
  intros [Hb Ho]. destruct l as [b o]. unfold mkSourceLocation, buffer. cbn in *.
  rewrite !Z.mod_small by lia. reflexivity.
Qed.

(** X1. [operator<] on source locations is a strict total order that goes
    by buffer id first and by offset inside a buffer: it is irreflexive and
    transitive, of two locations exactly one of [a < b], [a == b] and
    [b < a] holds, and [operator>=] is its negation. *)
Theorem SourceLocation_lt_total_order :
  (forall a, SourceLocation_ltb a a = false)
  /\ (forall a b c, SourceLocation_ltb a b = true -> SourceLocation_ltb b c = true ->
        SourceLocation_ltb a c = true)
  /\ (forall a b,
        (SourceLocation_ltb a b = true /\ SourceLocation_eqb a b = false
         /\ SourceLocation_ltb b a = false)
        \/ (SourceLocation_ltb a b = false /\ SourceLocation_eqb a b = true
            /\ SourceLocation_ltb b a = false)
        \/ (SourceLocation_ltb a b = false /\ SourceLocation_eqb a b = false
            /\ SourceLocation_ltb b a = true))
  /\ (forall a b, SourceLocation_eqb a b = true <-> a = b)
  /\ (forall a b, SourceLocation_geb a b = true <->
        SourceLocation_ltb b a = true \/ a = b).
Proof.
  unfold SourceLocation_geb, SourceLocation_ltb, SourceLocation_eqb.
  repeat split.
  - intros a. rewrite Z.eqb_refl. cbn. apply Z.ltb_irrefl.
  - intros a b c.
    destruct (Z.eqb_spec (bufferID a) (bufferID b)), (Z.eqb_spec (bufferID b) (bufferID c)),
      (Z.eqb_spec (bufferID a) (bufferID c)); cbn; lia.
  - intros a b.
    destruct (Z.eqb_spec (bufferID a) (bufferID b)), (Z.eqb_spec (bufferID b) (bufferID a)),
      (Z.eqb_spec (charOffset a) (charOffset b)); cbn; lia.
  - intros H. destruct a, b. cbn in *. apply andb_true_iff in H. f_equal; lia.
  - intros ->. rewrite !Z.eqb_refl. reflexivity.
  - intros H. destruct a as [ab ao], b as [bb bo]. cbn [bufferID charOffset] in *.
    apply negb_true_iff in H.
    destruct (Z.eqb_spec ab bb), (Z.eqb_spec bb ab); cbn [negb] in *; try lia.
    destruct (Z.eq_dec ao bo) as [->|Hne]; [right; f_equal; lia | left].
    apply Z.ltb_ge in H. apply Z.ltb_lt. lia.
  - intros [H| ->].
    + destruct (Z.eqb_spec (bufferID a) (bufferID b)), (Z.eqb_spec (bufferID b) (bufferID a));
        cbn in *; lia.
    + rewrite Z.eqb_refl. cbn. rewrite Z.ltb_irrefl. reflexivity.
Qed.

Lemma pow_split (w : Z) : 0 < w -> 2 ^ w = 2 * 2 ^ (w - 1).
Proof.
  intros Hw. replace w with (1 + (w - 1)) at 1 by lia.
  rewrite Z.pow_add_r by lia. reflexivity.
Qed.

Lemma castTo_inRange (T : IntegerType) (z : Z) :
  0 < it_bits T -> inRange T (castTo T z) = true.
Proof.
  intros Hw. unfold castTo, inRange.
  pose proof (Z.mod_pos_bound z (2 ^ it_bits T) ltac:(lia)) as Hr.
  pose proof (pow_split (it_bits T) Hw) as Hp.
  destruct (it_signed T); cbn [andb].
  - destruct (Z.leb_spec (2 ^ (it_bits T - 1)) (z mod 2 ^ it_bits T)); lia.
  - lia.
Qed.

Lemma castTo_mod (T : IntegerType) (z : Z) :
  0 < it_bits T -> castTo T z mod 2 ^ it_bits T = z mod 2 ^ it_bits T.
Proof.
  intros Hw. unfold castTo.
  destruct (it_signed T && (2 ^ (it_bits T - 1) <=? z mod 2 ^ it_bits T)).
  - rewrite <- Zminus_mod_idemp_r, Z.mod_same, Z.sub_0_r, Z.mod_mod by lia.
    reflexivity.
  - apply Z.mod_mod. lia.
Qed.

Lemma castTo_id (T : IntegerType) (z : Z) :
  0 < it_bits T -> inRange T z = true -> castTo T z = z.
Proof.
  intros Hw Hz. unfold castTo, inRange in *.
  pose proof (pow_split (it_bits T) Hw) as Hp.
  destruct (it_signed T); cbn [andb].
  - destruct (Z.neg_nonneg_cases z) as [Hneg|Hpos].
    + assert (Hm : z mod 2 ^ it_bits T = z + 2 ^ it_bits T).
      { symmetry. apply (Z.mod_unique z _ (-1)); lia. }
      rewrite Hm. destruct (Z.leb_spec (2 ^ (it_bits T - 1)) (z + 2 ^ it_bits T)); lia.
    + rewrite Z.mod_small by lia.
      destruct (Z.leb_spec (2 ^ (it_bits T - 1)) z); lia.
  - apply Z.mod_small. lia.
Qed.

Lemma castTo_congruent (T : IntegerType) (x y : Z) :
  x mod 2 ^ it_bits T = y mod 2 ^ it_bits T -> castTo T x = castTo T y.
Proof. intros H. unfold castTo. rewrite H. reflexivity. Qed.

Lemma mod_mod_divides (x a b : Z) :
  0 <= a <= b -> (x mod 2 ^ b) mod 2 ^ a = x mod 2 ^ a.
Proof.
  intros Hab. replace b with (a + (b - a)) by lia.
  rewrite Z.pow_add_r by lia.
  rewrite Z.rem_mul_r by lia.
  rewrite Z.add_mod, (Z.mul_comm (2 ^ a)), Z.mod_mul, Z.add_0_r, !Z.mod_mod by lia.
  reflexivity.
Qed.

Lemma field_of_size_t (x : Z) : size_t x mod 2 ^ 36 = x mod 2 ^ 36.
Proof. unfold size_t. apply mod_mod_divides. lia. Qed.

(** The offset after [operator+] or [operator-], for a type that is not
    promoted. *)
Lemma arithmetic_congruent (T : IntegerType) (z s : Z) :
  32 <= it_bits T ->
  arithmetic T z = Some s ->
  s mod 2 ^ it_bits T = z mod 2 ^ it_bits T /\ inRange T s = true.
Proof.
  intros Hw. unfold arithmetic, promoted.
  destruct (Z.ltb_spec (it_bits T) 32) as [Hlt|_]; [lia|].
  destruct (it_signed T) eqn:Hs.
  - destruct (inRange T z) eqn:Hz; [|discriminate].
    intros [= <-]. split; [reflexivity|exact Hz].
  - intros [= <-]. split; [apply Z.mod_mod; lia|].
    unfold inRange. rewrite Hs.
    pose proof (Z.mod_pos_bound z (2 ^ it_bits T) ltac:(lia)). lia.
Qed.

Lemma round_trip_offset (T : IntegerType) (l l1 l2 : SourceLocation) (delta : Z) :
  wf_loc l ->
  it_bits T = 32 \/ it_bits T = 64 ->
  SourceLocation_plus T l delta = Some l1 ->
  SourceLocation_minus T l1 delta = Some l2 ->
  l2 = mkSourceLocation (buffer l) (size_t (castTo T (charOffset l))).
Proof.
  intros [Hb Ho] Hw Hplus Hminus.
  assert (Hpos : 0 < it_bits T) by lia.
  assert (H32 : 32 <= it_bits T) by lia.
  unfold SourceLocation_plus in Hplus.
  destruct (arithmetic T (castTo T (charOffset l) + delta)) as [s1|] eqn:Hs1;
    [|discriminate].
  injection Hplus as <-.
  unfold SourceLocation_minus in Hminus.
  cbn [charOffset mkSourceLocation buffer bufferID] in Hminus.
  destruct (arithmetic T (castTo T (size_t s1 mod 2 ^ 36) - delta)) as [s2|] eqn:Hs2;
    [|discriminate].
  injection Hminus as <-.
  destruct (arithmetic_congruent T _ _ H32 Hs1) as [Hc1 Hr1].
  destruct (arithmetic_congruent T _ _ H32 Hs2) as [Hc2 Hr2].
  unfold mkSourceLocation, buffer. cbn [bufferID].
  rewrite !field_of_size_t in *.
  rewrite (Z.mod_small (bufferID l mod 2 ^ 28)) by (apply Z.mod_pos_bound; lia).
  f_equal.
  destruct Hw as [Hw|Hw].
  - (* the width of int: the offset of the first step, cast, is its sum *)
    assert (Hcast : castTo T (s1 mod 2 ^ 36) = s1).
    { rewrite (castTo_congruent T (s1 mod 2 ^ 36) s1).
      - apply castTo_id; assumption.
      - rewrite Hw. apply mod_mod_divides. lia. }
    rewrite Hcast in Hc2, Hs2.
    assert (Heq : s2 = castTo T (charOffset l)).
    { rewrite <- (castTo_id T s2 Hpos Hr2).
      rewrite <- (castTo_id T (castTo T (charOffset l)) Hpos (castTo_inRange T _ Hpos)).
      apply castTo_congruent. rewrite Hc2.
      rewrite <- Zminus_mod_idemp_l, Hc1, Zminus_mod_idemp_l.
      f_equal. lia. }
    rewrite Heq. reflexivity.
  - (* 64 bits: every offset is a value of the type *)
    assert (Hfield : forall x, inRange T (x mod 2 ^ 36) = true).
    { intros x. unfold inRange. rewrite Hw.
      pose proof (Z.mod_pos_bound x (2 ^ 36) ltac:(lia)).
      destruct (it_signed T); cbn; lia. }
    rewrite (castTo_id T _ Hpos (Hfield s1)) in Hc2.
    assert (Hoff : castTo T (charOffset l) = charOffset l).
    { apply castTo_id; [exact Hpos|].
      rewrite <- (Z.mod_small (charOffset l) (2 ^ 36)) by lia. apply Hfield. }
    rewrite Hoff in *.
    rewrite <- (mod_mod_divides s2 36 (it_bits T)) by lia.
    rewrite Hc2, mod_mod_divides by lia.
    rewrite <- (mod_mod_divides s1 36 (it_bits T)) by lia.
    rewrite Hc1, mod_mod_divides by lia.
    rewrite Zminus_mod_idemp_l.
    f_equal. lia.
Qed.

(** X2. [operator+] and [operator-] by a [delta] of the integral type [T]
    never change the buffer. For a [T] of 32 or 64 bits, moving a location
    forward and then back by the same [delta] gives, whenever the two
    operations are defined, the location whose offset is the old offset
    cast to [T] and converted to [size_t]; for a 64-bit [T] that is the
    location itself, and after the first step [operator-(SourceLocation)]
    gives [delta] as the distance from the old location when the sum stays
    inside the 36-bit field. For [T = size_t], the instance that
    [getOriginalLoc] uses, both operators are defined for every [delta]
    and each undoes the other. For [T = int] the round trip is not the
    identity: from offset [2^31], adding [1] and subtracting [1] gives
    offset [2^36 - 2^31]. *)
Theorem SourceLocation_add_sub (T : IntegerType) (l : SourceLocation) (delta : Z) :
  wf_loc l ->
  inRange T delta = true ->
  (forall l1, SourceLocation_plus T l delta = Some l1 -> buffer l1 = buffer l)
  /\ (forall l1, SourceLocation_minus T l delta = Some l1 -> buffer l1 = buffer l)
  /\ (it_bits T = 32 \/ it_bits T = 64 ->
      forall l1 l2,
        SourceLocation_plus T l delta = Some l1 ->
        SourceLocation_minus T l1 delta = Some l2 ->
        l2 = mkSourceLocation (buffer l) (size_t (castTo T (charOffset l)))
        /\ (it_bits T = 64 -> l2 = l))
  /\ (it_bits T = 64 ->
      0 <= charOffset l + delta < 2 ^ 36 ->
      forall l1,
        SourceLocation_plus T l delta = Some l1 ->
        SourceLocation_diff l1 l = Ok delta)
  /\ (T = T_size_t ->
      SourceLocation_plus T l delta = Some (SourceLocation_add l delta)
      /\ SourceLocation_minus T l delta = Some (SourceLocation_sub l delta)
      /\ SourceLocation_sub (SourceLocation_add l delta) delta = l
      /\ SourceLocation_add (SourceLocation_sub l delta) delta = l)
  /\ (SourceLocation_plus T_int (RawLocation 1 (2 ^ 31)) 1
      = Some (RawLocation 1 (2 ^ 36 - 2 ^ 31 + 1))
      /\ SourceLocation_minus T_int (RawLocation 1 (2 ^ 36 - 2 ^ 31 + 1)) 1
         = Some (RawLocation 1 (2 ^ 36 - 2 ^ 31))).
Proof.
  intros Hwf Hdelta. pose proof Hwf as [Hb Ho].
  assert (Hbuf : forall o, buffer (mkSourceLocation (buffer l) o) = buffer l).
  { intros o. unfold mkSourceLocation, buffer. cbn [bufferID].
    apply Z.mod_small. lia. }
  assert (Hdiv : forall x, (x mod 2 ^ 64) mod 2 ^ 36 = x mod 2 ^ 36)
    by (intros x; apply mod_mod_divides; lia).
  assert (Hcast : it_bits T = 64 -> castTo T (charOffset l) = charOffset l).
  { intros H64. apply castTo_id; [lia|]. unfold inRange. rewrite H64.
    destruct (it_signed T); cbn; lia. }
  split; [|split; [|split; [|split; [|split]]]].
  - intros l1. unfold SourceLocation_plus.
    destruct (arithmetic T _); [|discriminate]. intros [= <-]. apply Hbuf.
  - intros l1. unfold SourceLocation_minus.
    destruct (arithmetic T _); [|discriminate]. intros [= <-]. apply Hbuf.
  - intros Hw l1 l2 Hplus Hminus.
    pose proof (round_trip_offset T l l1 l2 delta Hwf Hw Hplus Hminus) as Hl2.
    split; [exact Hl2|].
    intros H64. rewrite Hl2, (Hcast H64).
    destruct l as [b o]. unfold mkSourceLocation, buffer, size_t.
    cbn [bufferID charOffset] in *.
    rewrite Hdiv, !Z.mod_small by lia. reflexivity.
  - intros H64 Hsum l1. unfold SourceLocation_plus.
    destruct (arithmetic T _) as [s|] eqn:Hs; [|discriminate]. intros [= <-].
    destruct (arithmetic_congruent T _ _ ltac:(lia) Hs) as [Hc _].
    rewrite (Hcast H64), H64 in Hc.
    unfold SourceLocation_diff. rewrite Hbuf, Z.eqb_refl. cbn [negb].
    unfold mkSourceLocation, size_t. cbn [charOffset].
    rewrite Hdiv, <- (Hdiv s), Hc, Hdiv, (Z.mod_small (charOffset l + delta)) by lia.
    cbn. f_equal. lia.
  - intros ->.
    unfold SourceLocation_plus, SourceLocation_minus, arithmetic, promoted.
    cbn [T_size_t it_bits it_signed Z.ltb Z.compare Pos.compare Pos.compare_cont].
    rewrite (Hcast eq_refl).
    unfold SourceLocation_add, SourceLocation_sub, mkSourceLocation, size_t, buffer.
    cbn [bufferID charOffset].
    rewrite !Z.mod_mod by lia.
    split; [reflexivity|]. split; [reflexivity|].
    rewrite !Hdiv, !(Z.mod_small (bufferID l)) by lia.
    destruct l as [b o]. cbn [bufferID charOffset] in *.
    split; f_equal.
    + rewrite Zminus_mod_idemp_l.
      replace (o + delta - delta) with o by lia. apply Z.mod_small; lia.
    + rewrite Zplus_mod_idemp_l.
      replace (o - delta + delta) with o by lia. apply Z.mod_small; lia.
  - split; vm_compute; reflexivity.
Qed.

Lemma SourceLocation_add_sub_witness :
  SourceLocation_plus T_ptrdiff_t (RawLocation 1 5) (-7)
  = Some (RawLocation 1 (2 ^ 36 - 2))
  /\ SourceLocation_minus T_ptrdiff_t (RawLocation 1 (2 ^ 36 - 2)) (-7)
     = Some (RawLocation 1 5)
  /\ RawLocation 1 5
     = mkSourceLocation (buffer (RawLocation 1 5))
         (size_t (castTo T_ptrdiff_t (charOffset (RawLocation 1 5)))).
Proof.
  assert (Hplus : SourceLocation_plus T_ptrdiff_t (RawLocation 1 5) (-7)
                  = Some (RawLocation 1 (2 ^ 36 - 2))) by (vm_compute; reflexivity).
  assert (Hminus : SourceLocation_minus T_ptrdiff_t (RawLocation 1 (2 ^ 36 - 2)) (-7)
                   = Some (RawLocation 1 5)) by (vm_compute; reflexivity).
  split; [exact Hplus|]. split; [exact Hminus|].
  destruct (SourceLocation_add_sub T_ptrdiff_t (RawLocation 1 5) (-7))
    as (_ & _ & Hround & _).
  - unfold wf_loc. cbn. lia.
  - reflexivity.
  - exact (proj1 (Hround (or_intror eq_refl) _ _ Hplus Hminus)).
Defined.

(** ** Line offsets *)

Lemma computeLineOffsets_from_spec :
  forall (n : nat) (buf : list ascii) (pos : Z),
    (length buf <= n)%nat ->
    StronglySorted Z.lt (computeLineOffsets_from pos buf)
    /\ Forall (fun o => pos < o <= pos + Z.of_nat (length buf)
                        /\ exists c, nth_error buf (Z.to_nat (o - 1 - pos)) = Some c
                                     /\ isNewline c = true)
              (computeLineOffsets_from pos buf)
    /\ (length (computeLineOffsets_from pos buf) <= length buf)%nat.
Proof.
  induction n as [|n IH]; intros buf pos Hlen.
  - destruct buf; [|cbn in Hlen; lia]. cbn. repeat constructor.
  - destruct buf as [|c0 rest]; [cbn; repeat constructor|].
    cbn [computeLineOffsets_from]. cbn [length] in Hlen.
    assert (Hshift : forall (k : Z) (pre tail : list ascii) (o : Z),
              Z.of_nat (length pre) = k ->
              pos + k < o ->
              (exists c, nth_error tail (Z.to_nat (o - 1 - (pos + k))) = Some c
                         /\ isNewline c = true) ->
              exists c, nth_error (pre ++ tail) (Z.to_nat (o - 1 - pos)) = Some c
                        /\ isNewline c = true).
    { intros k pre tail o Hpre Hlt (c & Hc & Hnl). exists c. split; [|exact Hnl].
      rewrite nth_error_app2 by lia.
      rewrite <- Hc. f_equal. lia. }
    destruct (isNewline c0) eqn:Hc0.
    + destruct rest as [|c1 rest'].
      * repeat split.
        -- repeat constructor.
        -- constructor; [|constructor]. cbn [length]. split; [lia|].
           exists c0. replace (pos + 1 - 1 - pos) with 0 by lia. split; [reflexivity|exact Hc0].
        -- cbn. lia.
      * destruct (isNewline c1 && negb (Ascii.eqb c0 c1)) eqn:Hpair.
        -- destruct (IH rest' (pos + 2)) as (Hs & Hf & Hl); [cbn in Hlen; lia|].
           repeat split.
           ++ constructor; [exact Hs|].
              eapply List.Forall_impl; [|exact Hf]. cbn beta. intros o [Ho _]. lia.
           ++ constructor.
              ** cbn [length]. split; [lia|]. exists c1.
                 replace (pos + 2 - 1 - pos) with 1 by lia. split; [reflexivity|].
                 apply andb_true_iff in Hpair. tauto.
              ** eapply List.Forall_impl; [|exact Hf]. cbn beta. intros o [Ho Hc].
                 cbn [length]. split; [lia|].
                 apply (Hshift 2 [c0; c1] rest' o eq_refl ltac:(lia) Hc).
           ++ cbn [length] in *. lia.
        -- destruct (IH (c1 :: rest') (pos + 1)) as (Hs & Hf & Hl); [cbn in *; lia|].
           repeat split.
           ++ constructor; [exact Hs|].
              eapply List.Forall_impl; [|exact Hf]. cbn beta. intros o [Ho _]. lia.
           ++ constructor.
              ** cbn [length]. split; [lia|]. exists c0.
                 replace (pos + 1 - 1 - pos) with 0 by lia. split; [reflexivity|exact Hc0].
              ** eapply List.Forall_impl; [|exact Hf]. cbn beta. intros o [Ho Hc].
                 split; [cbn [length] in *; lia|].
                 apply (Hshift 1 [c0] (c1 :: rest') o eq_refl ltac:(lia) Hc).
           ++ cbn [length] in *. lia.
    + destruct (IH rest (pos + 1)) as (Hs & Hf & Hl); [lia|].
      repeat split.
      * exact Hs.
      * eapply List.Forall_impl; [|exact Hf]. cbn beta. intros o [Ho Hc].
        split; [cbn [length]; lia|].
        apply (Hshift 1 [c0] rest o eq_refl ltac:(lia) Hc).
      * cbn [length]. lia.
Qed.

(** X3. The line offsets [computeLineOffsets] gives for a buffer start with
    offset 0 and are strictly increasing; every later offset lies inside
    the buffer (or at its end) and the character just before it is a line
    break; there are at most as many of them as the buffer has
    characters. *)
Theorem line_offsets_increasing (buf : list ascii) :
  exists rest,
    computeLineOffsets buf = 0 :: rest
    /\ StronglySorted Z.lt (computeLineOffsets buf)
    /\ Forall (fun o => 0 < o <= Z.of_nat (length buf)
                        /\ exists c, nth_error buf (Z.to_nat (o - 1)) = Some c
                                     /\ isNewline c = true) rest
    /\ (length rest <= length buf)%nat.
Proof.
  destruct (computeLineOffsets_from_spec (length buf) buf 0 (le_n _)) as (Hs & Hf & Hl).
  exists (computeLineOffsets_from 0 buf). unfold computeLineOffsets.
  repeat split.
  - constructor; [exact Hs|].
    eapply List.Forall_impl; [|exact Hf]. cbn beta. intros o [Ho _]. lia.
  - eapply List.Forall_impl; [|exact Hf]. cbn beta. intros o [Ho (c & Hc & Hnl)].
    split; [lia|]. exists c. split; [|exact Hnl].
    rewrite <- Hc. f_equal. lia.
  - exact Hl.
Qed.

(** ** Raw line numbers *)

Lemma sorted_lt_nth (l : list Z) :
  StronglySorted Z.lt l ->
  forall i j x y, (i <= j)%nat ->
    nth_error l i = Some x -> nth_error l j = Some y -> x <= y.
Proof.
  induction 1 as [|a l Hs IH Hall]; intros i j x y Hij Hi Hj.
  - destruct i; discriminate.
  - destruct i as [|i], j as [|j]; cbn in Hi, Hj; try lia.
    + injection Hi as <-. injection Hj as <-. lia.
    + injection Hi as <-. apply nth_error_In in Hj.
      rewrite List.Forall_forall in Hall. specialize (Hall y Hj). lia.
    + apply (IH i j); [lia|assumption..].
Qed.

Lemma sorted_lt_partitioned (l : list Z) (off : Z) :
  StronglySorted Z.lt l -> partitioned (fun x => x <? off) l.
Proof.
  intros Hs i j x y Hij Hi Hj Hy. cbv beta in *.
  pose proof (sorted_lt_nth l Hs i j x y Hij Hi Hj). lia.
Qed.

Lemma filter_above_nil (l : list Z) (off : Z) :
  Forall (fun x => off < x) l -> List.filter (fun o => o <=? off) l = [].
Proof.
  induction 1 as [|a l Ha _ IH]; [reflexivity|]. cbn.
  destruct (Z.leb_spec a off); [lia|exact IH].
Qed.

Lemma count_at_bound (off : Z) :
  forall (l : list Z) (r : nat),
    StronglySorted Z.lt l ->
    bound_at (fun x => x <? off) l r ->
    length (List.filter (fun o => o <=? off) l)
    = (r + match nth_error l r with
           | Some x => if (x =? off)%Z then 1 else 0
           | None => 0
           end)%nat.
Proof.
  induction l as [|a l IH]; intros r Hs (Hr & Hbelow & Habove).
  - cbn in Hr. assert (r = 0)%nat as -> by lia. reflexivity.
  - inversion Hs as [|? ? Hs' Hall]; subst.
    destruct r as [|r].
    + pose proof (Habove 0%nat a (le_n _) eq_refl) as Ha. cbv beta in Ha.
      cbn [List.filter nth_error].
      rewrite (filter_above_nil l off).
      * destruct (Z.leb_spec a off), (Z.eqb_spec a off); cbn; lia.
      * eapply List.Forall_impl; [|exact Hall]. cbv beta. intros x Hx. lia.
    + pose proof (Hbelow 0%nat a ltac:(lia) eq_refl) as Ha. cbv beta in Ha.
      cbn [List.filter nth_error].
      destruct (Z.leb_spec a off); [|lia]. cbn [length].
      rewrite (IH r Hs'); [reflexivity|].
      split; [cbn in Hr; lia|]. split.
      * intros i x Hi Hx. apply (Hbelow (S i) x); [lia|exact Hx].
      * intros i x Hi Hx. apply (Habove (S i) x); [lia|exact Hx].
Qed.

Lemma count_monotone (l : list Z) (off off' : Z) :
  off <= off' ->
  (length (List.filter (fun o => (o <=? off)%Z) l)
   <= length (List.filter (fun o => (o <=? off')%Z) l))%nat.
Proof.
  intros Hle. induction l as [|a l IH]; [reflexivity|]. cbn.
  destruct (Z.leb_spec a off), (Z.leb_spec a off'); cbn; lia.
Qed.

Lemma getRawLineNumber_count (sm : SourceManager) (loc : SourceLocation)
    (info : FileInfo) (fd : FileData) :
  getFileInfo sm (buffer loc) = Some info ->
  data info = Some fd ->
  Z.of_nat (length (mem fd)) < 2 ^ 63 ->
  getRawLineNumber sm loc
  = Z.of_nat (length (List.filter (fun o => o <=? offset loc) (computeLineOffsets (mem fd)))).
Proof.
  intros Hinfo Hdata Hsize. unfold getRawLineNumber. rewrite Hinfo, Hdata.
  destruct (line_offsets_increasing (mem fd)) as (rest & Heq & Hs & _ & Hlen).
  pose proof (lower_bound_bound (fun x => x <? offset loc) (computeLineOffsets (mem fd))
                (sorted_lt_partitioned _ (offset loc) Hs)) as Hb.
  rewrite (count_at_bound (offset loc) _ _ Hs Hb).
  destruct Hb as (Hr & _).
  set (r := lower_bound (fun x => x <? offset loc) (computeLineOffsets (mem fd))) in *.
  rewrite Heq in Hr. cbn [length] in Hr.
  destruct (nth_error (computeLineOffsets (mem fd)) r) as [x|]; [|f_equal; lia].
  destruct (x =? offset loc); [|f_equal; lia].
  unfold size_t. rewrite Z.mod_small; [lia|].
  change (2 ^ 63) with 9223372036854775808 in Hsize.
  change (2 ^ 64) with 18446744073709551616. lia.
Qed.

(** X4. For a location in a buffer that holds a file, the raw line number
    found by binary search is the number of line starts at or before the
    location's offset. So lines count from 1, and the raw line number never
    decreases as the offset grows inside a buffer. *)
Theorem raw_line_counts_line_starts (sm : SourceManager) (loc : SourceLocation)
    (info : FileInfo) (fd : FileData) :
  getFileInfo sm (buffer loc) = Some info ->
  data info = Some fd ->
  Z.of_nat (length (mem fd)) < 2 ^ 63 ->
  getRawLineNumber sm loc
  = Z.of_nat (length (List.filter (fun o => o <=? offset loc) (computeLineOffsets (mem fd))))
  /\ (0 <= offset loc -> 1 <= getRawLineNumber sm loc)
  /\ (forall loc', buffer loc' = buffer loc -> offset loc <= offset loc' ->
        getRawLineNumber sm loc <= getRawLineNumber sm loc').
Proof.
  intros Hinfo Hdata Hsize.
  rewrite (getRawLineNumber_count sm loc info fd Hinfo Hdata Hsize).
  repeat split.
  - intros Hoff. unfold computeLineOffsets. cbn [List.filter].
    destruct (Z.leb_spec 0 (offset loc)); [cbn [length]; lia|lia].
  - intros loc' Hbuf Hle.
    rewrite (getRawLineNumber_count sm loc' info fd); [|rewrite Hbuf; exact Hinfo|exact Hdata|exact Hsize].
    apply Nat2Z.inj_le, count_monotone, Hle.
Qed.

Lemma raw_line_witness :
  getRawLineNumber threeLines (RawLocation 1 2) = 2.
Proof.
  refine (eq_trans (proj1 (raw_line_counts_line_starts threeLines (RawLocation 1 2)
            (mkFileInfo
               (Some (mkFileData "a.sv" ["a"; "010"; "b"; "010"; "c"; "010"; "000"]%char))
               SourceLocation_default [])
            (mkFileData "a.sv" ["a"; "010"; "b"; "010"; "c"; "010"; "000"]%char)
            eq_refl eq_refl _)) eq_refl).
  cbn. lia.
Defined.

(** ** Columns *)

Lemma lineStart_loop_spec (mem : list ascii) :
  forall (fuel : nat) (ls : Z),
    0 <= ls <= Z.of_nat (length mem) ->
    (Z.to_nat ls <= fuel)%nat ->
    0 <= lineStart_loop fuel mem ls <= ls
    /\ (lineStart_loop fuel mem ls = 0
        \/ exists c, nth_error mem (Z.to_nat (lineStart_loop fuel mem ls - 1)) = Some c
                     /\ isNewline c = true)
    /\ (forall i, lineStart_loop fuel mem ls <= i < ls ->
          exists c, nth_error mem (Z.to_nat i) = Some c /\ isNewline c = false).
Proof.
  induction fuel as [|fuel IH]; intros ls Hls Hfuel.
  - assert (ls = 0) as -> by lia. cbn. repeat split; lia.
  - cbn [lineStart_loop]. destruct (Z.ltb_spec 0 ls) as [Hpos|Hzero].
    + destruct (nth_error mem (Z.to_nat (ls - 1))) as [c|] eqn:Hc.
      * destruct (isNewline c) eqn:Hnl.
        -- repeat split; try lia. right. exists c. split; assumption.
        -- destruct (IH (ls - 1)) as (Hrange & Hstart & Hmid); [lia|lia|].
           repeat split; try lia; [exact Hstart|].
           intros i Hi. destruct (Z.eq_dec i (ls - 1)) as [->|Hne].
           ++ exists c. split; assumption.
           ++ apply Hmid. lia.
      * apply nth_error_None in Hc. lia.
    + assert (ls = 0) as -> by lia. repeat split; lia.
Qed.

(** X5. The column of a location inside a file buffer is one more than the
    number of characters between it and the start of its line: the line
    starts at the buffer's start or just after the nearest line break
    before the location, and no line break lies between that start and the
    location. An offset at or past the end of the buffer fails the
    assertion; a buffer that holds no file has column 0. *)
Theorem column_counts_from_line_start (sm : SourceManager) (loc : SourceLocation)
    (info : FileInfo) (fd : FileData) :
  getFileInfo sm (buffer loc) = Some info ->
  data info = Some fd ->
  wf_loc loc ->
  (offset loc < Z.of_nat (length (mem fd)) ->
   exists start,
     getColumnNumber sm loc = Ok (offset loc - start + 1)
     /\ 0 <= start <= offset loc
     /\ (start = 0
         \/ exists c, nth_error (mem fd) (Z.to_nat (start - 1)) = Some c
                      /\ isNewline c = true)
     /\ (forall i, start <= i < offset loc ->
           exists c, nth_error (mem fd) (Z.to_nat i) = Some c /\ isNewline c = false))
  /\ (Z.of_nat (length (mem fd)) <= offset loc ->
      getColumnNumber sm loc = Err AssertionFailed).
Proof.
  intros Hinfo Hdata [_ Hoff]. unfold getColumnNumber. rewrite Hinfo, Hdata.
  unfold offset in *. split.
  - intros Hin. destruct (Z.ltb_spec (charOffset loc) (Z.of_nat (length (mem fd)))); [|lia].
    cbn [ASSERT rbind].
    destruct (lineStart_loop_spec (mem fd) (Z.to_nat (charOffset loc)) (charOffset loc))
      as (Hrange & Hstart & Hmid); [lia|lia|].
    exists (lineStart_loop (Z.to_nat (charOffset loc)) (mem fd) (charOffset loc)).
    repeat split; try lia; try assumption.
    f_equal. unfold size_t.
    change (2 ^ 36) with 68719476736 in Hoff.
    change (2 ^ 64) with 18446744073709551616.
    rewrite (Z.mod_small (charOffset loc - _)) by lia.
    rewrite Z.mod_small by lia. f_equal.
  - intros Hout. destruct (Z.ltb_spec (charOffset loc) (Z.of_nat (length (mem fd)))); [lia|].
    reflexivity.
Qed.

Lemma column_witness :
  exists start, getColumnNumber threeLines (RawLocation 1 2) = Ok (2 - start + 1).
Proof.
  destruct (proj1 (column_counts_from_line_start threeLines (RawLocation 1 2)
              (mkFileInfo
                 (Some (mkFileData "a.sv" ["a"; "010"; "b"; "010"; "c"; "010"; "000"]%char))
                 SourceLocation_default [])
              (mkFileData "a.sv" ["a"; "010"; "b"; "010"; "c"; "010"; "000"]%char)
              eq_refl eq_refl ltac:(unfold wf_loc; cbn; lia)) ltac:(cbn; lia))
    as (start & Hcol & _).
  exists start. exact Hcol.
Defined.

(** ** Adding a line directive *)

Lemma insert_length_same {A : Type} (l : list A) (n : nat) (e : A) :
  length (<[n := e]> l) = length l.
Proof.
  revert n. induction l as [|a l IH]; intros [|n]; cbn; try reflexivity.
  f_equal. apply IH.
Qed.

Lemma nth_error_insert {A : Type} (l : list A) (n k : nat) (e : A) :
  nth_error (<[n := e]> l) k
  = if (k =? n)%nat && (n <? length l)%nat then Some e else nth_error l k.
Proof.
  revert n k. induction l as [|a l IH]; intros [|n] [|k]; cbn; try reflexivity.
  - destruct (k =? n)%nat; reflexivity.
  - rewrite IH. reflexivity.
Qed.

(** The manager [addLineDirective] leaves behind. *)
Lemma addLineDirective_result (sm : SourceManager) (loc : SourceLocation)
    (info : FileInfo) (fd : FileData) (lineNum : Z) (full : string) (level : Z) :
  isFileLoc sm loc = true ->
  getFileInfo sm (buffer loc) = Some info ->
  data info = Some fd ->
  addLineDirective sm loc lineNum full level
  = Ok {| bufferEntries :=
            <[Z.to_nat (buffer loc) :=
                FileEntry
                  {| data := data info;
                     includedFrom := includedFrom info;
                     lineDirectives := lineDirectives info ++
                       [mkLineDirectiveInfo full (getRawLineNumber sm loc) (size_t lineNum)
                          (level mod 2 ^ 8)] |}]> (bufferEntries sm);
          userFileBuffers := userFileBuffers sm;
          unnamedBufferCount := unnamedBufferCount sm |}.
Proof.
  intros Hfile Hinfo Hdata. unfold addLineDirective.
  rewrite (getFullyExpandedLoc_file sm loc Hfile). cbn [rbind].
  unfold getFileInfo in Hinfo. unfold getFileInfo_mut.
  destruct (negb (BufferID_valid (buffer loc))); [discriminate|].
  destruct (Z.leb_spec (entries_size sm) (buffer loc)); [discriminate|].
  destruct (Z.ltb_spec (buffer loc) (entries_size sm)); [|lia].
  cbn [ASSERT rbind].
  destruct (entry_at sm (buffer loc)) as [[f|e]|]; try discriminate.
  injection Hinfo as ->. cbn [rbind]. rewrite Hdata. reflexivity.
Qed.

Section AfterDirective.
Variable sm : SourceManager.
Variable target : BufferID.
Variable info info' : FileInfo.
Hypothesis Hnonneg : 0 <= target.
Hypothesis Hinfo : getFileInfo sm target = Some info.
Hypothesis Hdata : data info' = data info.

Let sm' : SourceManager :=
  {| bufferEntries := <[Z.to_nat target := FileEntry info']> (bufferEntries sm);
     userFileBuffers := userFileBuffers sm;
     unnamedBufferCount := unnamedBufferCount sm |}.

Lemma target_in_range : 0 < target < entries_size sm.
Proof using Hinfo Hnonneg.
  unfold getFileInfo, BufferID_valid in Hinfo.
  destruct (Z.eqb_spec target 0); [discriminate|]. cbn [negb] in Hinfo.
  destruct (Z.leb_spec (entries_size sm) target); [discriminate|]. lia.
Qed.

Lemma updated_size : entries_size sm' = entries_size sm.
Proof. unfold entries_size, sm'. cbn. rewrite insert_length_same. reflexivity. Qed.

Lemma updated_entry (b : BufferID) :
  0 <= b ->
  entry_at sm' b = if b =? target then Some (FileEntry info') else entry_at sm b.
Proof using Hinfo Hnonneg.
  intros Hb. pose proof target_in_range as Ht.
  unfold entry_at, sm'. cbn [bufferEntries]. rewrite nth_error_insert.
  unfold entries_size in Ht.
  destruct (Z.eqb_spec b target) as [->|Hne].
  - rewrite Nat.eqb_refl. destruct (Nat.ltb_spec (Z.to_nat target) (length (bufferEntries sm)));
      [reflexivity|lia].
  - destruct (Nat.eqb_spec (Z.to_nat b) (Z.to_nat target)); [lia|reflexivity].
Qed.

Lemma updated_getFileInfo (b : BufferID) :
  getFileInfo sm' b = if b =? target then Some info' else getFileInfo sm b.
Proof using Hinfo Hnonneg.
  pose proof target_in_range as Ht.
  unfold getFileInfo. rewrite updated_size.
  unfold BufferID_valid.
  destruct (Z.eqb_spec b 0) as [->|Hnz]; cbn [negb].
  { destruct (Z.eqb_spec 0 target); [lia|reflexivity]. }
  destruct (Z.leb_spec (entries_size sm) b).
  { destruct (Z.eqb_spec b target); [lia|reflexivity]. }
  destruct (Z.lt_trichotomy b 0) as [Hneg|[Hz|Hpos]]; [|lia|].
  - (* a negative id reads entry 0 in both managers *)
    assert (Hidx : Z.to_nat b = 0%nat) by lia.
    unfold entry_at, sm'. cbn [bufferEntries]. rewrite nth_error_insert, Hidx.
    destruct (Nat.eqb_spec 0 (Z.to_nat target)); [lia|]. cbn [andb].
    destruct (Z.eqb_spec b target); [lia|reflexivity].
  - rewrite updated_entry by lia.
    destruct (Z.eqb_spec b target); reflexivity.
Qed.

Lemma updated_isFileLoc (L : SourceLocation) : isFileLoc sm' L = isFileLoc sm L.
Proof using Hinfo Hnonneg.
  unfold isFileLoc. rewrite updated_getFileInfo.
  destruct (SourceLocation_eqb L NoLocation); [reflexivity|].
  destruct (Z.eqb_spec (buffer L) target) as [->|]; [rewrite Hinfo|]; reflexivity.
Qed.

Lemma updated_getRawLineNumber (L : SourceLocation) :
  getRawLineNumber sm' L = getRawLineNumber sm L.
Proof using Hinfo Hdata Hnonneg.
  unfold getRawLineNumber. rewrite updated_getFileInfo.
  destruct (Z.eqb_spec (buffer L) target) as [->|]; [|reflexivity].
  rewrite Hinfo, Hdata. reflexivity.
Qed.

Lemma updated_getLineNumber_file (L : SourceLocation) :
  isFileLoc sm L = true ->
  getLineNumber sm' L
  = if getRawLineNumber sm L =? 0 then Ok 0
    else match (if buffer L =? target then Some info' else getFileInfo sm (buffer L)) with
         | None => Err AssertionFailed
         | Some i =>
           match getPreviousLineDirective (lineDirectives i) (getRawLineNumber sm L) with
           | None => Ok (getRawLineNumber sm L)
           | Some d =>
             Ok (size_t (size_t (lineOfDirective d
                                 + size_t (getRawLineNumber sm L - lineInFile d)) - 1))
           end
         end.
Proof using Hinfo Hdata Hnonneg.
  intros Hfile. unfold getLineNumber.
  rewrite (getFullyExpandedLoc_file sm' L) by (rewrite updated_isFileLoc; exact Hfile).
  cbn [rbind]. rewrite updated_getRawLineNumber, updated_getFileInfo. reflexivity.
Qed.

End AfterDirective.

Lemma getLineNumber_file (sm : SourceManager) (L : SourceLocation) :
  isFileLoc sm L = true ->
  getLineNumber sm L
  = if getRawLineNumber sm L =? 0 then Ok 0
    else match getFileInfo sm (buffer L) with
         | None => Err AssertionFailed
         | Some i =>
           match getPreviousLineDirective (lineDirectives i) (getRawLineNumber sm L) with
           | None => Ok (getRawLineNumber sm L)
           | Some d =>
             Ok (size_t (size_t (lineOfDirective d
                                 + size_t (getRawLineNumber sm L - lineInFile d)) - 1))
           end
         end.
Proof.
  intros Hfile. unfold getLineNumber.
  rewrite (getFullyExpandedLoc_file sm L Hfile). reflexivity.
Qed.

Lemma nearestPreceding_app (l : list LineDirectiveInfo) (d : LineDirectiveInfo) (raw : Z) :
  nearestPreceding (l ++ [d]) raw
  = if lineInFile d <? raw then Some d else nearestPreceding l raw.
Proof.
  induction l as [|a l IH]; cbn [app nearestPreceding].
  - destruct (lineInFile d <? raw); reflexivity.
  - rewrite IH. destruct (lineInFile d <? raw); reflexivity.
Qed.

Lemma getRawLineNumber_nonneg (sm : SourceManager) (L : SourceLocation) :
  0 <= getRawLineNumber sm L.
Proof.
  unfold getRawLineNumber.
  destruct (getFileInfo sm (buffer L)) as [i|]; [|lia].
  destruct (data i) as [fd|]; [|lia].
  destruct (nth_error _ _) as [x|]; [|lia].
  destruct (x =? offset L); [|lia].
  unfold size_t. apply Z.mod_pos_bound. lia.
Qed.

(** X6. A line directive added at a file location renumbers exactly the
    lines after it. When the buffer's directives were added in file order,
    [addLineDirective] succeeds and adds no buffer; afterwards a location
    of the same buffer on a later raw line [r] has line number
    [lineNum + (r - d) - 1], where [d] is the raw line of the directive (the
    line after the directive has number [lineNum]); locations on the raw
    line of the directive or before it, and locations of other file
    buffers, keep their line numbers. *)
Theorem line_directive_renumbers_later_lines
    (sm : SourceManager) (loc : SourceLocation) (info : FileInfo) (fd : FileData)
    (lineNum : Z) (full : string) (level : Z) :
  wf_loc loc ->
  isFileLoc sm loc = true ->
  getFileInfo sm (buffer loc) = Some info ->
  data info = Some fd ->
  sortedByLineInFile (lineDirectives info) ->
  Forall (fun d => lineInFile d <= getRawLineNumber sm loc) (lineDirectives info) ->
  0 <= lineNum < 2 ^ 64 ->
  exists sm',
    addLineDirective sm loc lineNum full level = Ok sm'
    /\ entries_size sm' = entries_size sm
    /\ (forall L, isFileLoc sm L = true -> buffer L = buffer loc ->
          getRawLineNumber sm loc < getRawLineNumber sm L ->
          getLineNumber sm' L
          = Ok (size_t (lineNum + (getRawLineNumber sm L - getRawLineNumber sm loc) - 1)))
    /\ (forall L, isFileLoc sm L = true -> buffer L = buffer loc ->
          getRawLineNumber sm L <= getRawLineNumber sm loc ->
          getLineNumber sm' L = getLineNumber sm L)
    /\ (forall L, isFileLoc sm L = true -> buffer L <> buffer loc ->
          getLineNumber sm' L = getLineNumber sm L).
Proof.
  intros [[Hnonneg _] _] Hfile Hinfo Hdata Hsorted Hbefore HlineNum.
  set (added := mkLineDirectiveInfo full (getRawLineNumber sm loc) (size_t lineNum)
                  (level mod 2 ^ 8)).
  set (info' := {| data := data info; includedFrom := includedFrom info;
                   lineDirectives := lineDirectives info ++ [added] |}).
  assert (Hsorted' : sortedByLineInFile (lineDirectives info ++ [added]))
    by (apply append_keeps_sorted; assumption).
  eexists. split; [apply (addLineDirective_result sm loc info fd); assumption|].
  fold added. fold info'.
  pose proof (updated_getLineNumber_file sm (buffer loc) info info' Hnonneg Hinfo eq_refl)
    as Hline.
  split; [apply (updated_size sm (buffer loc) info')|].
  split; [|split].
  - intros L HL Hbuf Hlater. rewrite (Hline L HL).
    pose proof (getRawLineNumber_nonneg sm loc) as Hraw.
    destruct (Z.eqb_spec (getRawLineNumber sm L) 0); [lia|].
    rewrite Hbuf, Z.eqb_refl. cbn [lineDirectives info'].
    rewrite (getPreviousLineDirective_nearest _ _ Hsorted'), nearestPreceding_app.
    cbn [lineInFile added].
    destruct (Z.ltb_spec (getRawLineNumber sm loc) (getRawLineNumber sm L)); [|lia].
    cbn [lineOfDirective lineInFile added].
    rewrite size_t_line_formula. do 2 f_equal.
    unfold size_t. rewrite (Z.mod_small lineNum) by lia. reflexivity.
  - intros L HL Hbuf Hearlier. rewrite (Hline L HL), (getLineNumber_file sm L HL).
    rewrite Hbuf, Z.eqb_refl, Hinfo. cbn [lineDirectives info'].
    rewrite (getPreviousLineDirective_nearest _ _ Hsorted'), nearestPreceding_app,
      (getPreviousLineDirective_nearest _ _ Hsorted).
    cbn [lineInFile added].
    destruct (Z.ltb_spec (getRawLineNumber sm loc) (getRawLineNumber sm L)); [lia|].
    reflexivity.
  - intros L HL Hbuf. rewrite (Hline L HL), (getLineNumber_file sm L HL).
    destruct (Z.eqb_spec (buffer L) (buffer loc)); [contradiction|reflexivity].
Qed.

Lemma line_directive_witness :
  exists sm',
    addLineDirective threeLines (RawLocation 1 0) 100 "x.sv" 0 = Ok sm'
    /\ getLineNumber sm' (RawLocation 1 2) = Ok 100
    /\ getLineNumber sm' (RawLocation 1 4) = Ok 101.
Proof.
  destruct (line_directive_renumbers_later_lines threeLines (RawLocation 1 0)
              (mkFileInfo
                 (Some (mkFileData "a.sv" ["a"; "010"; "b"; "010"; "c"; "010"; "000"]%char))
                 SourceLocation_default [])
              (mkFileData "a.sv" ["a"; "010"; "b"; "010"; "c"; "010"; "000"]%char)
              100 "x.sv" 0)
    as (sm' & Hadd & _ & Hlater & _).
  - unfold wf_loc. cbn. lia.
  - reflexivity.
  - reflexivity.
  - reflexivity.
  - constructor.
  - constructor.
  - lia.
  - exists sm'. split; [exact Hadd|]. split.
    + rewrite (Hlater (RawLocation 1 2)); [reflexivity|reflexivity|reflexivity|].
      vm_compute. reflexivity.
    + rewrite (Hlater (RawLocation 1 4)); [reflexivity|reflexivity|reflexivity|].
      vm_compute. reflexivity.
Defined.

(** ** Locations of different compilation units *)

Section Unrelated.
Variable sm : SourceManager.
Hypothesis Hwf : wf_manager sm.

Lemma last_default {A : Type} (t : list A) :
  forall (x d d' : A), List.last (x :: t) d = List.last (x :: t) d'.
Proof.
  induction t as [|y t IH]; intros x d d'; [reflexivity|].
  change (List.last (x :: y :: t) d) with (List.last (y :: t) d).
  change (List.last (x :: y :: t) d') with (List.last (y :: t) d').
  apply IH.
Qed.

Lemma last_is_least (c : list SourceLocation) :
  forall l, StronglySorted (fun r1 r2 => buffer r2 < buffer r1) (l :: c) ->
    forall r, In r (l :: c) -> buffer (List.last (l :: c) l) <= buffer r.
Proof.
  induction c as [|x rest IH]; intros l Hs r Hin.
  - destruct Hin as [<-|[]]. cbn. lia.
  - inversion Hs as [|? ? Hs' Hall]; subst.
    change (List.last (l :: x :: rest) l) with (List.last (x :: rest) l).
    rewrite (last_default rest x l x).
    destruct Hin as [<-|Hin].
    + pose proof (IH x Hs' x (or_introl eq_refl)) as Hx.
      rewrite List.Forall_forall in Hall. specialize (Hall x (or_introl eq_refl)). lia.
    + exact (IH x Hs' r Hin).
Qed.

Lemma root_is_least (a r : SourceLocation) :
  In r (chain sm a) -> rootOf sm a <= buffer r.
Proof using Hwf.
  intros Hin. unfold rootOf, chain in *.
  apply last_is_least; [|exact Hin].
  apply (chain_sorted sm Hwf a).
Qed.

Lemma root_below_common (a b : SourceLocation) (D : Z) :
  offsetIn (chain sm a) D <> None -> offsetIn (chain sm b) D <> None ->
  rootOf sm b <= rootOf sm a.
Proof using Hwf.
  intros Ha Hb.
  assert (HaD : rootOf sm a <= D).
  { destruct (offsetIn (chain sm a) D) as [x|] eqn:Hx; [|congruence].
    destruct (offsetIn_In _ _ _ Hx) as (r & Hin & <- & _).
    apply root_is_least, Hin. }
  assert (Hmem : offsetIn (chain sm a) (rootOf sm a) <> None).
  { unfold rootOf. apply offsetIn_member. unfold chain. apply last_member. }
  assert (Hinb : offsetIn (chain sm b) (rootOf sm a) <> None).
  { destruct (Z.eq_dec (rootOf sm a) D) as [->|Hne]; [exact Hb|].
    rewrite <- (chains_agree_below sm Hwf a b D (rootOf sm a) Ha Hb) by lia.
    exact Hmem. }
  destruct (offsetIn (chain sm b) (rootOf sm a)) as [x|] eqn:Hx; [|congruence].
  destruct (offsetIn_In _ _ _ Hx) as (r & Hin & Hr & _).
  rewrite <- Hr. apply root_is_least, Hin.
Qed.

Lemma different_roots_no_common (a b : SourceLocation) :
  rootOf sm a <> rootOf sm b ->
  firstCommon (chain sm a) (chain sm b) = None.
Proof using Hwf.
  intros Hroots.
  destruct (firstCommon (chain sm a) (chain sm b)) as [[[B x] y]|] eqn:Hfc; [|reflexivity].
  exfalso. destruct (firstCommon_sound _ _ _ _ _ Hfc) as [Hx Hy].
  assert (Ha : offsetIn (chain sm a) B <> None) by congruence.
  assert (Hb : offsetIn (chain sm b) B <> None) by congruence.
  pose proof (root_below_common a b B Ha Hb).
  pose proof (root_below_common b a B Hb Ha).
  lia.
Qed.

Lemma leftChain_loop_to_root (right : SourceLocation) :
  forall fuel left m,
    in_range sm left -> (Z.to_nat (buffer left) <= fuel)%nat ->
    offsetIn (left :: ancestors fuel sm (buffer left)) (buffer right) = None ->
    leftChain_loop fuel sm right left m
    = Ok (emplaceAll m (left :: ancestors fuel sm (buffer left)),
          List.last (left :: ancestors fuel sm (buffer left)) left).
Proof using Hwf.
  induction fuel as [|fuel IH]; intros left m Hrange Hfuel;
    cbn [leftChain_loop ancestors offsetIn];
    (destruct (Z.eqb_spec (buffer left) (buffer right)) as [Heq|Hne];
       cbn [negb]; [discriminate|]);
    intros Hnone; rewrite (moveUp_parent sm Hwf left Hrange); cbn [rbind].
  - destruct Hrange as [[Hb0 _] _]. fold (buffer left) in Hb0.
    rewrite (no_parent_of_zero sm Hwf) by lia. reflexivity.
  - destruct (parentLoc sm (buffer left)) as [p|] eqn:Hp; cbn [fst snd]; [|reflexivity].
    destruct (parentLoc_lt sm Hwf _ _ Hp) as [Hwfp Hlt].
    rewrite (IH p (emplace m (buffer left) (offset left))).
    + f_equal. f_equal.
      change (List.last (left :: p :: ancestors fuel sm (buffer p)) left)
        with (List.last (p :: ancestors fuel sm (buffer p)) left).
      apply last_default.
    + destruct Hrange as [_ Hsz]. split; [assumption | lia].
    + destruct Hwfp as [Hp0 _]. fold (buffer p) in Hp0. lia.
    + exact Hnone.
Qed.

Lemma rightChain_loop_to_root (ca : list SourceLocation) (m : gmap Z Z) :
  (forall D, m !! D = offsetIn ca D) ->
  forall fuel right,
    in_range sm right -> (Z.to_nat (buffer right) <= fuel)%nat ->
    firstCommon ca (right :: ancestors fuel sm (buffer right)) = None ->
    rightChain_loop fuel sm m right
    = Ok (None, List.last (right :: ancestors fuel sm (buffer right)) right).
Proof using Hwf.
  intros Hm.
  induction fuel as [|fuel IH]; intros right Hrange Hfuel;
    cbn [rightChain_loop ancestors firstCommon]; rewrite Hm;
    (destruct (offsetIn ca (buffer right)) as [x0|] eqn:Hx0; [discriminate|]);
    intros Hnone; rewrite (moveUp_parent sm Hwf right Hrange); cbn [rbind].
  - destruct Hrange as [[Hb0 _] _]. fold (buffer right) in Hb0.
    rewrite (no_parent_of_zero sm Hwf) by lia. reflexivity.
  - destruct (parentLoc sm (buffer right)) as [p|] eqn:Hp; cbn [fst snd]; [|reflexivity].
    destruct (parentLoc_lt sm Hwf _ _ Hp) as [Hwfp Hlt].
    rewrite (IH p).
    + f_equal. f_equal.
      change (List.last (right :: p :: ancestors fuel sm (buffer p)) right)
        with (List.last (p :: ancestors fuel sm (buffer p)) right).
      apply last_default.
    + destruct Hrange as [_ Hsz]. split; [assumption | lia].
    + destruct Hwfp as [Hp0 _]. fold (buffer p) in Hp0. lia.
    + exact Hnone.
Qed.

Lemma isBefore_different_roots (a b : SourceLocation) :
  in_range sm a -> in_range sm b ->
  rootOf sm a <> rootOf sm b ->
  isBeforeInCompilationUnit sm a b = Err AssertionFailed.
Proof using Hwf.
  intros Ha Hb Hroots.
  pose proof (different_roots_no_common a b Hroots) as Hfc.
  unfold isBeforeInCompilationUnit.
  destruct (Z.eqb_spec (buffer a) (buffer b)) as [Heq|Hne].
  { unfold chain in Hfc. cbn [firstCommon offsetIn] in Hfc.
    rewrite Heq, Z.eqb_refl in Hfc. discriminate. }
  assert (Hfuela : (Z.to_nat (buffer a) <= length (bufferEntries sm))%nat).
  { destruct Ha as [_ Hsz]. unfold entries_size in Hsz. lia. }
  assert (Hfuelb : (Z.to_nat (buffer b) <= length (bufferEntries sm))%nat).
  { destruct Hb as [_ Hsz]. unfold entries_size in Hsz. lia. }
  assert (Hnotin : offsetIn (chain sm a) (buffer b) = None).
  { apply (firstCommon_none _ (chain sm b) b Hfc). unfold chain. left. reflexivity. }
  rewrite (leftChain_loop_to_root b _ a ∅ Ha Hfuela)
    by (rewrite (chain_entries sm Hwf a Ha); exact Hnotin).
  rewrite (chain_entries sm Hwf a Ha). cbn [rbind fst snd].
  rewrite (rightChain_loop_to_root (chain sm a) (emplaceAll ∅ (chain sm a)))
    with (fuel := length (bufferEntries sm)) (right := b).
  - rewrite (chain_entries sm Hwf b Hb). cbn [rbind fst snd].
    fold (rootOf sm a). fold (rootOf sm b).
    destruct (Z.eqb_spec (rootOf sm a) (rootOf sm b)); [contradiction|]. reflexivity.
  - intros D. rewrite emplaceAll_lookup, lookup_empty. reflexivity.
  - exact Hb.
  - exact Hfuelb.
  - rewrite (chain_entries sm Hwf b Hb). exact Hfc.
Qed.

End Unrelated.

(** X7. Two locations whose include and expansion chains end in different
    root buffers cannot be compared: whichever way they are given,
    [isBeforeInCompilationUnit] walks both chains to their roots, finds no
    common buffer and fails its assertion. *)
Theorem isBefore_fails_across_units (sm : SourceManager) (a b : SourceLocation) :
  wf_manager sm ->
  in_range sm a -> in_range sm b ->
  rootOf sm a <> rootOf sm b ->
  isBeforeInCompilationUnit sm a b = Err AssertionFailed
  /\ isBeforeInCompilationUnit sm b a = Err AssertionFailed.
Proof.
  intros Hwf Ha Hb Hroots. split.
  - apply isBefore_different_roots; assumption.
  - apply isBefore_different_roots; try assumption. congruence.
Qed.

Lemma twoFiles_wf : wf_manager twoFiles.
Proof.
  split; [reflexivity|].
  intros b p. unfold parentLoc, entry_at.
  assert (Hcases : b <= 0 \/ b = 1 \/ b = 2 \/ 3 <= b) by lia.
  destruct Hcases as [Hb|[->|[->|Hb]]].
  - replace (Z.to_nat b) with 0%nat by lia. discriminate.
  - discriminate.
  - discriminate.
  - replace (nth_error (bufferEntries twoFiles) (Z.to_nat b)) with (@None BufferEntry);
      [discriminate|].
    symmetry. apply nth_error_None. cbn [twoFiles bufferEntries length]. lia.
Qed.

Lemma isBefore_across_units_witness :
  isBeforeInCompilationUnit twoFiles (RawLocation 1 0) (RawLocation 2 0)
  = Err AssertionFailed.
Proof.
  refine (proj1 (isBefore_fails_across_units twoFiles (RawLocation 1 0) (RawLocation 2 0)
                   twoFiles_wf _ _ _)).
  - unfold in_range, wf_loc, buffer, entries_size. cbn. lia.
  - unfold in_range, wf_loc, buffer, entries_size. cbn. lia.
  - vm_compute. discriminate.
Defined.

(** ** Creating a buffer and reading it back *)

Lemma terminate_spec (text : list ascii) :
  (exists body, terminate text = body ++ [NUL])
  /\ (terminate text = text \/ terminate text = text ++ [NUL]).
Proof.
  unfold terminate. destruct (rev text) as [|c r] eqn:Hrev.
  - split; [exists text; reflexivity | right; reflexivity].
  - destruct (Ascii.eqb_spec c NUL) as [->|Hne].
    + split; [|left; reflexivity].
      exists (rev r). rewrite <- (rev_involutive text), Hrev. reflexivity.
    + split; [exists text; reflexivity | right; reflexivity].
Qed.

Lemma entry_at_appended (sm : SourceManager) (entries : list BufferEntry) (e : BufferEntry)
    (users : list FileData) (count : Z) :
  entries = bufferEntries sm ++ [e] ->
  entry_at {| bufferEntries := entries; userFileBuffers := users;
              unnamedBufferCount := count |} (entries_size sm) = Some e
  /\ (forall b, 0 <= b < entries_size sm ->
        entry_at {| bufferEntries := entries; userFileBuffers := users;
                    unnamedBufferCount := count |} b = entry_at sm b)
  /\ entries_size {| bufferEntries := entries; userFileBuffers := users;
                     unnamedBufferCount := count |} = entries_size sm + 1.
Proof.
  intros ->. unfold entry_at, entries_size. cbn [bufferEntries]. repeat split.
  - rewrite Nat2Z.id, nth_error_app2 by lia. rewrite Nat.sub_diag. reflexivity.
  - intros b Hb. rewrite nth_error_app1 by lia. reflexivity.
  - rewrite length_app. cbn [length]. lia.
Qed.

Lemma new_id (sm : SourceManager) (e : BufferEntry) :
  0 <= entries_size sm < 2 ^ 32 ->
  mkBufferID (Z.of_nat (length (bufferEntries sm ++ [e])) - 1) = entries_size sm.
Proof.
  intros Hsize. unfold mkBufferID, uint32_t, entries_size in *.
  rewrite length_app. cbn [length].
  replace (Z.of_nat (length (bufferEntries sm) + 1) - 1)
    with (Z.of_nat (length (bufferEntries sm))) by lia.
  apply Z.mod_small. lia.
Qed.

Lemma createBufferEntry_read (sm : SourceManager) (fd : FileData) (inc : SourceLocation) :
  1 <= entries_size sm < 2 ^ 32 ->
  sb_id (snd (createBufferEntry sm fd inc)) = entries_size sm
  /\ sb_data (snd (createBufferEntry sm fd inc)) = mem fd
  /\ getFileInfo (fst (createBufferEntry sm fd inc)) (entries_size sm)
     = Some (mkFileInfo (Some fd) inc [])
  /\ (forall b, 0 <= b < entries_size sm ->
        entry_at (fst (createBufferEntry sm fd inc)) b = entry_at sm b)
  /\ entries_size (fst (createBufferEntry sm fd inc)) = entries_size sm + 1.
Proof.
  intros Hsize. unfold createBufferEntry. cbn [fst snd sb_id sb_data].
  destruct (entry_at_appended sm _ (FileEntry (mkFileInfo (Some fd) inc []))
              (userFileBuffers sm) (unnamedBufferCount sm) eq_refl) as (Hnew & Hold & Hsz).
  repeat split.
  - apply new_id. lia.
  - unfold getFileInfo, BufferID_valid. rewrite Hsz, Hnew.
    destruct (Z.eqb_spec (entries_size sm) 0); [lia|]. cbn [negb].
    destruct (Z.leb_spec (entries_size sm + 1) (entries_size sm)); [lia|]. reflexivity.
  - exact Hold.
  - exact Hsz.
Qed.

(** X8. Text given to [assignText] can be read back. The new buffer gets
    the id that equals the number of entries before the call (while ids
    fit 32 bits); the text stored, handed back in the [SourceBuffer] and
    returned by [getSourceText] for that id is the text with a NUL added at
    its end unless it already ends in one; the buffer remembers the
    location it was included from and its name (the synthetic name when
    the path is empty); the entries that existed before are unchanged. *)
Theorem assignText_then_read (sm : SourceManager) (path : string) (unnamed : Z -> string)
    (text : list ascii) (inc : SourceLocation) :
  1 <= entries_size sm < 2 ^ 32 ->
  sb_id (snd (assignText sm path unnamed text inc)) = entries_size sm
  /\ sb_data (snd (assignText sm path unnamed text inc)) = terminate text
  /\ getSourceText (fst (assignText sm path unnamed text inc))
       (sb_id (snd (assignText sm path unnamed text inc))) = terminate text
  /\ getIncludedFrom (fst (assignText sm path unnamed text inc))
       (sb_id (snd (assignText sm path unnamed text inc))) = inc
  /\ getRawFileName (fst (assignText sm path unnamed text inc))
       (sb_id (snd (assignText sm path unnamed text inc)))
     = (if String.eqb path EmptyString then unnamed (unnamedBufferCount sm) else path)
  /\ (exists body, terminate text = body ++ [NUL])
  /\ (terminate text = text \/ terminate text = text ++ [NUL])
  /\ (forall b, 0 <= b < entries_size sm ->
        entry_at (fst (assignText sm path unnamed text inc)) b = entry_at sm b)
  /\ entries_size (fst (assignText sm path unnamed text inc)) = entries_size sm + 1.
Proof.
  intros Hsize. unfold assignText, assignBuffer.
  set (sm1 := if String.eqb path EmptyString
              then ({| bufferEntries := bufferEntries sm;
                       userFileBuffers := userFileBuffers sm;
                       unnamedBufferCount := unnamedBufferCount sm + 1 |},
                    unnamed (unnamedBufferCount sm))
              else (sm, path)).
  assert (Hentries : bufferEntries (fst sm1) = bufferEntries sm)
    by (unfold sm1; destruct (String.eqb path EmptyString); reflexivity).
  assert (Hname : snd sm1 = if String.eqb path EmptyString
                            then unnamed (unnamedBufferCount sm) else path)
    by (unfold sm1; destruct (String.eqb path EmptyString); reflexivity).
  destruct sm1 as [sm1 path1]. cbn [fst snd] in Hentries, Hname.
  set (sm2 := {| bufferEntries := bufferEntries sm1;
                 userFileBuffers := userFileBuffers sm1 ++ [mkFileData path1 (terminate text)];
                 unnamedBufferCount := unnamedBufferCount sm1 |}).
  assert (Hsize2 : entries_size sm2 = entries_size sm)
    by (unfold entries_size, sm2; cbn [bufferEntries]; rewrite Hentries; reflexivity).
  assert (Hentry2 : forall b, entry_at sm2 b = entry_at sm b)
    by (intros b; unfold entry_at, sm2; cbn [bufferEntries]; rewrite Hentries; reflexivity).
  destruct (createBufferEntry_read sm2 (mkFileData path1 (terminate text)) inc)
    as (Hid & Hdata & Hinfo & Hold & Hsz); [lia|].
  rewrite Hsize2 in *.
  destruct (terminate_spec text) as [Hnul Hcases].
  rewrite Hid. unfold getSourceText, getIncludedFrom, getRawFileName. rewrite Hinfo.
  cbn [data includedFrom mem fd_name].
  repeat split; try assumption.
  intros b Hb. rewrite (Hold b Hb). apply Hentry2.
Qed.

Lemma assignText_witness :
  getSourceText (fst (assignText SourceManager_new "a.sv" (fun _ => EmptyString)
                        ["a"%char] SourceLocation_default)) 1
  = ["a"%char; NUL].
Proof.
  pose proof (assignText_then_read SourceManager_new "a.sv" (fun _ => EmptyString)
                ["a"%char] SourceLocation_default
                ltac:(change (2 ^ 32) with 4294967296; unfold entries_size; cbn; lia))
    as (Hid & _ & Hread & _).
  rewrite Hid in Hread. exact Hread.
Defined.

(** ** Creating an expansion and reading it back *)

Lemma expansion_entry_read (sm : SourceManager) (e : ExpansionInfo)
    (entries : list BufferEntry) (users : list FileData) (count : Z) (k : Z) :
  1 <= entries_size sm < 2 ^ 28 - 1 ->
  0 <= k < 2 ^ 36 ->
  entries = bufferEntries sm ++ [ExpansionEntry e] ->
  mkSourceLocation (mkBufferID (Z.of_nat (length entries) - 1)) 0
    = RawLocation (entries_size sm) 0
  /\ isMacroLoc {| bufferEntries := entries; userFileBuffers := users;
                   unnamedBufferCount := count |} (RawLocation (entries_size sm) k) = Ok true
  /\ isMacroArgLoc {| bufferEntries := entries; userFileBuffers := users;
                      unnamedBufferCount := count |} (RawLocation (entries_size sm) k)
     = Ok (isMacroArg e)
  /\ isFileLoc {| bufferEntries := entries; userFileBuffers := users;
                  unnamedBufferCount := count |} (RawLocation (entries_size sm) k) = false
  /\ getExpansionInfo {| bufferEntries := entries; userFileBuffers := users;
                         unnamedBufferCount := count |} (entries_size sm) = Ok e.
Proof.
  intros Hsize Hk Hentries.
  destruct (entry_at_appended sm entries (ExpansionEntry e) users count Hentries)
    as (Hnew & _ & Hsz).
  change (2 ^ 28) with 268435456 in Hsize. change (2 ^ 36) with 68719476736 in Hk.
  assert (Hno : SourceLocation_eqb (RawLocation (entries_size sm) k) NoLocation = false).
  { unfold SourceLocation_eqb. cbn [bufferID charOffset].
    change (bufferID NoLocation) with 268435455.
    destruct (Z.eqb_spec (entries_size sm) 268435455); [lia|]. reflexivity. }
  repeat split.
  - subst entries. rewrite new_id by (change (2 ^ 32) with 4294967296; lia).
    unfold mkSourceLocation. change (2 ^ 28) with 268435456.
    rewrite Z.mod_small by lia. reflexivity.
  - unfold isMacroLoc. rewrite Hno. unfold buffer, BufferID_valid. cbn [bufferID].
    destruct (Z.eqb_spec (entries_size sm) 0); [lia|]. cbn [negb].
    rewrite Hsz, Hnew.
    destruct (Z.ltb_spec (entries_size sm) (entries_size sm + 1)); [reflexivity|lia].
  - unfold isMacroArgLoc. rewrite Hno. unfold buffer, BufferID_valid. cbn [bufferID].
    destruct (Z.eqb_spec (entries_size sm) 0); [lia|]. cbn [negb].
    rewrite Hsz, Hnew.
    destruct (Z.ltb_spec (entries_size sm) (entries_size sm + 1)); [reflexivity|lia].
  - unfold isFileLoc, getFileInfo. rewrite Hno. unfold buffer. cbn [bufferID].
    rewrite Hnew. destruct (negb _); [reflexivity|].
    destruct (_ <=? _); reflexivity.
  - unfold getExpansionInfo. rewrite Hsz, Hnew.
    destruct (Z.ltb_spec (entries_size sm) (entries_size sm + 1)); [reflexivity|lia].
Qed.

(** X9. An expansion created by [createExpansionLoc] can be read back.
    The location returned is offset 0 of the new buffer, whose id is the
    number of entries before the call (while ids stay below the id of
    [NoLocation] in the 28-bit field).
    Every location of that buffer is a macro location and not a file
    location, its expansion location is the start of the expansion range,
    its expansion range is the range given, its macro name is the name
    given (for the overload that takes a name), macro-argument-ness is the
    flag given (for the overload that takes the flag), and the original
    location of the location at offset [k] is the original location moved
    forward by [k]. *)
Theorem expansion_then_read (sm : SourceManager) (orig : SourceLocation)
    (range : SourceRange) (macro : string) (isArg : bool) (k : Z) :
  1 <= entries_size sm < 2 ^ 28 - 1 ->
  0 <= k < 2 ^ 36 ->
  snd (createExpansionLoc_named sm orig range macro) = RawLocation (entries_size sm) 0
  /\ snd (createExpansionLoc sm orig range isArg) = RawLocation (entries_size sm) 0
  /\ isMacroLoc (fst (createExpansionLoc_named sm orig range macro))
       (RawLocation (entries_size sm) k) = Ok true
  /\ isFileLoc (fst (createExpansionLoc_named sm orig range macro))
       (RawLocation (entries_size sm) k) = false
  /\ getMacroName (fst (createExpansionLoc_named sm orig range macro))
       (RawLocation (entries_size sm) k) = Ok macro
  /\ getExpansionRange (fst (createExpansionLoc_named sm orig range macro))
       (RawLocation (entries_size sm) k) = Ok range
  /\ getExpansionLoc (fst (createExpansionLoc_named sm orig range macro))
       (RawLocation (entries_size sm) k) = Ok (startLoc range)
  /\ getOriginalLoc (fst (createExpansionLoc_named sm orig range macro))
       (RawLocation (entries_size sm) k) = Ok (SourceLocation_add orig k)
  /\ isMacroLoc (fst (createExpansionLoc sm orig range isArg))
       (RawLocation (entries_size sm) k) = Ok true
  /\ isMacroArgLoc (fst (createExpansionLoc sm orig range isArg))
       (RawLocation (entries_size sm) k) = Ok isArg
  /\ getOriginalLoc (fst (createExpansionLoc sm orig range isArg))
       (RawLocation (entries_size sm) k) = Ok (SourceLocation_add orig k).
Proof.
  intros Hsize Hk.
  unfold createExpansionLoc_named, createExpansionLoc. cbn [fst snd].
  destruct (expansion_entry_read sm (mkExpansionInfo orig range false macro) _
              (userFileBuffers sm) (unnamedBufferCount sm) k Hsize Hk eq_refl)
    as (Hloc & Hmacro & Harg & Hfile & Hinfo).
  destruct (expansion_entry_read sm (mkExpansionInfo orig range isArg EmptyString) _
              (userFileBuffers sm) (unnamedBufferCount sm) k Hsize Hk eq_refl)
    as (Hloc' & Hmacro' & Harg' & _ & Hinfo').
  assert (Hvalid : negb (BufferID_valid (buffer (RawLocation (entries_size sm) k))) = false).
  { unfold BufferID_valid, buffer. cbn [bufferID].
    destruct (Z.eqb_spec (entries_size sm) 0); [lia|reflexivity]. }
  repeat split; try assumption.
  - unfold getMacroName.
    destruct (length _) as [|fuel]; cbn [getMacroName_loop]; rewrite Harg;
      cbn [rbind isMacroArg]; rewrite Hvalid; unfold getExpansionInfo in Hinfo;
      unfold buffer; cbn [bufferID];
      destruct (ASSERT _) as [[]|]; cbn [rbind] in *; try discriminate;
      destruct (entry_at _ _) as [[f|e]|]; try discriminate;
      injection Hinfo as ->; reflexivity.
  - unfold getExpansionRange. rewrite Hvalid. unfold buffer. cbn [bufferID].
    rewrite Hinfo. reflexivity.
  - unfold getExpansionLoc. rewrite Hvalid. unfold buffer. cbn [bufferID].
    rewrite Hinfo. reflexivity.
  - unfold getOriginalLoc. rewrite Hvalid. unfold buffer. cbn [bufferID].
    rewrite Hinfo. reflexivity.
  - unfold getOriginalLoc. rewrite Hvalid. unfold buffer. cbn [bufferID].
    rewrite Hinfo'. reflexivity.
Qed.

Lemma expansion_witness :
  getMacroName
    (fst (createExpansionLoc_named threeLines (RawLocation 1 0)
            (mkSourceRange (RawLocation 1 2) (RawLocation 1 3)) "FOO"))
    (RawLocation 2 1) = Ok "FOO"%string.
Proof.
  apply (expansion_then_read threeLines (RawLocation 1 0)
           (mkSourceRange (RawLocation 1 2) (RawLocation 1 3)) "FOO" false 1).
  - change (2 ^ 28) with 268435456. unfold entries_size. cbn. lia.
  - change (2 ^ 36) with 68719476736. lia.
Defined.

(** ** Fully expanded and fully original locations *)

Section Expansions.
Variable sm : SourceManager.
Hypothesis Hwf : wf_expansions sm.

Lemma in_range_not_NoLocation (loc : SourceLocation) :
  in_range sm loc -> SourceLocation_eqb loc NoLocation = false.
Proof using Hwf.
  intros [[Hb _] Hlt]. destruct Hwf as [Hsize _].
  change (2 ^ 28) with 268435456 in *.
  unfold SourceLocation_eqb. change (bufferID NoLocation) with 268435455.
  unfold buffer in Hlt.
  destruct (Z.eqb_spec (bufferID loc) 268435455); [lia|reflexivity].
Qed.

(** What the loops see at a location of the manager. *)
Lemma macro_step (loc : SourceLocation) :
  in_range sm loc ->
  (isMacroLoc sm loc = Ok false)
  \/ (exists e,
        isMacroLoc sm loc = Ok true
        /\ isMacroArgLoc sm loc = Ok (isMacroArg e)
        /\ getExpansionLoc sm loc = Ok (startLoc (expansionRange e))
        /\ getOriginalLoc sm loc = Ok (SourceLocation_add (originalLoc e) (offset loc))
        /\ in_range sm (startLoc (expansionRange e))
        /\ buffer (startLoc (expansionRange e)) < buffer loc
        /\ in_range sm (SourceLocation_add (originalLoc e) (offset loc))
        /\ buffer (SourceLocation_add (originalLoc e) (offset loc)) < buffer loc).
Proof using Hwf.
  intros Hrange. pose proof (in_range_not_NoLocation loc Hrange) as Hno.
  destruct Hrange as [[Hb Hoff] Hlt]. destruct Hwf as [Hsize Hexp].
  unfold isMacroLoc, isMacroArgLoc, getExpansionLoc, getOriginalLoc, getExpansionInfo.
  rewrite Hno. unfold BufferID_valid.
  destruct (Z.eqb_spec (buffer loc) 0) as [Hz|Hnz]; cbn [negb]; [left; reflexivity|].
  destruct (Z.ltb_spec (buffer loc) (entries_size sm)); [|lia]. cbn [ASSERT rbind].
  destruct (entry_at sm (buffer loc)) as [[f|e]|] eqn:He; [left; reflexivity| |left; reflexivity].
  right. exists e. cbn [rbind].
  destruct (Hexp _ _ He) as ([Ho1 Ho2] & Holt & Hs & Hslt).
  repeat split; try assumption; try lia; try apply Hs.
  - unfold SourceLocation_add, mkSourceLocation, buffer. cbn [bufferID].
    rewrite Z.mod_small; lia.
  - unfold SourceLocation_add, mkSourceLocation, buffer. cbn [bufferID].
    apply Z.mod_pos_bound. lia.
  - unfold SourceLocation_add, mkSourceLocation. cbn [charOffset].
    apply Z.mod_pos_bound. lia.
  - unfold SourceLocation_add, mkSourceLocation. cbn [charOffset].
    apply Z.mod_pos_bound. lia.
  - unfold SourceLocation_add, mkSourceLocation, buffer in *. cbn [bufferID].
    rewrite Z.mod_small by lia. lia.
  - unfold SourceLocation_add, mkSourceLocation, buffer in *. cbn [bufferID].
    rewrite Z.mod_small by lia. lia.
Qed.

Lemma getFullyExpandedLoc_loop_total :
  forall fuel loc,
    in_range sm loc -> (Z.to_nat (buffer loc) <= fuel)%nat ->
    exists l', getFullyExpandedLoc_loop fuel sm loc = Ok l'
               /\ isMacroLoc sm l' = Ok false
               /\ buffer l' <= buffer loc.
Proof using Hwf.
  induction fuel as [|fuel IH]; intros loc Hrange Hfuel;
    cbn [getFullyExpandedLoc_loop];
    destruct (macro_step loc Hrange)
      as [Hfile|(e & Hmacro & Harg & Hexp & Horig & Hr1 & Hlt1 & Hr2 & Hlt2)].
  - rewrite Hfile. exists loc. cbn [rbind]. repeat split; [assumption|lia].
  - destruct Hr1 as [[Hb _] _]. fold (buffer (startLoc (expansionRange e))) in Hb. lia.
  - rewrite Hfile. exists loc. cbn [rbind]. repeat split; [assumption|lia].
  - rewrite Hmacro, Harg. cbn [rbind].
    destruct (isMacroArg e).
    + rewrite Horig. cbn [rbind].
      destruct (IH _ Hr2) as (l' & Hl' & Hm & Hle).
      { destruct Hr2 as [[Hb _] _]. fold (buffer (SourceLocation_add (originalLoc e) (offset loc))) in Hb. lia. }
      exists l'. repeat split; [assumption|assumption|lia].
    + rewrite Hexp. cbn [rbind].
      destruct (IH _ Hr1) as (l' & Hl' & Hm & Hle).
      { destruct Hr1 as [[Hb _] _]. fold (buffer (startLoc (expansionRange e))) in Hb. lia. }
      exists l'. repeat split; [assumption|assumption|lia].
Qed.

Lemma getFullyOriginalLoc_loop_total :
  forall fuel loc,
    in_range sm loc -> (Z.to_nat (buffer loc) <= fuel)%nat ->
    exists l', getFullyOriginalLoc_loop fuel sm loc = Ok l'
               /\ isMacroLoc sm l' = Ok false
               /\ buffer l' <= buffer loc.
Proof using Hwf.
  induction fuel as [|fuel IH]; intros loc Hrange Hfuel;
    cbn [getFullyOriginalLoc_loop];
    destruct (macro_step loc Hrange)
      as [Hfile|(e & Hmacro & Harg & Hexp & Horig & Hr1 & Hlt1 & Hr2 & Hlt2)].
  - rewrite Hfile. exists loc. cbn [rbind]. repeat split; [assumption|lia].
  - destruct Hr1 as [[Hb _] _]. fold (buffer (startLoc (expansionRange e))) in Hb. lia.
  - rewrite Hfile. exists loc. cbn [rbind]. repeat split; [assumption|lia].
  - rewrite Hmacro. cbn [rbind]. rewrite Horig. cbn [rbind].
    destruct (IH _ Hr2) as (l' & Hl' & Hm & Hle).
    { destruct Hr2 as [[Hb _] _]. fold (buffer (SourceLocation_add (originalLoc e) (offset loc))) in Hb. lia. }
    exists l'. repeat split; [assumption|assumption|lia].
Qed.

End Expansions.

Lemma not_macro_fixed (sm : SourceManager) (l : SourceLocation) :
  isMacroLoc sm l = Ok false ->
  getFullyExpandedLoc sm l = Ok l /\ getFullyOriginalLoc sm l = Ok l.
Proof.
  intros Hm. unfold getFullyExpandedLoc, getFullyOriginalLoc.
  destruct (length (bufferEntries sm));
    cbn [getFullyExpandedLoc_loop getFullyOriginalLoc_loop]; rewrite Hm; split; reflexivity.
Qed.

(** X10. In a manager whose expansion buffers were created after the
    buffers they refer to, [getFullyExpandedLoc] and [getFullyOriginalLoc]
    return for every location of the manager: each loop ends at a location
    that is not a macro location, in a buffer that is not newer than the one
    it started from, and applying the function again changes nothing. *)
Theorem fully_expanded_leaves_macros (sm : SourceManager) (loc : SourceLocation) :
  wf_expansions sm ->
  in_range sm loc ->
  (exists l', getFullyExpandedLoc sm loc = Ok l'
              /\ isMacroLoc sm l' = Ok false
              /\ buffer l' <= buffer loc
              /\ getFullyExpandedLoc sm l' = Ok l')
  /\ (exists l', getFullyOriginalLoc sm loc = Ok l'
                 /\ isMacroLoc sm l' = Ok false
                 /\ buffer l' <= buffer loc
                 /\ getFullyOriginalLoc sm l' = Ok l').
Proof.
  intros Hwf Hrange.
  assert (Hfuel : (Z.to_nat (buffer loc) <= length (bufferEntries sm))%nat).
  { destruct Hrange as [_ Hsz]. unfold entries_size in Hsz. lia. }
  split.
  - destruct (getFullyExpandedLoc_loop_total sm Hwf _ loc Hrange Hfuel) as (l' & Hl' & Hm & Hle).
    exists l'. repeat split; try assumption. apply (not_macro_fixed sm l' Hm).
  - destruct (getFullyOriginalLoc_loop_total sm Hwf _ loc Hrange Hfuel) as (l' & Hl' & Hm & Hle).
    exists l'. repeat split; try assumption. apply (not_macro_fixed sm l' Hm).
Qed.

Lemma expanded_wf_expansions : wf_expansions expanded.
Proof.
  split; [reflexivity|].
  intros b e. unfold entry_at.
  assert (Hcases : b <= 0 \/ b = 1 \/ b = 2 \/ 3 <= b) by lia.
  destruct Hcases as [Hb|[->|[->|Hb]]].
  - replace (Z.to_nat b) with 0%nat by lia. discriminate.
  - discriminate.
  - intros [= <-]. vm_compute. repeat split; discriminate.
  - replace (nth_error (bufferEntries expanded) (Z.to_nat b)) with (@None BufferEntry);
      [discriminate|].
    symmetry. apply nth_error_None. cbn [expanded bufferEntries length]. lia.
Qed.

Lemma fully_expanded_witness :
  exists l', getFullyExpandedLoc expanded (RawLocation 2 1) = Ok l'
             /\ isMacroLoc expanded l' = Ok false.
Proof.
  destruct (proj1 (fully_expanded_leaves_macros expanded (RawLocation 2 1)
                     expanded_wf_expansions (expanded_in_range 2 1 eq_refl)))
    as (l' & Hl' & Hm & _).
  exists l'. split; assumption.
Defined.

(** ** Diagnostic directives *)

Lemma upper_bound_loop_lower {A : Type} (comp : A -> bool) (l : list A) :
  forall fuel first len,
    upper_bound_loop comp fuel l first len
    = lower_bound_loop (fun x => negb (comp x)) fuel l first len.
Proof.
  induction fuel as [|fuel IH]; intros first len; cbn [upper_bound_loop lower_bound_loop];
    [reflexivity|].
  destruct (len =? 0)%nat; [reflexivity|].
  destruct (nth_error l (first + len / 2)) as [x|]; [|reflexivity].
  destruct (comp x); cbn [negb]; apply IH.
Qed.

Lemma Forall_firstn_nth {A : Type} (P : A -> Prop) (l : list A) :
  forall r, (forall i x, (i < r)%nat -> nth_error l i = Some x -> P x) ->
    Forall P (firstn r l).
Proof.
  induction l as [|a l IH]; intros [|r] H; cbn [firstn]; try constructor.
  - apply (H 0%nat a); [lia|reflexivity].
  - apply IH. intros i x Hi Hx. apply (H (S i) x); [lia|exact Hx].
Qed.

Lemma Forall_skipn_nth {A : Type} (P : A -> Prop) (l : list A) :
  forall r, (forall i x, (r <= i)%nat -> nth_error l i = Some x -> P x) ->
    Forall P (skipn r l).
Proof.
  induction l as [|a l IH]; intros [|r] H; cbn [skipn]; try constructor.
  - apply (H 0%nat a); [lia|reflexivity].
  - apply (IH 0%nat). intros i x Hi Hx. apply (H (S i) x); [lia|exact Hx].
  - apply IH. intros i x Hi Hx. apply (H (S i) x); [lia|exact Hx].
Qed.

Lemma sorted_offsets_nth (v : list DiagnosticDirectiveInfo) :
  StronglySorted (fun a b => dd_offset a <= dd_offset b) v ->
  forall i j x y, (i <= j)%nat ->
    nth_error v i = Some x -> nth_error v j = Some y -> dd_offset x <= dd_offset y.
Proof.
  induction 1 as [|a l Hs IH Hall]; intros i j x y Hij Hi Hj.
  - destruct i; discriminate.
  - destruct i as [|i], j as [|j]; cbn in Hi, Hj; try lia.
    + injection Hi as <-. injection Hj as <-. lia.
    + injection Hi as <-. apply nth_error_In in Hj.
      rewrite List.Forall_forall in Hall. exact (Hall y Hj).
    + apply (IH i j); [lia|assumption..].
Qed.

Lemma sorted_insert (before after : list DiagnosticDirectiveInfo)
    (added : DiagnosticDirectiveInfo) :
  StronglySorted (fun a b => dd_offset a <= dd_offset b) (before ++ after) ->
  Forall (fun d => dd_offset d <= dd_offset added) before ->
  Forall (fun d => dd_offset added < dd_offset d) after ->
  StronglySorted (fun a b => dd_offset a <= dd_offset b) (before ++ added :: after).
Proof.
  intros Hs Hb Ha. induction before as [|a before IH]; cbn [app] in *.
  - constructor; [exact Hs|].
    eapply List.Forall_impl; [|exact Ha]. cbv beta. intros d Hd. lia.
  - inversion Hs as [|? ? Hs' Hall]; subst. inversion Hb as [|? ? Ha0 Hb']; subst.
    constructor; [apply IH; assumption|].
    apply Forall_app in Hall. destruct Hall as [Hall1 Hall2].
    apply Forall_app. split; [exact Hall1|].
    constructor; [exact Ha0|exact Hall2].
Qed.

Lemma back_is_greatest (v : list DiagnosticDirectiveInfo) (last : DiagnosticDirectiveInfo) :
  StronglySorted (fun a b => dd_offset a <= dd_offset b) v ->
  back v = Some last ->
  Forall (fun d => dd_offset d <= dd_offset last) v.
Proof.
  intros Hs Hback. apply List.Forall_forall. intros d Hin.
  apply In_nth_error in Hin. destruct Hin as [i Hi].
  unfold back in Hback.
  apply (sorted_offsets_nth v Hs i (length v - 1) d last); [|exact Hi|exact Hback].
  assert (i < length v)%nat by (apply nth_error_Some; congruence). lia.
Qed.

Lemma diagnostic_position (v : list DiagnosticDirectiveInfo) (off : Z) :
  StronglySorted (fun a b => dd_offset a <= dd_offset b) v ->
  Forall (fun d => dd_offset d <= off)
         (firstn (upper_bound (fun diag => off <? dd_offset diag) v) v)
  /\ Forall (fun d => off < dd_offset d)
            (skipn (upper_bound (fun diag => off <? dd_offset diag) v) v).
Proof.
  intros Hs. unfold upper_bound. rewrite upper_bound_loop_lower.
  fold (lower_bound (fun x => negb (off <? dd_offset x)) v).
  destruct (lower_bound_bound (fun x => negb (off <? dd_offset x)) v) as (_ & Hbelow & Habove).
  { intros i j x y Hij Hi Hj Hy. cbv beta in *.
    pose proof (sorted_offsets_nth v Hs i j x y Hij Hi Hj).
    apply negb_true_iff, Z.ltb_ge in Hy. apply negb_true_iff, Z.ltb_ge. lia. }
  split.
  - apply Forall_firstn_nth. intros i x Hi Hx.
    specialize (Hbelow i x Hi Hx). cbv beta in Hbelow.
    apply negb_true_iff, Z.ltb_ge in Hbelow. exact Hbelow.
  - apply Forall_skipn_nth. intros i x Hi Hx.
    specialize (Habove i x Hi Hx). cbv beta in Habove.
    apply negb_false_iff, Z.ltb_lt in Habove. exact Habove.
Qed.

(** X11. [addDiagnosticDirective] keeps the directives of a buffer sorted
    by offset. If the vector of the buffer the location expands to is
    sorted, the new directive goes after every directive whose offset is
    at most its own and before every directive with a greater offset, so
    the vector stays sorted and keeps all it had in their order; the
    directives of the other buffers are untouched. *)
Theorem diagnostic_directives_stay_sorted (sm : SourceManager)
    (dirs : gmap Z (list DiagnosticDirectiveInfo)) (location fileLocation : SourceLocation)
    (directive : string) (severity : Z) (old : list DiagnosticDirectiveInfo) :
  getFullyExpandedLoc sm location = Ok fileLocation ->
  old = match dirs !! buffer fileLocation with Some v => v | None => [] end ->
  StronglySorted (fun a b => dd_offset a <= dd_offset b) old ->
  exists dirs' before after,
    addDiagnosticDirective sm dirs location directive severity = Ok dirs'
    /\ old = before ++ after
    /\ dirs' !! buffer fileLocation
       = Some (before
               ++ mkDiagnosticDirectiveInfo directive (offset fileLocation) severity
               :: after)
    /\ Forall (fun d => dd_offset d <= offset fileLocation) before
    /\ Forall (fun d => offset fileLocation < dd_offset d) after
    /\ StronglySorted (fun a b => dd_offset a <= dd_offset b)
         (before
          ++ mkDiagnosticDirectiveInfo directive (offset fileLocation) severity :: after)
    /\ (forall b, b <> buffer fileLocation -> dirs' !! b = dirs !! b).
Proof.
  intros Hloc Hold Hs. unfold addDiagnosticDirective. rewrite Hloc. cbn [rbind].
  rewrite <- Hold.
  set (added := mkDiagnosticDirectiveInfo directive (offset fileLocation) severity).
  assert (Hgoal : forall before after,
            old = before ++ after ->
            Forall (fun d => dd_offset d <= offset fileLocation) before ->
            Forall (fun d => offset fileLocation < dd_offset d) after ->
            exists dirs' before' after',
              Ok (<[buffer fileLocation := before ++ added :: after]> dirs) = Ok dirs'
              /\ old = before' ++ after'
              /\ dirs' !! buffer fileLocation = Some (before' ++ added :: after')
              /\ Forall (fun d => dd_offset d <= offset fileLocation) before'
              /\ Forall (fun d => offset fileLocation < dd_offset d) after'
              /\ StronglySorted (fun a b => dd_offset a <= dd_offset b)
                   (before' ++ added :: after')
              /\ (forall b, b <> buffer fileLocation -> dirs' !! b = dirs !! b)).
  { intros before after Hsplit Hb Ha. eexists. exists before, after.
    split; [reflexivity|]. split; [exact Hsplit|].
    split; [apply lookup_insert_eq|]. split; [exact Hb|]. split; [exact Ha|].
    split.
    - apply sorted_insert; [rewrite <- Hsplit; exact Hs|exact Hb|exact Ha].
    - intros b Hne. apply lookup_insert_ne. congruence. }
  destruct (back old) as [last|] eqn:Hback.
  - destruct (Z.leb_spec (dd_offset last) (offset fileLocation)) as [Hle|Hgt].
    + replace (old ++ [added]) with (old ++ added :: []) by reflexivity.
      apply Hgoal; [rewrite app_nil_r; reflexivity| |constructor].
      eapply List.Forall_impl; [|exact (back_is_greatest old last Hs Hback)].
      cbv beta. intros d Hd. lia.
    + unfold emplace_at.
      destruct (diagnostic_position old (offset fileLocation) Hs) as [Hb Ha].
      apply Hgoal; [symmetry; apply firstn_skipn|exact Hb|exact Ha].
  - assert (Hnil : old = []).
    { unfold back in Hback. destruct old as [|d old']; [reflexivity|].
      apply nth_error_None in Hback. cbn [length] in Hback. lia. }
    rewrite Hnil in *.
    apply (Hgoal [] []); [reflexivity|constructor|constructor].
Qed.

Lemma diagnostic_directives_witness :
  exists dirs' before after,
    addDiagnosticDirective threeLines
      (<[1 := [mkDiagnosticDirectiveInfo "unused" 5 0]]> ∅) (RawLocation 1 2) "width" 1
    = Ok dirs'
    /\ dirs' !! 1
       = Some (before ++ mkDiagnosticDirectiveInfo "width" 2 1 :: after).
Proof.
  destruct (diagnostic_directives_stay_sorted threeLines
              (<[1 := [mkDiagnosticDirectiveInfo "unused" 5 0]]> ∅)
              (RawLocation 1 2) (RawLocation 1 2) "width" 1
              [mkDiagnosticDirectiveInfo "unused" 5 0])
    as (dirs' & before & after & Hadd & _ & Hlookup & _).
  - reflexivity.
  - vm_compute. reflexivity.
  - repeat constructor.
  - exists dirs', before, after. split; [exact Hadd|exact Hlookup].
Defined.

(** ** File names *)

(** X12. The file name reported for a file location follows the line
    directives the same way the line number does: with the buffer's
    directives sorted by in-file line, [getFileName] is the name given by
    the nearest directive before the location's raw line, and the name the
    buffer was created with (what [getRawFileName] returns) when no
    directive precedes that line; a location of a buffer that holds no
    file has the empty name. *)
Theorem file_name_from_nearest_directive (sm : SourceManager) (L : SourceLocation)
    (info : FileInfo) :
  isFileLoc sm L = true ->
  getFileInfo sm (buffer L) = Some info ->
  sortedByLineInFile (lineDirectives info) ->
  getFileName sm L
  = Ok (match data info with
        | None => EmptyString
        | Some fd =>
          match nearestPreceding (lineDirectives info) (getRawLineNumber sm L) with
          | Some d => name d
          | None => fd_name fd
          end
        end)
  /\ (nearestPreceding (lineDirectives info) (getRawLineNumber sm L) = None ->
      getFileName sm L = Ok (getRawFileName sm (buffer L))).
Proof.
  intros Hfile Hinfo Hsorted. unfold getFileName, getRawFileName.
  rewrite (getFullyExpandedLoc_file sm L Hfile). cbn [rbind]. rewrite Hinfo.
  destruct (data info) as [fd|]; [|split; reflexivity].
  rewrite (getPreviousLineDirective_nearest _ _ Hsorted).
  destruct (lineDirectives info) as [|d rest] eqn:Hdirs.
  - cbn. split; reflexivity.
  - cbn [length Nat.eqb].
    destruct (nearestPreceding (d :: rest) (getRawLineNumber sm L));
      split; try reflexivity; discriminate.
Qed.

Lemma file_name_witness :
  getFileName remapped (RawLocation 1 4) = Ok "x.sv"%string.
Proof.
  refine (eq_trans (proj1 (file_name_from_nearest_directive remapped (RawLocation 1 4)
            (mkFileInfo
               (Some (mkFileData "a.sv" ["a"; "010"; "b"; "010"; "c"; "010"; "000"]%char))
               SourceLocation_default [mkLineDirectiveInfo "x.sv" 1 100 0])
            eq_refl eq_refl _)) eq_refl).
  repeat constructor.
Defined.

End LocationFacts.

(** * Facts about equivalence and compatibility of types *)

Module CompatibilityFacts.
Import Numeric Types TypeFacts.

Lemma isMatching_sym (a b : Ty) : isMatching a b = isMatching b a.
Proof. apply (isMatching_sym_bounded (S (size a))). lia. Qed.

Lemma isEquivalent_canonical (a b : Ty) :
  isEquivalent (getCanonicalType a) (getCanonicalType b) = isEquivalent a b.
Proof. rewrite (isEquivalent_eq a b), isEquivalent_eq, !canonical_idem. reflexivity. Qed.

Lemma isEquivalent_refl (t : Ty) : isEquivalent t t = true.
Proof. rewrite isEquivalent_eq. cbv zeta. rewrite isMatching_refl. reflexivity. Qed.

Lemma isEquivalent_sym_bounded (n : nat) :
  forall l r, (size l < n)%nat -> isEquivalent l r = isEquivalent r l.
Proof.
  induction n as [|n IH]; intros l r Hsize; [lia|].
  rewrite (isEquivalent_eq l r), (isEquivalent_eq r l). cbv zeta.
  pose proof (canonical_size l) as Hcl.
  set (cl := getCanonicalType l) in *. set (cr := getCanonicalType r) in *.
  rewrite (isMatching_sym cr cl).
  destruct (isMatching cl cr); [reflexivity|].
  replace (isIntegral cr && isIntegral cl && negb (isEnum cr) && negb (isEnum cl))
    with (isIntegral cl && isIntegral cr && negb (isEnum cl) && negb (isEnum cr))
    by (destruct (isIntegral cl), (isIntegral cr), (isEnum cl), (isEnum cr); reflexivity).
  rewrite (bool_eqb_sym (isSignedT cr)), (bool_eqb_sym (isFourState_integral cr)),
    (Z.eqb_sym (getBitWidth_integral cr)).
  destruct (isIntegral cl && isIntegral cr && negb (isEnum cl) && negb (isEnum cr));
    [reflexivity|].
  destruct cl, cr; try reflexivity; cbn [size] in Hcl.
  - rewrite (Z.eqb_sym (width range0)), (IH cl cr) by lia. reflexivity.
  - apply IH. lia.
  - rewrite (IH cl cr) by lia. f_equal. unfold indexEquivalent.
    destruct indexType as [li|], indexType0 as [ri|]; try reflexivity.
    apply IH. lia.
  - apply IH. lia.
Qed.

(** X13. [isEquivalent] is reflexive and symmetric, and it sees through
    typedefs on both sides: the answer for two types is the answer for
    their canonical types, so an alias is equivalent to whatever its target
    is equivalent to, and matching types are equivalent. *)
Theorem isEquivalent_reflexive_symmetric :
  (forall t : Ty, isEquivalent t t = true)
  /\ (forall a b : Ty, isEquivalent a b = isEquivalent b a)
  /\ (forall a b : Ty,
        isEquivalent (getCanonicalType a) (getCanonicalType b) = isEquivalent a b)
  /\ (forall (s : Symbol) (target b : Ty),
        isEquivalent (Alias s target) b = isEquivalent target b
        /\ isEquivalent b (Alias s target) = isEquivalent b target)
  /\ (forall a b : Ty, isMatching a b = true -> isEquivalent a b = true).
Proof.
  split; [exact isEquivalent_refl|].
  split; [intros a b; apply (isEquivalent_sym_bounded (S (size a))); lia|].
  split; [exact isEquivalent_canonical|].
  split.
  - intros s target b. split.
    + rewrite <- (isEquivalent_canonical (Alias s target) b),
        <- (isEquivalent_canonical target b). reflexivity.
    + rewrite <- (isEquivalent_canonical b (Alias s target)),
        <- (isEquivalent_canonical b target). reflexivity.
  - intros a b Hm. rewrite isEquivalent_eq. cbv zeta.
    rewrite isMatching_canonical, Hm. reflexivity.
Qed.

Section CompatibilityChain.
Variable classInfo : Symbol -> ClassInfo.
Variable getCacheKey : Z -> Z.
Variable depth : nat.

Let assignable := isAssignmentCompatible classInfo getCacheKey depth.
Let castable := isCastCompatible classInfo getCacheKey depth.

Lemma isAssignmentCompatible_canonical (a b : Ty) :
  assignable (getCanonicalType a) (getCanonicalType b) = assignable a b.
Proof.
  unfold assignable, isAssignmentCompatible. rewrite !canonical_idem. reflexivity.
Qed.

Lemma equivalent_assignable (a b : Ty) :
  isEquivalent a b = true -> assignable a b = Ok true.
Proof.
  intros He. unfold assignable, isAssignmentCompatible.
  rewrite isEquivalent_canonical, He. reflexivity.
Qed.

Lemma assignable_castable (a b : Ty) :
  assignable a b = Ok true -> castable a b = Ok true.
Proof.
  intros Ha. unfold castable, isCastCompatible.
  fold assignable. rewrite isAssignmentCompatible_canonical, Ha. reflexivity.
Qed.

Lemma isKindOf_canonical (k : SymbolKind) (t : Ty) :
  isKindOf k (getCanonicalType t) = isKindOf k t.
Proof. unfold isKindOf. rewrite canonical_idem. reflexivity. Qed.

Lemma isIntegral_canonical (t : Ty) : isIntegral (getCanonicalType t) = isIntegral t.
Proof. unfold isIntegral. rewrite canonical_idem. reflexivity. Qed.

Lemma integral_kinds (t : Ty) :
  isIntegral t = true ->
  isFloating t = false /\ isUnpackedArray t = false /\ isClass t = false
  /\ isVirtualInterface t = false /\ isCHandle t = false /\ isEvent t = false
  /\ isString t = false.
Proof.
  unfold isIntegral, isFloating, isUnpackedArray, isClass, isVirtualInterface, isCHandle,
    isEvent, isString, isKindOf.
  destruct (kind (getCanonicalType t)); cbn; intros H; try discriminate; repeat split.
Qed.

Lemma enum_equivalent_is_matching (a b : Ty) :
  isEnum a = true -> isEquivalent a b = isMatching a b.
Proof.
  intros He. rewrite isEquivalent_eq. cbv zeta. rewrite isMatching_canonical.
  destruct (isMatching a b); [reflexivity|].
  unfold isEnum, isKindOf in *. rewrite canonical_idem.
  destruct (getCanonicalType a); try (destruct which); try discriminate He.
  cbn. rewrite andb_false_r. reflexivity.
Qed.

Lemma assignable_integral_target (a b : Ty) :
  isIntegral a = true -> isEnum a = false ->
  assignable a b = Ok (isEquivalent a b || isIntegral b || isFloating b || isUnbounded b).
Proof.
  intros Hi He. unfold assignable, isAssignmentCompatible.
  rewrite isEquivalent_canonical.
  destruct (isEquivalent a b); [reflexivity|].
  unfold isEnum, isFloating, isUnbounded, isIntegral, isKindOf in *.
  rewrite !canonical_idem, Hi, He. reflexivity.
Qed.

Lemma assignable_enum_target (a b : Ty) :
  isEnum a = true -> assignable a b = Ok (isMatching a b).
Proof.
  intros He. unfold assignable, isAssignmentCompatible.
  rewrite isEquivalent_canonical, (enum_equivalent_is_matching a b He).
  destruct (isMatching a b); [reflexivity|].
  unfold isEnum, isFloating, isClass, isVirtualInterface, isCHandle, isEvent,
    isUnpackedArray, isIntegral, isKindOf in *.
  rewrite !canonical_idem.
  destruct (kind (getCanonicalType a)); try discriminate He. reflexivity.
Qed.

End CompatibilityChain.

(** X14. The four relations on types are nested: matching types are
    equivalent, equivalent types are assignment compatible, and assignment
    compatible types are cast compatible. Assignment and cast compatibility
    also see through typedefs: the answer for two types is the answer for
    their canonical types. *)
Theorem compatibility_chain (classInfo : Symbol -> ClassInfo) (getCacheKey : Z -> Z)
    (depth : nat) (a b : Ty) :
  (isMatching a b = true -> isEquivalent a b = true)
  /\ (isEquivalent a b = true ->
      isAssignmentCompatible classInfo getCacheKey depth a b = Ok true)
  /\ (isAssignmentCompatible classInfo getCacheKey depth a b = Ok true ->
      isCastCompatible classInfo getCacheKey depth a b = Ok true)
  /\ isAssignmentCompatible classInfo getCacheKey depth
       (getCanonicalType a) (getCanonicalType b)
     = isAssignmentCompatible classInfo getCacheKey depth a b
  /\ isCastCompatible classInfo getCacheKey depth (getCanonicalType a) (getCanonicalType b)
     = isCastCompatible classInfo getCacheKey depth a b.
Proof.
  split.
  { intros Hm. rewrite isEquivalent_eq. cbv zeta.
    rewrite isMatching_canonical, Hm. reflexivity. }
  split; [apply equivalent_assignable|].
  split; [apply assignable_castable|].
  split; [apply isAssignmentCompatible_canonical|].
  unfold isCastCompatible. rewrite !canonical_idem. reflexivity.
Qed.

(** X15. Integral targets: a target that is integral and not an enum is
    assignment compatible with every integral, floating or unbounded
    source (and with what is equivalent to it); an enum target is
    assignment compatible exactly with the types that match it, and cast
    compatible with those and with every integral or floating source. So
    any two integral types are cast compatible in both directions. *)
Theorem integral_compatibility (classInfo : Symbol -> ClassInfo) (getCacheKey : Z -> Z)
    (depth : nat) (a b : Ty) :
  (isIntegral a = true -> isEnum a = false ->
   isAssignmentCompatible classInfo getCacheKey depth a b
   = Ok (isEquivalent a b || isIntegral b || isFloating b || isUnbounded b))
  /\ (isEnum a = true ->
      isAssignmentCompatible classInfo getCacheKey depth a b = Ok (isMatching a b)
      /\ isCastCompatible classInfo getCacheKey depth a b
         = Ok (isMatching a b || isIntegral b || isFloating b))
  /\ (isIntegral a = true -> isIntegral b = true ->
      isCastCompatible classInfo getCacheKey depth a b = Ok true
      /\ isCastCompatible classInfo getCacheKey depth b a = Ok true).
Proof.
  assert (Henum : forall x y, isEnum x = true ->
            isCastCompatible classInfo getCacheKey depth x y
            = Ok (isMatching x y || isIntegral y || isFloating y)).
  { intros x y He. unfold isCastCompatible.
    rewrite isAssignmentCompatible_canonical, (assignable_enum_target _ _ _ x y He).
    cbn [rbind]. destruct (isMatching x y); [reflexivity|].
    unfold isEnum, isFloating, isIntegral, isKindOf in *. rewrite !canonical_idem, He.
    reflexivity. }
  assert (Hcast : forall x y, isIntegral x = true -> isIntegral y = true ->
            isCastCompatible classInfo getCacheKey depth x y = Ok true).
  { intros x y Hx Hy. destruct (isEnum x) eqn:He.
    - rewrite (Henum x y He), Hy, orb_true_r. reflexivity.
    - apply assignable_castable.
      rewrite (assignable_integral_target _ _ _ x y Hx He), Hy, orb_true_r. reflexivity. }
  split; [apply assignable_integral_target|].
  split.
  - intros He. split; [apply assignable_enum_target, He|apply Henum, He].
  - intros Ha Hb. split; apply Hcast; assumption.
Qed.


Lemma derives_loop (classInfo : Symbol -> ClassInfo) :
  forall n d b, derivesIn classInfo n d b ->
    forall fuel, (n <= fuel)%nat ->
      isDerivedFrom_loop classInfo fuel (Some d) b = Ok true.
Proof.
  induction 1 as [n sym base b Hbase Hsame|n sym base b Hbase Hder IH];
    intros fuel Hfuel; (destruct fuel as [|fuel]; [lia|]);
    cbn [isDerivedFrom_loop];
    change (isClass (Class sym)) with true; cbv iota; rewrite Hbase.
  - rewrite Hsame. reflexivity.
  - destruct (sameObject base b); [reflexivity|]. apply IH. lia.
Qed.

Lemma derived_assignable (classInfo : Symbol -> ClassInfo) (getCacheKey : Z -> Z)
    (depth : nat) (target source : Ty) (n : nat) :
  isClass target = true ->
  derivesIn classInfo n (getCanonicalType source) (getCanonicalType target) ->
  (n <= depth)%nat ->
  isAssignmentCompatible classInfo getCacheKey depth target source = Ok true.
Proof.
  intros Hclass Hder Hn.
  assert (Hkinds : isIntegral (getCanonicalType target) = false
                   /\ isFloating (getCanonicalType target) = false
                   /\ isUnpackedArray (getCanonicalType target) = false
                   /\ isClass (getCanonicalType target) = true).
  { unfold isClass, isIntegral, isFloating, isUnpackedArray, isKindOf in *.
    rewrite !canonical_idem.
    destruct (kind (getCanonicalType target)); try discriminate Hclass. repeat split. }
  destruct Hkinds as (Hi & Hf & Hu & Hc).
  unfold isAssignmentCompatible.
  destruct (isEquivalent _ _); [reflexivity|].
  rewrite Hi, Hf, Hu, Hc. cbn [andb orb].
  destruct (isNull (getCanonicalType source)); [reflexivity|].
  unfold isDerivedFrom. rewrite !canonical_idem, Hc. cbn [negb].
  rewrite (derives_loop classInfo n _ _ Hder depth Hn). reflexivity.
Qed.

(** X16. Class targets: the null type is assignment compatible with every
    class, and a class is assignment compatible with every class it is
    reached from by following base classes (inside the bound on the depth
    of the hierarchy): a derived object can be assigned to a variable of
    any ancestor class. Neither needs the two types to be equivalent. *)
Theorem class_assignment (classInfo : Symbol -> ClassInfo) (getCacheKey : Z -> Z)
    (depth : nat) (target source : Ty) :
  isClass target = true ->
  (isNull source = true ->
   isAssignmentCompatible classInfo getCacheKey depth target source = Ok true)
  /\ (forall n, derivesIn classInfo n (getCanonicalType source) (getCanonicalType target) ->
        (n <= depth)%nat ->
        isAssignmentCompatible classInfo getCacheKey depth target source = Ok true
        /\ isDerivedFrom classInfo depth source target = Ok true).
Proof.
  intros Hclass.
  assert (Hkinds : isIntegral (getCanonicalType target) = false
                   /\ isFloating (getCanonicalType target) = false
                   /\ isUnpackedArray (getCanonicalType target) = false
                   /\ isClass (getCanonicalType target) = true).
  { unfold isClass, isIntegral, isFloating, isUnpackedArray, isKindOf in *.
    rewrite !canonical_idem.
    destruct (kind (getCanonicalType target)); try discriminate Hclass. repeat split. }
  destruct Hkinds as (Hi & Hf & Hu & Hc).
  split.
  - intros Hnull. unfold isAssignmentCompatible.
    destruct (isEquivalent _ _); [reflexivity|].
    rewrite Hi, Hf, Hu, Hc. cbn [andb orb].
    unfold isNull, isKindOf in *. rewrite canonical_idem, Hnull. reflexivity.
  - intros n Hder Hn.
    assert (Hd : isDerivedFrom classInfo depth source target = Ok true).
    { unfold isDerivedFrom. rewrite Hc. cbn [negb].
      apply (derives_loop classInfo n _ _ Hder depth Hn). }
    split; [|exact Hd].
    unfold isAssignmentCompatible.
    destruct (isEquivalent _ _); [reflexivity|].
    rewrite Hi, Hf, Hu, Hc. cbn [andb orb].
    destruct (isNull (getCanonicalType source)); [reflexivity|].
    assert (Hd' : isDerivedFrom classInfo depth (getCanonicalType source)
                    (getCanonicalType target) = Ok true).
    { unfold isDerivedFrom in *. rewrite !canonical_idem. exact Hd. }
    rewrite Hd'. reflexivity.
Qed.

Lemma class_assignment_witness :
  isAssignmentCompatible exampleClasses (fun k => k) 4 classBase classDerived = Ok true
  /\ isAssignmentCompatible exampleClasses (fun k => k) 4 classBase nullT = Ok true.
Proof.
  destruct (class_assignment exampleClasses (fun k => k) 4 classBase classDerived eq_refl)
    as [_ Hderived].
  destruct (class_assignment exampleClasses (fun k => k) 4 classBase nullT eq_refl)
    as [Hnull _].
  split.
  - apply (Hderived 1%nat); [|lia].
    apply (derives_direct exampleClasses 0 (mkSymbol 61 (Some 601) (Some CompilationUnit))
             classBase classBase); reflexivity.
  - apply Hnull. reflexivity.
Defined.

End CompatibilityFacts.

(** * Facts about method prototypes and their subroutines *)

Module PrototypeFacts.
Import Types Subroutines TypeFacts.

(** ** Default values *)

Lemma isSameExpr_refl : forall n : SyntaxNode, isSameExpr n n = true.
Proof.
  fix IH 1. intros [k children]. cbn [isSameExpr].
  rewrite Z.eqb_refl, Nat.eqb_refl. cbn [negb orb].
  induction children as [|c rest IHrest]; [reflexivity|].
  destruct c as [n|tk tv|].
  - rewrite (IH n). cbn [negb]. exact IHrest.
  - rewrite Z.eqb_refl, String.eqb_refl. cbn [negb orb]. exact IHrest.
  - reflexivity.
Qed.

Lemma defaultValues_same (scope : Z) (args : list FormalArgumentSymbol) :
  defaultValues scope args args = (args, []).
Proof.
  induction args as [|a rest IH]; cbn [defaultValues]; [reflexivity|].
  destruct (initializer a) as [e|]; [|rewrite IH; reflexivity].
  destruct (expr_syntax e) as [s|]; [|rewrite IH; reflexivity].
  rewrite isSameExpr_refl. cbn [negb]. rewrite IH. reflexivity.
Qed.

Lemma defaultValues_shape (scope : Z) (defArgs : list FormalArgumentSymbol) :
  forall protoArgs,
    length (fst (defaultValues scope defArgs protoArgs)) = length defArgs
    /\ map arg_name (fst (defaultValues scope defArgs protoArgs)) = map arg_name defArgs
    /\ map arg_type (fst (defaultValues scope defArgs protoArgs)) = map arg_type defArgs
    /\ map direction (fst (defaultValues scope defArgs protoArgs)) = map direction defArgs
    /\ (length (snd (defaultValues scope defArgs protoArgs)) <= 1)%nat.
Proof.
  induction defArgs as [|da drest IH]; intros [|pa prest]; cbn [defaultValues];
    try (repeat split; cbn; lia).
  specialize (IH prest). destruct IH as (Hl & Hn & Ht & Hd & Hs).
  destruct (initializer da) as [de|], (initializer pa) as [pe|]; cbn [fst snd];
    try (repeat split; cbn [length map arg_name arg_type direction setInitializer];
         try rewrite Hl; try rewrite Hn; try rewrite Ht; try rewrite Hd;
         try reflexivity; try lia; fail).
  destruct (expr_syntax de) as [ds|], (expr_syntax pe) as [ps|]; cbn [fst snd];
    try (repeat split; cbn [length map]; try rewrite Hl; try rewrite Hn;
         try rewrite Ht; try rewrite Hd; try reflexivity; try lia; fail).
  destruct (negb (isSameExpr ds ps)); cbn [fst snd];
    repeat split; cbn [length map]; try rewrite Hl; try rewrite Hn;
      try rewrite Ht; try rewrite Hd; try reflexivity; try lia.
Qed.

Lemma defaultValues_copied (scope : Z) (defArgs : list FormalArgumentSymbol) :
  forall protoArgs,
    snd (defaultValues scope defArgs protoArgs) = [] ->
    forall i d p a,
      nth_error defArgs i = Some d ->
      nth_error protoArgs i = Some p ->
      nth_error (fst (defaultValues scope defArgs protoArgs)) i = Some a ->
      initializer a = match initializer d with
                      | Some e => Some e
                      | None => initializer p
                      end
      /\ (initializer d <> None -> initializer p <> None).
Proof.
  induction defArgs as [|da drest IH]; intros [|pa prest] Hok i d p a Hd Hp Ha;
    try (destruct i; discriminate).
  cbn [defaultValues] in Hok, Ha.
  assert (Hrest : snd (defaultValues scope drest prest) = [] ->
            forall a', nth_error (a' :: fst (defaultValues scope drest prest)) i = Some a ->
              initializer a' = match initializer da with
                               | Some e => Some e
                               | None => initializer pa
                               end ->
              (initializer da <> None -> initializer pa <> None) ->
              initializer a = match initializer d with
                              | Some e => Some e
                              | None => initializer p
                              end
              /\ (initializer d <> None -> initializer p <> None)).
  { intros Hok' a' Ha' Hinit Hsome. destruct i as [|i]; cbn in Hd, Hp, Ha'.
    - injection Hd as <-. injection Hp as <-. injection Ha' as <-. split; assumption.
    - exact (IH prest Hok' i d p a Hd Hp Ha'). }
  destruct (initializer da) as [de|] eqn:Hde, (initializer pa) as [pe|] eqn:Hpe;
    cbn [fst snd] in Hok, Ha; try discriminate Hok.
  - destruct (expr_syntax de) as [ds|], (expr_syntax pe) as [ps|]; cbn [fst snd] in Hok, Ha;
      try (apply (Hrest Hok da Ha); [exact Hde | intros _; discriminate]).
    destruct (negb (isSameExpr ds ps)); cbn [fst snd] in Hok, Ha; [discriminate|].
    apply (Hrest Hok da Ha); [exact Hde | intros _; discriminate].
  - apply (Hrest Hok (setInitializer da pe) Ha); [reflexivity | intros H; contradiction].
  - apply (Hrest Hok da Ha); [exact Hde | intros H; contradiction].
Qed.

(** X17. The default values of an out-of-block definition with as many
    arguments as its prototype: the loop keeps the number, names, types
    and directions of the definition's arguments and reports at most one
    diagnostic. When it reports none, every
    argument that has a default in the definition keeps it (and the
    prototype has one too), and every argument without one gets the
    default of the prototype's argument at the same position. A definition
    that repeats the prototype's arguments and defaults verbatim is left as
    it is, with no diagnostic. *)
Theorem default_values_from_prototype (scope : Z)
    (defArgs protoArgs : list FormalArgumentSymbol) :
  length defArgs = length protoArgs ->
  length (fst (defaultValues scope defArgs protoArgs)) = length defArgs
  /\ map arg_name (fst (defaultValues scope defArgs protoArgs)) = map arg_name defArgs
  /\ map arg_type (fst (defaultValues scope defArgs protoArgs)) = map arg_type defArgs
  /\ map direction (fst (defaultValues scope defArgs protoArgs)) = map direction defArgs
  /\ (length (snd (defaultValues scope defArgs protoArgs)) <= 1)%nat
  /\ (snd (defaultValues scope defArgs protoArgs) = [] ->
      forall i d p a,
        nth_error defArgs i = Some d ->
        nth_error protoArgs i = Some p ->
        nth_error (fst (defaultValues scope defArgs protoArgs)) i = Some a ->
        initializer a = match initializer d with
                        | Some e => Some e
                        | None => initializer p
                        end
        /\ (initializer d <> None -> initializer p <> None))
  /\ defaultValues scope protoArgs protoArgs = (protoArgs, []).
Proof.
  intros _.
  destruct (defaultValues_shape scope defArgs protoArgs) as (Hl & Hn & Ht & Hd & Hs).
  repeat (split; [assumption|]).
  split; [apply defaultValues_copied|apply defaultValues_same].
Qed.

Lemma default_values_witness :
  map initializer
    (fst (defaultValues 2
            [mkArg "a" 41 intT DirIn None]
            [mkArg "a" 13 intT DirIn (Some (mkExpression None 14))]))
  = [Some (mkExpression None 14)].
Proof.
  destruct (default_values_from_prototype 2
              [mkArg "a" 41 intT DirIn None]
              [mkArg "a" 13 intT DirIn (Some (mkExpression None 14))] eq_refl)
    as (_ & _ & _ & _ & _ & Hcopied & _).
  destruct (Hcopied eq_refl 0%nat (mkArg "a" 41 intT DirIn None)
              (mkArg "a" 13 intT DirIn (Some (mkExpression None 14)))
              (setInitializer (mkArg "a" 41 intT DirIn None) (mkExpression None 14))
              eq_refl eq_refl eq_refl) as [Hinit _].
  cbn [defaultValues initializer fst map]. rewrite Hinit. reflexivity.
Defined.

(** ** Matching a definition against its prototype *)

Lemma checkArguments_outcome (scope : Z) (defArgs : list FormalArgumentSymbol) :
  forall protoArgs,
    (snd (checkArguments scope defArgs protoArgs) = true
     /\ fst (checkArguments scope defArgs protoArgs) = [])
    \/ (snd (checkArguments scope defArgs protoArgs) = false
        /\ exists d, fst (checkArguments scope defArgs protoArgs) = [d]
                     /\ diagScope d = scope).
Proof.
  induction defArgs as [|da drest IH]; intros [|pa prest]; cbn [checkArguments];
    try (left; split; reflexivity).
  repeat match goal with
         | |- context [if ?b then _ else _] =>
           destruct b; [right; split; [reflexivity|eexists; split; reflexivity]|]
         end.
  apply IH.
Qed.

Lemma checkArguments_same (scope : Z) (args : list FormalArgumentSymbol) :
  checkArguments scope args args = ([], true).
Proof.
  induction args as [|a rest IH]; cbn [checkArguments]; [reflexivity|].
  rewrite String.eqb_refl, isMatching_refl. cbn [negb andb].
  destruct (direction a); cbn [ArgumentDirection_eqb negb]; exact IH.
Qed.

(** X18. [checkMethodMatch] answers true exactly when it reports nothing;
    when it answers false it has reported exactly one diagnostic, in the
    scope it was given. The stub subroutine [createFromPrototype] makes
    from a prototype always matches that prototype. *)
Theorem method_match_outcome (proto : MethodPrototypeSymbol) (scope : Z)
    (method : SubroutineSymbol) (parent : Scope) :
  (snd (checkMethodMatch proto scope method) = true <->
   fst (checkMethodMatch proto scope method) = [])
  /\ (snd (checkMethodMatch proto scope method) = false ->
      exists d, fst (checkMethodMatch proto scope method) = [d] /\ diagScope d = scope)
  /\ checkMethodMatch proto scope (createFromPrototype proto parent) = ([], true).
Proof.
  assert (Hcases :
            (snd (checkMethodMatch proto scope method) = true
             /\ fst (checkMethodMatch proto scope method) = [])
            \/ (snd (checkMethodMatch proto scope method) = false
                /\ exists d, fst (checkMethodMatch proto scope method) = [d]
                             /\ diagScope d = scope)).
  { unfold checkMethodMatch.
    repeat match goal with
           | |- context [if ?b then _ else _] =>
             destruct b; [right; split; [reflexivity|eexists; split; reflexivity]|]
           end.
    apply checkArguments_outcome. }
  split; [|split].
  - destruct Hcases as [[Ht Hn]|[Hf (d & Hd & _)]].
    + rewrite Ht, Hn. split; reflexivity.
    + rewrite Hf, Hd. split; discriminate.
  - intros Hfalse. destruct Hcases as [[Ht _]|[_ Hd]]; [congruence|exact Hd].
  - unfold checkMethodMatch, createFromPrototype.
    cbn [subroutineKind returnType arguments sub_name].
    destruct (proto_kind proto); cbn [SubroutineKind_eqb negb];
      rewrite isMatching_refl; cbn [negb andb];
      rewrite Nat.eqb_refl; cbn [negb]; apply checkArguments_same.
Qed.

(** ** The cache of [getSubroutine] *)

Lemma getSubroutine_shape (comp : Compilation) (proto : MethodPrototypeSymbol)
    (near : Scope) (comp' : Compilation) (proto' : MethodPrototypeSymbol)
    (s : option SubroutineSymbol) :
  getSubroutine comp proto near = Ok (comp', proto', s) ->
  (proto_subroutine proto = Some s /\ comp' = comp /\ proto' = proto)
  \/ (proto_subroutine proto = None /\ proto' = setSubroutine proto s
      /\ exists ds, diagnostics comp' = diagnostics comp ++ ds).
Proof.
  unfold getSubroutine.
  destruct (proto_subroutine proto) as [cached|] eqn:Hcache.
  { intros [= <- <- <-]. left. repeat split; reflexivity. }
  destruct (parentOf near) as [outer|]; [|discriminate].
  intros H. right. split; [reflexivity|].
  assert (Hmark : forall sc cn nm,
            diagnostics (markUsed comp sc cn nm) = diagnostics comp) by reflexivity.
  unfold rbind in H.
  repeat match type of H with
         | context [match ?x with _ => _ end] => destruct x eqn:?
         | context [if ?x then _ else _] => destruct x eqn:?
         end;
    try discriminate H;
    injection H as <- <- <-;
    (split; [reflexivity|]);
    unfold addDiags; cbn [diagnostics]; rewrite ?Hmark;
    try (eexists; reflexivity);
    try (exists []; rewrite app_nil_r; reflexivity);
    try (rewrite <- app_assoc; eexists; reflexivity).
Qed.

(** X19. [getSubroutine] answers from its cache after the first call. A
    call that returns leaves the prototype's cache holding the subroutine
    it returned and only adds diagnostics to the compilation; calling it
    again on the prototype and compilation it left returns the same
    subroutine and changes nothing, so every diagnostic is reported once.
    A call on a prototype whose cache is filled returns what is cached and
    touches nothing. *)
Theorem getSubroutine_answers_from_cache (comp : Compilation)
    (proto : MethodPrototypeSymbol) (near : Scope) (comp' : Compilation)
    (proto' : MethodPrototypeSymbol) (s : option SubroutineSymbol) :
  getSubroutine comp proto near = Ok (comp', proto', s) ->
  proto_subroutine proto' = Some s
  /\ getSubroutine comp' proto' near = Ok (comp', proto', s)
  /\ (exists ds, diagnostics comp' = diagnostics comp ++ ds)
  /\ (forall cached, proto_subroutine proto = Some cached ->
        s = cached /\ comp' = comp /\ proto' = proto).
Proof.
  intros Hcall.
  assert (Hcache : proto_subroutine proto' = Some s).
  { destruct (getSubroutine_shape _ _ _ _ _ _ Hcall) as [(Hc & _ & ->)|(_ & -> & _)];
      [exact Hc|reflexivity]. }
  split; [exact Hcache|].
  split; [unfold getSubroutine; rewrite Hcache; reflexivity|].
  split.
  - destruct (getSubroutine_shape _ _ _ _ _ _ Hcall) as [(_ & -> & _)|(_ & _ & Hds)];
      [exists []; rewrite app_nil_r; reflexivity|exact Hds].
  - intros cached Hc.
    destruct (getSubroutine_shape _ _ _ _ _ _ Hcall) as [(Hc' & -> & ->)|(Hnone & _)];
      [|congruence].
    split; [congruence|split; reflexivity].
Qed.

Lemma getSubroutine_cache_witness :
  exists comp' proto' s,
    getSubroutine (mkCompilation [] [mkOutOfBlock 1 "C" "foo" defFoo 5 false]) protoFoo classC
    = Ok (comp', proto', s)
    /\ getSubroutine comp' proto' classC = Ok (comp', proto', s).
Proof.
  eexists. eexists. eexists.
  assert (Hfirst : getSubroutine (mkCompilation [] [mkOutOfBlock 1 "C" "foo" defFoo 5 false])
                     protoFoo classC
                   = Ok (fst (fst (match getSubroutine
                                           (mkCompilation [] [mkOutOfBlock 1 "C" "foo" defFoo 5 false])
                                           protoFoo classC with
                                   | Ok r => r
                                   | Err _ => (mkCompilation [] [], protoFoo, None)
                                   end)),
                         snd (fst (match getSubroutine
                                           (mkCompilation [] [mkOutOfBlock 1 "C" "foo" defFoo 5 false])
                                           protoFoo classC with
                                   | Ok r => r
                                   | Err _ => (mkCompilation [] [], protoFoo, None)
                                   end)),
                         snd (match getSubroutine
                                      (mkCompilation [] [mkOutOfBlock 1 "C" "foo" defFoo 5 false])
                                      protoFoo classC with
                              | Ok r => r
                              | Err _ => (mkCompilation [] [], protoFoo, None)
                              end))) by reflexivity.
  split; [exact Hfirst|].
  exact (proj1 (proj2 (getSubroutine_answers_from_cache _ _ _ _ _ _ Hfirst))).
Defined.

(** ** When a class method has no subroutine *)

(** X20. For the prototype of a class method (not an interface import)
    whose cache is empty, [getSubroutine] gives null in exactly two cases,
    and returns in both: the method is pure and an out-of-block body is
    registered for it ([BodyForPure] is reported), or it is not pure and
    no body is registered ([NoMemberImplFound] is reported). A pure method
    without a body gets the stub made from the prototype and no
    diagnostic. A method that is not pure and has a body gets the
    subroutine [createOutOfBlock] makes when that returns, and the call
    fails as [createOutOfBlock] does when it fails. *)
Theorem getSubroutine_null_cases (comp : Compilation) (proto : MethodPrototypeSymbol)
    (near outer : Scope) (body : option OutOfBlockDecl) :
  proto_subroutine proto = None ->
  InterfaceImport (proto_flags proto) = false ->
  parentOf near = Some outer ->
  body = match findOutOfBlockDecl comp (scopeId outer) (symName near) (proto_name proto) with
         | Some d =>
           match decl_kind (oob_syntax d) with
           | OtherDeclaration => None
           | _ => Some d
           end
         | None => None
         end ->
  (Pure (proto_flags proto) = true -> body <> None ->
   exists comp' ds,
     getSubroutine comp proto near = Ok (comp', setSubroutine proto None, None)
     /\ diagnostics comp' = diagnostics comp ++ ds
     /\ hasCode BodyForPure ds = true)
  /\ (Pure (proto_flags proto) = false -> body = None ->
      exists comp' ds,
        getSubroutine comp proto near = Ok (comp', setSubroutine proto None, None)
        /\ diagnostics comp' = diagnostics comp ++ ds
        /\ hasCode NoMemberImplFound ds = true)
  /\ (Pure (proto_flags proto) = true -> body = None ->
      getSubroutine comp proto near
      = Ok (comp, setSubroutine proto (Some (createFromPrototype proto near)),
            Some (createFromPrototype proto near)))
  /\ (Pure (proto_flags proto) = false ->
      forall d, body = Some d ->
        match createOutOfBlock (oob_syntax d) proto near outer (oob_index d) with
        | Ok created =>
          exists comp',
            getSubroutine comp proto near
            = Ok (comp', setSubroutine proto (Some (snd created)), Some (snd created))
        | Err e => getSubroutine comp proto near = Err e
        end)
  /\ (forall comp' proto',
        getSubroutine comp proto near = Ok (comp', proto', None) ->
        (Pure (proto_flags proto) = true /\ body <> None)
        \/ (Pure (proto_flags proto) = false /\ body = None)).
Proof.
  intros Hcache Himport Hparent Hbody. unfold getSubroutine.
  rewrite Hcache, Hparent, Himport.
  destruct (findOutOfBlockDecl comp (scopeId outer) (symName near) (proto_name proto))
    as [d|] eqn:Hfind.
  - destruct (decl_kind (oob_syntax d)) eqn:Hkind; subst body;
      destruct (Pure (proto_flags proto)) eqn:Hpure;
      (split; [|split; [|split; [|split]]]);
      try discriminate;
      try (intros _ H; contradiction);
      try (intros _ H; discriminate H);
      try (intros _ _; eexists _, _; split; [reflexivity|];
           split; reflexivity);
      try (intros _ _; reflexivity);
      try (intros _ d' [= <-];
           destruct (createOutOfBlock (oob_syntax d) proto near outer (oob_index d));
           cbn [rbind]; [eexists; reflexivity|reflexivity]);
      try (intros comp' proto' H;
           destruct (createOutOfBlock (oob_syntax d) proto near outer (oob_index d));
           cbn [rbind] in H; discriminate H);
      try (intros comp' proto' H; left; split; [reflexivity|discriminate]);
      try (intros comp' proto' H; right; split; reflexivity);
      try (intros comp' proto' H; discriminate H).
  - subst body. destruct (Pure (proto_flags proto)) eqn:Hpure;
      (split; [|split; [|split; [|split]]]);
      try discriminate;
      try (intros _ H; contradiction);
      try (intros _ d' H; discriminate H);
      try (intros _ _; eexists _, _; split; [reflexivity|];
           split; reflexivity);
      try (intros _ _; reflexivity);
      try (intros comp' proto' H; right; split; reflexivity);
      try (intros comp' proto' H; discriminate H).
Qed.

Lemma getSubroutine_null_witness :
  (exists comp',
     getSubroutine (mkCompilation [] []) protoFoo classC
     = Ok (comp', setSubroutine protoFoo None, None))
  /\ getSubroutine (mkCompilation [] [mkOutOfBlock 1 "C" "foo" defFooConst 5 false])
       protoFoo classC = Err AssertionFailed.
Proof.
  split.
  - destruct (getSubroutine_null_cases (mkCompilation [] []) protoFoo classC unitScope None
                eq_refl eq_refl eq_refl eq_refl) as (_ & Hnone & _).
    destruct (Hnone eq_refl eq_refl) as (comp' & ds & Hcall & _).
    exists comp'. exact Hcall.
  - destruct (getSubroutine_null_cases
                (mkCompilation [] [mkOutOfBlock 1 "C" "foo" defFooConst 5 false])
                protoFoo classC unitScope
                (Some (mkOutOfBlock 1 "C" "foo" defFooConst 5 false))
                eq_refl eq_refl eq_refl eq_refl) as (_ & _ & _ & Hbody & _).
    exact (Hbody eq_refl _ eq_refl).
Defined.

(** ** Port lists *)

Lemma buildArguments_loop_rules (scope : Z) (lifetime : VariableLifetime) :
  forall ports lastType lastDirection diags args,
    buildArguments_loop scope lifetime ports lastType lastDirection = Ok (diags, args) ->
    length args = length ports
    /\ Forall (fun d => code d = RefArgAutomaticFunc) diags
    /\ (lifetime = LifeAutomatic -> diags = [])
    /\ forall i p a,
         nth_error ports i = Some p -> nth_error args i = Some a ->
         built_name a = port_name p
         /\ built_lifetime a = lifetime
         /\ built_isConstant a = port_constKeyword p
         /\ built_direction a
            = match port_direction p with
              | Some d => d
              | None =>
                match i with
                | O => lastDirection
                | S j =>
                  match nth_error args j with
                  | Some prev => built_direction prev
                  | None => lastDirection
                  end
                end
              end
         /\ built_type a
            = match port_dataType p with
              | Some t => DeclaredType t
              | None =>
                match port_direction p with
                | Some _ => LogicType
                | None =>
                  match i with
                  | O => match lastType with
                         | Some t => DeclaredType t
                         | None => LogicType
                         end
                  | S j =>
                    match nth_error args j with
                    | Some prev => built_type prev
                    | None => LogicType
                    end
                  end
                end
              end.
Proof.
  induction ports as [|p0 rest IH]; intros lastType lastDirection diags args;
    cbn [buildArguments_loop].
  - intros [= <- <-]. split; [reflexivity|]. split; [constructor|].
    split; [reflexivity|]. intros i p a Hp. destruct i; discriminate.
  - destruct (ASSERT _) as [[]|]; cbn [rbind]; [|discriminate].
    destruct (buildArguments_loop scope lifetime rest _ _) as [[rdiags rargs]|] eqn:Hrest;
      cbn [rbind]; [|discriminate].
    intros [= <- <-]. cbn [fst snd].
    destruct (IH _ _ _ _ Hrest) as (Hlen & Hcodes & Hauto & Hrules).
    split; [cbn [length]; rewrite Hlen; reflexivity|].
    split.
    { apply Forall_app. split; [|exact Hcodes].
      destruct (port_direction p0) as [[| | |]|], lifetime; repeat constructor. }
    split.
    { intros ->. rewrite (Hauto eq_refl).
      destruct (port_direction p0) as [[| | |]|]; reflexivity. }
    intros i p a Hp Ha. destruct i as [|i]; cbn [nth_error] in Hp, Ha.
    + injection Hp as <-. injection Ha as <-.
      cbn [built_name built_lifetime built_isConstant built_direction built_type].
      repeat split.
      destruct (port_dataType p0) as [t|]; [reflexivity|].
      destruct lastType as [t|], (port_direction p0); reflexivity.
    + destruct (Hrules i p a Hp Ha) as (Hname & Hlife & Hconst & Hdir & Hty).
      repeat split; try assumption.
      * rewrite Hdir. destruct (port_direction p) as [d|]; [reflexivity|].
        destruct i as [|k]; cbn [nth_error]; [reflexivity|].
        destruct (nth_error rargs k) eqn:Hk; [reflexivity|].
        apply nth_error_None in Hk.
        assert (S k < length rargs)%nat by (apply nth_error_Some; congruence). lia.
      * rewrite Hty. destruct (port_dataType p) as [t|]; [reflexivity|].
        destruct (port_direction p) as [d|]; [reflexivity|].
        destruct i as [|k]; cbn [nth_error built_type].
        -- destruct (port_dataType p0) as [t0|]; [reflexivity|].
           destruct lastType as [t0|], (port_direction p0); reflexivity.
        -- reflexivity.
Qed.

Lemma buildArguments_loop_total (scope : Z) (lifetime : VariableLifetime) :
  forall ports lastType lastDirection,
    Forall (fun p => port_constKeyword p = false) ports ->
    exists built, buildArguments_loop scope lifetime ports lastType lastDirection = Ok built.
Proof.
  induction ports as [|p0 rest IH]; intros lastType lastDirection Hconst;
    cbn [buildArguments_loop]; [eexists; reflexivity|].
  inversion Hconst as [|? ? Hp0 Hrest]; subst. rewrite Hp0. cbn [negb orb ASSERT rbind].
  destruct (IH (snd match port_dataType p0 with
                    | Some t => (DeclaredType t, Some t)
                    | None =>
                      match lastType with
                      | Some t =>
                        if match port_direction p0 with Some _ => true | None => false end
                        then (LogicType, None) else (DeclaredType t, lastType)
                      | None => (LogicType, None)
                      end
                    end)
              (match port_direction p0 with Some d => d | None => lastDirection end) Hrest)
    as [built Hbuilt].
  rewrite Hbuilt. cbn [rbind]. eexists; reflexivity.
Qed.

(** X21. The arguments [buildArguments] makes from a port list inherit
    what their port leaves out. There is one argument per port, with the
    port's name and the default lifetime. A port without a direction gets
    the direction of the argument before it ([input] for the first). A
    port with a type gets that type; a port with a direction and no type
    is [logic]; a port with neither gets the type of the argument before
    it ([logic] for the first). The only diagnostic is
    [RefArgAutomaticFunc], never reported for an automatic lifetime. A port
    list without [const] always builds; a first port that is [const]
    without [ref] fails the assertion. *)
Theorem port_list_inheritance (scope : Z) (lifetime : VariableLifetime)
    (ports : list FunctionPortSyntax) :
  (forall diags args,
     buildArguments scope lifetime ports = Ok (diags, args) ->
     length args = length ports
     /\ Forall (fun d => code d = RefArgAutomaticFunc) diags
     /\ (lifetime = LifeAutomatic -> diags = [])
     /\ forall i p a,
          nth_error ports i = Some p -> nth_error args i = Some a ->
          built_name a = port_name p
          /\ built_lifetime a = lifetime
          /\ built_direction a
             = match port_direction p with
               | Some d => d
               | None =>
                 match i with
                 | O => DirIn
                 | S j =>
                   match nth_error args j with
                   | Some prev => built_direction prev
                   | None => DirIn
                   end
                 end
               end
          /\ built_type a
             = match port_dataType p with
               | Some t => DeclaredType t
               | None =>
                 match port_direction p with
                 | Some _ => LogicType
                 | None =>
                   match i with
                   | O => LogicType
                   | S j =>
                     match nth_error args j with
                     | Some prev => built_type prev
                     | None => LogicType
                     end
                   end
                 end
               end)
  /\ (Forall (fun p => port_constKeyword p = false) ports ->
      exists built, buildArguments scope lifetime ports = Ok built)
  /\ (forall p rest, ports = p :: rest -> port_constKeyword p = true ->
        port_direction p <> Some DirRef ->
        buildArguments scope lifetime ports = Err AssertionFailed).
Proof.
  split; [|split].
  - intros diags args Hbuilt.
    destruct (buildArguments_loop_rules scope lifetime ports None DirIn diags args Hbuilt)
      as (Hlen & Hcodes & Hauto & Hrules).
    repeat (split; [assumption|]).
    intros i p a Hp Ha.
    destruct (Hrules i p a Hp Ha) as (Hname & Hlife & _ & Hdir & Hty).
    repeat split; assumption.
  - apply buildArguments_loop_total.
  - intros p rest -> Hconst Hdir. unfold buildArguments. cbn [buildArguments_loop].
    rewrite Hconst. cbn [negb orb].
    destruct (port_direction p) as [[| | |]|]; try reflexivity. contradiction.
Qed.

(** ** Overriding a virtual method *)

Lemma checkVirtualArguments_same (scope : Z) (args : list FormalArgumentSymbol) :
  checkVirtualArguments scope args args = [].
Proof.
  induction args as [|a rest IH]; cbn [checkVirtualArguments]; [reflexivity|].
  rewrite String.eqb_refl, isMatching_refl. cbn [negb andb].
  assert (Hdir : ArgumentDirection_eqb (direction a) (direction a) = true)
    by (destruct (direction a); reflexivity).
  rewrite Hdir. cbn [negb]. destruct (initializer a); exact IH.
Qed.

Lemma checkVirtualArguments_one (scope : Z) (derivedArgs : list FormalArgumentSymbol) :
  forall parentArgs,
    (length (checkVirtualArguments scope derivedArgs parentArgs) <= 1)%nat.
Proof.
  induction derivedArgs as [|da drest IH]; intros [|pa prest]; cbn [checkVirtualArguments];
    try (cbn; lia).
  repeat match goal with
         | |- context [if ?b then _ else _] => destruct b; [cbn; lia|]
         end.
  destruct (initializer da), (initializer pa); try (cbn; lia); apply IH.
Qed.

(** X22. Checking an override against the method it overrides reports at
    most one diagnostic. A method checked against itself reports none.
    When the kinds agree and either return type is the error type,
    nothing else is checked and nothing is reported. An override may
    return a class derived from the class the overridden method returns:
    with equal argument lists that is accepted when derived return types
    are allowed, and reported as [VirtualReturnMismatch] when they are
    not and the two types do not match. *)
Theorem virtual_override_check (classInfo : Symbol -> ClassInfo) (getCacheKey : Z -> Z)
    (depth : nat) (scope : Z) (parentMethod derivedMethod : SubroutineSymbol)
    (allowDerivedReturn : bool) :
  (forall ds,
     checkVirtualMethodMatch classInfo getCacheKey depth scope parentMethod derivedMethod
       allowDerivedReturn = Ok ds ->
     (length ds <= 1)%nat)
  /\ checkVirtualMethodMatch classInfo getCacheKey depth scope derivedMethod derivedMethod
       allowDerivedReturn = Ok []
  /\ (subroutineKind parentMethod = subroutineKind derivedMethod ->
      isError (returnType derivedMethod) || isError (returnType parentMethod) = true ->
      checkVirtualMethodMatch classInfo getCacheKey depth scope parentMethod derivedMethod
        allowDerivedReturn = Ok [])
  /\ (forall n,
        subroutineKind parentMethod = subroutineKind derivedMethod ->
        isClass (returnType parentMethod) = true ->
        isClass (returnType derivedMethod) = true ->
        derivesIn classInfo n (getCanonicalType (returnType derivedMethod))
          (getCanonicalType (returnType parentMethod)) ->
        (n <= depth)%nat ->
        arguments derivedMethod = arguments parentMethod ->
        checkVirtualMethodMatch classInfo getCacheKey depth scope parentMethod derivedMethod
          true = Ok []
        /\ (isMatching (returnType derivedMethod) (returnType parentMethod) = false ->
            checkVirtualMethodMatch classInfo getCacheKey depth scope parentMethod
              derivedMethod false
            = Ok [mkVirtualDiag VirtualReturnMismatch scope [sub_name derivedMethod]])).
Proof.
  assert (Hkind : forall k, SubroutineKind_eqb k k = true) by (intros []; reflexivity).
  assert (Hclass_not_error : forall t, isClass t = true -> isError t = false).
  { intros t. unfold isClass, isError, isKindOf.
    destruct (kind (getCanonicalType t)); intros H; try discriminate; reflexivity. }
  split; [|split; [|split]].
  - unfold checkVirtualMethodMatch.
    destruct (negb _); [intros ds [= <-]; cbn; lia|].
    destruct (_ || _); [intros ds [= <-]; cbn; lia|].
    destruct (isMatching _ _); cbn [rbind].
    + destruct (negb _); intros ds [= <-]; [cbn; lia|apply checkVirtualArguments_one].
    + destruct (_ || _); cbn [rbind].
      * intros ds [= <-]; cbn; lia.
      * destruct (isAssignmentCompatible _ _ _ _ _) as [[|]|]; cbn [rbind negb];
          try discriminate; intros ds H.
        -- destruct (negb _); injection H as <-; [cbn; lia|apply checkVirtualArguments_one].
        -- injection H as <-. cbn; lia.
  - unfold checkVirtualMethodMatch. rewrite Hkind. cbn [negb].
    destruct (_ || _); [reflexivity|].
    rewrite isMatching_refl. cbn [rbind]. rewrite Nat.eqb_refl. cbn [negb].
    rewrite checkVirtualArguments_same. reflexivity.
  - intros Hk Herr. unfold checkVirtualMethodMatch.
    rewrite Hk, Hkind. cbn [negb]. rewrite Herr. reflexivity.
  - intros n Hk Hpc Hdc Hder Hn Hargs.
    unfold checkVirtualMethodMatch. rewrite Hk, Hkind. cbn [negb].
    rewrite (Hclass_not_error _ Hpc), (Hclass_not_error _ Hdc). cbn [orb].
    rewrite Hargs, Nat.eqb_refl, checkVirtualArguments_same. cbn [negb].
    split.
    + destruct (isMatching _ _); [reflexivity|].
      rewrite Hdc. cbn [negb orb].
      rewrite (CompatibilityFacts.derived_assignable classInfo getCacheKey depth _ _ n
                 Hpc Hder Hn).
      reflexivity.
    + intros Hnm. rewrite Hnm. reflexivity.
Qed.

Lemma virtual_override_witness :
  checkVirtualMethodMatch exampleClasses (fun k => k) 4 61 getOfBase getOfDerived true
  = Ok []
  /\ checkVirtualMethodMatch exampleClasses (fun k => k) 4 61 getOfBase getOfDerived false
     = Ok [mkVirtualDiag VirtualReturnMismatch 61 ["get"%string]].
Proof.
  destruct (proj2 (proj2 (proj2 (virtual_override_check exampleClasses (fun k => k) 4 61
                                   getOfBase getOfDerived true))) 1%nat)
    as [Hallowed Hrefused]; try reflexivity.
  - apply (derives_direct exampleClasses 0 (mkSymbol 61 (Some 601) (Some CompilationUnit))
             classBase classBase); reflexivity.
  - lia.
  - split; [exact Hallowed|apply Hrefused; reflexivity].
Defined.

End PrototypeFacts.

(** * Facts about the syntax printer *)

Module PrinterFacts.
Import Source Printer.

(** ** append *)

Lemma skip_loop_bounds (rounds : nat) (text : list ascii) :
  forall i : nat,
    (i <= S (length text))%nat ->
    (length text - i <= rounds)%nat ->
    (length text <= skip_loop rounds text i <= S (length text))%nat.
Proof.
  induction rounds as [|rounds IH]; intros i Hi Hrounds; simpl.
  - lia.
  - destruct (Nat.ltb_spec i (length text)) as [Hlt|Hge].
    + destruct (isCRorLF (nth i text zero)); apply IH; lia.
    + lia.
Qed.

Lemma skip_loop_plain (rounds : nat) (text : list ascii) :
  forall i : nat,
    (i <= length text)%nat ->
    (length text - i <= rounds)%nat ->
    (forall j, (i <= j < length text)%nat -> isCRorLF (nth j text zero) = false) ->
    skip_loop rounds text i = length text.
Proof.
  induction rounds as [|rounds IH]; intros i Hi Hrounds Hplain; simpl.
  - lia.
  - destruct (Nat.ltb_spec i (length text)) as [Hlt|Hge].
    + rewrite (Hplain i) by lia.
      apply IH; try lia.
      intros j Hj. apply Hplain. lia.
    + lia.
Qed.

Lemma skipn_plain (n : nat) (text : list ascii) (j : nat) :
  Forall (fun c => isCRorLF c = false) (skipn n text) ->
  (n <= j < length text)%nat ->
  isCRorLF (nth j text zero) = false.
Proof.
  intros Hall Hj.
  rewrite List.Forall_forall in Hall.
  apply Hall.
  replace j with (n + (j - n))%nat by lia.
  rewrite <- nth_skipn.
  apply nth_In. rewrite length_skipn. lia.
Qed.

Lemma setBuffer_same (p : SyntaxPrinter) : setBuffer p (buffer p) = p.
Proof. destruct p; reflexivity. Qed.

(** The flags and the index the squashing branch computes before its loop. *)
Lemma leadingBreak_flags (c : ascii) (rest : list ascii) :
  isCRorLF c = true ->
  let carriage := Ascii.eqb c CR in
  let i := if carriage then 1%nat else 0%nat in
  let newline := (i <? length (c :: rest))%nat && Ascii.eqb (nth i (c :: rest) zero) LF in
  (if carriage then [CR] else []) ++ (if newline then [LF] else [])
  = leadingBreak (c :: rest)
  /\ (if newline then S i else i) = length (leadingBreak (c :: rest)).
Proof.
  intros Hc. unfold isCRorLF in Hc. cbn zeta.
  unfold leadingBreak.
  destruct (Ascii.eqb c CR) eqn:Hcr.
  - destruct rest as [|c' rest']; cbn.
    + split; reflexivity.
    + destruct (Ascii.eqb c' LF); split; reflexivity.
  - cbn in Hc. cbn. rewrite Hc. split; reflexivity.
Qed.

Lemma leadingBreak_length (text : list ascii) :
  (length (leadingBreak text) <= length text)%nat.
Proof.
  destruct text as [|c rest]; cbn; [lia|].
  destruct (Ascii.eqb c CR).
  - destruct rest as [|c' rest']; cbn; [lia|].
    destruct (Ascii.eqb c' LF); cbn; lia.
  - destruct (Ascii.eqb c LF); cbn; lia.
Qed.

Lemma append_squashing (p : SyntaxPrinter) (c : ascii) (rest : list ascii) :
  squashNewlines p = true ->
  isCRorLF c = true ->
  append p (c :: rest)
  = if (length (c :: rest)
        <? skip_loop (length (c :: rest)) (c :: rest)
             (length (leadingBreak (c :: rest))))%nat
    then Threw StdOutOfRange
    else Printed
           (setBuffer p
              ((if mayStartLine (buffer p)
                then buffer p ++ leadingBreak (c :: rest)
                else buffer p)
               ++ skipn (skip_loop (length (c :: rest)) (c :: rest)
                           (length (leadingBreak (c :: rest))))
                    (c :: rest))).
Proof.
  intros Hsquash Hc.
  destruct (leadingBreak_flags c rest Hc) as [Hbrk Hidx].
  cbn zeta in Hbrk, Hidx.
  unfold append. rewrite Hsquash. cbn [negb].
  rewrite Hc.
  rewrite Hidx.
  destruct (Nat.ltb (length (c :: rest)) _); cbn [pbind]; [reflexivity|].
  rewrite <- app_assoc, Hbrk. reflexivity.
Qed.

(** X23. What [append] adds to the buffer. Without [squashNewlines], and
    for a text that does not start with a line break, it adds the text
    unchanged. With [squashNewlines], of a text that starts with a line
    break only that line break ([CR LF], [CR] or [LF]) can reach the
    buffer, and it does so only when the buffer is empty or does not end in
    a line feed: what follows the line break in the text is never added.
    The call returns whenever the text has no further line break, and it
    can throw [std::out_of_range], as it does for two line feeds. *)
Theorem append_squashes_line_breaks (p : SyntaxPrinter) (text : list ascii) :
  (squashNewlines p = false ->
   append p text = Printed (setBuffer p (buffer p ++ text)))
  /\ (squashNewlines p = true ->
      (leadingBreak text = [] ->
       append p text = Printed (setBuffer p (buffer p ++ text)))
      /\ (leadingBreak text <> [] ->
          (forall p', append p text = Printed p' ->
             p' = setBuffer p (if mayStartLine (buffer p)
                               then buffer p ++ leadingBreak text
                               else buffer p))
          /\ (Forall (fun c => isCRorLF c = false)
                (skipn (length (leadingBreak text)) text) ->
              exists p', append p text = Printed p'))
      /\ append p [LF; LF] = Threw StdOutOfRange).
Proof.
  split; [|intros Hsquash; split; [|split]].
  - intros Hoff. unfold append. rewrite Hoff. reflexivity.
  - intros Hnone. unfold append. rewrite Hsquash. cbn [negb].
    destruct text as [|c rest]; cbn [pbind].
    + destruct (mayStartLine (buffer p)); rewrite ?app_nil_r; reflexivity.
    + assert (Hc : isCRorLF c = false).
      { unfold leadingBreak in Hnone. unfold isCRorLF.
        destruct (Ascii.eqb c CR).
        - destruct rest as [|c' rest']; [discriminate|].
          destruct (Ascii.eqb c' LF); discriminate.
        - destruct (Ascii.eqb c LF); [discriminate|reflexivity]. }
      rewrite Hc. cbn [pbind].
      destruct (mayStartLine (buffer p)); rewrite ?app_nil_r; reflexivity.
  - intros Hsome.
    destruct text as [|c rest]; [exfalso; apply Hsome; reflexivity|].
    assert (Hc : isCRorLF c = true).
    { unfold leadingBreak in Hsome. unfold isCRorLF.
      destruct (Ascii.eqb c CR); [reflexivity|].
      destruct (Ascii.eqb c LF); [reflexivity|].
      exfalso; apply Hsome; reflexivity. }
    rewrite (append_squashing p c rest Hsquash Hc).
    pose proof (leadingBreak_length (c :: rest)) as Hlen.
    split.
    + intros p' Hret.
      pose proof (skip_loop_bounds (length (c :: rest)) (c :: rest)
                    (length (leadingBreak (c :: rest))) ltac:(lia) ltac:(lia)) as Hbounds.
      destruct (Nat.ltb_spec (length (c :: rest))
                  (skip_loop (length (c :: rest)) (c :: rest)
                     (length (leadingBreak (c :: rest))))) as [Hlt|Hge];
        [discriminate|].
      rewrite skipn_all2, app_nil_r in Hret by lia.
      symmetry. congruence.
    + intros Hplain.
      rewrite (skip_loop_plain (length (c :: rest)) (c :: rest)
                 (length (leadingBreak (c :: rest)))); try lia.
      * rewrite Nat.ltb_irrefl. eexists. reflexivity.
      * intros j Hj. exact (skipn_plain _ _ j Hplain Hj).
  - unfold append. rewrite Hsquash. reflexivity.
Qed.

Lemma append_squash_witness :
  squashNewlines examplePrinter = true
  /\ leadingBreak [CR; LF; " "%char] <> []
  /\ append examplePrinter [CR; LF; " "%char]
     = Printed (setBuffer examplePrinter [CR; LF]).
Proof.
  split; [reflexivity|]. split; [discriminate|].
  destruct (append_squashes_line_breaks examplePrinter [CR; LF; " "%char])
    as [_ Hon].
  destruct (Hon eq_refl) as [_ [Hbreak _]].
  assert (Hsome : leadingBreak [CR; LF; " "%char] <> []) by discriminate.
  destruct (Hbreak Hsome) as [Honly Hreturns].
  destruct Hreturns as [p' Hp'].
  { repeat constructor. }
  rewrite Hp'. f_equal. exact (Honly p' Hp').
Defined.

(** ** Printing everything *)

Lemma explicit_location_listed (t : Trivia) (l : SourceLocation) :
  getExplicitLocation t = Some l -> In l (locationsOfTrivia t).
Proof.
  destruct t as [k raw e|n e|n e|ts e]; cbn; intros ->; cbn; auto.
Qed.

Lemma printableChildren_text (im : bool) (cs : list SyntaxChild) :
  List.concat (map (textOf im) (printableChildren cs))
  = List.concat (map (fun c => match c with
                               | ChildNode m => textOfNode im m
                               | ChildToken t => textOfToken im t
                               | ChildNull => []
                               end) cs).
Proof.
  induction cs as [|c cs IH]; [reflexivity|].
  unfold printableChildren in *.
  destruct c; cbn [flat_map map List.concat app textOf]; rewrite IH; reflexivity.
Qed.

Lemma list_max_bound (l : list nat) (d : nat) :
  (list_max l <= d)%nat -> Forall (fun k => (k <= d)%nat) l.
Proof.
  intros H. apply List.Forall_forall. intros k Hk.
  pose proof (proj1 (list_max_le l d) H) as Hall.
  rewrite List.Forall_forall in Hall. exact (Hall k Hk).
Qed.

Lemma printableChildren_depth (cs : list SyntaxChild) (d : nat) :
  (list_max (map (fun c => match c with
                           | ChildNode m => depthOfNode m
                           | ChildToken t => depthOfToken t
                           | ChildNull => O
                           end) cs) <= d)%nat ->
  Forall (fun i => (depthOf i <= d)%nat) (printableChildren cs).
Proof.
  intros H. apply list_max_bound in H. rewrite Forall_map in H.
  induction cs as [|c cs IH]; [constructor|].
  inversion H as [|? ? Hc Hcs]; subst.
  unfold printableChildren in *.
  destruct c; cbn [flat_map app]; try constructor; try (apply IH; assumption);
    exact Hc.
Qed.

Lemma printableChildren_locations (P : SourceLocation -> Prop) (cs : list SyntaxChild) :
  Forall P (List.concat (map (fun c => match c with
                                       | ChildNode m => locationsOfNode m
                                       | ChildToken t => locationsOfToken t
                                       | ChildNull => []
                                       end) cs)) ->
  Forall (fun i => Forall P (locationsOf i)) (printableChildren cs).
Proof.
  induction cs as [|c cs IH]; intros H; [constructor|].
  cbn [map List.concat] in H. apply Forall_app in H. destruct H as [Hc Hcs].
  unfold printableChildren in *.
  destruct c; cbn [flat_map app]; try constructor; try (apply IH; assumption);
    exact Hc.
Qed.

Section Everything.
Variable getFirstToken : SyntaxNode -> Token.
Variable p0 : SyntaxPrinter.
Hypothesis Hflags : printsEverything p0.

Let printable (l : SourceLocation) : Prop := shouldPrint p0 l = Ok true.
Let im : bool := includeMissing p0.

(** What is asked of an item printed with [depth] calls left. *)
Let fits (depth : nat) (item : Printable) : Prop :=
  (depthOf item <= depth)%nat /\ Forall printable (locationsOf item).

Let prints (depth : nat) : Prop :=
  forall (item : Printable) (b : list ascii),
    fits depth item ->
    print getFirstToken depth (setBuffer p0 b) item
    = Printed (setBuffer p0 (b ++ textOf im item)).

Lemma shouldPrintSyntax_everything (b : list ascii) (n : SyntaxNode) :
  shouldPrintSyntax getFirstToken (setBuffer p0 b) n = true.
Proof using Hflags.
  destruct Hflags as (_ & _ & _ & Hdir & _ & Hmacros & Hincludes).
  unfold shouldPrintSyntax. cbn [sourceManager setBuffer expandMacros expandIncludes
                                  includeDirectives].
  rewrite Hdir, Hmacros, Hincludes.
  destruct (sourceManager p0); [|reflexivity].
  destruct (kind n); reflexivity.
Qed.

Lemma append_everything (b text : list ascii) :
  append (setBuffer p0 b) text = Printed (setBuffer p0 (b ++ text)).
Proof using Hflags.
  destruct Hflags as (Hsquash & _).
  unfold append. cbn [squashNewlines setBuffer]. rewrite Hsquash. reflexivity.
Qed.

Lemma printEach_everything (depth : nat) :
  prints depth ->
  forall (items : list Printable) (b : list ascii),
    Forall (fits depth) items ->
    printEach (print getFirstToken depth) items (setBuffer p0 b)
    = Printed (setBuffer p0 (b ++ List.concat (map (textOf im) items))).
Proof using Type.
  intros IH items.
  induction items as [|item items IHitems]; intros b Hall; cbn.
  - rewrite app_nil_r. reflexivity.
  - inversion Hall as [|? ? Hitem Hrest]; subst.
    rewrite (IH item b Hitem). cbn [pbind].
    rewrite (IHitems _ Hrest). rewrite app_assoc. reflexivity.
Qed.

Lemma print_pending_everything (depth : nat) :
  prints depth ->
  forall (trivias pending : list Trivia) (b : list ascii),
    Forall (fun t => fits depth (PTrivia t)) trivias ->
    Forall (fun t => fits depth (PTrivia t)) pending ->
    exists (done : list ascii) (pending' : list Trivia),
      print_pending (print getFirstToken depth) (setBuffer p0 b) trivias pending
      = Printed (setBuffer p0 (b ++ done), pending')
      /\ Forall (fun t => fits depth (PTrivia t)) pending'
      /\ done ++ List.concat (map (textOfTrivia im) pending')
         = List.concat (map (textOfTrivia im) pending)
           ++ List.concat (map (textOfTrivia im) trivias).
Proof using Type.
  intros IH trivias.
  induction trivias as [|t rest IHrest]; intros pending b Hall Hpending; cbn [print_pending].
  - exists [], pending. rewrite !app_nil_r. repeat split; assumption.
  - inversion Hall as [|? ? Ht Hrest]; subst.
    assert (Hpending1 : Forall (fun t => fits depth (PTrivia t)) (pending ++ [t])).
    { apply Forall_app. split; [assumption|]. constructor; [assumption|constructor]. }
    destruct (getExplicitLocation t) as [loc|] eqn:Hloc.
    + assert (Hok : shouldPrint (setBuffer p0 b) loc = Ok true).
      { destruct Ht as [_ Hlocs]. rewrite List.Forall_forall in Hlocs.
        exact (Hlocs loc (explicit_location_listed t loc Hloc)). }
      rewrite Hok. cbn [fromSource pbind].
      rewrite (printEach_everything depth IH (map PTrivia (pending ++ [t])) b).
      2:{ rewrite Forall_map. exact Hpending1. }
      cbn [pbind].
      match goal with
      | |- context [print_pending _ (setBuffer p0 ?b') rest []] =>
        destruct (IHrest [] b' Hrest (List.Forall_nil _))
          as (done & pending' & Hrun & Hfits & Htext)
      end.
      rewrite Hrun.
      eexists _, pending'. split; [rewrite <- app_assoc; reflexivity|].
      split; [assumption|].
      rewrite <- app_assoc, Htext. cbn.
      rewrite map_map, map_app, concat_app. cbn. rewrite app_nil_r, <- app_assoc.
      reflexivity.
    + destruct (IHrest (pending ++ [t]) b Hrest Hpending1)
        as (done & pending' & Hrun & Hfits & Htext).
      rewrite Hrun. exists done, pending'. split; [reflexivity|].
      split; [assumption|].
      rewrite Htext, map_app, concat_app. cbn. rewrite app_nil_r, <- app_assoc.
      reflexivity.
Qed.

Lemma print_everything (depth : nat) : prints depth.
Proof using Hflags.
  induction depth as [|depth IH]; intros item b [Hdepth Hlocs].
  - destruct item as [t|t|n]; [destruct t|destruct t|destruct n]; cbn in Hdepth; lia.
  - pose proof Hflags as (Hsquash & Htrivia & Hskipped & Hdir & Hcomments & Hmacros
                          & Hincludes).
    destruct item as [t|t|n]; cbn [print].
    + (* a trivia *)
      destruct t as [k raw e|n e|n e|ts e]; cbn [print_trivia textOf textOfTrivia].
      * cbn [includeSkipped includeComments setBuffer].
        rewrite Hskipped, Hcomments. cbn [negb].
        destruct k; apply append_everything.
      * rewrite shouldPrintSyntax_everything.
        apply (IH (PNode n)). split.
        -- cbn in Hdepth |- *. lia.
        -- cbn in Hlocs |- *. apply Forall_app in Hlocs. apply Hlocs.
      * cbn [includeSkipped setBuffer]. rewrite Hskipped.
        apply (IH (PNode n)). split.
        -- cbn in Hdepth |- *. lia.
        -- cbn in Hlocs |- *. apply Forall_app in Hlocs. apply Hlocs.
      * cbn [includeSkipped setBuffer]. rewrite Hskipped.
        rewrite (printEach_everything depth IH).
        -- rewrite map_map. reflexivity.
        -- rewrite Forall_map. cbn in Hdepth, Hlocs.
           apply Forall_app in Hlocs. destruct Hlocs as [_ Hlocs].
           apply Forall_concat in Hlocs. rewrite Forall_map in Hlocs.
           assert (Hd : Forall (fun k => (k <= depth)%nat) (map depthOfToken ts))
             by (apply list_max_bound; lia).
           rewrite Forall_map in Hd.
           rewrite List.Forall_forall in *.
           intros x Hx. split; [exact (Hd x Hx)|exact (Hlocs x Hx)].
    + (* a token *)
      destruct t as [l text missing leading].
      cbn in Hdepth, Hlocs.
      inversion Hlocs as [|? ? Hl Hleading]; subst.
      assert (Hfits : Forall (fun t => fits depth (PTrivia t)) leading).
      { apply Forall_concat in Hleading. rewrite Forall_map in Hleading.
        assert (Hd : Forall (fun k => (k <= depth)%nat) (map depthOfTrivia leading))
          by (apply list_max_bound; lia).
        rewrite Forall_map in Hd.
        rewrite List.Forall_forall in *.
        intros x Hx. split; [exact (Hd x Hx)|exact (Hleading x Hx)]. }
      unfold print_token. cbn [location trivia rawText isMissing].
      change (shouldPrint (setBuffer p0 b) l) with (shouldPrint p0 l).
      rewrite Hl. cbn [fromSource pbind negb].
      cbn [includeTrivia setBuffer sourceManager]. rewrite Htrivia.
      assert (Htr : exists b',
                 b' = b ++ List.concat (map (textOfTrivia im) leading)
                 /\ match sourceManager p0 with
                    | Some _ =>
                      doP st <- print_pending (print getFirstToken depth) (setBuffer p0 b)
                                  leading [] in
                      printEach (print getFirstToken depth) (map PTrivia (snd st)) (fst st)
                    | None =>
                      printEach (print getFirstToken depth) (map PTrivia leading)
                        (setBuffer p0 b)
                    end = Printed (setBuffer p0 b')).
      { eexists. split; [reflexivity|].
        destruct (sourceManager p0).
        - destruct (print_pending_everything depth IH leading [] b Hfits (List.Forall_nil _))
            as (done & pending' & Hrun & Hfits' & Htext).
          rewrite Hrun. cbn [pbind fst snd].
          rewrite (printEach_everything depth IH).
          2:{ rewrite Forall_map. exact Hfits'. }
          rewrite map_map.
          change (fun x : Trivia => textOf im (PTrivia x)) with (textOfTrivia im).
          rewrite <- app_assoc, Htext. reflexivity.
        - rewrite (printEach_everything depth IH).
          2:{ rewrite Forall_map. exact Hfits. }
          rewrite map_map. reflexivity. }
      destruct Htr as (b' & Hb' & Hrun).
      rewrite Hrun. cbn [pbind includeMissing setBuffer].
      cbn [textOf textOfToken]. fold im.
      destruct (im || negb missing).
      * rewrite append_everything. rewrite Hb', <- app_assoc. reflexivity.
      * rewrite Hb', app_nil_r. reflexivity.
    + (* a node *)
      destruct n as [k cs]. unfold print_node. cbn [children].
      rewrite (printEach_everything depth IH).
      * rewrite printableChildren_text. reflexivity.
      * cbn in Hdepth, Hlocs.
        pose proof (printableChildren_depth cs depth ltac:(lia)) as Hd.
        pose proof (printableChildren_locations printable cs Hlocs) as Hl.
        rewrite List.Forall_forall in *.
        intros x Hx. split; [exact (Hd x Hx)|exact (Hl x Hx)].
Qed.

End Everything.

Lemma plain_location_printed (p : SyntaxPrinter) (sm : SourceManager) (l : SourceLocation) :
  sourceManager p = Some sm ->
  isPreprocessedLoc sm l = Ok false ->
  shouldPrint p l = Ok true.
Proof.
  intros Hsm Hplain. unfold shouldPrint. rewrite Hsm.
  unfold isPreprocessedLoc in Hplain.
  destruct (isMacroLoc sm l) as [macro|e]; cbn in *; [|discriminate].
  destruct macro; [discriminate|].
  injection Hplain as ->. reflexivity.
Qed.

(** X24. [printFile] gives back the text of a tree that has nothing
    preprocessed in it. When no token and no located trivia of the tree
    lies in a macro expansion or an included file, and the printer starts
    with comments kept and no expansion of macros or includes, the result
    is the raw text of every trivia and token of the root in document
    order (directives and skipped text included, a missing token only if
    missing tokens are included), followed by the end-of-file token with
    its trivia when the root is not a compilation unit. *)
Theorem printFile_reproduces_plain_source (getFirstToken : SyntaxNode -> Token)
    (fresh : SyntaxPrinter) (tree : SyntaxTree) (depth : nat) :
  includeComments fresh = true ->
  expandMacros fresh = false ->
  expandIncludes fresh = false ->
  Forall (fun l => isPreprocessedLoc (tree_sourceManager tree) l = Ok false)
    (locationsOfTree tree) ->
  (depthOfTree tree <= depth)%nat ->
  printFile getFirstToken depth fresh tree
  = Printed (buffer fresh ++ textOfTree (includeMissing fresh) tree).
Proof.
  intros Hcomments Hmacros Hincludes Hplain Hdepth.
  unfold printFile.
  set (p := setSquashNewlines _ false).
  assert (Hflags : printsEverything p) by (repeat split; assumption).
  assert (Hlocs : Forall (fun l => shouldPrint p l = Ok true) (locationsOfTree tree)).
  { eapply List.Forall_impl; [|exact Hplain].
    intros l Hl. exact (plain_location_printed p _ l eq_refl Hl). }
  pose proof (print_everything getFirstToken p Hflags depth) as Hprint.
  cbv zeta in Hprint.
  unfold locationsOfTree, depthOfTree, textOfTree in *.
  cbn [map List.concat] in Hlocs. apply Forall_app in Hlocs.
  destruct Hlocs as [Hroot Heof].
  apply list_max_bound in Hdepth.
  cbn [map] in Hdepth. inversion Hdepth as [|? ? Hdroot Hdeof]; subst.
  unfold print_tree.
  rewrite <- (setBuffer_same p) at 1.
  rewrite (Hprint (PNode (root tree)) (buffer p) (conj Hdroot Hroot)).
  cbn [pbind map List.concat].
  change (buffer p) with (buffer fresh).
  change (includeMissing p) with (includeMissing fresh).
  unfold eofOf in *.
  destruct (eofToken tree) as [eof|].
  - destruct (negb (SyntaxKind_eqb (kind (root tree)) CompilationUnit)).
    + cbn [map List.concat] in *. rewrite app_nil_r in *.
      inversion Hdeof as [|? ? Hdtok _]; subst.
      rewrite (Hprint (PToken eof) _ (conj Hdtok Heof)).
      cbn [pbind buffer setBuffer]. rewrite app_assoc. reflexivity.
    + cbn. rewrite !app_nil_r. reflexivity.
  - cbn. rewrite !app_nil_r. reflexivity.
Qed.

Lemma printFile_witness :
  printFile firstTokenOrEmpty 4 examplePrinter exampleTree
  = Printed (list_ascii_of_string "module m;" ++ [LF]
             ++ list_ascii_of_string "// empty" ++ [LF]
             ++ list_ascii_of_string "endmodule" ++ [LF]).
Proof.
  rewrite (printFile_reproduces_plain_source firstTokenOrEmpty examplePrinter
             exampleTree 4).
  - reflexivity.
  - reflexivity.
  - reflexivity.
  - reflexivity.
  - repeat constructor.
  - vm_compute. lia.
Defined.

(** ** Leaving tokens out *)

Lemma append_verbatim (p : SyntaxPrinter) (b text : list ascii) :
  squashNewlines p = false ->
  append (setBuffer p b) text = Printed (setBuffer p (b ++ text)).
Proof.
  intros Hsquash. unfold append. cbn [squashNewlines setBuffer]. rewrite Hsquash.
  reflexivity.
Qed.

Lemma print_pending_unlocated (print1 : printer) (p : SyntaxPrinter) :
  forall trivias pending : list Trivia,
    Forall (fun tr => getExplicitLocation tr = None) trivias ->
    print_pending print1 p trivias pending = Printed (p, pending ++ trivias).
Proof.
  induction trivias as [|t rest IH]; intros pending Hall; cbn [print_pending].
  - rewrite app_nil_r. reflexivity.
  - inversion Hall as [|? ? Ht Hrest]; subst.
    rewrite Ht. rewrite (IH _ Hrest). rewrite <- app_assoc. reflexivity.
Qed.

Lemma excluded_gives_manager (p : SyntaxPrinter) (l : SourceLocation) :
  shouldPrint p l = Ok false -> exists sm, sourceManager p = Some sm.
Proof.
  unfold shouldPrint. destruct (sourceManager p) as [sm|]; [eauto|discriminate].
Qed.

(** X25. Syntax that is excluded prints nothing. If [shouldPrint] rejects
    the location of every token of a node (tokens of a macro expansion
    while macros are not expanded, tokens of an included file while
    includes are not expanded) and the trivia of those tokens have no
    location of their own, printing the node leaves the printer as it was,
    whatever the other flags are: neither the tokens nor their trivia reach
    the buffer. *)
Theorem excluded_syntax_prints_nothing (getFirstToken : SyntaxNode -> Token)
    (p : SyntaxPrinter) (n : SyntaxNode) (depth : nat) :
  Forall (fun t => shouldPrint p (location t) = Ok false
                   /\ Forall (fun tr => getExplicitLocation tr = None) (trivia t))
    (tokensOf n) ->
  (depthOfNode n <= depth)%nat ->
  print getFirstToken depth p (PNode n) = Printed p.
Proof.
  revert n.
  induction depth as [|depth IH]; intros n Hall Hdepth.
  - destruct n; cbn in Hdepth; lia.
  - destruct n as [k cs]. cbn [print]. unfold print_node. cbn [children].
    cbn [depthOfNode] in Hdepth. apply le_S_n in Hdepth.
    apply list_max_bound in Hdepth. rewrite Forall_map in Hdepth.
    cbn [tokensOf] in Hall. apply Forall_concat in Hall. rewrite Forall_map in Hall.
    induction cs as [|c cs IHcs]; [reflexivity|].
    inversion Hall as [|? ? Hc Hcs]; subst.
    inversion Hdepth as [|? ? Hdc Hdcs]; subst.
    unfold printableChildren in *.
    destruct c as [m|t|]; cbn [flat_map app printEach].
    + rewrite (IH m Hc Hdc). cbn [pbind]. exact (IHcs Hcs Hdcs).
    + inversion Hc as [|? ? [Hexcluded Hunlocated] _]; subst.
      assert (Htoken : print getFirstToken depth p (PToken t) = Printed p).
      { destruct depth as [|depth']; [destruct t; cbn in Hdc; lia|].
        cbn [print]. unfold print_token. rewrite Hexcluded.
        cbn [fromSource pbind negb andb].
        destruct (excluded_gives_manager p _ Hexcluded) as [sm Hsm].
        rewrite Hsm.
        rewrite (print_pending_unlocated _ p _ [] Hunlocated).
        cbn [pbind fst snd].
        destruct (includeTrivia p); reflexivity. }
      rewrite Htoken. cbn [pbind]. exact (IHcs Hcs Hdcs).
    + exact (IHcs Hcs Hdcs).
Qed.

Lemma excluded_syntax_witness :
  print firstTokenOrEmpty 4 (setSourceManager examplePrinter expanded)
    (PNode exampleExpansion)
  = Printed (setSourceManager examplePrinter expanded).
Proof.
  apply (excluded_syntax_prints_nothing firstTokenOrEmpty
           (setSourceManager examplePrinter expanded) exampleExpansion 4).
  - repeat constructor.
  - vm_compute. lia.
Defined.

(** X26. Without trivia the printer gives the tokens alone. With
    [includeTrivia] and [squashNewlines] off, printing a node adds to the
    buffer the raw text of its tokens in document order, leaving out the
    tokens [shouldPrint] rejects and, unless missing tokens are included,
    the missing ones; nothing else is added. *)
Theorem tokens_alone_without_trivia (getFirstToken : SyntaxNode -> Token)
    (p : SyntaxPrinter) (keeps : Token -> bool) (n : SyntaxNode) (depth : nat) :
  includeTrivia p = false ->
  squashNewlines p = false ->
  Forall (fun t => shouldPrint p (location t) = Ok (keeps t)) (tokensOf n) ->
  (depthOfNode n <= depth)%nat ->
  print getFirstToken depth p (PNode n)
  = Printed
      (setBuffer p
         (buffer p
          ++ List.concat
               (map rawText
                  (List.filter
                     (fun t => keeps t && (includeMissing p || negb (isMissing t)))
                     (tokensOf n))))).
Proof.
  intros Htrivia Hsquash.
  rewrite <- (setBuffer_same p) at 1.
  generalize (buffer p) as b.
  revert n.
  induction depth as [|depth IH]; intros n b Hall Hdepth.
  - destruct n; cbn in Hdepth; lia.
  - destruct n as [k cs]. cbn [print]. unfold print_node. cbn [children].
    cbn [depthOfNode] in Hdepth. apply le_S_n in Hdepth.
    apply list_max_bound in Hdepth. rewrite Forall_map in Hdepth.
    cbn [tokensOf] in Hall |- *.
    apply Forall_concat in Hall. rewrite Forall_map in Hall.
    revert b.
    induction cs as [|c cs IHcs]; intros b.
    + cbn. rewrite app_nil_r. reflexivity.
    + inversion Hall as [|? ? Hc Hcs]; subst.
      inversion Hdepth as [|? ? Hdc Hdcs]; subst.
      unfold printableChildren in *.
      destruct c as [m|t|]; cbn [flat_map app printEach map List.concat].
      * rewrite (IH m b Hc Hdc). cbn [pbind].
        rewrite (IHcs Hcs Hdcs).
        rewrite List.filter_app, map_app, concat_app, app_assoc. reflexivity.
      * inversion Hc as [|? ? Hkeeps _]; subst.
        destruct depth as [|depth']; [destruct t; cbn in Hdc; lia|].
        cbn [print]. unfold print_token at 1.
        change (shouldPrint (setBuffer p b) (location t))
          with (shouldPrint p (location t)).
        rewrite Hkeeps. cbn [fromSource pbind].
        cbn [includeTrivia setBuffer includeMissing]. rewrite Htrivia.
        cbn [pbind]. rewrite negb_involutive.
        change (includeMissing (setBuffer p b)) with (includeMissing p).
        cbn [List.filter].
        destruct (keeps t && (includeMissing p || negb (isMissing t))).
        -- rewrite (append_verbatim p b _ Hsquash). cbn [pbind].
           rewrite (IHcs Hcs Hdcs).
           cbn [map List.concat app]. rewrite <- app_assoc. reflexivity.
        -- cbn [pbind]. exact (IHcs Hcs Hdcs b).
      * exact (IHcs Hcs Hdcs b).
Qed.

Lemma tokens_alone_witness :
  print firstTokenOrEmpty 5
    (setIncludeTrivia
       (setSquashNewlines (setSourceManager examplePrinter expanded) false) false)
    (PNode exampleUse)
  = Printed
      (setBuffer
         (setIncludeTrivia
            (setSquashNewlines (setSourceManager examplePrinter expanded) false) false)
         (list_ascii_of_string "x")).
Proof.
  apply (tokens_alone_without_trivia firstTokenOrEmpty
           (setIncludeTrivia
              (setSquashNewlines (setSourceManager examplePrinter expanded) false) false)
           (fun t => negb (bufferID (location t) =? 2)) exampleUse 5).
  - reflexivity.
  - reflexivity.
  - repeat constructor.
  - vm_compute. lia.
Defined.

End PrinterFacts.

(** * Facts about the common base of classes *)

Module CommonBaseFacts.
Import Numeric Types TypeFacts.

Lemma sameObject_refl (t : Ty) : sameObject t t = true.
Proof. unfold sameObject. apply Z.eqb_refl. Qed.

Lemma reachesIn_same (classInfo : Symbol -> ClassInfo) (n : nat) (a t c : Ty) :
  reachesIn classInfo n a t ->
  addr (symbol t) = addr (symbol c) ->
  reachesIn classInfo n a c.
Proof.
  intros Hreach Haddr.
  induction Hreach as [n t0 c0 Hsame|n sym base c0 Hbase Herr Hreach IH].
  - apply reaches_self. unfold sameObject in *.
    apply Z.eqb_eq in Hsame. apply Z.eqb_eq. congruence.
  - eapply reaches_base; eauto.
Qed.

Section CommonBaseSound.
Variable classInfo : Symbol -> ClassInfo.
Variable l0 r0 : Ty.

Let fromLeft (t : Ty) : Prop := exists n, reachesIn classInfo n l0 t.
Let fromRight (t : Ty) : Prop := exists n, reachesIn classInfo n r0 t.

Lemma getCommonBase_left_sound (fuel : nat) :
  forall (l : Ty) (parents : gset Z) (found : Ty + gset Z),
    (forall c n, reachesIn classInfo n l c -> fromLeft c) ->
    (forall a, a ∈ parents -> exists t, addr (symbol t) = a /\ fromLeft t) ->
    getCommonBase_left classInfo fuel l r0 parents = Ok found ->
    match found with
    | inl c => isError c = true \/ (fromLeft c /\ fromRight c)
    | inr parents' => forall a, a ∈ parents' -> exists t, addr (symbol t) = a /\ fromLeft t
    end.
Proof using Type.
  induction fuel as [|fuel IH]; intros l parents found Hl Hparents Hrun; [discriminate|].
  cbn [getCommonBase_left] in Hrun.
  destruct (sameObject l r0) eqn:Hsame.
  - injection Hrun as <-. right. split.
    + exact (Hl r0 O (reaches_self classInfo O l r0 Hsame)).
    + exists O. apply reaches_self, sameObject_refl.
  - assert (Hparents' : forall a, a ∈ {[addr (symbol l)]} ∪ parents ->
                                  exists t, addr (symbol t) = a /\ fromLeft t).
    { intros a Ha. apply elem_of_union in Ha. destruct Ha as [Ha|Ha].
      - apply elem_of_singleton in Ha. subst a. exists l. split; [reflexivity|].
        exact (Hl l O (reaches_self classInfo O l l (sameObject_refl l))).
      - exact (Hparents a Ha). }
    destruct l as [| | | | | | | | | | | | |sym| | |]; try discriminate.
    destruct (baseClass (classInfo sym)) as [base|] eqn:Hbase.
    + destruct (isError base) eqn:Herr.
      * injection Hrun as <-. left. exact Herr.
      * eapply IH; [|exact Hparents'|exact Hrun].
        intros c n Hreach.
        exact (Hl c (S n) (reaches_base classInfo n sym base c Hbase Herr Hreach)).
    + injection Hrun as <-. exact Hparents'.
Qed.

Lemma getCommonBase_right_sound (fuel : nat) :
  forall (r : Ty) (parents : gset Z) (c : Ty),
    (forall c n, reachesIn classInfo n r c -> fromRight c) ->
    (forall a, a ∈ parents -> exists t, addr (symbol t) = a /\ fromLeft t) ->
    getCommonBase_right classInfo fuel r parents = Ok (Some c) ->
    isError c = true \/ (fromLeft c /\ fromRight c).
Proof using Type.
  induction fuel as [|fuel IH]; intros r parents c Hr Hparents Hrun; [discriminate|].
  cbn [getCommonBase_right] in Hrun.
  destruct (bool_decide (addr (symbol r) ∈ parents)) eqn:Hin.
  - injection Hrun as <-. right.
    apply bool_decide_eq_true in Hin.
    destruct (Hparents _ Hin) as (t & Haddr & n & Hreach).
    split.
    + exists n. exact (reachesIn_same classInfo n l0 t r Hreach Haddr).
    + exact (Hr r O (reaches_self classInfo O r r (sameObject_refl r))).
  - destruct r as [| | | | | | | | | | | | |sym| | |]; try discriminate.
    destruct (baseClass (classInfo sym)) as [base|] eqn:Hbase; [|discriminate].
    destruct (isError base) eqn:Herr.
    + injection Hrun as <-. left. exact Herr.
    + eapply IH; [|exact Hparents|exact Hrun].
      intros c' n Hreach.
      exact (Hr c' (S n) (reaches_base classInfo n sym base c' Hbase Herr Hreach)).
Qed.

End CommonBaseSound.

Lemma getCommonBase_left_reaches (classInfo : Symbol -> ClassInfo) (r : Ty) (n : nat)
    (l : Ty) :
  reachesIn classInfo n l r ->
  forall (fuel : nat) (parents : gset Z),
    (n < fuel)%nat ->
    getCommonBase_left classInfo fuel l r parents = Ok (inl r).
Proof.
  intros Hreach.
  induction Hreach as [n t c Hsame|n sym base c Hbase Herr Hreach IH];
    intros fuel parents Hfuel.
  - destruct fuel as [|fuel]; [lia|]. cbn [getCommonBase_left]. rewrite Hsame. reflexivity.
  - destruct fuel as [|fuel]; [lia|]. cbn [getCommonBase_left].
    destruct (sameObject (Class sym) c); [reflexivity|].
    rewrite Hbase, Herr. apply IH. lia.
Qed.

(** X27. [getCommonBase] answers with a class both arguments are or derive
    from. It gives null when one of the two is not a class. A type it
    returns is an error type, or both canonical types reach it by
    following base classes. When the right class is the left one or one of
    its ancestors within the bound on the depth, the answer is the right
    class; so the common base of a class with itself is that class. *)
Theorem getCommonBase_is_common (classInfo : Symbol -> ClassInfo) (depth : nat)
    (left right : Ty) :
  (isClass left && isClass right = false ->
   getCommonBase classInfo depth left right = Ok None)
  /\ (forall c,
        getCommonBase classInfo depth left right = Ok (Some c) ->
        isError c = true
        \/ ((exists n, reachesIn classInfo n (getCanonicalType left) c)
            /\ (exists n, reachesIn classInfo n (getCanonicalType right) c)))
  /\ (forall n,
        isClass left = true -> isClass right = true ->
        reachesIn classInfo n (getCanonicalType left) (getCanonicalType right) ->
        (n < depth)%nat ->
        getCommonBase classInfo depth left right = Ok (Some (getCanonicalType right))).
Proof.
  assert (Hcanon : forall t, isClass (getCanonicalType t) = isClass t).
  { intros t. unfold isClass, isKindOf. rewrite canonical_idem. reflexivity. }
  split; [|split].
  - intros Hnot. unfold getCommonBase. rewrite !Hcanon.
    destruct (isClass left), (isClass right); try discriminate; reflexivity.
  - intros c Hrun. unfold getCommonBase in Hrun. rewrite !Hcanon in Hrun.
    destruct (negb (isClass left) || negb (isClass right)); [discriminate|].
    destruct (getCommonBase_left classInfo depth (getCanonicalType left)
                (getCanonicalType right) ∅) as [found|e] eqn:Hleft; [|discriminate].
    cbn [rbind] in Hrun.
    pose proof (getCommonBase_left_sound classInfo (getCanonicalType left)
                  (getCanonicalType right) depth (getCanonicalType left) ∅ found) as Hsound.
    cbv beta zeta in Hsound.
    assert (Hfound := Hsound (fun c n H => ex_intro _ n H)
                        ltac:(intros a Ha; set_solver) Hleft).
    destruct found as [t|parents].
    + injection Hrun as <-. exact Hfound.
    + exact (getCommonBase_right_sound classInfo (getCanonicalType left)
               (getCanonicalType right) depth (getCanonicalType right) parents c
               (fun c n H => ex_intro _ n H) Hfound Hrun).
  - intros n Hl Hr Hreach Hn. unfold getCommonBase. rewrite !Hcanon, Hl, Hr.
    cbn [negb orb].
    rewrite (getCommonBase_left_reaches classInfo _ n _ Hreach depth ∅ Hn).
    reflexivity.
Qed.

Lemma getCommonBase_witness :
  getCommonBase exampleFamily 2 classDerived classOther = Ok (Some classBase)
  /\ getCommonBase exampleFamily 2 classDerived classBase = Ok (Some classBase).
Proof.
  split; [reflexivity|].
  destruct (getCommonBase_is_common exampleFamily 2 classDerived classBase)
    as (_ & _ & Hanc).
  apply (Hanc 1%nat); [reflexivity|reflexivity| |lia].
  eapply reaches_base; [reflexivity|reflexivity|].
  apply reaches_self. reflexivity.
Defined.

End CommonBaseFacts.

(** * Facts about prototypes and imports *)

Module FactoryFacts.
Import Types Subroutines.

(** ** The qualifiers of a class method prototype *)

Lemma find_last (A : Type) (f : A -> bool) (l : list A) (x : A) :
  List.find f (l ++ [x])
  = match List.find f l with
    | Some y => Some y
    | None => if f x then Some x else None
    end.
Proof.
  induction l as [|y l IH]; cbn.
  - reflexivity.
  - destruct (f y); [reflexivity|exact IH].
Qed.

Lemma applyQualifiers_result (qualifiers : list QualifierKind) :
  forall (v : Visibility) (f : MethodFlags) (v' : Visibility) (f' : MethodFlags),
    applyQualifiers qualifiers v f = Some (v', f') ->
    v' = match List.find isVisibilityQualifier (rev qualifiers) with
         | Some LocalKeyword => VisLocal
         | Some ProtectedKeyword => VisProtected
         | _ => v
         end
    /\ (Static f' = true <-> Static f = true \/ In StaticKeyword qualifiers)
    /\ (Pure f' = true <-> Pure f = true \/ In PureKeyword qualifiers)
    /\ (Virtual f' = true <-> Virtual f = true \/ In VirtualKeyword qualifiers)
    /\ Constructor f' = Constructor f
    /\ InterfaceImport f' = InterfaceImport f
    /\ DPIImport f' = DPIImport f.
Proof.
  induction qualifiers as [|q rest IH]; intros v f v' f' Hrun.
  - cbn in Hrun. injection Hrun as <- <-. cbn. intuition.
  - cbn [applyQualifiers] in Hrun.
    cbn [rev]. rewrite find_last.
    destruct q; try discriminate;
      specialize (IH _ _ _ _ Hrun);
      destruct IH as (Hv & Hs & Hp & Hvi & Hc & Hi & Hd);
      cbn [isVisibilityQualifier withStatic withPure withVirtual Static Pure Virtual
           Constructor InterfaceImport DPIImport] in *;
      (split;
       [ rewrite Hv;
         destruct (List.find isVisibilityQualifier (rev rest)) as [y|] eqn:Hfind;
         [ apply find_some in Hfind; destruct Hfind as [_ Hy];
           destruct y; try discriminate Hy; reflexivity
         | reflexivity ]
       | repeat split; try assumption; try tauto;
         try (intros [H|[H|H]]; try discriminate H; tauto);
         try (intros [H|H]; [tauto|]; destruct H as [H|H]; [discriminate H|tauto]);
         try (cbn [In]; tauto) ]).
Qed.

Lemma applyQualifiers_throws (qualifiers : list QualifierKind) :
  forall (v : Visibility) (f : MethodFlags),
    applyQualifiers qualifiers v f = None
    <-> Exists (fun q => exists k, q = OtherToken k) qualifiers.
Proof.
  induction qualifiers as [|q rest IH]; intros v f; cbn [applyQualifiers].
  - split; [discriminate|]. intros H. inversion H.
  - destruct q;
      try (rewrite IH; split;
           [ intros H; apply Exists_cons_tl; exact H
           | intros H; inversion H as [? ? [k Hk]|? ? Hrest]; subst;
             [discriminate Hk|exact Hrest] ]).
    split; [|reflexivity]. intros _. apply Exists_cons_hd. eauto.
Qed.

(** X28. What a class method prototype gets from its qualifiers. The
    factory throws exactly when a qualifier is none of the eight keywords
    it knows. Otherwise the visibility is that of the last [local] or
    [protected] ([public] without one); the prototype is static, pure or
    virtual exactly when the keyword occurs, whatever the order, and a
    constructor exactly when its name is [new]; the return type is void for
    a task or a constructor and the declared syntax otherwise; building the
    arguments reports nothing. [PureInAbstract] is reported exactly for a
    pure prototype in a class that is neither abstract nor an interface,
    and the prototype keeps its pure flag then. *)
Theorem prototype_from_qualifiers (scope : DeclaringScope) (protoScope : Z)
    (syntax : ClassMethodPrototypeSyntax) :
  (prototypeFromSyntax scope protoScope syntax = None
   <-> Exists (fun q => exists k, q = OtherToken k) (cmp_qualifiers syntax))
  /\ (forall pureDiags argDiags proto,
        prototypeFromSyntax scope protoScope syntax
        = Some (Ok (pureDiags, argDiags, proto)) ->
        bp_visibility proto = lastVisibility (cmp_qualifiers syntax)
        /\ (Static (bp_flags proto) = true <-> In StaticKeyword (cmp_qualifiers syntax))
        /\ (Pure (bp_flags proto) = true <-> In PureKeyword (cmp_qualifiers syntax))
        /\ (Virtual (bp_flags proto) = true <-> In VirtualKeyword (cmp_qualifiers syntax))
        /\ (Constructor (bp_flags proto) = true <-> cmp_name syntax = "new"%string)
        /\ InterfaceImport (bp_flags proto) = false
        /\ DPIImport (bp_flags proto) = false
        /\ bp_returnType proto
           = (if cmp_isTask syntax || String.eqb (cmp_name syntax) "new"
              then ReturnTypeSet voidType
              else ReturnTypeSyntax (cmp_returnType syntax))
        /\ argDiags = []
        /\ pureDiags
           = (if Pure (bp_flags proto) && negb (ds_isAbstract scope)
                 && negb (ds_isInterface scope)
              then [mkPureInAbstract (ds_id scope) (cmp_location syntax)]
              else [])).
Proof.
  split.
  - unfold prototypeFromSyntax.
    rewrite <- (applyQualifiers_throws (cmp_qualifiers syntax) VisPublic noFlags).
    destruct (applyQualifiers (cmp_qualifiers syntax) VisPublic noFlags) as [[v f]|];
      split; intros H; try discriminate; reflexivity.
  - intros pureDiags argDiags proto Hrun.
    unfold prototypeFromSyntax in Hrun.
    destruct (applyQualifiers (cmp_qualifiers syntax) VisPublic noFlags) as [[v f]|] eqn:Hq;
      [|discriminate].
    destruct (applyQualifiers_result _ _ _ _ _ Hq) as (Hv & Hs & Hp & Hvi & Hc & Hi & Hd).
    cbn [noFlags Static Pure Virtual Constructor InterfaceImport DPIImport] in *.
    injection Hrun as Hrun.
    set (flags := if String.eqb (cmp_name syntax) "new" then withConstructor f else f) in *.
    assert (Hflags : Static flags = Static f /\ Pure flags = Pure f
                     /\ Virtual flags = Virtual f
                     /\ Constructor flags = String.eqb (cmp_name syntax) "new"
                     /\ InterfaceImport flags = false /\ DPIImport flags = false).
    { unfold flags. destruct (String.eqb (cmp_name syntax) "new"); cbn;
        repeat split; congruence. }
    destruct Hflags as (Hfs & Hfp & Hfv & Hfc & Hfi & Hfd).
    destruct (if Pure flags
              then ASSERT! (SymbolKind_eqb (ds_kind scope) ClassType) in
                   if negb (ds_isAbstract scope) && negb (ds_isInterface scope)
                   then Ok [mkPureInAbstract (ds_id scope) (cmp_location syntax)]
                   else Ok []
              else Ok []) as [pd|e] eqn:Hpure; [|discriminate].
    cbn [rbind] in Hrun.
    destruct (match cmp_portList syntax with
              | Some ports => buildArguments protoScope LifeAutomatic ports
              | None => Ok ([], [])
              end) as [[ad args]|e] eqn:Hbuilt; [|discriminate].
    cbn [rbind fst snd] in Hrun.
    injection Hrun as <- <- <-.
    cbn [bp_visibility bp_flags bp_returnType].
    split; [exact Hv|].
    split; [rewrite Hfs, Hs; intuition discriminate|].
    split; [rewrite Hfp, Hp; intuition discriminate|].
    split; [rewrite Hfv, Hvi; intuition discriminate|].
    split; [rewrite Hfc; apply String.eqb_eq|].
    split; [exact Hfi|]. split; [exact Hfd|].
    split.
    { rewrite Hfc. destruct (cmp_isTask syntax);
        destruct (String.eqb (cmp_name syntax) "new"); reflexivity. }
    split.
    { destruct (cmp_portList syntax) as [ports|].
      - destruct (PrototypeFacts.buildArguments_loop_rules protoScope LifeAutomatic
                    ports None DirIn ad args Hbuilt) as (_ & _ & Hauto & _).
        exact (Hauto eq_refl).
      - injection Hbuilt as <- <-. reflexivity. }
    destruct (Pure flags).
    + unfold ASSERT in Hpure.
      destruct (SymbolKind_eqb (ds_kind scope) ClassType); [|discriminate].
      cbn [rbind andb] in Hpure |- *.
      destruct (negb (ds_isAbstract scope) && negb (ds_isInterface scope));
        injection Hpure as <-; reflexivity.
    + injection Hpure as <-. reflexivity.
Qed.

Lemma prototype_witness :
  exists proto,
    prototypeFromSyntax (mkDeclaringScope 60 ClassType false false) 95
      examplePrototypeSyntax
    = Some (Ok ([mkPureInAbstract 60 90], [], proto))
    /\ bp_visibility proto = VisProtected
    /\ Pure (bp_flags proto) = true.
Proof.
  eexists. split; [reflexivity|].
  destruct (prototype_from_qualifiers (mkDeclaringScope 60 ClassType false false) 95
              examplePrototypeSyntax) as [_ Hparts].
  destruct (Hparts _ _ _ eq_refl) as (Hv & _ & Hp & _).
  split; [exact Hv|]. apply Hp. cbn. auto.
Defined.

(** ** DPI imports *)

Lemma checkDPIArguments_codes (parent : Z) (isPure : bool) (args : list BuiltArgument) :
  forall pureError : bool,
    withCode DPIRefArg (checkDPIArguments parent isPure pureError args)
    = map (fun a => mkDPIDiag DPIRefArg parent (built_location a)) (List.filter isRef args)
    /\ withCode DPIPureArg (checkDPIArguments parent isPure pureError args)
       = (if isPure && negb pureError
          then match List.find isOutput args with
               | Some a => [mkDPIDiag DPIPureArg parent (built_location a)]
               | None => []
               end
          else [])
    /\ withCode DPISpecDisallowed (checkDPIArguments parent isPure pureError args) = []
    /\ Forall (fun d => dpi_scope d = parent)
         (checkDPIArguments parent isPure pureError args).
Proof.
  induction args as [|arg rest IH]; intros pureError.
  - cbn. destruct (isPure && negb pureError); repeat split; constructor.
  - cbn [checkDPIArguments List.filter List.find].
    unfold isRef at 1, isOutput at 1.
    destruct (built_direction arg) eqn:Hdir; cbn [ArgumentDirection_eqb orb].
    + exact (IH pureError).
    + destruct (isPure && negb pureError) eqn:Hfirst.
      * destruct (IH true) as (Href & Hpure & Hspec & Hscope).
        unfold withCode in *. cbn [List.filter dpi_code DPIDiagCode_eqb].
        rewrite Href, Hpure, Hspec, andb_false_r.
        repeat split. constructor; [reflexivity|exact Hscope].
      * destruct (IH pureError) as (Href & Hpure & Hspec & Hscope).
        rewrite Hfirst in Hpure. repeat split; assumption.
    + destruct (isPure && negb pureError) eqn:Hfirst.
      * destruct (IH true) as (Href & Hpure & Hspec & Hscope).
        unfold withCode in *. cbn [List.filter dpi_code DPIDiagCode_eqb].
        rewrite Href, Hpure, Hspec, andb_false_r.
        repeat split. constructor; [reflexivity|exact Hscope].
      * destruct (IH pureError) as (Href & Hpure & Hspec & Hscope).
        rewrite Hfirst in Hpure. repeat split; assumption.
    + destruct (IH pureError) as (Href & Hpure & Hspec & Hscope).
      unfold withCode in *. cbn [List.filter dpi_code DPIDiagCode_eqb map].
      rewrite Href, Hpure, Hspec.
      repeat split. constructor; [reflexivity|exact Hscope].
Qed.

(** X29. The diagnostics of a DPI import. All of them go to the parent
    scope. [DPIRefArg] is reported once for every [ref] argument, at that
    argument, in the order of the arguments. [DPIPureArg] is reported at
    most once: for a pure import with an [output] or [inout] argument, at
    the first such argument, and never otherwise. [DPISpecDisallowed] is
    reported exactly when the spec string is [DPI]. Building the arguments
    reports nothing. The subroutine is an automatic DPI import, pure or
    context as the property says, and an imported task returns [int]. *)
Theorem dpi_import_diagnostics (parent subScope specRange : Z) (syntax : DPIImportSyntax)
    (diags : list DPIDiagnostic) (argDiags : list Diagnostic) (sub : DPISubroutine) :
  dpiFromSyntax parent subScope specRange syntax = Ok (diags, argDiags, sub) ->
  argDiags = []
  /\ Forall (fun d => dpi_scope d = parent) diags
  /\ withCode DPISpecDisallowed diags
     = (if String.eqb (dpi_specString syntax) "DPI"
        then [mkDPIDiag DPISpecDisallowed parent specRange]
        else [])
  /\ withCode DPIRefArg diags
     = map (fun a => mkDPIDiag DPIRefArg parent (built_location a))
         (List.filter isRef (imp_arguments sub))
  /\ withCode DPIPureArg diags
     = match dpi_property syntax, List.find isOutput (imp_arguments sub) with
       | PropertyPure, Some a => [mkDPIDiag DPIPureArg parent (built_location a)]
       | _, _ => []
       end
  /\ DPIImport (imp_flags sub) = true
  /\ (Pure (imp_flags sub) = true <-> dpi_property syntax = PropertyPure)
  /\ (imp_context sub = true <-> dpi_property syntax = PropertyContext)
  /\ imp_lifetime sub = LifeAutomatic
  /\ imp_returnType sub
     = (if dpi_isTask syntax then ReturnTypeSet intT
        else ReturnTypeSyntax (dpi_returnType syntax)).
Proof.
  intros Hrun. unfold dpiFromSyntax in Hrun.
  destruct (match dpi_portList syntax with
            | Some ports => buildArguments subScope LifeAutomatic ports
            | None => Ok ([], [])
            end) as [[ad args]|e] eqn:Hbuilt; [|discriminate].
  cbn [rbind fst snd] in Hrun. injection Hrun as <- <- <-.
  cbn [imp_arguments imp_flags imp_context imp_lifetime imp_returnType].
  set (isPure := match dpi_property syntax with
                 | PropertyPure => true
                 | _ => false
                 end).
  destruct (checkDPIArguments_codes parent isPure args false)
    as (Href & Hpure & Hspec & Hscope).
  split.
  { destruct (dpi_portList syntax) as [ports|].
    - destruct (PrototypeFacts.buildArguments_loop_rules subScope LifeAutomatic
                  ports None DirIn ad args Hbuilt) as (_ & _ & Hauto & _).
      exact (Hauto eq_refl).
    - injection Hbuilt as <- <-. reflexivity. }
  split.
  { apply Forall_app. split; [|exact Hscope].
    destruct (String.eqb (dpi_specString syntax) "DPI"); repeat constructor. }
  unfold withCode in *.
  rewrite !List.filter_app, Href, Hpure, Hspec.
  split.
  { destruct (String.eqb (dpi_specString syntax) "DPI"); reflexivity. }
  split.
  { destruct (String.eqb (dpi_specString syntax) "DPI"); reflexivity. }
  split.
  { unfold isPure.
    destruct (String.eqb (dpi_specString syntax) "DPI");
      destruct (dpi_property syntax); cbn; try reflexivity;
      destruct (List.find isOutput args); reflexivity. }
  split; [destruct (dpi_property syntax); reflexivity|].
  split; [destruct (dpi_property syntax); cbn; intuition discriminate|].
  split; [destruct (dpi_property syntax); cbn; intuition discriminate|].
  split; [reflexivity|].
  destruct (dpi_isTask syntax); reflexivity.
Qed.

Lemma dpi_import_witness :
  exists sub,
    dpiFromSyntax 1 2 3 exampleImport
    = Ok ([mkDPIDiag DPIPureArg 1 102; mkDPIDiag DPIRefArg 1 104], [], sub)
    /\ withCode DPIPureArg [mkDPIDiag DPIPureArg 1 102; mkDPIDiag DPIRefArg 1 104]
       = [mkDPIDiag DPIPureArg 1 102].
Proof.
  eexists. split; [reflexivity|].
  destruct (dpi_import_diagnostics 1 2 3 exampleImport _ _ _ eq_refl)
    as (_ & _ & _ & _ & Hpure & _).
  exact Hpure.
Defined.

End FactoryFacts.
